(** * tralloc: a binary-tree based memory allocator

    A shallow embedding of [tralloc.c] and the verification of its
    boundary-tag heap and of its intrusive, size-keyed free tree.

    The C program is modelled over an explicit machine state: a memory of
    word cells addressed by 64-bit addresses, the allocator's global
    variables, and the program break managed by [sbrk].  Every
    [size_t]/pointer computation is written with its wrap-around modulo
    [2^64].  Recursive C functions take a fuel argument and return [None]
    when it runs out; the theorems give fuel bounds under which they
    return. *)

From Stdlib Require Import ZArith List Bool Lia Permutation.
From Stdlib Require String.
Import ListNotations.
Import String.StringSyntax.
Local Open Scope Z_scope.
Delimit Scope string_scope with string.

(** ** Machine integers (LP64) *)

Definition modulus : Z := 18446744073709551616.

Definition wrap (x : Z) : Z := x mod modulus.

Definition NULL : Z := 0.

(** [sizeof] of the C types on an LP64 target, and the offsets of the
    struct members. [header] is [{size_t size; bool in_use}], [node] is
    three pointers, [footer] is one [size_t]. *)
Definition sizeof_intptr : Z := 8.
Definition sizeof_header : Z := 16.
Definition sizeof_node : Z := 24.
Definition sizeof_footer : Z := 8.

(** ** The machine state *)

(** [mem] maps the address of a scalar struct member to its value: one cell
    per member, addressed by the member's first byte.  [bool] cells hold 0
    or 1.  [brk], [brk_limit] and [sbrk_log] are the operating system's side:
    the current program break, the highest break the system grants, and the
    trace of [sbrk] calls made so far (argument, result), newest first. *)
Record state : Type := mkState {
  mem : Z -> Z;
  fake_root : Z;
  first_chunk : Z;
  guard_addr : Z;
  header_pad : Z;
  footer_pad : Z;
  node_pad : Z;
  equals_alternator : bool;
  succ_pred_alternator : bool;
  brk : Z;
  brk_limit : Z;
  sbrk_log : list (Z * Z)
}.

Abbreviation load s a := (mem s a) (only parsing).

Definition store (a v : Z) (s : state) : state :=
  mkState (fun x => if x =? a then v else mem s x)
          (fake_root s) (first_chunk s) (guard_addr s)
          (header_pad s) (footer_pad s) (node_pad s)
          (equals_alternator s) (succ_pred_alternator s)
          (brk s) (brk_limit s) (sbrk_log s).

Definition set_fake_root (v : Z) (s : state) : state :=
  mkState (mem s) v (first_chunk s) (guard_addr s)
          (header_pad s) (footer_pad s) (node_pad s)
          (equals_alternator s) (succ_pred_alternator s)
          (brk s) (brk_limit s) (sbrk_log s).

Definition set_first_chunk (v : Z) (s : state) : state :=
  mkState (mem s) (fake_root s) v (guard_addr s)
          (header_pad s) (footer_pad s) (node_pad s)
          (equals_alternator s) (succ_pred_alternator s)
          (brk s) (brk_limit s) (sbrk_log s).

Definition set_guard_addr (v : Z) (s : state) : state :=
  mkState (mem s) (fake_root s) (first_chunk s) v
          (header_pad s) (footer_pad s) (node_pad s)
          (equals_alternator s) (succ_pred_alternator s)
          (brk s) (brk_limit s) (sbrk_log s).

Definition set_header_pad (v : Z) (s : state) : state :=
  mkState (mem s) (fake_root s) (first_chunk s) (guard_addr s)
          v (footer_pad s) (node_pad s)
          (equals_alternator s) (succ_pred_alternator s)
          (brk s) (brk_limit s) (sbrk_log s).

Definition set_footer_pad (v : Z) (s : state) : state :=
  mkState (mem s) (fake_root s) (first_chunk s) (guard_addr s)
          (header_pad s) v (node_pad s)
          (equals_alternator s) (succ_pred_alternator s)
          (brk s) (brk_limit s) (sbrk_log s).

Definition set_node_pad (v : Z) (s : state) : state :=
  mkState (mem s) (fake_root s) (first_chunk s) (guard_addr s)
          (header_pad s) (footer_pad s) v
          (equals_alternator s) (succ_pred_alternator s)
          (brk s) (brk_limit s) (sbrk_log s).

Definition set_equals_alternator (v : bool) (s : state) : state :=
  mkState (mem s) (fake_root s) (first_chunk s) (guard_addr s)
          (header_pad s) (footer_pad s) (node_pad s)
          v (succ_pred_alternator s)
          (brk s) (brk_limit s) (sbrk_log s).

Definition set_succ_pred_alternator (v : bool) (s : state) : state :=
  mkState (mem s) (fake_root s) (first_chunk s) (guard_addr s)
          (header_pad s) (footer_pad s) (node_pad s)
          (equals_alternator s) v
          (brk s) (brk_limit s) (sbrk_log s).

(** ** The operating system's [sbrk]

    [sbrk(increment)] takes an [intptr_t]: the argument is read as a signed
    number.  On success it moves the break and returns the previous one; when
    the new break would leave [0 .. brk_limit] it returns [(void * ) -1] and
    leaves the break alone.  Either way the call is recorded in the trace. *)
Definition sbrk_failure : Z := modulus - 1.

Definition to_signed (x : Z) : Z :=
  if x <? 9223372036854775808 then x else x - modulus.

Definition sbrk (increment : Z) (s : state) : Z * state :=
  let new_brk := brk s + to_signed increment in
  let ok := (0 <=? new_brk) && (new_brk <=? brk_limit s) in
  let result := if ok then brk s else sbrk_failure in
  (result,
   mkState (mem s) (fake_root s) (first_chunk s) (guard_addr s)
           (header_pad s) (footer_pad s) (node_pad s)
           (equals_alternator s) (succ_pred_alternator s)
           (if ok then new_brk else brk s) (brk_limit s)
           ((increment, result) :: sbrk_log s)).

(** ** Chunk layout: fixed-offset pointer translations *)

(** [ceil_size]: round [input] up to a multiple of [offset]. *)
Definition ceil_size (input offset : Z) : Z :=
  if negb (input mod offset =? 0)
  then wrap (input - input mod offset + offset)
  else input.

Definition header_to_node (s : state) (input : Z) : Z :=
  wrap (input + header_pad s).

Definition header_to_footer (s : state) (input : Z) : Z :=
  wrap (input + header_pad s + load s input).

Definition node_to_header (s : state) (input : Z) : Z :=
  wrap (input - header_pad s).

Definition node_to_footer (s : state) (input : Z) : Z :=
  wrap (input + load s (node_to_header s input)).

Definition footer_to_header (s : state) (input : Z) : Z :=
  wrap (input - load s input - header_pad s).

Definition footer_to_node (s : state) (input : Z) : Z :=
  wrap (input - load s input).

(** Addresses of the members of a [header] and of a [node]. *)
Definition size_of (h : Z) : Z := h.
Definition in_use_of (h : Z) : Z := wrap (h + 8).
Definition parent_of (n : Z) : Z := n.
Definition left_of (n : Z) : Z := wrap (n + 8).
Definition right_of (n : Z) : Z := wrap (n + 16).

(** ** The free-chunk tree *)

Notation "'do' x <- e1 ; e2" :=
  (match e1 with Some x => e2 | None => None end)
  (at level 10, x pattern, e1 at level 100, e2 at level 200).

Fixpoint find_largest (fuel : nat) (tree : Z) (s : state) : option Z :=
  match fuel with
  | O => None
  | S k =>
      let tree_node := header_to_node s tree in
      if load s (right_of tree_node) =? NULL then Some tree
      else find_largest k (load s (right_of tree_node)) s
  end.

Fixpoint find_smallest (fuel : nat) (tree : Z) (s : state) : option Z :=
  match fuel with
  | O => None
  | S k =>
      let tree_node := header_to_node s tree in
      if load s (left_of tree_node) =? NULL then Some tree
      else find_smallest k (load s (left_of tree_node)) s
  end.

Definition find_replacement (fuel : nat) (tree : Z) (s : state)
  : option (Z * state) :=
  let tree_node := header_to_node s tree in
  let s1 := set_succ_pred_alternator (negb (succ_pred_alternator s)) s in
  if succ_pred_alternator s1
  then do r <- find_largest fuel (load s1 (left_of tree_node)) s1; Some (r, s1)
  else do r <- find_smallest fuel (load s1 (right_of tree_node)) s1; Some (r, s1).

Fixpoint remove_chunk (fuel : nat) (to_remove : Z) (s : state)
  : option state :=
  match fuel with
  | O => None
  | S k =>
      let to_remove_node := header_to_node s to_remove in
      let parent_node :=
        header_to_node s (load s (parent_of to_remove_node)) in
      let parents_child_member :=
        if load s (left_of parent_node) =? to_remove
        then left_of parent_node else right_of parent_node in
      if negb (load s (left_of to_remove_node) =? NULL) then
        if negb (load s (right_of to_remove_node) =? NULL) then
          do (replacement, s1) <- find_replacement k to_remove s;
          let replacement_node := header_to_node s1 replacement in
          do s2 <- remove_chunk k replacement s1;
          let s3 := store (parent_of replacement_node)
                          (load s2 (parent_of to_remove_node)) s2 in
          let s4 := store (left_of replacement_node)
                          (load s3 (left_of to_remove_node)) s3 in
          let s5 := store (right_of replacement_node)
                          (load s4 (right_of to_remove_node)) s4 in
          let s6 := store parents_child_member replacement s5 in
          let s7 :=
            if negb (load s6 (right_of to_remove_node) =? NULL)
            then store (parent_of (header_to_node s6
                          (load s6 (right_of to_remove_node))))
                       replacement s6
            else s6 in
          let s8 :=
            if negb (load s7 (left_of to_remove_node) =? NULL)
            then store (parent_of (header_to_node s7
                          (load s7 (left_of to_remove_node))))
                       replacement s7
            else s7 in
          Some s8
        else
          let s1 := store parents_child_member
                          (load s (left_of to_remove_node)) s in
          Some (store (parent_of (header_to_node s1
                         (load s1 (left_of to_remove_node))))
                      (load s1 (parent_of to_remove_node)) s1)
      else
        if negb (load s (right_of to_remove_node) =? NULL) then
          let s1 := store parents_child_member
                          (load s (right_of to_remove_node)) s in
          Some (store (parent_of (header_to_node s1
                         (load s1 (right_of to_remove_node))))
                      (load s1 (parent_of to_remove_node)) s1)
        else
          Some (store parents_child_member NULL s)
  end.

Fixpoint remove_chunk_by_size (fuel : nat) (tree size : Z) (s : state)
  : option (Z * state) :=
  match fuel with
  | O => None
  | S k =>
      if tree =? NULL then Some (NULL, s)
      else
        let tree_node := header_to_node s tree in
        if load s (size_of tree) <? size
        then remove_chunk_by_size k (load s (right_of tree_node)) size s
        else do s1 <- remove_chunk k tree s; Some (tree, s1)
  end.

Fixpoint add_chunk (fuel : nat) (tree to_add parent_chunk : Z) (s : state)
  : option (Z * state) :=
  match fuel with
  | O => None
  | S k =>
      let tree_node := header_to_node s tree in
      if tree =? NULL then
        let s1 := store (in_use_of to_add) 0 s in
        let to_add_node := header_to_node s1 to_add in
        let s2 := store (left_of to_add_node) NULL s1 in
        let s3 := store (right_of to_add_node) NULL s2 in
        let s4 := store (parent_of to_add_node) parent_chunk s3 in
        Some (to_add, s4)
      else if load s (size_of to_add) <? load s (size_of tree) then
        do (r, s1) <- add_chunk k (load s (left_of tree_node)) to_add tree s;
        Some (tree, store (left_of tree_node) r s1)
      else if load s (size_of to_add) >? load s (size_of tree) then
        do (r, s1) <- add_chunk k (load s (right_of tree_node)) to_add tree s;
        Some (tree, store (right_of tree_node) r s1)
      else
        do s2 <-
          (if equals_alternator s
           then do (r, s1) <-
                     add_chunk k (load s (left_of tree_node)) to_add tree s;
                Some (store (left_of tree_node) r s1)
           else do (r, s1) <-
                     add_chunk k (load s (right_of tree_node)) to_add tree s;
                Some (store (right_of tree_node) r s1));
        Some (tree, set_equals_alternator (negb (equals_alternator s2)) s2)
  end.

(** ** The allocator engine *)

(** Lines 90-104 of [tralloc]: lazy initialisation of the padding constants
    and of the sentinel root. *)
Definition tralloc_init (s : state) : state :=
  let s := if header_pad s =? 0
           then set_header_pad (ceil_size sizeof_header sizeof_intptr) s
           else s in
  let s := if footer_pad s =? 0
           then set_footer_pad (ceil_size sizeof_footer sizeof_intptr) s
           else s in
  let s := if node_pad s =? 0
           then set_node_pad (ceil_size sizeof_node sizeof_intptr) s
           else s in
  if fake_root s =? NULL then
    let '(p, s) := sbrk (wrap (header_pad s + node_pad s)) s in
    let s := set_fake_root p s in
    let s := store (size_of (fake_root s)) 0 s in
    let s := store (in_use_of (fake_root s)) 0 s in
    let fake_root_node := header_to_node s (fake_root s) in
    let s := store (parent_of fake_root_node) NULL s in
    let s := store (left_of fake_root_node) NULL s in
    store (right_of fake_root_node) NULL s
  else s.

(** Lines 106-108: the effective chunk size of a request. *)
Definition request_size (s : state) (size : Z) : Z :=
  let size := ceil_size size sizeof_intptr in
  if size <? node_pad s then node_pad s else size.

(** Lines 130-131: mark the chunk in use and hand out its payload. *)
Definition hand_out (found : Z) (s : state) : Z * state :=
  let s := store (in_use_of found) 1 s in
  (header_to_node s found, s).

(** Lines 113-117: no free chunk fits; a new chunk is made at the program
    break.  The result of [sbrk] is used as it comes. *)
Definition grow (size : Z) (s : state) : Z * state :=
  let '(found, s) := sbrk (wrap (header_pad s + size + footer_pad s)) s in
  let s := if first_chunk s =? NULL then set_first_chunk found s else s in
  let s := set_guard_addr
             (wrap (found + header_pad s + size + footer_pad s)) s in
  let s := store (size_of found) size s in
  let s := store (header_to_footer s found) size s in
  (found, s).

(** Lines 121-128: the chunk [found] is divided; the part behind the first
    [size] bytes becomes a free chunk of its own. *)
Definition split (fuel : nat) (size found : Z) (s : state) : option state :=
  let dividend := wrap (found + header_pad s + size + footer_pad s) in
  let s := store (size_of dividend)
                 (wrap (load s (size_of found) - size
                        - footer_pad s - header_pad s)) s in
  let s := store (in_use_of dividend) 0 s in
  let s := store (header_to_footer s dividend)
                 (load s (size_of dividend)) s in
  do (r, s) <- add_chunk fuel (fake_root s) dividend NULL s;
  let s := set_fake_root r s in
  let s := store (size_of found) size s in
  let s := store (header_to_footer s found) size s in
  Some s.

(** Line 119: the test that decides on a split. *)
Definition divisible (size found : Z) (s : state) : bool :=
  load s (size_of found)
  >=? wrap (size + footer_pad s + header_pad s + node_pad s).

(** Lines 110-131 of [tralloc]. *)
Definition tralloc_body (fuel : nat) (size : Z) (s : state)
  : option (Z * state) :=
  do (found, s) <- remove_chunk_by_size fuel (fake_root s) size s;
  if found =? NULL then
    let '(found, s) := grow size s in
    Some (hand_out found s)
  else if divisible size found s then
    do s <- split fuel size found s;
    Some (hand_out found s)
  else
    Some (hand_out found s).

Definition tralloc (fuel : nat) (size : Z) (s : state)
  : option (Z * state) :=
  let s := tralloc_init s in
  tralloc_body fuel (request_size s size) s.

(** Lines 137-148 of [trfree]: coalescing with the physical predecessor.
    Returns the (possibly reassigned) [to_free_chunk]. *)
Definition merge_prev (fuel : nat) (to_free_chunk : Z) (s : state)
  : option (Z * state) :=
  if negb (to_free_chunk =? first_chunk s) then
    let concat_candidate :=
      footer_to_header s (wrap (to_free_chunk - footer_pad s)) in
    if load s (in_use_of concat_candidate) =? 0 then
      do s <- remove_chunk fuel concat_candidate s;
      let s := store (size_of concat_candidate)
                     (wrap (load s (size_of concat_candidate)
                            + (footer_pad s + header_pad s
                               + load s (size_of to_free_chunk)))) s in
      let s := store (header_to_footer s concat_candidate)
                     (load s (size_of concat_candidate)) s in
      Some (concat_candidate, s)
    else Some (to_free_chunk, s)
  else Some (to_free_chunk, s).

(** Lines 149-158 of [trfree]: coalescing with the physical successor. *)
Definition merge_next (fuel : nat) (to_free_chunk : Z) (s : state)
  : option state :=
  if negb (wrap (header_to_footer s to_free_chunk + footer_pad s)
           =? guard_addr s) then
    let concat_candidate :=
      wrap (header_to_footer s to_free_chunk + footer_pad s) in
    if load s (in_use_of concat_candidate) =? 0 then
      do s <- remove_chunk fuel concat_candidate s;
      let s := store (size_of to_free_chunk)
                     (wrap (load s (size_of to_free_chunk)
                            + (footer_pad s + header_pad s
                               + load s (size_of concat_candidate)))) s in
      let s := store (header_to_footer s to_free_chunk)
                     (load s (size_of to_free_chunk)) s in
      Some s
    else Some s
  else Some s.

Definition trfree (fuel : nat) (to_free : Z) (s : state) : option state :=
  let to_free_chunk := node_to_header s to_free in
  do (to_free_chunk, s) <- merge_prev fuel to_free_chunk s;
  do s <- merge_next fuel to_free_chunk s;
  let s := store (in_use_of to_free_chunk) 0 s in
  do (r, s) <- add_chunk fuel (fake_root s) to_free_chunk NULL s;
  Some (set_fake_root r s).

(** ** The physical chunk chain

    The traversal of [traudit] (lines 268-289): from [first_chunk], step over
    header, payload and footer until the end of a chunk is [guard_addr].
    Returns the addresses of the chunk headers in address order. *)
Fixpoint chunk_chain (fuel : nat) (cur : Z) (s : state) : option (list Z) :=
  match fuel with
  | O => None
  | S k =>
      let cur_footer := header_to_footer s cur in
      if wrap (header_to_footer s cur + footer_pad s) =? guard_addr s
      then Some [cur]
      else do rest <- chunk_chain k (wrap (cur_footer + footer_pad s)) s;
           Some (cur :: rest)
  end.

Definition heap_chunks (fuel : nat) (s : state) : option (list Z) :=
  if negb (negb (first_chunk s =? NULL) && negb (guard_addr s =? NULL))
  then Some []
  else chunk_chain fuel (first_chunk s) s.

(** The state of a freshly started process: all globals zero, break at
    [brk0]. *)
Definition initial_state (m0 : Z -> Z) (brk0 limit : Z) : state :=
  mkState m0 NULL NULL NULL 0 0 0 false false brk0 limit [].

(** ** The tree dump of [traudit] (lines 294-323) *)

(** What the dump does to its stream: calls of [fprintf], with the format
    string as the source spells it and the values of the arguments, and
    calls of [fflush]. *)
Inductive output : Type :=
| Fprintf (format : String.string) (args : list Z)
| Fflush.

Definition INT_MIN : Z := -2147483648.
Definition INT_MAX : Z := 2147483647.

(** Lines 320-323: [depth * 4] spaces, one call each.  The product is
    computed in [int]; outside its range the behaviour is undefined. *)
Definition fprint_depth_padding (depth : Z) : option (list output) :=
  if (INT_MIN <=? depth * 4) && (depth * 4 <=? INT_MAX)
  then Some (repeat (Fprintf " "%string []) (Z.to_nat (depth * 4)))
  else None.

(** One line of the dump: the padding, then the text. *)
Definition padded (depth : Z) (format : String.string) (args : list Z)
  : option (list output) :=
  do pad <- fprint_depth_padding depth;
  Some (pad ++ [Fprintf format args]).

(** Lines 294-318.  A [depth + 1] beyond [int] makes the padding of the
    recursive call undefined. *)
Fixpoint fprint_tree (fuel : nat) (tree depth : Z) (s : state)
  : option (list output) :=
  match fuel with
  | O => None
  | S k =>
      if tree =? NULL then
        do l <- padded depth "NULL\n"%string [];
        Some (Fflush :: l)
      else
        let tree_node := header_to_node s tree in
        do l1 <- padded depth "(chunk: %p,\n"%string [tree];
        do l2 <- padded depth "chunk->size: %lu,\n"%string [load s (size_of tree)];
        do l3 <- padded depth "chunk->in_use: %u,\n"%string
                   [load s (in_use_of tree)];
        do l4 <- padded depth "chunk_node->parent: %p,\n"%string
                   [load s (parent_of tree_node)];
        do l5 <- padded depth "chunk_node->left:\n"%string [];
        do below_left <- fprint_tree k (load s (left_of tree_node)) (depth + 1) s;
        do l6 <- padded depth "chunk_node->right:\n"%string [];
        do below_right <- fprint_tree k (load s (right_of tree_node)) (depth + 1) s;
        do l7 <- padded depth ")\n"%string [];
        Some (Fflush :: l1 ++ l2 ++ l3 ++ l4 ++ l5 ++ below_left ++ l6
                ++ below_right ++ l7)
  end.

(** ** The report of [traudit] (lines 260-292) *)





(** * Specification vocabulary

    The abstract tree and heap that the program is verified against, the
    relations that describe what each operation does, and the concrete runs
    used as examples. *)

(** ** Relations between states *)

(** [s'] differs from [s] in memory and in the alternators at most. *)
Definition same_globals (s s' : state) : Prop :=
  fake_root s' = fake_root s /\ first_chunk s' = first_chunk s /\
  guard_addr s' = guard_addr s /\ header_pad s' = header_pad s /\
  footer_pad s' = footer_pad s /\ node_pad s' = node_pad s /\
  brk s' = brk s /\ brk_limit s' = brk_limit s /\ sbrk_log s' = sbrk_log s.

(** ** The abstract free tree *)

(** A tree of chunk headers: left subtree, header address, size, right
    subtree. *)
Inductive tree : Type :=
| E : tree
| T : tree -> Z -> Z -> tree -> tree.

Definition root_addr (t : tree) : Z :=
  match t with E => NULL | T _ a _ _ => a end.

Fixpoint nodes (t : tree) : list (Z * Z) :=
  match t with
  | E => []
  | T l a sz r => (a, sz) :: nodes l ++ nodes r
  end.

Definition addrs (t : tree) : list Z := map fst (nodes t).

Fixpoint height (t : tree) : nat :=
  match t with
  | E => O
  | T l _ _ r => S (Nat.max (height l) (height r))
  end.

(** [rep m t par]: memory [m] holds the tree [t], whose root's [parent]
    member is [par].  A chunk header at [a] has its [size] at [a]; its node
    lies [header_pad = 16] bytes further, with [parent], [left], [right] at
    [a+16], [a+24], [a+32]. *)
Fixpoint rep (m : Z -> Z) (t : tree) (par : Z) : Prop :=
  match t with
  | E => True
  | T l a sz r =>
      m a = sz /\ m (a + 16) = par /\
      m (a + 24) = root_addr l /\ m (a + 32) = root_addr r /\
      rep m l a /\ rep m r a
  end.

(** Non-strict search-tree order on sizes. *)
Fixpoint bst (t : tree) : Prop :=
  match t with
  | E => True
  | T l a sz r =>
      (forall n, In n (nodes l) -> snd n <= sz) /\
      (forall n, In n (nodes r) -> sz <= snd n) /\
      bst l /\ bst r
  end.

(** Node addresses are usable: non-null, in range, and two distinct nodes
    lie at least 40 bytes apart (a header and a node never overlap). *)
Definition apart (a b : Z) : Prop := a + 40 <= b \/ b + 40 <= a.

Definition in_range (a : Z) : Prop := 0 < a /\ a + 40 <= modulus.

Definition good (l : list Z) : Prop :=
  NoDup l /\ (forall a, In a l -> in_range a) /\
  (forall a b, In a l -> In b l -> a <> b -> apart a b).

(** The cells of the [node] members of the chunks in [l]. *)
Definition link_cell (l : list Z) (c : Z) : Prop :=
  exists a, In a l /\ (c = a + 16 \/ c = a + 24 \/ c = a + 32).

(** Largest / smallest node of a non-empty tree and the tree without it. *)
Fixpoint t_max (t : tree) : Z * Z :=
  match t with
  | E => (NULL, 0)
  | T _ a sz E => (a, sz)
  | T _ _ _ r => t_max r
  end.

Fixpoint remove_max (t : tree) : tree :=
  match t with
  | E => E
  | T l _ _ E => l
  | T l a sz r => T l a sz (remove_max r)
  end.

Fixpoint t_min (t : tree) : Z * Z :=
  match t with
  | E => (NULL, 0)
  | T E a sz _ => (a, sz)
  | T l _ _ _ => t_min l
  end.

Fixpoint remove_min (t : tree) : tree :=
  match t with
  | E => E
  | T E _ _ r => r
  | T l a sz r => T (remove_min l) a sz r
  end.

Definition is_E (t : tree) : bool :=
  match t with E => true | _ => false end.

(** Deleting the root of a subtree; [alt] is [succ_pred_alternator] after
    its flip: [true] takes the predecessor, [false] the successor. *)
Definition del_root (alt : bool) (t : tree) : tree :=
  match t with
  | E => E
  | T l a sz r =>
      if is_E l then r
      else if is_E r then l
      else if alt
           then T (remove_max l) (fst (t_max l)) (snd (t_max l)) r
           else T l (fst (t_min r)) (snd (t_min r)) (remove_min r)
  end.

Fixpoint del (alt : bool) (x : Z) (t : tree) : tree :=
  match t with
  | E => E
  | T l a sz r =>
      if a =? x then del_root alt (T l a sz r)
      else T (del alt x l) a sz (del alt x r)
  end.

(** Does node [x] of [t] have two children? *)
Fixpoint two_children (x : Z) (t : tree) : bool :=
  match t with
  | E => false
  | T l a _ r =>
      if a =? x then negb (is_E l) && negb (is_E r)
      else two_children x l || two_children x r
  end.

(** Insertion; [alt] is [equals_alternator] when the call starts. *)
Fixpoint ins (alt : bool) (x xsz : Z) (t : tree) : tree :=
  match t with
  | E => T E x xsz E
  | T l a sz r =>
      if xsz <? sz then T (ins alt x xsz l) a sz r
      else if xsz >? sz then T l a sz (ins alt x xsz r)
      else if alt then T (ins alt x xsz l) a sz r
      else T l a sz (ins alt x xsz r)
  end.

(** Number of size ties met on the insertion path. *)
Fixpoint ties (alt : bool) (xsz : Z) (t : tree) : nat :=
  match t with
  | E => O
  | T l a sz r =>
      if xsz <? sz then ties alt xsz l
      else if xsz >? sz then ties alt xsz r
      else if alt then S (ties alt xsz l)
      else S (ties alt xsz r)
  end.


Fixpoint first_fit (size : Z) (t : tree) : Z :=
  match t with
  | E => NULL
  | T _ a sz r => if sz <? size then first_fit size r else a
  end.

(** ** Results of fallible computations *)

(** [wp o Q]: the computation [o] returns, and its result satisfies [Q]. *)
Definition wp {A : Type} (o : option A) (Q : A -> Prop) : Prop :=
  match o with Some a => Q a | None => False end.

(** [m'] keeps the size and node cells of every chunk in [l]. *)
Definition agree_on (l : list Z) (m m' : Z -> Z) : Prop :=
  forall a, In a l ->
    m' a = m a /\ m' (a + 16) = m (a + 16) /\
    m' (a + 24) = m (a + 24) /\ m' (a + 32) = m (a + 32).

(** A mark on the hypotheses that the address arithmetic must keep. *)
Definition keep (P : Prop) : Prop := P.

(** What a removal of [x] from the tree [t] (hanging below [par]) yields. *)
Definition removed (x : Z) (t : tree) (par : Z) (s s' : state) : Prop :=
  same_globals s s' /\
  equals_alternator s' = equals_alternator s /\
  succ_pred_alternator s' =
    (if two_children x t then negb (succ_pred_alternator s)
     else succ_pred_alternator s) /\
  rep (mem s') (del (negb (succ_pred_alternator s)) x t) par /\
  (forall c, ~ link_cell (addrs t) c -> mem s' c = mem s c).

Definition removed_local (ll : tree) (x sx : Z) (lr : tree) (a slot : Z)
  (s s' : state) : Prop :=
  same_globals s s' /\
  equals_alternator s' = equals_alternator s /\
  succ_pred_alternator s' =
    (if negb (is_E ll) && negb (is_E lr) then negb (succ_pred_alternator s)
     else succ_pred_alternator s) /\
  rep (mem s')
      (del_root (negb (succ_pred_alternator s)) (T ll x sx lr)) a /\
  mem s' slot =
    root_addr (del_root (negb (succ_pred_alternator s)) (T ll x sx lr)) /\
  (forall c, c <> slot -> ~ link_cell (addrs (T ll x sx lr)) c ->
             mem s' c = mem s c).

(** What inserting the chunk [x] of size [xsz] below [par] yields. *)
Definition added (x xsz : Z) (t : tree) (par : Z) (s : state)
  (res : Z * state) : Prop :=
  let alt := equals_alternator s in
  let s' := snd res in
  fst res = root_addr (ins alt x xsz t) /\
  same_globals s s' /\
  succ_pred_alternator s' = succ_pred_alternator s /\
  equals_alternator s' = xorb alt (Nat.odd (ties alt xsz t)) /\
  rep (mem s') (ins alt x xsz t) par /\
  mem s' (x + 8) = 0 /\
  (forall c, ~ link_cell (x :: addrs t) c -> c <> x + 8 ->
             mem s' c = mem s c).

(** The outcome of the search in the tree [t0] hanging below [par0]:
    the first fit on the search path, removed from the tree. *)
Definition searched (size : Z) (t : tree) (t0 : tree) (par0 : Z) (s : state)
  (res : Z * state) : Prop :=
  fst res = first_fit size t /\
  if first_fit size t =? NULL then snd res = s
  else removed (first_fit size t) t0 par0 s (snd res).

(** A chunk of the abstract heap: header address, payload size, in use. *)
Definition chunk : Type := (Z * Z * bool)%type.

Definition c_addr (c : chunk) : Z := fst (fst c).
Definition c_size (c : chunk) : Z := snd (fst c).
Definition c_used (c : chunk) : bool := snd c.
Definition c_end (c : chunk) : Z := c_addr c + 24 + c_size c.

(** [layout m a cs e]: the chunks [cs] tile the addresses from [a] to [e];
    each has its size in its header and in its footer, at least a node's
    size and a multiple of the word size. *)
Fixpoint layout (m : Z -> Z) (a : Z) (cs : list chunk) (e : Z) : Prop :=
  match cs with
  | [] => a = e
  | c :: cs' =>
      c_addr c = a /\ 24 <= c_size c /\ c_size c mod 8 = 0 /\
      m a = c_size c /\ m (a + 16 + c_size c) = c_size c /\
      layout m (c_end c) cs' e
  end.

(** The [in_use] members agree with the abstract flags, except for the
    chunk [cur] under construction, which counts as used. *)
Definition flags (m : Z -> Z) (cur : Z) (cs : list chunk) : Prop :=
  forall c, In c cs ->
    (c_addr c <> cur -> m (c_addr c + 8) = if c_used c then 1 else 0) /\
    (c_addr c = cur -> c_used c = true).

Fixpoint no_adj_free (cs : list chunk) : Prop :=
  match cs with
  | c1 :: cs' =>
      match cs' with
      | c2 :: _ => (c_used c1 = true \/ c_used c2 = true) /\ no_adj_free cs'
      | [] => True
      end
  | [] => True
  end.

Definition head_used (cs : list chunk) : Prop :=
  match cs with [] => True | c :: _ => c_used c = true end.

Fixpoint last_used (cs : list chunk) : Prop :=
  match cs with
  | [] => True
  | c :: cs' => match cs' with [] => c_used c = true | _ => last_used cs' end
  end.

(** The cells that hold the size tags of the chunks [cs]. *)
Definition tag_cell (cs : list chunk) (x : Z) : Prop :=
  exists c, In c cs /\ (x = c_addr c \/ x = c_addr c + 16 + c_size c).

(** The representation invariant of the allocator state. *)
Record heap_inv (cur : Z) (s : state) (cs : list chunk) (t : tree) : Prop := {
  hi_hp : header_pad s = 16;
  hi_fp : footer_pad s = 8;
  hi_np : node_pad s = 24;
  hi_fr : 0 < fake_root s;
  hi_layout : layout (mem s) (fake_root s + 40) cs (brk s);
  hi_brk : brk s < 18446744073709551616;
  hi_ends : (cs = [] /\ first_chunk s = NULL /\ guard_addr s = NULL) \/
            (cs <> [] /\ first_chunk s = fake_root s + 40 /\
             guard_addr s = brk s);
  hi_flags : flags (mem s) cur cs;
  hi_sentinel : mem s (fake_root s + 8) = 0 /\
                exists r, t = T E (fake_root s) 0 r;
  hi_rep : rep (mem s) t NULL;
  hi_nodes : forall a sz, In (a, sz) (nodes t) <->
               (a = fake_root s /\ sz = 0) \/ In (a, sz, false) cs;
  hi_nodup : NoDup (addrs t);
  hi_bst : bst t;
  hi_noadj : no_adj_free cs
}.

(** Memory [m'] equals [m] outside the link cells of [L] and outside the
    address range [lo, hi). *)
Definition untouched (m m' : Z -> Z) (L : list Z) (lo hi : Z) : Prop :=
  forall x, ~ link_cell L x -> x < lo \/ hi <= x -> m' x = m x.

(** The state after the remainder's tags have been written (lines 122-124). *)
Definition split_tags (d dsz : Z) (s : state) : state :=
  store (d + 16 + dsz) dsz (store (d + 8) 0 (store d dsz s)).

(** The outcome of an allocation served from the tree: the first fit [f]
    of size [fsz] is taken out, divided where the test of line 119 says so,
    and handed out. *)
Definition took (size : Z) (s : state) (pre : list chunk) (f fsz : Z)
  (post : list chunk) (t : tree) (res : Z * state) : Prop :=
  fst res = f + 16 /\ same_globals s (snd res) /\
  if fsz >=? size + 48 then
    heap_inv NULL (snd res)
      (pre ++ (f, size, true) :: (f + 24 + size, fsz - size - 24, false)
           :: post)
      (ins (equals_alternator s) (f + 24 + size) (fsz - size - 24)
           (del (negb (succ_pred_alternator s)) f t))
  else
    heap_inv NULL (snd res) (pre ++ (f, fsz, true) :: post)
      (del (negb (succ_pred_alternator s)) f t).

(** The outcome of lines 137-148: either the chunk [a] itself, or its free
    predecessor grown over it. *)
Definition merged_prev (s : state) (pre : list chunk) (a sz : Z)
  (post : list chunk) (t : tree) (res : Z * state) : Prop :=
  same_globals s (snd res) /\
  equals_alternator (snd res) = equals_alternator s /\
  exists pre' szx t',
    heap_inv (fst res) (snd res)
      (pre' ++ (fst res, szx, true) :: post) t' /\
    (pre' = [] \/ last_used pre') /\
    (height t' <= height t)%nat /\
    ((pre = pre' ++ [(fst res, szx - 24 - sz, false)] /\
      t' = del (negb (succ_pred_alternator s)) (fst res) t)
     \/
     (pre' = pre /\ fst res = a /\ szx = sz /\ t' = t /\ snd res = s)).

(** The outcome of lines 149-158: the chunk [x], grown over its successor
    when that one is free. *)
Definition merged_next (s : state) (pre : list chunk) (x szx : Z)
  (post : list chunk) (t : tree) (s' : state) : Prop :=
  same_globals s s' /\
  equals_alternator s' = equals_alternator s /\
  exists szx' post' t',
    heap_inv x s' (pre ++ (x, szx', true) :: post') t' /\
    head_used post' /\
    (height t' <= height t)%nat /\
    ((post = (x + 24 + szx, szx' - 24 - szx, false) :: post' /\
      t' = del (negb (succ_pred_alternator s)) (x + 24 + szx) t)
     \/
     (post' = post /\ szx' = szx /\ t' = t /\ s' = s)).

(** The outcome of [trfree] on the used chunk [a]: merged with its free
    neighbours, then inserted into the tree as one free chunk. *)
Definition freed (s : state) (pre : list chunk) (a sz : Z)
  (post : list chunk) (t : tree) (s' : state) : Prop :=
  same_globals s s' /\
  exists pre' x sz1 t1 sz2 post' t2,
    ((pre = pre' ++ [(x, sz1 - 24 - sz, false)] /\
      t1 = del (negb (succ_pred_alternator s)) x t)
     \/ (pre' = pre /\ x = a /\ sz1 = sz /\ t1 = t)) /\
    ((exists alt, post = (x + 24 + sz1, sz2 - 24 - sz1, false) :: post' /\
                  t2 = del alt (x + 24 + sz1) t1)
     \/ (post' = post /\ sz2 = sz1 /\ t2 = t1)) /\
    heap_inv NULL s' (pre' ++ (x, sz2, false) :: post')
      (ins (equals_alternator s) x sz2 t2).

(** [s'] has the break, its limit and the [sbrk] trace of [s]. *)
Definition same_os (s s' : state) : Prop :=
  brk s' = brk s /\ brk_limit s' = brk_limit s /\ sbrk_log s' = sbrk_log s.

(** ** Runs of a client program *)

(** Requests up to [max_request] keep [header_pad + size + footer_pad]
    within the positive range of [sbrk]'s signed argument. *)
Definition max_request : Z := 9223372036854775776.

(** No call of [sbrk] has failed so far. *)
Definition sbrk_ok (s : state) : Prop :=
  forall e, In e (sbrk_log s) -> snd e <> sbrk_failure.

(** The states a client can reach from process start, with the allocations
    it holds: payload pointer and requested size.  The client allocates,
    releases what it holds, and writes into what it holds; no [sbrk] call has
    failed. *)
Inductive reachable (brk0 limit : Z) : state -> list (Z * Z) -> Prop :=
| reach_start m0 :
    0 < brk0 -> limit < modulus ->
    reachable brk0 limit (initial_state m0 brk0 limit) []
| reach_tralloc s live fuel n p s' :
    reachable brk0 limit s live ->
    0 <= n <= max_request ->
    tralloc fuel n s = Some (p, s') ->
    sbrk_ok s' ->
    reachable brk0 limit s' ((p, n) :: live)
| reach_trfree s live fuel p n s' :
    reachable brk0 limit s live ->
    In (p, n) live ->
    trfree fuel p s = Some s' ->
    reachable brk0 limit s' (filter (fun e => negb (fst e =? p)) live)
| reach_write s live p n k v :
    reachable brk0 limit s live ->
    In (p, n) live -> 0 <= k < n ->
    reachable brk0 limit (store (p + k) v s) live.

(** Every allocation held lies in a used chunk that is large enough. *)
Definition live_ok (cs : list chunk) (live : list (Z * Z)) : Prop :=
  forall p n, In (p, n) live ->
    exists sz, In (p - 16, sz, true) cs /\ n <= sz.

(** The well-formed states of a run started with the break at [brk0]. *)
Definition heap_ok (brk0 limit : Z) (s : state) (live : list (Z * Z))
  (cs : list chunk) (t : tree) : Prop :=
  heap_inv NULL s cs t /\ fake_root s = brk0 /\ brk_limit s = limit /\
  limit < modulus /\ In (40, brk0) (sbrk_log s) /\ live_ok cs live.

(** ** Concrete runs

    A process whose break starts at 4096, with zeroed memory and room to
    grow. *)

(** The result of a run that returns. *)
Definition or_else {A : Type} (o : option A) (d : A) : A :=
  match o with Some a => a | None => d end.

(** The process before its first call. *)
Definition demo0 : state := initial_state (fun _ => 0) 4096 1000000.

(** Four allocations of 64, 24, 80 and 24 bytes; then the third and the
    first are released, in this order. *)
Definition demo1 : Z * state := or_else (tralloc 10 64 demo0) (0, demo0).
Definition demo2 : Z * state :=
  or_else (tralloc 10 24 (snd demo1)) (0, demo0).
Definition demo3 : Z * state :=
  or_else (tralloc 10 80 (snd demo2)) (0, demo0).
Definition demo4 : Z * state :=
  or_else (tralloc 10 24 (snd demo3)) (0, demo0).
Definition demo5 : state :=
  or_else (trfree 10 (fst demo3) (snd demo4)) demo0.
Definition demo6 : state := or_else (trfree 10 (fst demo1) demo5) demo0.

(** The free tree of [demo6]: below the sentinel the chunk of 80 bytes,
    with the chunk of 64 bytes as its left child. *)
Definition demo6_tree : tree :=
  T E 4096 0 (T (T E 4136 64 E) 4272 80 E).


(** A chunk of 72 bytes is allocated and released; then 24 bytes are
    requested. *)
Definition split1 : Z * state := or_else (tralloc 10 72 demo0) (0, demo0).
Definition split2 : state :=
  or_else (trfree 10 (fst split1) (snd split1)) demo0.
Definition split3 : Z * state := or_else (tralloc 10 24 split2) (0, demo0).

(** The free tree holds the sentinel only (or is not set up yet). *)
Definition no_free_chunk (s : state) : Prop :=
  fake_root s = NULL \/
  load s (right_of (header_to_node s (fake_root s))) = NULL.

(** The chunk of [demo1] is released and allocated again. *)
Definition trip2 : state := or_else (trfree 10 4152 (snd demo1)) demo0.
Definition trip3 : Z * state := or_else (tralloc 10 64 trip2) (0, demo0).



(** The run [demo4] continued: allocations of 104 and of 24 bytes; then the
    chunks of 80, of 64 and of 104 bytes are released, which leaves the chunk
    of 80 bytes in the tree with two children. *)
Definition duo1 : Z * state :=
  or_else (tralloc 10 104 (snd demo4)) (0, demo0).
Definition duo2 : Z * state :=
  or_else (tralloc 10 24 (snd duo1)) (0, demo0).
Definition duo3 : state := or_else (trfree 10 4288 (snd duo2)) demo0.
Definition duo4 : state := or_else (trfree 10 4152 duo3) demo0.
Definition duo5 : state := or_else (trfree 10 4440 duo4) demo0.

Definition duo5_tree : tree :=
  T E 4096 0 (T (T E 4136 64 E) 4272 80 (T E 4424 104 E)).

(** Every used chunk is held by the client, and no pointer is held twice. *)
Definition held (cs : list chunk) (live : list (Z * Z)) : Prop :=
  NoDup (map fst live) /\
  forall a sz, In (a, sz, true) cs -> In (a + 16) (map fst live).

(** The well-formed states of a run, with the bookkeeping of the used
    chunks. *)
Definition settled (brk0 limit : Z) (s : state) (live : list (Z * Z))
  (cs : list chunk) (t : tree) : Prop :=
  heap_ok brk0 limit s live cs t /\ held cs live.



(** The client writes 77 into the allocation at 4240 of [demo6]; then it
    either asks for 64 bytes, or releases the allocation at 4392 and asks
    for 16 bytes. *)
Definition ink0 : state := store (4240 + 8) 77 demo6.
Definition ink1 : Z * state := or_else (tralloc 10 64 ink0) (0, demo0).
Definition ink2 : state := or_else (trfree 10 4392 ink0) demo0.
Definition ink3 : Z * state := or_else (tralloc 10 16 ink2) (0, demo0).

(** The arguments of the lines of [out] printed with [format], in order. *)
Definition printed (format : String.string) (out : list output) : list Z :=
  flat_map (fun o => match o with
                     | Fprintf f args =>
                         if String.eqb f format then args else []
                     | Fflush => []
                     end) out.

(** The number of calls in [out] that print [format]. *)
Definition lines (format : String.string) (out : list output) : nat :=
  length (filter (fun o => match o with
                           | Fprintf f _ => String.eqb f format
                           | Fflush => false
                           end) out).

(** A chunk whose size ties with one node of the tree. *)
Definition tie1 : Z * state :=
  or_else (tralloc 10 64 (snd demo2)) (0, demo0).
Definition tie2 : state := or_else (trfree 10 4152 (snd tie1)) demo0.




(** * Verification *)

(** ** Machine arithmetic *)

Lemma wrap_small (x : Z) : 0 <= x < modulus -> wrap x = x.
Proof. intros H. unfold wrap. apply Z.mod_small. exact H. Qed.

Lemma wrap_range (x : Z) : 0 <= wrap x < modulus.
Proof. unfold wrap. apply Z.mod_pos_bound. reflexivity. Qed.

Lemma modulus_eq : modulus = 18446744073709551616.
Proof. reflexivity. Qed.

Lemma ceil_size_exact (n : Z) : n mod 8 = 0 -> ceil_size n sizeof_intptr = n.
Proof.
  intros H. unfold ceil_size, sizeof_intptr. rewrite H. reflexivity.
Qed.

Lemma ceil_size_mult8 (n : Z) :
  0 <= n < modulus -> ceil_size n sizeof_intptr mod 8 = 0.
Proof.
  intros Hn. unfold ceil_size, sizeof_intptr.
  destruct (Z.eqb_spec (n mod 8) 0) as [E|E]; simpl; [exact E|].
  unfold wrap, modulus.
  pose proof (Z.mod_pos_bound n 8 eq_refl) as Hb.
  pose proof (Z.div_mod n 8 ltac:(lia)) as Hd.
  replace (n - n mod 8 + 8) with (8 * (n / 8 + 1)) by lia.
  set (q := n / 8 + 1).
  replace 18446744073709551616 with (8 * 2305843009213693952) by reflexivity.
  rewrite Zmult_mod_distr_l.
  rewrite Z.mul_comm. apply Z.mod_mul. lia.
Qed.

Lemma ceil_size_range (n : Z) :
  0 <= n < modulus -> 0 <= ceil_size n sizeof_intptr < modulus.
Proof.
  intros Hn. unfold ceil_size, sizeof_intptr.
  destruct (Z.eqb_spec (n mod 8) 0); simpl; [lia|apply wrap_range].
Qed.

Lemma ceil_size_no_wrap (n : Z) :
  0 <= n <= modulus - 8 ->
  n <= ceil_size n sizeof_intptr < n + 8.
Proof.
  intros Hn. unfold ceil_size, sizeof_intptr.
  pose proof (Z.mod_pos_bound n 8 eq_refl) as Hb.
  destruct (Z.eqb_spec (n mod 8) 0); simpl; [lia|].
  rewrite wrap_small; unfold modulus in *; lia.
Qed.

(** ** States that differ in memory and alternators only *)

Lemma same_globals_refl s : same_globals s s.
Proof. unfold same_globals. repeat split. Qed.

Lemma same_globals_trans s1 s2 s3 :
  same_globals s1 s2 -> same_globals s2 s3 -> same_globals s1 s3.
Proof.
  unfold same_globals. intros H1 H2.
  destruct H1 as (?&?&?&?&?&?&?&?&?), H2 as (?&?&?&?&?&?&?&?&?).
  repeat split; congruence.
Qed.

Lemma same_globals_store a v s : same_globals s (store a v s).
Proof. unfold same_globals. repeat split. Qed.

Lemma same_globals_set_eq b s : same_globals s (set_equals_alternator b s).
Proof. unfold same_globals. repeat split. Qed.

Lemma same_globals_set_sp b s :
  same_globals s (set_succ_pred_alternator b s).
Proof. unfold same_globals. repeat split. Qed.

(** ** Pure facts about the abstract tree *)

Lemma perm_app_cons_l {A} (x : A) l1 l1' l2 :
  Permutation l1 (x :: l1') -> Permutation (l1 ++ l2) (x :: l1' ++ l2).
Proof. intros H. apply (Permutation_app_tail l2) in H. exact H. Qed.

Lemma perm_app_cons_r {A} (x : A) l1 l2 l2' :
  Permutation l2 (x :: l2') -> Permutation (l1 ++ l2) (x :: l1 ++ l2').
Proof.
  intros H. eapply perm_trans; [apply Permutation_app_head, H|].
  apply Permutation_sym, Permutation_middle.
Qed.

Arguments addrs : simpl never.

Lemma addrs_E : addrs E = [].
Proof. reflexivity. Qed.

Lemma addrs_T l a sz r : addrs (T l a sz r) = a :: addrs l ++ addrs r.
Proof. unfold addrs. simpl. rewrite map_app. reflexivity. Qed.

Lemma in_addrs_nodes x t : In x (addrs t) <-> exists sz, In (x, sz) (nodes t).
Proof.
  unfold addrs. rewrite in_map_iff. split.
  - intros [[a sz] [H1 H2]]. simpl in H1. subst. eauto.
  - intros [sz H]. exists (x, sz). auto.
Qed.

Lemma in_nodes_addrs x sz t : In (x, sz) (nodes t) -> In x (addrs t).
Proof. intros H. apply in_addrs_nodes. eauto. Qed.

Lemma good_nil : good [].
Proof.
  unfold good. split; [constructor|]. split; intros; contradiction.
Qed.

Lemma good_sub (l l' : list Z) :
  good l -> NoDup l' -> incl l' l -> good l'.
Proof.
  intros (Hn & Hr & Hs) Hn' Hi. split; [exact Hn'|]. split.
  - intros a Ha. apply Hr, Hi, Ha.
  - intros a b Ha Hb. apply Hs; apply Hi; assumption.
Qed.

Lemma good_perm (l l' : list Z) : Permutation l l' -> good l -> good l'.
Proof.
  intros Hp (Hn & Hr & Hs). split; [eapply Permutation_NoDup; eauto|]. split.
  - intros a Ha. apply Hr. eapply Permutation_in; [apply Permutation_sym|]; eauto.
  - intros a b Ha Hb. apply Hs;
      (eapply Permutation_in; [apply Permutation_sym|]; eauto).
Qed.

Lemma good_T l a sz r :
  good (addrs (T l a sz r)) ->
  good (addrs l) /\ good (addrs r) /\ in_range a /\
  ~ In a (addrs l) /\ ~ In a (addrs r) /\
  (forall b, In b (addrs l) -> apart a b /\ in_range b /\ ~ In b (addrs r)) /\
  (forall b, In b (addrs r) -> apart a b /\ in_range b /\ ~ In b (addrs l)) /\
  (forall b c, In b (addrs l) -> In c (addrs r) -> apart b c).
Proof.
  rewrite addrs_T. intros G. pose proof G as (Hn & Hr & Hs).
  inversion Hn as [|? ? Hna Hn']; subst.
  apply NoDup_app_remove_l in Hn' as Hnr.
  apply NoDup_app_remove_r in Hn' as Hnl.
  assert (Hd : forall b, In b (addrs l) -> In b (addrs r) -> False).
  { intros b Hb Hb'. clear - Hn' Hb Hb'.
    induction (addrs l) as [|y l' IH]; [contradiction|].
    simpl in Hn'. inversion Hn'; subst. destruct Hb as [->|Hb].
    - apply H1. apply in_or_app. auto.
    - auto. }
  split; [|split; [|split; [|split; [|split; [|split; [|split]]]]]].
  - eapply good_sub; eauto. intros b Hb. right. apply in_or_app. auto.
  - eapply good_sub; eauto. intros b Hb. right. apply in_or_app. auto.
  - apply Hr. left. reflexivity.
  - intros H. apply Hna, in_or_app. auto.
  - intros H. apply Hna, in_or_app. auto.
  - intros b Hb. split; [|split].
    + apply Hs; [left; reflexivity|right; apply in_or_app; auto|].
      intros ->. apply Hna, in_or_app. auto.
    + apply Hr. right. apply in_or_app. auto.
    + intros Hb'. eapply Hd; eauto.
  - intros b Hb. split; [|split].
    + apply Hs; [left; reflexivity|right; apply in_or_app; auto|].
      intros ->. apply Hna, in_or_app. auto.
    + apply Hr. right. apply in_or_app. auto.
    + intros Hb'. eapply Hd; eauto.
  - intros b c Hb Hc. apply Hs.
    + right. apply in_or_app. auto.
    + right. apply in_or_app. auto.
    + intros ->. eapply Hd; eauto.
Qed.

Lemma is_E_true t : is_E t = true -> t = E.
Proof. destruct t; simpl; congruence. Qed.

Lemma is_E_false t : is_E t = false -> exists l a sz r, t = T l a sz r.
Proof. destruct t; simpl; [congruence|]. intros _. eauto. Qed.

Lemma root_in_addrs t : is_E t = false -> In (root_addr t) (addrs t).
Proof.
  destruct t as [|l a sz r]; [discriminate|]. intros _. rewrite addrs_T.
  left. reflexivity.
Qed.

Lemma t_max_in t : is_E t = false -> In (t_max t) (nodes t).
Proof.
  induction t as [|l IHl a sz r IHr]; simpl; [congruence|]. intros _.
  destruct r as [|rl ra rsz rr].
  - left. reflexivity.
  - right. apply in_or_app. right. apply IHr. reflexivity.
Qed.

Lemma t_min_in t : is_E t = false -> In (t_min t) (nodes t).
Proof.
  induction t as [|l IHl a sz r IHr]; simpl; [congruence|]. intros _.
  destruct l as [|ll la lsz lr].
  - left. reflexivity.
  - right. apply in_or_app. left. apply IHl. reflexivity.
Qed.

Lemma t_max_pair t : t_max t = (fst (t_max t), snd (t_max t)).
Proof. destruct (t_max t). reflexivity. Qed.

Lemma t_min_pair t : t_min t = (fst (t_min t), snd (t_min t)).
Proof. destruct (t_min t). reflexivity. Qed.

Lemma t_max_addr_in t : is_E t = false -> In (fst (t_max t)) (addrs t).
Proof. intros H. unfold addrs. apply in_map, t_max_in, H. Qed.

Lemma t_min_addr_in t : is_E t = false -> In (fst (t_min t)) (addrs t).
Proof. intros H. unfold addrs. apply in_map, t_min_in, H. Qed.

Lemma perm_remove_max t :
  is_E t = false -> Permutation (nodes t) (t_max t :: nodes (remove_max t)).
Proof.
  induction t as [|l IHl a sz r IHr]; simpl; [congruence|]. intros _.
  destruct r as [|rl ra rsz rr].
  - simpl. rewrite app_nil_r. apply Permutation_refl.
  - specialize (IHr eq_refl).
    change (nodes (T l a sz (remove_max (T rl ra rsz rr))))
      with ((a, sz) :: nodes l ++ nodes (remove_max (T rl ra rsz rr))).
    eapply perm_trans; [|apply perm_swap]. apply perm_skip.
    apply perm_app_cons_r, IHr.
Qed.

Lemma perm_remove_min t :
  is_E t = false -> Permutation (nodes t) (t_min t :: nodes (remove_min t)).
Proof.
  induction t as [|l IHl a sz r IHr]; simpl; [congruence|]. intros _.
  destruct l as [|ll la lsz lr].
  - simpl. apply Permutation_refl.
  - specialize (IHl eq_refl).
    change (nodes (T (remove_min (T ll la lsz lr)) a sz r))
      with ((a, sz) :: nodes (remove_min (T ll la lsz lr)) ++ nodes r).
    eapply perm_trans; [|apply perm_swap]. apply perm_skip.
    apply perm_app_cons_l, IHl.
Qed.

Lemma perm_del_root alt l a sz r :
  Permutation (nodes (T l a sz r)) ((a, sz) :: nodes (del_root alt (T l a sz r))).
Proof.
  unfold del_root.
  destruct (is_E l) eqn:El.
  { apply is_E_true in El. subst. simpl. apply Permutation_refl. }
  destruct (is_E r) eqn:Er.
  { apply is_E_true in Er. subst. simpl. rewrite app_nil_r.
    apply Permutation_refl. }
  destruct alt; simpl; apply perm_skip.
  - rewrite <- t_max_pair.
    apply perm_app_cons_l, perm_remove_max, El.
  - rewrite <- t_min_pair.
    apply perm_app_cons_r, perm_remove_min, Er.
Qed.

Lemma del_absent alt x t : ~ In x (addrs t) -> del alt x t = t.
Proof.
  induction t as [|l IHl a sz r IHr]; [reflexivity|].
  rewrite addrs_T. intros H. cbn [del].
  destruct (Z.eqb_spec a x) as [->|Hne].
  - exfalso. apply H. left. reflexivity.
  - rewrite IHl, IHr; [reflexivity| |];
      intros Hx; apply H; right; apply in_or_app; auto.
Qed.

Lemma perm_del alt x t :
  NoDup (addrs t) -> In x (addrs t) ->
  exists sz, In (x, sz) (nodes t) /\
             Permutation (nodes t) ((x, sz) :: nodes (del alt x t)).
Proof.
  induction t as [|l IHl a sz r IHr]; [intros _ []|].
  rewrite addrs_T. intros Hn Hx.
  inversion Hn as [|? ? Hna Hn']; subst.
  pose proof (NoDup_app_remove_l _ _ Hn') as Hnr.
  pose proof (NoDup_app_remove_r _ _ Hn') as Hnl.
  cbn [del]. destruct (Z.eqb_spec a x) as [->|Hne].
  - exists sz. split; [left; reflexivity|]. apply perm_del_root.
  - destruct Hx as [Hx|Hx]; [contradiction|].
    apply in_app_or in Hx. destruct Hx as [Hx|Hx].
    + assert (Hxr : ~ In x (addrs r)).
      { intros Hx'. clear - Hn' Hx Hx'.
        induction (addrs l) as [|y l' IH]; [contradiction|].
        simpl in Hn'. inversion Hn'; subst. destruct Hx as [->|Hx].
        - apply H1, in_or_app. auto.
        - auto. }
      rewrite (del_absent alt x r Hxr).
      destruct (IHl Hnl Hx) as (xsz & Hin & Hp). exists xsz. split.
      * simpl. right. apply in_or_app. auto.
      * simpl. eapply perm_trans; [|apply perm_swap]. apply perm_skip.
        apply perm_app_cons_l, Hp.
    + assert (Hxl : ~ In x (addrs l)).
      { intros Hx'. clear - Hn' Hx Hx'.
        induction (addrs l) as [|y l' IH]; [contradiction|].
        simpl in Hn'. inversion Hn'; subst. destruct Hx' as [->|Hx'].
        - apply H1, in_or_app. auto.
        - auto. }
      rewrite (del_absent alt x l Hxl).
      destruct (IHr Hnr Hx) as (xsz & Hin & Hp). exists xsz. split.
      * simpl. right. apply in_or_app. auto.
      * simpl. eapply perm_trans; [|apply perm_swap]. apply perm_skip.
        apply perm_app_cons_r, Hp.
Qed.

Lemma perm_ins alt x xsz t :
  Permutation (nodes (ins alt x xsz t)) ((x, xsz) :: nodes t).
Proof.
  induction t as [|l IHl a sz r IHr]; simpl; [apply Permutation_refl|].
  assert (HL : Permutation (nodes (T (ins alt x xsz l) a sz r))
                 ((x, xsz) :: (a, sz) :: nodes l ++ nodes r)).
  { simpl. eapply perm_trans; [|apply perm_swap]. apply perm_skip.
    apply perm_app_cons_l, IHl. }
  assert (HR : Permutation (nodes (T l a sz (ins alt x xsz r)))
                 ((x, xsz) :: (a, sz) :: nodes l ++ nodes r)).
  { simpl. eapply perm_trans; [|apply perm_swap]. apply perm_skip.
    apply perm_app_cons_r, IHr. }
  destruct (xsz <? sz); [exact HL|].
  destruct (xsz >? sz); [exact HR|].
  destruct alt; [exact HL|exact HR].
Qed.

Lemma perm_nodes_addrs t t' (n : Z * Z) :
  Permutation (nodes t) (n :: nodes t') ->
  Permutation (addrs t) (fst n :: addrs t').
Proof. intros H. unfold addrs. apply (Permutation_map fst) in H. exact H. Qed.

(** Order *)

Lemma bst_t_max_ge t :
  bst t -> forall n, In n (nodes t) -> snd n <= snd (t_max t).
Proof.
  induction t as [|l IHl a sz r IHr]; [intros _ n []|].
  intros (Hl & Hr & Bl & Br) n Hn. simpl in Hn.
  destruct r as [|rl ra rsz rr].
  - simpl t_max. simpl. destruct Hn as [<-|Hn]; [simpl; lia|].
    rewrite app_nil_r in Hn. apply Hl, Hn.
  - change (t_max (T l a sz (T rl ra rsz rr))) with (t_max (T rl ra rsz rr)).
    assert (Hge : sz <= snd (t_max (T rl ra rsz rr))).
    { apply Hr. apply t_max_in. reflexivity. }
    destruct Hn as [<-|Hn]; [cbn [snd]; lia|].
    apply in_app_or in Hn. destruct Hn as [Hn|Hn].
    + specialize (Hl n Hn). lia.
    + apply IHr; assumption.
Qed.

Lemma bst_t_min_le t :
  bst t -> forall n, In n (nodes t) -> snd (t_min t) <= snd n.
Proof.
  induction t as [|l IHl a sz r IHr]; [intros _ n []|].
  intros (Hl & Hr & Bl & Br) n Hn. simpl in Hn.
  destruct l as [|ll la lsz lr].
  - simpl t_min. simpl. destruct Hn as [<-|Hn]; [simpl; lia|].
    simpl in Hn. apply Hr, Hn.
  - change (t_min (T (T ll la lsz lr) a sz r)) with (t_min (T ll la lsz lr)).
    assert (Hle : snd (t_min (T ll la lsz lr)) <= sz).
    { apply Hl. apply t_min_in. reflexivity. }
    destruct Hn as [<-|Hn]; [cbn [snd]; lia|].
    apply in_app_or in Hn. destruct Hn as [Hn|Hn].
    + apply IHl; assumption.
    + specialize (Hr n Hn). lia.
Qed.

Lemma in_remove_max n t : In n (nodes (remove_max t)) -> In n (nodes t).
Proof.
  destruct (is_E t) eqn:Et.
  - apply is_E_true in Et. subst. simpl. auto.
  - intros H. eapply Permutation_in;
      [apply Permutation_sym, perm_remove_max, Et|]. right. exact H.
Qed.

Lemma in_remove_min n t : In n (nodes (remove_min t)) -> In n (nodes t).
Proof.
  destruct (is_E t) eqn:Et.
  - apply is_E_true in Et. subst. simpl. auto.
  - intros H. eapply Permutation_in;
      [apply Permutation_sym, perm_remove_min, Et|]. right. exact H.
Qed.

Lemma bst_remove_max t : bst t -> bst (remove_max t).
Proof.
  induction t as [|l IHl a sz r IHr]; simpl; [auto|].
  intros (Hl & Hr & Bl & Br). destruct r as [|rl ra rsz rr]; [exact Bl|].
  change (bst (T l a sz (remove_max (T rl ra rsz rr)))).
  simpl bst. repeat split; auto.
  intros n Hn. apply Hr. apply in_remove_max. exact Hn.
Qed.

Lemma bst_remove_min t : bst t -> bst (remove_min t).
Proof.
  induction t as [|l IHl a sz r IHr]; simpl; [auto|].
  intros (Hl & Hr & Bl & Br). destruct l as [|ll la lsz lr]; [exact Br|].
  change (bst (T (remove_min (T ll la lsz lr)) a sz r)).
  simpl bst. repeat split; auto.
  intros n Hn. apply Hl. apply in_remove_min. exact Hn.
Qed.

Lemma bst_del_root alt t : bst t -> bst (del_root alt t).
Proof.
  destruct t as [|l a sz r]; simpl; [auto|].
  intros (Hl & Hr & Bl & Br).
  destruct (is_E l) eqn:El; [exact Br|].
  destruct (is_E r) eqn:Er; [exact Bl|].
  destruct alt; simpl; repeat split; auto using bst_remove_max, bst_remove_min.
  - intros n Hn. apply bst_t_max_ge; [exact Bl|]. apply in_remove_max, Hn.
  - intros n Hn. specialize (Hl _ (t_max_in l El)). specialize (Hr _ Hn). lia.
  - intros n Hn. specialize (Hr _ (t_min_in r Er)). specialize (Hl _ Hn). lia.
  - intros n Hn. apply bst_t_min_le; [exact Br|]. apply in_remove_min, Hn.
Qed.

Lemma in_del_root alt n t : In n (nodes (del_root alt t)) -> In n (nodes t).
Proof.
  destruct t as [|l a sz r]; [simpl; auto|]. intros H.
  eapply Permutation_in; [apply Permutation_sym, perm_del_root|].
  right. exact H.
Qed.

Lemma in_del alt x n t : In n (nodes (del alt x t)) -> In n (nodes t).
Proof.
  induction t as [|l IHl a sz r IHr]; [simpl; auto|].
  cbn [del]. destruct (a =? x); [apply in_del_root|].
  simpl. intros [H|H]; [auto|]. right.
  apply in_app_or in H. apply in_or_app. destruct H; auto.
Qed.

Lemma bst_del alt x t : bst t -> bst (del alt x t).
Proof.
  induction t as [|l IHl a sz r IHr]; [simpl; auto|].
  intros B. cbn [del]. destruct (a =? x); [apply bst_del_root, B|].
  destruct B as (Hl & Hr & Bl & Br). simpl. repeat split; auto.
  - intros n Hn. apply Hl. eapply in_del, Hn.
  - intros n Hn. apply Hr. eapply in_del, Hn.
Qed.

Lemma bst_ins alt x xsz t : bst t -> bst (ins alt x xsz t).
Proof.
  induction t as [|l IHl a sz r IHr]; simpl.
  - intros _. repeat split; intros n [].
  - intros (Hl & Hr & Bl & Br).
    assert (HL : xsz <= sz -> bst (T (ins alt x xsz l) a sz r)).
    { intros Hle. simpl. repeat split; auto. intros n Hn.
      apply (Permutation_in _ (perm_ins alt x xsz l)) in Hn.
      destruct Hn as [<-|Hn]; [simpl; lia|auto]. }
    assert (HR : sz <= xsz -> bst (T l a sz (ins alt x xsz r))).
    { intros Hle. simpl. repeat split; auto. intros n Hn.
      apply (Permutation_in _ (perm_ins alt x xsz r)) in Hn.
      destruct Hn as [<-|Hn]; [simpl; lia|auto]. }
    destruct (Z.ltb_spec xsz sz); [apply HL; lia|].
    destruct (Z.gtb_spec xsz sz); [apply HR; lia|].
    destruct alt; [apply HL|apply HR]; lia.
Qed.

(** Roots *)

Lemma root_del alt x t : root_addr t <> x -> root_addr (del alt x t) = root_addr t.
Proof.
  destruct t as [|l a sz r]; simpl; [auto|]. intros H.
  destruct (Z.eqb_spec a x); [contradiction|reflexivity].
Qed.

Lemma root_ins alt x xsz t :
  root_addr (ins alt x xsz t) = if is_E t then x else root_addr t.
Proof.
  destruct t as [|l a sz r]; simpl; [reflexivity|].
  destruct (xsz <? sz); [reflexivity|]. destruct (xsz >? sz); [reflexivity|].
  destruct alt; reflexivity.
Qed.

Lemma is_E_ins alt x xsz t : is_E (ins alt x xsz t) = false.
Proof.
  destruct t as [|l a sz r]; simpl; [reflexivity|].
  destruct (xsz <? sz); [reflexivity|]. destruct (xsz >? sz); [reflexivity|].
  destruct alt; reflexivity.
Qed.

(** Heights *)

Lemma height_remove_max t : (height (remove_max t) <= height t)%nat.
Proof.
  induction t as [|l IHl a sz r IHr]; [simpl; lia|].
  destruct r as [|rl ra rsz rr].
  - cbn [remove_max height]. lia.
  - change (remove_max (T l a sz (T rl ra rsz rr)))
      with (T l a sz (remove_max (T rl ra rsz rr))).
    set (u := remove_max (T rl ra rsz rr)) in *.
    cbn [height] in *. lia.
Qed.

Lemma height_remove_min t : (height (remove_min t) <= height t)%nat.
Proof.
  induction t as [|l IHl a sz r IHr]; [simpl; lia|].
  destruct l as [|ll la lsz lr].
  - cbn [remove_min height]. lia.
  - change (remove_min (T (T ll la lsz lr) a sz r))
      with (T (remove_min (T ll la lsz lr)) a sz r).
    set (u := remove_min (T ll la lsz lr)) in *.
    cbn [height] in *. lia.
Qed.

Lemma height_del_root alt t : (height (del_root alt t) <= height t)%nat.
Proof.
  destruct t as [|l a sz r]; simpl; [lia|].
  destruct (is_E l); [lia|]. destruct (is_E r); [lia|].
  pose proof (height_remove_max l). pose proof (height_remove_min r).
  destruct alt; simpl; lia.
Qed.

Lemma height_del alt x t : (height (del alt x t) <= height t)%nat.
Proof.
  induction t as [|l IHl a sz r IHr]; [simpl; lia|].
  cbn [del]. destruct (a =? x); [apply height_del_root|]. cbn [height]. lia.
Qed.

Lemma height_ins alt x xsz t : (height (ins alt x xsz t) <= S (height t))%nat.
Proof.
  induction t as [|l IHl a sz r IHr]; simpl; [lia|].
  destruct (xsz <? sz); [simpl; lia|]. destruct (xsz >? sz); [simpl; lia|].
  destruct alt; simpl; lia.
Qed.


(** ** Symbolic execution of the embedded code *)

Lemma wp_elim {A} (o : option A) (Q : A -> Prop) :
  wp o Q -> exists a, o = Some a /\ Q a.
Proof. destruct o; simpl; [eauto|contradiction]. Qed.

Lemma wp_intro {A} (o : option A) (Q : A -> Prop) a :
  o = Some a -> Q a -> wp o Q.
Proof. intros -> H. exact H. Qed.

Lemma wp_mono {A} (o : option A) (P Q : A -> Prop) :
  wp o P -> (forall a, P a -> Q a) -> wp o Q.
Proof. destruct o; simpl; [auto|contradiction]. Qed.

Lemma wp_bind {A B} (o : option A) (k : A -> option B) P Q :
  wp o P -> (forall a, P a -> wp (k a) Q) ->
  wp (match o with Some a => k a | None => None end) Q.
Proof. destruct o; simpl; [auto|contradiction]. Qed.

Lemma mem_store a v s c :
  mem (store a v s) c = if c =? a then v else mem s c.
Proof. reflexivity. Qed.

Lemma add_16_8 x : x + 16 + 8 = x + 24.
Proof. lia. Qed.

Lemma add_16_16 x : x + 16 + 16 = x + 32.
Proof. lia. Qed.

Lemma in_range_bounds a : in_range a -> 0 < a /\ a + 40 <= 18446744073709551616.
Proof. intros H. exact H. Qed.

(** Field addresses of a chunk at an in-range address. *)
Lemma hn s x : header_pad s = 16 -> in_range x -> header_to_node s x = x + 16.
Proof.
  intros Hp [H1 H2]. unfold header_to_node. rewrite Hp.
  apply wrap_small. lia.
Qed.

Lemma left_hn x : in_range x -> left_of (x + 16) = x + 24.
Proof.
  intros [H1 H2]. unfold left_of. rewrite add_16_8. apply wrap_small. lia.
Qed.

Lemma right_hn x : in_range x -> right_of (x + 16) = x + 32.
Proof.
  intros [H1 H2]. unfold right_of. rewrite add_16_16. apply wrap_small. lia.
Qed.

Lemma in_use_addr x : in_range x -> in_use_of x = x + 8.
Proof. intros [H1 H2]. unfold in_use_of. apply wrap_small. lia. Qed.

(** ** The tree in memory *)

Lemma agree_on_app l1 l2 m m' :
  agree_on (l1 ++ l2) m m' -> agree_on l1 m m' /\ agree_on l2 m m'.
Proof.
  intros H. split; intros a Ha; apply H, in_or_app; auto.
Qed.

Lemma rep_frame m m' t par :
  agree_on (addrs t) m m' -> rep m t par -> rep m' t par.
Proof.
  revert par. induction t as [|l IHl a sz r IHr]; intros par Ha; [auto|].
  rewrite addrs_T in Ha. cbn [rep].
  intros (H0 & H1 & H2 & H3 & Hl & Hr).
  destruct (Ha a (or_introl eq_refl)) as (E0 & E1 & E2 & E3).
  assert (Hal : agree_on (addrs l) m m').
  { intros b Hb. apply Ha. right. apply in_or_app. auto. }
  assert (Har : agree_on (addrs r) m m').
  { intros b Hb. apply Ha. right. apply in_or_app. auto. }
  repeat split; try congruence; auto.
Qed.

(** Changing the [parent] member of the root only. *)
Lemma rep_reparent m m' t par par' :
  rep m t par ->
  (forall a, In a (addrs t) ->
     m' a = m a /\ (a <> root_addr t -> m' (a + 16) = m (a + 16)) /\
     m' (a + 24) = m (a + 24) /\ m' (a + 32) = m (a + 32)) ->
  NoDup (addrs t) ->
  (is_E t = false -> m' (root_addr t + 16) = par') ->
  rep m' t par'.
Proof.
  destruct t as [|l a sz r]; [auto|].
  cbn [rep root_addr is_E]. rewrite addrs_T.
  intros (H0 & H1 & H2 & H3 & Hl & Hr) Ha Hn Hp.
  inversion Hn as [|? ? Hna Hn']; subst.
  destruct (Ha a (or_introl eq_refl)) as (E0 & E1 & E2 & E3).
  repeat split; try congruence; auto.
  - apply rep_frame with (m := m); [|exact Hl].
    intros b Hb.
    destruct (Ha b) as (F0 & F1 & F2 & F3); [right; apply in_or_app; auto|].
    repeat split; auto. apply F1. intros ->. apply Hna, in_or_app. auto.
  - apply rep_frame with (m := m); [|exact Hr].
    intros b Hb.
    destruct (Ha b) as (F0 & F1 & F2 & F3); [right; apply in_or_app; auto|].
    repeat split; auto. apply F1. intros ->. apply Hna, in_or_app. auto.
Qed.

Lemma rep_size m t par a sz :
  rep m t par -> In (a, sz) (nodes t) -> m a = sz.
Proof.
  revert par. induction t as [|l IHl b bsz r IHr]; intros par; [intros _ []|].
  cbn [rep nodes]. intros (H0 & H1 & H2 & H3 & Hl & Hr) [Hin|Hin].
  - inversion Hin; subst. reflexivity.
  - apply in_app_or in Hin. destruct Hin; eauto.
Qed.

(** A cell of a chunk [a] is no link cell of chunks apart from [a]. *)
Lemma not_link_cell l a k :
  (forall b, In b l -> apart a b) -> 0 <= k < 40 ->
  ~ link_cell l (a + k).
Proof.
  intros Hap Hk (b & Hb & Hc). specialize (Hap b Hb).
  unfold apart in Hap. lia.
Qed.

Lemma link_cell_incl l l' c :
  incl l l' -> link_cell l c -> link_cell l' c.
Proof. intros Hi (a & Ha & Hc). exists a. split; auto. Qed.

Lemma frame_agree (l l' : list Z) m m' :
  (forall c, ~ link_cell l c -> m' c = m c) ->
  (forall a b, In a l' -> In b l -> apart a b) ->
  agree_on l' m m'.
Proof.
  intros Hf Hap a Ha.
  assert (H : forall k, 0 <= k < 40 -> m' (a + k) = m (a + k)).
  { intros k Hk. apply Hf. apply not_link_cell; auto. }
  rewrite <- (Z.add_0_r a) at 1 2.
  repeat split; apply H; lia.
Qed.

(** ** [find_largest] and [find_smallest] *)

Lemma find_largest_spec t : forall par s fuel,
  header_pad s = 16 -> rep (mem s) t par -> is_E t = false ->
  (forall a, In a (addrs t) -> in_range a) ->
  (height t <= fuel)%nat ->
  find_largest fuel (root_addr t) s = Some (fst (t_max t)).
Proof.
  induction t as [|l IHl a sz r IHr]; intros par s fuel Hp Hrep HE Hr Hf;
    [discriminate|].
  destruct fuel as [|k]; [cbn [height] in Hf; lia|].
  cbn [rep] in Hrep. destruct Hrep as (H0 & H1 & H2 & H3 & Hl & Hrr).
  assert (Ha : in_range a) by (apply Hr; rewrite addrs_T; left; reflexivity).
  cbn [find_largest root_addr].
  rewrite (hn s a Hp Ha), (right_hn a Ha), H3.
  destruct r as [|rl ra rsz rr].
  - reflexivity.
  - assert (Hra : in_range ra).
    { apply Hr. rewrite !addrs_T. right. apply in_or_app. right. left.
      reflexivity. }
    cbn [root_addr]. unfold NULL.
    destruct (Z.eqb_spec ra 0) as [->|_]; [destruct Hra; lia|].
    change (t_max (T l a sz (T rl ra rsz rr))) with (t_max (T rl ra rsz rr)).
    apply (IHr a s k Hp Hrr eq_refl).
    + intros b Hb. apply Hr. rewrite addrs_T. right. apply in_or_app. auto.
    + cbn [height] in *. lia.
Qed.

Lemma find_smallest_spec t : forall par s fuel,
  header_pad s = 16 -> rep (mem s) t par -> is_E t = false ->
  (forall a, In a (addrs t) -> in_range a) ->
  (height t <= fuel)%nat ->
  find_smallest fuel (root_addr t) s = Some (fst (t_min t)).
Proof.
  induction t as [|l IHl a sz r IHr]; intros par s fuel Hp Hrep HE Hr Hf;
    [discriminate|].
  destruct fuel as [|k]; [cbn [height] in Hf; lia|].
  cbn [rep] in Hrep. destruct Hrep as (H0 & H1 & H2 & H3 & Hl & Hrr).
  assert (Ha : in_range a) by (apply Hr; rewrite addrs_T; left; reflexivity).
  cbn [find_smallest root_addr].
  rewrite (hn s a Hp Ha), (left_hn a Ha), H2.
  destruct l as [|ll la lsz lr].
  - reflexivity.
  - assert (Hla : in_range la).
    { apply Hr. rewrite !addrs_T. right. apply in_or_app. left. left.
      reflexivity. }
    cbn [root_addr]. unfold NULL.
    destruct (Z.eqb_spec la 0) as [->|_]; [destruct Hla; lia|].
    change (t_min (T (T ll la lsz lr) a sz r)) with (t_min (T ll la lsz lr)).
    apply (IHl a s k Hp Hl eq_refl).
    + intros b Hb. apply Hr. rewrite addrs_T. right. apply in_or_app. auto.
    + cbn [height] in *. lia.
Qed.

(** ** Pure facts used by the removal proof *)

Lemma del_root_eq alt x l sz r : del alt x (T l x sz r) = del_root alt (T l x sz r).
Proof. cbn [del]. rewrite Z.eqb_refl. reflexivity. Qed.

Lemma NoDup_T l a sz r :
  NoDup (addrs (T l a sz r)) ->
  NoDup (addrs l) /\ NoDup (addrs r) /\ ~ In a (addrs l) /\ ~ In a (addrs r) /\
  (forall b, In b (addrs l) -> ~ In b (addrs r)).
Proof.
  rewrite addrs_T. intros Hn. inversion Hn as [|? ? Hna Hn']; subst.
  split; [eapply NoDup_app_remove_r; eauto|].
  split; [eapply NoDup_app_remove_l; eauto|].
  split; [intros H; apply Hna, in_or_app; auto|].
  split; [intros H; apply Hna, in_or_app; auto|].
  intros b Hb Hb'. clear - Hn' Hb Hb'.
  induction (addrs l) as [|y l' IH]; [contradiction|].
  simpl in Hn'. inversion Hn'; subst. destruct Hb as [->|Hb].
  - apply H1, in_or_app. auto.
  - auto.
Qed.

Lemma t_max_T l a sz r : is_E r = false -> t_max (T l a sz r) = t_max r.
Proof. destruct r; [discriminate|reflexivity]. Qed.

Lemma t_min_T l a sz r : is_E l = false -> t_min (T l a sz r) = t_min l.
Proof. destruct l; [discriminate|reflexivity]. Qed.

Lemma remove_max_T l a sz r :
  is_E r = false -> remove_max (T l a sz r) = T l a sz (remove_max r).
Proof. destruct r; [discriminate|reflexivity]. Qed.

Lemma remove_min_T l a sz r :
  is_E l = false -> remove_min (T l a sz r) = T (remove_min l) a sz r.
Proof. destruct l; [discriminate|reflexivity]. Qed.

Lemma del_max alt t :
  NoDup (addrs t) -> is_E t = false -> del alt (fst (t_max t)) t = remove_max t.
Proof.
  induction t as [|l IHl a sz r IHr]; [discriminate|]. intros Hn _.
  destruct (NoDup_T _ _ _ _ Hn) as (Hnl & Hnr & Hal & Har & Hlr).
  destruct (is_E r) eqn:Er.
  - apply is_E_true in Er. subst r.
    cbn [t_max fst remove_max]. rewrite del_root_eq. cbn [del_root is_E].
    destruct (is_E l) eqn:El; [apply is_E_true in El; subst|]; reflexivity.
  - rewrite (t_max_T l a sz r Er), (remove_max_T l a sz r Er).
    pose proof (t_max_addr_in r Er) as Hin.
    cbn [del]. destruct (Z.eqb_spec a (fst (t_max r))) as [e|_].
    { exfalso. apply Har. rewrite e. exact Hin. }
    rewrite del_absent; [|intros H; exact (Hlr _ H Hin)].
    rewrite IHr; auto.
Qed.

Lemma del_min alt t :
  NoDup (addrs t) -> is_E t = false -> del alt (fst (t_min t)) t = remove_min t.
Proof.
  induction t as [|l IHl a sz r IHr]; [discriminate|]. intros Hn _.
  destruct (NoDup_T _ _ _ _ Hn) as (Hnl & Hnr & Hal & Har & Hlr).
  destruct (is_E l) eqn:El.
  - apply is_E_true in El. subst l.
    cbn [t_min fst remove_min]. rewrite del_root_eq. cbn [del_root is_E].
    reflexivity.
  - rewrite (t_min_T l a sz r El), (remove_min_T l a sz r El).
    pose proof (t_min_addr_in l El) as Hin.
    cbn [del]. destruct (Z.eqb_spec a (fst (t_min l))) as [e|_].
    { exfalso. apply Hal. rewrite e. exact Hin. }
    rewrite (del_absent alt _ r); [|intros H; exact (Hlr _ Hin H)].
    rewrite IHl; auto.
Qed.

Lemma two_children_absent x t : ~ In x (addrs t) -> two_children x t = false.
Proof.
  induction t as [|l IHl a sz r IHr]; [reflexivity|].
  rewrite addrs_T. intros H. cbn [two_children].
  destruct (Z.eqb_spec a x) as [->|_]; [exfalso; apply H; left; reflexivity|].
  rewrite IHl, IHr; [reflexivity| |];
    intros Hx; apply H; right; apply in_or_app; auto.
Qed.

Lemma two_children_max t :
  NoDup (addrs t) -> two_children (fst (t_max t)) t = false.
Proof.
  induction t as [|l IHl a sz r IHr]; [reflexivity|]. intros Hn.
  destruct (NoDup_T _ _ _ _ Hn) as (Hnl & Hnr & Hal & Har & Hlr).
  destruct (is_E r) eqn:Er.
  - apply is_E_true in Er. subst r.
    cbn [t_max fst two_children]. rewrite Z.eqb_refl. cbn [is_E negb].
    apply andb_false_r.
  - rewrite (t_max_T l a sz r Er).
    pose proof (t_max_addr_in r Er) as Hin.
    cbn [two_children].
    destruct (Z.eqb_spec a (fst (t_max r))) as [e|_].
    { exfalso. apply Har. rewrite e. exact Hin. }
    rewrite two_children_absent; [|intros H; exact (Hlr _ H Hin)].
    rewrite IHr; auto.
Qed.

Lemma two_children_min t :
  NoDup (addrs t) -> two_children (fst (t_min t)) t = false.
Proof.
  induction t as [|l IHl a sz r IHr]; [reflexivity|]. intros Hn.
  destruct (NoDup_T _ _ _ _ Hn) as (Hnl & Hnr & Hal & Har & Hlr).
  destruct (is_E l) eqn:El.
  - apply is_E_true in El. subst l.
    cbn [t_min fst two_children]. rewrite Z.eqb_refl. reflexivity.
  - rewrite (t_min_T l a sz r El).
    pose proof (t_min_addr_in l El) as Hin.
    cbn [two_children].
    destruct (Z.eqb_spec a (fst (t_min l))) as [e|_].
    { exfalso. apply Hal. rewrite e. exact Hin. }
    rewrite (two_children_absent _ r); [|intros H; exact (Hlr _ Hin H)].
    rewrite IHl; auto.
Qed.

Lemma NoDup_remove_max t : NoDup (addrs t) -> NoDup (addrs (remove_max t)).
Proof.
  intros Hn. destruct (is_E t) eqn:Et.
  - apply is_E_true in Et. subst. exact Hn.
  - pose proof (perm_nodes_addrs _ _ _ (perm_remove_max t Et)) as Hp.
    apply (Permutation_NoDup Hp) in Hn. inversion Hn; auto.
Qed.

Lemma NoDup_remove_min t : NoDup (addrs t) -> NoDup (addrs (remove_min t)).
Proof.
  intros Hn. destruct (is_E t) eqn:Et.
  - apply is_E_true in Et. subst. exact Hn.
  - pose proof (perm_nodes_addrs _ _ _ (perm_remove_min t Et)) as Hp.
    apply (Permutation_NoDup Hp) in Hn. inversion Hn; auto.
Qed.

Lemma max_not_in_remove_max t :
  NoDup (addrs t) -> is_E t = false ->
  ~ In (fst (t_max t)) (addrs (remove_max t)).
Proof.
  intros Hn Et.
  pose proof (perm_nodes_addrs _ _ _ (perm_remove_max t Et)) as Hp.
  apply (Permutation_NoDup Hp) in Hn. inversion Hn; auto.
Qed.

Lemma min_not_in_remove_min t :
  NoDup (addrs t) -> is_E t = false ->
  ~ In (fst (t_min t)) (addrs (remove_min t)).
Proof.
  intros Hn Et.
  pose proof (perm_nodes_addrs _ _ _ (perm_remove_min t Et)) as Hp.
  apply (Permutation_NoDup Hp) in Hn. inversion Hn; auto.
Qed.

Lemma in_addrs_remove_max b t : In b (addrs (remove_max t)) -> In b (addrs t).
Proof.
  intros H. apply in_addrs_nodes in H. destruct H as [sz H].
  apply in_remove_max in H. eapply in_nodes_addrs; eauto.
Qed.

Lemma in_addrs_remove_min b t : In b (addrs (remove_min t)) -> In b (addrs t).
Proof.
  intros H. apply in_addrs_nodes in H. destruct H as [sz H].
  apply in_remove_min in H. eapply in_nodes_addrs; eauto.
Qed.

Lemma in_addrs_del alt x b t : In b (addrs (del alt x t)) -> In b (addrs t).
Proof.
  intros H. apply in_addrs_nodes in H. destruct H as [sz H].
  apply in_del in H. eapply in_nodes_addrs; eauto.
Qed.

Lemma size_cell_not_link l a : good l -> In a l -> ~ link_cell l a.
Proof.
  intros (Hn & Hr & Hs) Ha (b & Hb & Hc).
  destruct (Z.eq_dec a b) as [->|Hne]; [lia|].
  specialize (Hs a b Ha Hb Hne). unfold apart in Hs. lia.
Qed.

(** ** [find_replacement] *)

Lemma find_replacement_spec ll x sx lr a s k :
  header_pad s = 16 -> rep (mem s) (T ll x sx lr) a ->
  is_E ll = false -> is_E lr = false ->
  (forall b, In b (addrs (T ll x sx lr)) -> in_range b) ->
  (height (T ll x sx lr) <= S k)%nat ->
  find_replacement k x s =
  Some (if negb (succ_pred_alternator s) then fst (t_max ll) else fst (t_min lr),
        set_succ_pred_alternator (negb (succ_pred_alternator s)) s).
Proof.
  intros Hp Hrep El Er Hr Hk.
  cbn [rep] in Hrep. destruct Hrep as (H0 & H1 & H2 & H3 & Hl & Hrr).
  assert (Hx : in_range x) by (apply Hr; rewrite addrs_T; left; reflexivity).
  unfold find_replacement.
  cbn [succ_pred_alternator set_succ_pred_alternator].
  cbn [mem set_succ_pred_alternator].
  rewrite (hn s x Hp Hx), (left_hn x Hx), (right_hn x Hx), H2, H3.
  cbn [height] in Hk.
  destruct (negb (succ_pred_alternator s)).
  - rewrite (find_largest_spec ll x); auto.
    + intros b Hb. apply Hr. rewrite addrs_T. right. apply in_or_app. auto.
    + lia.
  - rewrite (find_smallest_spec lr x); auto.
    + intros b Hb. apply Hr. rewrite addrs_T. right. apply in_or_app. auto.
    + lia.
Qed.

(** ** [remove_chunk] *)

(** Name the next [let] of the code under execution and keep its defining
    equation. *)
Ltac step_let :=
  match goal with
  | |- wp (let x := ?e in @?b x) ?Q =>
      let y := fresh x in
      let H := fresh "E" y in
      pose (y := e); change (wp (b y) Q); cbv beta;
      assert (H : y = e) by reflexivity; clearbody y
  end.

Lemma in_range_intro a :
  0 < a /\ a + 40 <= 18446744073709551616 -> in_range a.
Proof. intros H. exact H. Qed.

(** Deciding address comparisons.  An address is a base plus a constant;
    two addresses are compared from the facts that mention both bases. *)
Ltac base t :=
  lazymatch t with
  | ?u + _ => base u
  | ?u - _ => base u
  | _ => t
  end.

Ltac keep_only cb db :=
  repeat match goal with
  | H : ?T |- _ =>
      lazymatch type of T with Prop => idtac | _ => fail end;
      lazymatch T with keep _ => fail | _ => idtac end;
      tryif constr_eq cb db then idtac
      else lazymatch T with
           | context [cb] =>
               lazymatch T with context [db] => fail | _ => idtac end
           | _ => idtac
           end;
      clear H
  end.

Ltac addr_lia c d :=
  let cb := base c in let db := base d in
  keep_only cb db; unfold keep in *; lia.

Ltac eqb1 c d :=
  first [ rewrite (proj2 (Z.eqb_neq c d)) by addr_lia c d
        | rewrite (proj2 (Z.eqb_eq c d)) by addr_lia c d ].

Ltac eqb1_in H c d :=
  first [ rewrite (proj2 (Z.eqb_neq c d)) in H by addr_lia c d
        | rewrite (proj2 (Z.eqb_eq c d)) in H by addr_lia c d ].

Ltac eqbs :=
  repeat match goal with
  | |- context [?c =? ?d] => eqb1 c d
  end.

Ltac eqbs_in H :=
  repeat match type of H with
  | context [?c =? ?d] => eqb1_in H c d
  end.

(** [in_range] of an address from its range fact. *)
Ltac inr :=
  apply in_range_intro;
  match goal with
  | H : 0 < ?b /\ ?b + 40 <= _ |- 0 < ?b /\ _ => exact H
  end.

Ltac msimp := repeat (rewrite mem_store; eqbs).

Ltac branch :=
  try change (negb true) with false; try change (negb false) with true;
  cbv beta iota.

Lemma same_globals_store_r a v s s' :
  same_globals s s' -> same_globals s (store a v s').
Proof.
  intros H. eapply same_globals_trans; [exact H|apply same_globals_store].
Qed.

Lemma good_apart l a b :
  good l -> In a l -> In b l ->
  a = b \/ a + 40 <= b \/ b + 40 <= a.
Proof.
  intros (_ & _ & Hs) Ha Hb. destruct (Z.eq_dec a b) as [->|Hne]; [auto|].
  right. apply Hs; assumption.
Qed.

Lemma good_range l a :
  good l -> In a l -> 0 < a /\ a + 40 <= 18446744073709551616.
Proof. intros (_ & Hr & _) Ha. exact (Hr a Ha). Qed.

Lemma good_cons a l :
  good l -> in_range a -> (forall b, In b l -> apart a b) -> good (a :: l).
Proof.
  intros (Hn & Hr & Hs) Ha Hap. split; [|split].
  - constructor; [|exact Hn]. intros Hin. specialize (Hap a Hin).
    unfold apart in Hap. lia.
  - intros b [<-|Hb]; auto.
  - intros b c [<-|Hb] [<-|Hc] Hne; auto.
    + contradiction.
    + specialize (Hap b Hb). unfold apart in *. lia.
Qed.

Lemma good_head a l b :
  good (a :: l) -> In b l -> a + 40 <= b \/ b + 40 <= a.
Proof.
  intros (Hn & _ & Hs) Hb. apply Hs; [left; reflexivity|right; exact Hb|].
  intros ->. inversion Hn; contradiction.
Qed.

Create HintDb indb.
#[export] Hint Resolve in_eq in_cons in_or_app or_introl or_intror : indb.

Ltac in_tac :=
  solve [ auto 9 with indb | repeat rewrite addrs_T; auto 9 with indb ].

(** Distance and range facts of [good] lists, for [lia]. *)
Ltac far G b c :=
  let H := fresh "Hfar" in
  assert (H := good_apart _ b c G ltac:(in_tac) ltac:(in_tac)).

Ltac farh G b :=
  let H := fresh "Hfar" in
  assert (H := good_head _ _ b G ltac:(in_tac)).

Ltac rng G b :=
  let H := fresh "Hrng" in
  assert (H := good_range _ b G ltac:(in_tac)).

Lemma link_cell_here l a k :
  In a l -> (k = 16 \/ k = 24 \/ k = 32) -> link_cell l (a + k).
Proof. intros Ha Hk. exists a. split; [exact Ha|lia]. Qed.

Lemma parent_of_eq n : parent_of n = n.
Proof. reflexivity. Qed.

Lemma size_of_eq n : size_of n = n.
Proof. reflexivity. Qed.

Lemma NULL_eq : NULL = 0.
Proof. reflexivity. Qed.

Ltac step_let_as y H :=
  match goal with
  | |- wp (let x := ?e in @?b x) ?Q =>
      pose (y := e); change (wp (b y) Q); cbv beta;
      assert (H : y = e) by reflexivity; clearbody y
  end.

(** The first three lines of [remove_chunk]: the node of [to_remove], the
    node of its parent [a], and the parent's member that points to it. *)
Ltac rc_prefix s x a Hp Hx Ha M1 M2 M3 Hpcm :=
  cbn delta [remove_chunk] fix beta iota;
  let n1 := fresh "n" in let E1 := fresh "En" in
  step_let_as n1 E1; rewrite (hn s x Hp Hx) in E1; subst n1;
  let n2 := fresh "n" in let E2 := fresh "En" in
  step_let_as n2 E2; unfold parent_of in E2;
  rewrite M1, (hn s a Hp Ha) in E2; subst n2;
  let n3 := fresh "n" in let E3 := fresh "En" in
  step_let_as n3 E3;
  rewrite (left_hn a Ha), (right_hn a Ha), Hpcm in E3; subst n3;
  rewrite ?NULL_eq, ?(left_hn x Hx), ?(right_hn x Hx),
    ?(parent_of_eq (x + 16)), ?M2, ?M3.

Lemma remove_local ll x sx lr a off s k :
  header_pad s = 16 ->
  good (addrs (T ll x sx lr)) -> in_range a ->
  (forall b, In b (addrs (T ll x sx lr)) -> apart a b) ->
  rep (mem s) (T ll x sx lr) a ->
  (off = 24 \/ off = 32) ->
  (if mem s (a + 24) =? x then a + 24 else a + 32) = a + off ->
  (height (T ll x sx lr) <= S k)%nat ->
  (forall s1 y, header_pad s1 = 16 -> rep (mem s1) (T ll x sx lr) a ->
      In y (addrs (T ll x sx lr)) -> y <> x ->
      wp (remove_chunk k y s1) (removed y (T ll x sx lr) a s1)) ->
  wp (remove_chunk (S k) x s) (removed_local ll x sx lr a (a + off) s).
Proof.
  intros Hp Hg0 Ha Hap Hrep Hoff Hpcm Hk IH.
  assert (Hg : good (a :: addrs (T ll x sx lr))) by (apply good_cons; auto).
  destruct (NoDup_T _ _ _ _ (proj1 Hg0)) as (Nl & Nr & Hxl & Hxr & Hlr).
  pose proof Hrep as Hrep0.
  cbn [rep] in Hrep. destruct Hrep as (M0 & M1 & M2 & M3 & Rl & Rr).
  assert (Hx : in_range x) by (apply (proj1 (proj2 Hg0)); in_tac).
  assert (Hgx : good (x :: addrs ll ++ addrs lr))
    by (rewrite <- (addrs_T ll x sx lr); exact Hg0).
  change (keep (off = 24 \/ off = 32)) in Hoff.
  rng Hg a. rng Hg x. farh Hg x.
  unfold removed_local.
  destruct (is_E ll) eqn:El; destruct (is_E lr) eqn:Er.
  - (* no child *)
    apply is_E_true in El, Er. subst ll lr.
    cbn [is_E negb andb del_root root_addr] in *. unfold NULL in *.
    rc_prefix s x a Hp Hx Ha M1 M2 M3 Hpcm.
    eqbs. branch. cbn [wp].
    split; [apply same_globals_store|]. split; [reflexivity|].
    split; [reflexivity|]. split; [exact I|]. split.
    + msimp. reflexivity.
    + intros c Hc _. rewrite mem_store.
      rewrite (proj2 (Z.eqb_neq c (a + off))) by exact Hc. reflexivity.
  - (* right child only *)
    apply is_E_true in El. subst ll.
    cbn [is_E negb andb del_root root_addr] in *. unfold NULL in *.
    pose proof (root_in_addrs lr Er) as Hra. set (ra := root_addr lr) in *.
    rng Hg ra. farh Hg ra. farh Hgx ra.
    rc_prefix s x a Hp Hx Ha M1 M2 M3 Hpcm.
    eqbs. branch. step_let. subst s1.
    msimp. rewrite M3, M1. rewrite hn by first [exact Hp|inr].
    cbn [wp]. unfold parent_of.
    split; [apply same_globals_store_r, same_globals_store|].
    split; [reflexivity|]. split; [reflexivity|]. split; [|split].
    + apply rep_reparent with (m := mem s) (par := x); auto.
      * intros b Hb. farh Hg b. farh Hgx b. far Hg ra b.
        repeat split; [|intros Hne; fold ra in Hne| |]; msimp; reflexivity.
      * intros _. msimp. reflexivity.
    + msimp. reflexivity.
    + intros c Hc Hnl. rewrite !mem_store.
      rewrite (proj2 (Z.eqb_neq c (a + off))) by exact Hc.
      destruct (Z.eqb_spec c (ra + 16)) as [->|_]; [|reflexivity].
      exfalso. apply Hnl. apply link_cell_here; [in_tac|auto].
  - (* left child only *)
    apply is_E_true in Er. subst lr.
    cbn [is_E negb andb del_root root_addr] in *. rewrite El.
    unfold NULL in *.
    pose proof (root_in_addrs ll El) as Hla. set (la := root_addr ll) in *.
    rng Hg la. farh Hg la. farh Hgx la.
    rc_prefix s x a Hp Hx Ha M1 M2 M3 Hpcm.
    eqbs. branch. step_let. subst s1.
    msimp. rewrite M2, M1. rewrite hn by first [exact Hp|inr].
    cbn [wp]. unfold parent_of.
    split; [apply same_globals_store_r, same_globals_store|].
    split; [reflexivity|]. split; [reflexivity|]. split; [|split].
    + apply rep_reparent with (m := mem s) (par := x); auto.
      * intros b Hb. farh Hg b. farh Hgx b. far Hg la b.
        repeat split; [|intros Hne; fold la in Hne| |]; msimp; reflexivity.
      * intros _. msimp. reflexivity.
    + msimp. reflexivity.
    + intros c Hc Hnl. rewrite !mem_store.
      rewrite (proj2 (Z.eqb_neq c (a + off))) by exact Hc.
      destruct (Z.eqb_spec c (la + 16)) as [->|_]; [|reflexivity].
      exfalso. apply Hnl. apply link_cell_here; [in_tac|auto].
  - (* two children *)
    pose proof (root_in_addrs ll El) as Hla. set (la := root_addr ll) in *.
    pose proof (root_in_addrs lr Er) as Hra. set (ra := root_addr lr) in *.
    rng Hg la. rng Hg ra.
    cbn [is_E negb andb del_root root_addr] in *. rewrite El, Er.
    unfold NULL in *.
    rc_prefix s x a Hp Hx Ha M1 M2 M3 Hpcm.
    eqbs. branch.
    rewrite (find_replacement_spec ll x sx lr a s k Hp Hrep0 El Er);
      [|intros b Hb; apply (proj1 (proj2 Hg0)); exact Hb|exact Hk].
    cbv beta iota.
    set (alt := negb (succ_pred_alternator s)).
    set (s1 := set_succ_pred_alternator alt s).
    set (repl := if alt then fst (t_max ll) else fst (t_min lr)).
    set (rsz := if alt then snd (t_max ll) else snd (t_min lr)).
    set (ll' := if alt then remove_max ll else ll).
    set (lr' := if alt then lr else remove_min lr).
    assert (Hrin : In (repl, rsz) (nodes (if alt then ll else lr))).
    { unfold repl, rsz. destruct alt; [rewrite <- t_max_pair; apply t_max_in
                                      |rewrite <- t_min_pair; apply t_min_in];
        assumption. }
    assert (Hrepl : In repl (addrs (T ll x sx lr))).
    { apply in_nodes_addrs in Hrin. destruct alt; in_tac. }
    assert (Hrx : repl <> x).
    { intros e. apply in_nodes_addrs in Hrin. rewrite e in Hrin.
      destruct alt; contradiction. }
    assert (Hdel : forall al, del al repl (T ll x sx lr) = T ll' x sx lr').
    { intros al. cbn [del].
      destruct (Z.eqb_spec x repl) as [e|_]; [congruence|].
      apply in_nodes_addrs in Hrin.
      unfold repl, ll', lr' in *. destruct alt.
      - rewrite del_max by assumption. rewrite del_absent; [reflexivity|].
        apply Hlr. exact Hrin.
      - rewrite del_min by assumption. rewrite del_absent; [reflexivity|].
        intros H. exact (Hlr _ H Hrin). }
    assert (Htc : two_children repl (T ll x sx lr) = false).
    { cbn [two_children]. destruct (Z.eqb_spec x repl) as [e|_]; [congruence|].
      apply in_nodes_addrs in Hrin.
      unfold repl in *. destruct alt.
      - rewrite two_children_max by assumption.
        rewrite two_children_absent; [reflexivity|]. apply Hlr. exact Hrin.
      - rewrite two_children_min by assumption.
        rewrite two_children_absent; [reflexivity|].
        intros H. exact (Hlr _ H Hrin). }
    assert (Hsub_l : forall b, In b (addrs ll') -> In b (addrs ll)).
    { intros b. unfold ll'. destruct alt; [apply in_addrs_remove_max|auto]. }
    assert (Hsub_r : forall b, In b (addrs lr') -> In b (addrs lr)).
    { intros b. unfold lr'. destruct alt; [auto|apply in_addrs_remove_min]. }
    assert (Hnot_l : ~ In repl (addrs ll')).
    { unfold repl, ll'. destruct alt.
      - apply max_not_in_remove_max; assumption.
      - intros H. apply in_nodes_addrs in Hrin. exact (Hlr _ H Hrin). }
    assert (Hnot_r : ~ In repl (addrs lr')).
    { unfold repl, lr'. destruct alt.
      - apply in_nodes_addrs in Hrin. apply Hlr. exact Hrin.
      - apply min_not_in_remove_min; assumption. }
    assert (Nl' : NoDup (addrs ll')).
    { unfold ll'. destruct alt; [apply NoDup_remove_max|]; assumption. }
    assert (Nr' : NoDup (addrs lr')).
    { unfold lr'. destruct alt; [|apply NoDup_remove_min]; assumption. }
    assert (Hsz : mem s repl = rsz).
    { apply rep_size with (t := if alt then ll else lr) (par := x);
        [destruct alt; assumption|exact Hrin]. }
    assert (Hpost :
      (if alt
       then T (remove_max ll) (fst (t_max ll)) (snd (t_max ll)) lr
       else T ll (fst (t_min lr)) (snd (t_min lr)) (remove_min lr))
      = T ll' repl rsz lr').
    { unfold ll', lr', repl, rsz. destruct alt; reflexivity. }
    rewrite Hpost. clear Hpost.
    clearbody repl rsz ll' lr'.
    assert (Hrr : in_range repl) by (apply (proj1 (proj2 Hg0)); exact Hrepl).
    rng Hg repl. farh Hg repl. far Hg x repl.
    step_let. rewrite (hn s1 repl Hp Hrr) in Ereplacement_node.
    subst replacement_node.
    specialize (IH s1 repl Hp Hrep0 Hrepl Hrx).
    destruct (remove_chunk k repl s1) as [s2|]; [|contradiction].
    cbn [wp] in IH. destruct IH as (G2 & EA2 & SP2 & R2 & F2).
    rewrite Hdel in R2. rewrite Htc in SP2.
    cbn [rep] in R2. destruct R2 as (N0 & N1 & N2 & N3 & Rl2 & Rr2).
    assert (Hp2 : header_pad s2 = 16).
    { destruct G2 as (_ & _ & _ & e & _). rewrite e. exact Hp. }
    assert (Hsz2 : mem s2 repl = rsz).
    { rewrite F2; [exact Hsz|]. apply size_cell_not_link; assumption. }
    cbv beta iota.
    rewrite ?(parent_of_eq (repl + 16)).
    rewrite ?(left_hn repl Hrr), ?(right_hn repl Hrr).
    step_let. rewrite N1 in Es3. subst s3.
    step_let. rewrite mem_store in Es4. eqbs_in Es4. rewrite N2 in Es4.
    subst s4.
    step_let. rewrite !mem_store in Es5. eqbs_in Es5. rewrite N3 in Es5.
    subst s5.
    step_let. subst s6.
    assert (Hxl' : forall b, In b (addrs ll') -> b <> repl /\ ~ In b (addrs lr')).
    { intros b Hb. split; [intros ->; contradiction|].
      intros Hb'. exact (Hlr _ (Hsub_l _ Hb) (Hsub_r _ Hb')). }
    assert (Hxr' : forall b, In b (addrs lr') -> b <> repl /\ ~ In b (addrs ll')).
    { intros b Hb. split; [intros ->; contradiction|].
      intros Hb'. exact (Hlr _ (Hsub_l _ Hb') (Hsub_r _ Hb)). }
    assert (Hfr : forall c, ~ link_cell (addrs (T ll x sx lr)) c ->
              c <> repl + 16 /\ c <> repl + 24 /\ c <> repl + 32 /\
              (forall b, In b (addrs ll' ++ addrs lr') -> c <> b + 16)).
    { intros c Hnl. repeat split.
      - intros ->. apply Hnl, link_cell_here; auto.
      - intros ->. apply Hnl, link_cell_here; auto.
      - intros ->. apply Hnl, link_cell_here; auto.
      - intros b Hb ->. apply Hnl, link_cell_here; auto.
        apply in_app_or in Hb. destruct Hb; in_tac. }
    assert (G8 : same_globals s s2).
    { eapply same_globals_trans; [apply same_globals_set_sp|exact G2]. }
    assert (Hb_l : forall b, In b (addrs ll') ->
              (0 < b /\ b + 40 <= 18446744073709551616) /\
              (a + 40 <= b \/ b + 40 <= a) /\ (x + 40 <= b \/ b + 40 <= x) /\
              (repl + 40 <= b \/ b + 40 <= repl)).
    { intros b Hb. destruct (Hxl' b Hb) as [Hne _].
      split; [apply (good_range _ b Hg); in_tac|].
      split; [apply (good_head _ _ b Hg); in_tac|].
      split; [apply (good_head _ _ b Hgx); in_tac|].
      destruct (good_apart _ repl b Hg ltac:(in_tac) ltac:(in_tac)) as [e|];
        [congruence|assumption]. }
    assert (Hb_r : forall b, In b (addrs lr') ->
              (0 < b /\ b + 40 <= 18446744073709551616) /\
              (a + 40 <= b \/ b + 40 <= a) /\ (x + 40 <= b \/ b + 40 <= x) /\
              (repl + 40 <= b \/ b + 40 <= repl)).
    { intros b Hb. destruct (Hxr' b Hb) as [Hne _].
      split; [apply (good_range _ b Hg); in_tac|].
      split; [apply (good_head _ _ b Hg); in_tac|].
      split; [apply (good_head _ _ b Hgx); in_tac|].
      destruct (good_apart _ repl b Hg ltac:(in_tac) ltac:(in_tac)) as [e|];
        [congruence|assumption]. }
    assert (Hb_lr : forall b c, In b (addrs ll') -> In c (addrs lr') ->
              b + 40 <= c \/ c + 40 <= b).
    { intros b c Hb Hc. destruct (Hxl' b Hb) as [_ Hn].
      destruct (good_apart _ b c Hg ltac:(in_tac) ltac:(in_tac)) as [->|];
        [contradiction|assumption]. }
    assert (Hb_ll : forall b c, In b (addrs ll') -> In c (addrs ll') ->
              b = c \/ b + 40 <= c \/ c + 40 <= b).
    { intros b c Hb Hc. apply (good_apart _ b c Hg); in_tac. }
    assert (Hb_rr : forall b c, In b (addrs lr') -> In c (addrs lr') ->
              b = c \/ b + 40 <= c \/ c + 40 <= b).
    { intros b c Hb Hc. apply (good_apart _ b c Hg); in_tac. }
    step_let.
    rewrite !mem_store in Es7. eqbs_in Es7. rewrite N3 in Es7.
    destruct (is_E lr') eqn:Er'.
    + apply is_E_true in Er'. subst lr'. cbn [root_addr] in Es7, N3.
      rewrite NULL_eq in Es7, N3. eqbs_in Es7. cbn [negb] in Es7.
      subst s7.
      step_let. rewrite !mem_store in Es8. eqbs_in Es8. rewrite N2 in Es8.
      destruct (is_E ll') eqn:El'.
      * apply is_E_true in El'. subst ll'. cbn [root_addr] in Es8, N2.
        rewrite NULL_eq in Es8, N2. eqbs_in Es8. cbn [negb] in Es8.
        subst s8. cbn [wp rep root_addr].
        split; [repeat apply same_globals_store_r; exact G8|].
        split; [exact EA2|]. split; [exact SP2|].
        split; [|split].
        { repeat split; msimp; auto. }
        { msimp. reflexivity. }
        { intros c Hc Hnl. destruct (Hfr c Hnl) as (? & ? & ? & ?).
          msimp. apply F2, Hnl. }
      * pose proof (root_in_addrs ll' El') as Hrll.
        set (rll := root_addr ll') in *.
        destruct (Hb_l rll Hrll) as (? & ? & ? & ?).
        eqbs_in Es8. cbn [negb] in Es8. unfold parent_of in Es8.
        rewrite hn in Es8 by first [exact Hp2|inr].
        subst s8. cbn [wp rep root_addr].
        split; [repeat apply same_globals_store_r; exact G8|].
        split; [exact EA2|]. split; [exact SP2|].
        split; [|split].
        { repeat split; try (msimp; auto; fail).
          apply rep_reparent with (m := mem s2) (par := x); auto.
          - intros b Hb. destruct (Hb_l b Hb) as (? & ? & ? & ?).
            pose proof (Hb_ll rll b Hrll Hb).
            repeat split; [|intros Hne; fold rll in Hne| |]; msimp; reflexivity.
          - intros _. msimp. reflexivity. }
        { msimp. reflexivity. }
        { intros c Hc Hnl. destruct (Hfr c Hnl) as (? & ? & ? & Hcb).
          assert (c <> rll + 16) by (apply Hcb; in_tac).
          msimp. apply F2, Hnl. }
    + pose proof (root_in_addrs lr' Er') as Hrlr.
      set (rlr := root_addr lr') in *.
      destruct (Hb_r rlr Hrlr) as (? & ? & ? & ?).
      eqbs_in Es7. cbn [negb] in Es7. unfold parent_of in Es7.
      rewrite hn in Es7 by first [exact Hp2|inr].
      subst s7.
      step_let. rewrite !mem_store in Es8. eqbs_in Es8. rewrite N2 in Es8.
      destruct (is_E ll') eqn:El'.
      * apply is_E_true in El'. subst ll'. cbn [root_addr] in Es8, N2.
        rewrite NULL_eq in Es8, N2. eqbs_in Es8. cbn [negb] in Es8.
        subst s8. cbn [wp rep root_addr].
        split; [repeat apply same_globals_store_r; exact G8|].
        split; [exact EA2|]. split; [exact SP2|].
        split; [|split].
        { repeat split; try (msimp; auto; fail).
          apply rep_reparent with (m := mem s2) (par := x); auto.
          - intros b Hb. destruct (Hb_r b Hb) as (? & ? & ? & ?).
            pose proof (Hb_rr rlr b Hrlr Hb).
            repeat split; [|intros Hne; fold rlr in Hne| |]; msimp;
              reflexivity.
          - intros _. try fold rlr. try fold rll. msimp. reflexivity. }
        { msimp. reflexivity. }
        { intros c Hc Hnl. destruct (Hfr c Hnl) as (? & ? & ? & Hcb).
          assert (c <> rlr + 16) by (apply Hcb; in_tac).
          msimp. apply F2, Hnl. }
      * pose proof (root_in_addrs ll' El') as Hrll.
        set (rll := root_addr ll') in *.
        destruct (Hb_l rll Hrll) as (? & ? & ? & ?).
        pose proof (Hb_lr rll rlr Hrll Hrlr).
        eqbs_in Es8. cbn [negb] in Es8. unfold parent_of in Es8.
        rewrite hn in Es8 by first [exact Hp2|inr].
        subst s8. cbn [wp rep root_addr].
        split; [repeat apply same_globals_store_r; exact G8|].
        split; [exact EA2|]. split; [exact SP2|].
        split; [|split].
        { repeat split; try (msimp; auto; fail).
          - apply rep_reparent with (m := mem s2) (par := x); auto.
            + intros b Hb. destruct (Hb_l b Hb) as (? & ? & ? & ?).
              pose proof (Hb_ll rll b Hrll Hb).
              pose proof (Hb_lr b rlr Hb Hrlr).
              repeat split; [|intros Hne; fold rll in Hne| |]; msimp;
                reflexivity.
            + intros _. try fold rlr. try fold rll. msimp. reflexivity.
          - apply rep_reparent with (m := mem s2) (par := x); auto.
            + intros b Hb. destruct (Hb_r b Hb) as (? & ? & ? & ?).
              pose proof (Hb_rr rlr b Hrlr Hb).
              pose proof (Hb_lr rll b Hrll Hb).
              repeat split; [|intros Hne; fold rlr in Hne| |]; msimp;
                reflexivity.
            + intros _. try fold rlr. try fold rll. msimp. reflexivity. }
        { msimp. reflexivity. }
        { intros c Hc Hnl. destruct (Hfr c Hnl) as (? & ? & ? & Hcb).
          assert (c <> rlr + 16) by (apply Hcb; in_tac).
          assert (c <> rll + 16) by (apply Hcb; in_tac).
          msimp. apply F2, Hnl. }
Qed.

Lemma apart_cells a b k j :
  apart a b -> 0 <= k < 40 -> 0 <= j < 40 -> a + k <> b + j.
Proof. unfold apart. lia. Qed.

(** Putting a modified left (right) subtree back under its parent. *)
Lemma rebuild_l m m' l l' a sz r par :
  good (addrs (T l a sz r)) ->
  rep m (T l a sz r) par ->
  rep m' l' a -> m' (a + 24) = root_addr l' ->
  (forall c, c <> a + 24 -> ~ link_cell (addrs l) c -> m' c = m c) ->
  rep m' (T l' a sz r) par.
Proof.
  intros Hg Hrep Hl' Hroot Hf.
  destruct (good_T _ _ _ _ Hg) as (Hgl & Hgr & Ha & Hal & Har & Hl & Hr & Hlr).
  cbn [rep] in *. destruct Hrep as (M0 & M1 & M2 & M3 & Rl & Rr).
  assert (Hna : forall k, 0 <= k < 40 -> ~ link_cell (addrs l) (a + k)).
  { intros k Hk. apply not_link_cell; [|exact Hk]. intros b Hb.
    apply (Hl b Hb). }
  split; [|split; [|split; [|split; [|split]]]].
  - rewrite <- M0. rewrite <- (Z.add_0_r a) at 1 2. apply Hf; [lia|].
    apply Hna. lia.
  - rewrite <- M1. apply Hf; [lia|]. apply Hna. lia.
  - exact Hroot.
  - rewrite <- M3. apply Hf; [lia|]. apply Hna. lia.
  - exact Hl'.
  - apply rep_frame with (m := m); [|exact Rr].
    intros b Hb. destruct (Hr b Hb) as (Hab & _ & _).
    assert (H : forall k, 0 <= k < 40 -> m' (b + k) = m (b + k)).
    { intros k Hk. apply Hf.
      - apply not_eq_sym. apply apart_cells; [exact Hab|lia|exact Hk].
      - apply not_link_cell; [|exact Hk]. intros c Hc.
        pose proof (Hlr c b Hc Hb) as H. unfold apart in *. lia. }
    rewrite <- (Z.add_0_r b) at 1 2. repeat split; apply H; lia.
Qed.

Lemma rebuild_r m m' l r r' a sz par :
  good (addrs (T l a sz r)) ->
  rep m (T l a sz r) par ->
  rep m' r' a -> m' (a + 32) = root_addr r' ->
  (forall c, c <> a + 32 -> ~ link_cell (addrs r) c -> m' c = m c) ->
  rep m' (T l a sz r') par.
Proof.
  intros Hg Hrep Hr' Hroot Hf.
  destruct (good_T _ _ _ _ Hg) as (Hgl & Hgr & Ha & Hal & Har & Hl & Hr & Hlr).
  cbn [rep] in *. destruct Hrep as (M0 & M1 & M2 & M3 & Rl & Rr).
  assert (Hna : forall k, 0 <= k < 40 -> ~ link_cell (addrs r) (a + k)).
  { intros k Hk. apply not_link_cell; [|exact Hk]. intros b Hb.
    apply (Hr b Hb). }
  split; [|split; [|split; [|split; [|split]]]].
  - rewrite <- M0. rewrite <- (Z.add_0_r a) at 1 2. apply Hf; [lia|].
    apply Hna. lia.
  - rewrite <- M1. apply Hf; [lia|]. apply Hna. lia.
  - rewrite <- M2. apply Hf; [lia|]. apply Hna. lia.
  - exact Hroot.
  - apply rep_frame with (m := m); [|exact Rl].
    intros b Hb. destruct (Hl b Hb) as (Hab & _ & _).
    assert (H : forall k, 0 <= k < 40 -> m' (b + k) = m (b + k)).
    { intros k Hk. apply Hf.
      - apply not_eq_sym. apply apart_cells; [exact Hab|lia|exact Hk].
      - apply not_link_cell; [|exact Hk]. intros c Hc.
        pose proof (Hlr b c Hb Hc) as H. unfold apart in *. lia. }
    rewrite <- (Z.add_0_r b) at 1 2. repeat split; apply H; lia.
  - exact Hr'.
Qed.

Lemma link_cell_T_l l a sz r c :
  link_cell (addrs l) c -> link_cell (addrs (T l a sz r)) c.
Proof.
  apply link_cell_incl. intros b Hb. rewrite addrs_T. right.
  apply in_or_app. auto.
Qed.

Lemma link_cell_T_r l a sz r c :
  link_cell (addrs r) c -> link_cell (addrs (T l a sz r)) c.
Proof.
  apply link_cell_incl. intros b Hb. rewrite addrs_T. right.
  apply in_or_app. auto.
Qed.

Lemma link_cell_T_root l a sz r k :
  k = 16 \/ k = 24 \/ k = 32 -> link_cell (addrs (T l a sz r)) (a + k).
Proof.
  intros Hk. apply link_cell_here; [rewrite addrs_T; left; reflexivity|auto].
Qed.

Theorem remove_chunk_spec t : forall par s x fuel,
  header_pad s = 16 -> rep (mem s) t par -> good (addrs t) ->
  In x (addrs t) -> x <> root_addr t -> (height t <= fuel)%nat ->
  wp (remove_chunk fuel x s) (removed x t par s).
Proof.
  induction t as [|l IHl a sz r IHr]; intros par s x fuel Hp Hrep Hg Hx Hne Hf;
    [contradiction|].
  cbn [root_addr] in Hne.
  destruct fuel as [|k]; [cbn [height] in Hf; lia|].
  assert (Hhl : (height l <= k)%nat) by (cbn [height] in Hf; lia).
  assert (Hhr : (height r <= k)%nat) by (cbn [height] in Hf; lia).
  destruct (good_T _ _ _ _ Hg) as (Hgl & Hgr & Ha & Hal & Har & Hl & Hr & Hlr).
  pose proof Hrep as Hrep0.
  cbn [rep] in Hrep. destruct Hrep as (M0 & M1 & M2 & M3 & Rl & Rr).
  rewrite addrs_T in Hx. destruct Hx as [Hx|Hx]; [congruence|].
  apply in_app_or in Hx.
  assert (Hdel : forall alt,
            del alt x (T l a sz r) = T (del alt x l) a sz (del alt x r)).
  { intros alt. cbn [del]. destruct (Z.eqb_spec a x); [congruence|reflexivity]. }
  assert (Htc : two_children x (T l a sz r)
                = two_children x l || two_children x r).
  { cbn [two_children]. destruct (Z.eqb_spec a x); [congruence|reflexivity]. }
  unfold removed. rewrite Hdel, Htc.
  destruct Hx as [Hx|Hx].
  - (* x in the left subtree *)
    assert (Hxr : ~ In x (addrs r)) by (apply (Hl x Hx)).
    rewrite (del_absent _ x r Hxr), (two_children_absent x r Hxr), orb_false_r.
    destruct (Z.eq_dec x (root_addr l)) as [Hroot|Hroot].
    + destruct l as [|ll lx sx lr]; [contradiction|].
      cbn [root_addr] in Hroot. subst lx.
      eapply wp_mono.
      * apply (remove_local ll x sx lr a 24 s k); auto.
        -- intros b Hb. apply (Hl b Hb).
        -- rewrite M2. cbn [root_addr]. rewrite Z.eqb_refl. reflexivity.
      * intros s' (G & EA & SP & R & Hroot & F).
        rewrite del_root_eq.
        cbn [two_children]. rewrite Z.eqb_refl.
        split; [exact G|]. split; [exact EA|]. split; [exact SP|]. split.
        -- eapply rebuild_l; eauto.
        -- intros c Hc. apply F.
           ++ intros ->. apply Hc, link_cell_T_root. auto.
           ++ intros H. apply Hc, link_cell_T_l, H.
    + eapply wp_mono.
      * apply (IHl a s x (S k)); auto.
      * intros s' (G & EA & SP & R & F).
        split; [exact G|]. split; [exact EA|]. split; [exact SP|]. split.
        -- eapply rebuild_l; eauto.
           rewrite root_del by auto. rewrite <- M2. apply F.
           apply not_link_cell; [|lia]. intros b Hb. apply (Hl b Hb).
        -- intros c Hc. apply F. intros H. apply Hc, link_cell_T_l, H.
  - (* x in the right subtree *)
    assert (Hxl : ~ In x (addrs l)) by (apply (Hr x Hx)).
    rewrite (del_absent _ x l Hxl), (two_children_absent x l Hxl), orb_false_l.
    destruct (Z.eq_dec x (root_addr r)) as [Hroot|Hroot].
    + destruct r as [|rl rx sx rr]; [contradiction|].
      cbn [root_addr] in Hroot. subst rx.
      eapply wp_mono.
      * apply (remove_local rl x sx rr a 32 s k); auto.
        -- intros b Hb. apply (Hr b Hb).
        -- rewrite M2.
           destruct (Z.eqb_spec (root_addr l) x) as [e|_]; [|reflexivity].
           exfalso. apply Hxl. rewrite <- e. apply root_in_addrs.
           destruct l; [|reflexivity]. cbn [root_addr] in e.
           destruct (Hr x Hx) as (_ & [Hpos _] & _). unfold NULL in e. lia.
      * intros s' (G & EA & SP & R & Hroot & F).
        rewrite del_root_eq.
        cbn [two_children]. rewrite Z.eqb_refl.
        split; [exact G|]. split; [exact EA|]. split; [exact SP|]. split.
        -- eapply rebuild_r; eauto.
        -- intros c Hc. apply F.
           ++ intros ->. apply Hc, link_cell_T_root. auto.
           ++ intros H. apply Hc, link_cell_T_r, H.
    + eapply wp_mono.
      * apply (IHr a s x (S k)); auto.
      * intros s' (G & EA & SP & R & F).
        split; [exact G|]. split; [exact EA|]. split; [exact SP|]. split.
        -- eapply rebuild_r; eauto.
           rewrite root_del by auto. rewrite <- M3. apply F.
           apply not_link_cell; [|lia]. intros b Hb. apply (Hr b Hb).
        -- intros c Hc. apply F. intros H. apply Hc, link_cell_T_r, H.
Qed.

(** ** [add_chunk] *)

Lemma xorb_odd_S b n : negb (xorb b (Nat.odd n)) = xorb b (Nat.odd (S n)).
Proof.
  rewrite Nat.odd_succ, <- Nat.negb_odd. destruct b, (Nat.odd n); reflexivity.
Qed.

Lemma link_cell_cons_l x l c : link_cell l c -> link_cell (x :: l) c.
Proof. apply link_cell_incl. intros b Hb. right. exact Hb. Qed.

Lemma good_cons_T x l a sz r :
  good (x :: addrs (T l a sz r)) ->
  good (x :: addrs l) /\ good (x :: addrs r) /\ good (addrs (T l a sz r)) /\
  (a + 40 <= x \/ x + 40 <= a) /\
  (0 < a /\ a + 40 <= 18446744073709551616) /\
  (0 < x /\ x + 40 <= 18446744073709551616).
Proof.
  intros Hg. pose proof Hg as (Hn & Hr & Hs).
  assert (Hn' : NoDup (x :: addrs l ++ addrs r)).
  { rewrite addrs_T in Hn. inversion Hn as [|? ? Hx Hn1]; subst.
    inversion Hn1 as [|? ? Ha Hn2]; subst. constructor; [|exact Hn2].
    intros H. apply Hx. right. exact H. }
  split; [|split; [|split; [|split; [|split]]]].
  - apply good_sub with (l := x :: addrs (T l a sz r)); auto.
    + inversion Hn' as [|? ? Hx Hn2]; subst. constructor.
      * intros H. apply Hx, in_or_app. auto.
      * eapply NoDup_app_remove_r; eauto.
    + intros b [<-|Hb]; [left; reflexivity|right]. in_tac.
  - apply good_sub with (l := x :: addrs (T l a sz r)); auto.
    + inversion Hn' as [|? ? Hx Hn2]; subst. constructor.
      * intros H. apply Hx, in_or_app. auto.
      * eapply NoDup_app_remove_l; eauto.
    + intros b [<-|Hb]; [left; reflexivity|right]. in_tac.
  - apply good_sub with (l := x :: addrs (T l a sz r)); auto.
    + inversion Hn; auto.
    + intros b Hb. right. exact Hb.
  - pose proof (good_head _ _ a Hg ltac:(in_tac)). lia.
  - apply (good_range _ a Hg). in_tac.
  - apply (good_range _ x Hg). in_tac.
Qed.

Theorem add_chunk_spec x xsz t : forall par s fuel,
  header_pad s = 16 -> rep (mem s) t par -> good (x :: addrs t) ->
  mem s x = xsz -> (height t < fuel)%nat ->
  wp (add_chunk fuel (root_addr t) x par s) (added x xsz t par s).
Proof.
  induction t as [|l IHl a sz r IHr]; intros par s fuel Hp Hrep Hg Hsz Hf.
  - (* empty tree: the chunk becomes the leaf *)
    destruct fuel as [|k]; [lia|].
    rng Hg x.
    assert (Hx : in_range x) by inr.
    cbn delta [add_chunk] fix beta iota.
    step_let. change (root_addr E) with NULL. rewrite Z.eqb_refl. cbv beta iota.
    step_let. rewrite (in_use_addr x Hx) in Es1. subst s1.
    step_let. rewrite hn in Eto_add_node by first [exact Hp|exact Hx].
    subst to_add_node.
    rewrite (left_hn x Hx), (right_hn x Hx), parent_of_eq.
    cbv zeta. cbn [wp]. unfold added. cbn [fst snd ins ties root_addr rep].
    split; [reflexivity|].
    split; [repeat apply same_globals_store_r; apply same_globals_refl|].
    split; [reflexivity|].
    split; [cbn [Nat.odd]; rewrite xorb_false_r; reflexivity|].
    split; [|split].
    + repeat split; msimp; auto.
    + msimp. reflexivity.
    + intros c Hc Hc8.
      assert (c <> x + 16 /\ c <> x + 24 /\ c <> x + 32) as (? & ? & ?).
      { repeat split; intros ->; apply Hc, link_cell_here; auto with indb. }
      msimp. reflexivity.
  - (* a node: descend by size, ties by the alternator *)
    destruct fuel as [|k]; [lia|].
    assert (Hhl : (height l < k)%nat) by (cbn [height] in Hf; lia).
    assert (Hhr : (height r < k)%nat) by (cbn [height] in Hf; lia).
    destruct (good_cons_T _ _ _ _ _ Hg) as (Hgl & Hgr & Hgt & Hax & Hra & Hrx).
    destruct (good_T _ _ _ _ Hgt) as
      (_ & _ & Ha & Hal & Har & Hl & Hr & Hlr).
    pose proof Hrep as Hrep0.
    cbn [rep] in Hrep. destruct Hrep as (M0 & M1 & M2 & M3 & Rl & Rr).
    assert (HL : wp (do (r0, s1) <- add_chunk k (root_addr l) x a s;
                     Some (a, store (a + 24) r0 s1))
                    (fun res =>
                       fst res = a /\ same_globals s (snd res) /\
                       succ_pred_alternator (snd res) = succ_pred_alternator s /\
                       equals_alternator (snd res)
                       = xorb (equals_alternator s)
                              (Nat.odd (ties (equals_alternator s) xsz l)) /\
                       rep (mem (snd res))
                           (T (ins (equals_alternator s) x xsz l) a sz r) par /\
                       mem (snd res) (x + 8) = 0 /\
                       (forall c, ~ link_cell (x :: addrs (T l a sz r)) c ->
                                  c <> x + 8 -> mem (snd res) c = mem s c))).
    { pose proof (IHl a s k Hp Rl Hgl Hsz Hhl) as IH.
      destruct (add_chunk k (root_addr l) x a s) as [[r0 s1]|];
        [|contradiction].
      cbn [wp] in IH. unfold added in IH. cbn [fst snd] in IH.
      destruct IH as (Er0 & G & SP & EA & R & U & F).
      cbn [wp fst snd].
      assert (Hfa : forall j, 0 <= j < 40 -> j <> 8 \/ True ->
                mem s1 (a + j) = mem s (a + j)).
      { intros j Hj _. apply F.
        - apply not_link_cell; [|exact Hj].
          intros b [<-|Hb]; [unfold apart; lia|apply (Hl b Hb)].
        - lia. }
      split; [reflexivity|]. split; [apply same_globals_store_r, G|].
      split; [exact SP|]. split; [exact EA|]. split; [|split].
      - cbn [rep]. split; [|split; [|split; [|split; [|split]]]].
        + msimp. rewrite <- M0. rewrite <- (Z.add_0_r a) at 1 2.
          apply Hfa; [lia|auto].
        + msimp. rewrite <- M1. apply Hfa; [lia|auto].
        + msimp. exact Er0.
        + msimp. rewrite <- M3. apply Hfa; [lia|auto].
        + apply rep_frame with (m := mem s1); [|exact R].
          intros b Hb.
          assert (Hab : a + 40 <= b \/ b + 40 <= a).
          { apply in_addrs_nodes in Hb. destruct Hb as [bsz Hb].
            apply (Permutation_in _ (perm_ins _ x xsz l)) in Hb.
            destruct Hb as [Hb|Hb].
            - inversion Hb; subst. lia.
            - apply in_nodes_addrs in Hb. apply (Hl b Hb). }
          repeat split; msimp; reflexivity.
        + apply rep_frame with (m := mem s); [|exact Rr].
          intros b Hb. destruct (Hr b Hb) as (Hab & Hrb & Hnl).
          unfold apart in Hab.
          assert (Hfb : forall j, 0 <= j < 40 -> mem s1 (b + j) = mem s (b + j)).
          { intros j Hj. apply F.
            - apply not_link_cell; [|exact Hj].
              intros c [<-|Hc].
              + pose proof (good_head _ _ b Hg ltac:(in_tac)) as H.
                unfold apart. lia.
              + pose proof (Hlr c b Hc Hb) as H. unfold apart in *. lia.
            - pose proof (good_head _ _ b Hg ltac:(in_tac)) as H. lia. }
          rewrite <- (Z.add_0_r b) at 1 2.
          repeat split; msimp; apply Hfb; lia.
      - msimp. exact U.
      - intros c Hc Hc8.
        assert (c <> a + 24).
        { intros ->. apply Hc, link_cell_cons_l, link_cell_T_root. auto. }
        msimp. apply F; [|exact Hc8].
        intros H'. apply Hc. destruct H' as (b & [<-|Hb] & Hk).
        + exists x. split; [left; reflexivity|exact Hk].
        + exists b. split; [right; in_tac|exact Hk]. }
    assert (HR : wp (do (r0, s1) <- add_chunk k (root_addr r) x a s;
                     Some (a, store (a + 32) r0 s1))
                    (fun res =>
                       fst res = a /\ same_globals s (snd res) /\
                       succ_pred_alternator (snd res) = succ_pred_alternator s /\
                       equals_alternator (snd res)
                       = xorb (equals_alternator s)
                              (Nat.odd (ties (equals_alternator s) xsz r)) /\
                       rep (mem (snd res))
                           (T l a sz (ins (equals_alternator s) x xsz r)) par /\
                       mem (snd res) (x + 8) = 0 /\
                       (forall c, ~ link_cell (x :: addrs (T l a sz r)) c ->
                                  c <> x + 8 -> mem (snd res) c = mem s c))).
    { pose proof (IHr a s k Hp Rr Hgr Hsz Hhr) as IH.
      destruct (add_chunk k (root_addr r) x a s) as [[r0 s1]|];
        [|contradiction].
      cbn [wp] in IH. unfold added in IH. cbn [fst snd] in IH.
      destruct IH as (Er0 & G & SP & EA & R & U & F).
      cbn [wp fst snd].
      assert (Hfa : forall j, 0 <= j < 40 -> j <> 8 \/ True ->
                mem s1 (a + j) = mem s (a + j)).
      { intros j Hj _. apply F.
        - apply not_link_cell; [|exact Hj].
          intros b [<-|Hb]; [unfold apart; lia|apply (Hr b Hb)].
        - lia. }
      split; [reflexivity|]. split; [apply same_globals_store_r, G|].
      split; [exact SP|]. split; [exact EA|]. split; [|split].
      - cbn [rep]. split; [|split; [|split; [|split; [|split]]]].
        + msimp. rewrite <- M0. rewrite <- (Z.add_0_r a) at 1 2.
          apply Hfa; [lia|auto].
        + msimp. rewrite <- M1. apply Hfa; [lia|auto].
        + msimp. rewrite <- M2. apply Hfa; [lia|auto].
        + msimp. exact Er0.
        + apply rep_frame with (m := mem s); [|exact Rl].
          intros b Hb. destruct (Hl b Hb) as (Hab & Hrb & Hnl).
          unfold apart in Hab.
          assert (Hfb : forall j, 0 <= j < 40 -> mem s1 (b + j) = mem s (b + j)).
          { intros j Hj. apply F.
            - apply not_link_cell; [|exact Hj].
              intros c [<-|Hc].
              + pose proof (good_head _ _ b Hg ltac:(in_tac)) as H.
                unfold apart. lia.
              + pose proof (Hlr b c Hb Hc) as H. unfold apart in *. lia.
            - pose proof (good_head _ _ b Hg ltac:(in_tac)) as H. lia. }
          rewrite <- (Z.add_0_r b) at 1 2.
          repeat split; msimp; apply Hfb; lia.
        + apply rep_frame with (m := mem s1); [|exact R].
          intros b Hb.
          assert (Hab : a + 40 <= b \/ b + 40 <= a).
          { apply in_addrs_nodes in Hb. destruct Hb as [bsz Hb].
            apply (Permutation_in _ (perm_ins _ x xsz r)) in Hb.
            destruct Hb as [Hb|Hb].
            - inversion Hb; subst. lia.
            - apply in_nodes_addrs in Hb. apply (Hr b Hb). }
          repeat split; msimp; reflexivity.
      - msimp. exact U.
      - intros c Hc Hc8.
        assert (c <> a + 32).
        { intros ->. apply Hc, link_cell_cons_l, link_cell_T_root. auto. }
        msimp. apply F; [|exact Hc8].
        intros H'. apply Hc. destruct H' as (b & [<-|Hb] & Hk).
        + exists x. split; [left; reflexivity|exact Hk].
        + exists b. split; [right; in_tac|exact Hk]. }
    cbn delta [add_chunk] fix beta iota.
    change (root_addr (T l a sz r)) with a.
    step_let. rewrite (hn s a Hp Ha) in Etree_node. subst tree_node.
    rewrite NULL_eq.
    rewrite (proj2 (Z.eqb_neq a 0)) by lia. cbv beta iota.
    rewrite !size_of_eq, (left_hn a Ha), (right_hn a Ha), Hsz, M0, M2, M3.
    unfold added. cbn [ins ties root_addr].
    destruct (xsz <? sz) eqn:Hlt.
    { eapply wp_mono; [exact HL|]. intros [r0 s1]. cbn [fst snd]. auto. }
    destruct (xsz >? sz) eqn:Hgtb.
    { eapply wp_mono; [exact HR|]. intros [r0 s1]. cbn [fst snd]. auto. }
    destruct (equals_alternator s) eqn:Halt.
    + destruct (add_chunk k (root_addr l) x a s) as [[r0 s1]|];
        [|contradiction].
      cbn [wp fst snd] in HL |- *.
      destruct HL as (_ & G & SP & EA & R & U & F).
      split; [reflexivity|].
      split; [eapply same_globals_trans; [exact G|apply same_globals_set_eq]|].
      split; [exact SP|].
      split; [cbn [equals_alternator set_equals_alternator]; rewrite EA;
              apply xorb_odd_S|].
      split; [exact R|]. split; [exact U|exact F].
    + destruct (add_chunk k (root_addr r) x a s) as [[r0 s1]|];
        [|contradiction].
      cbn [wp fst snd] in HR |- *.
      destruct HR as (_ & G & SP & EA & R & U & F).
      split; [reflexivity|].
      split; [eapply same_globals_trans; [exact G|apply same_globals_set_eq]|].
      split; [exact SP|].
      split; [cbn [equals_alternator set_equals_alternator]; rewrite EA;
              apply xorb_odd_S|].
      split; [exact R|]. split; [exact U|exact F].
Qed.

(** ** [remove_chunk_by_size] *)


Lemma first_fit_descend t0 par0 size s :
  header_pad s = 16 -> rep (mem s) t0 par0 -> good (addrs t0) ->
  forall t p fuel,
    rep (mem s) t p ->
    (forall x, In x (addrs t) -> In x (addrs t0) /\ x <> root_addr t0) ->
    (height t + height t0 < fuel)%nat ->
    wp (remove_chunk_by_size fuel (root_addr t) size s)
       (searched size t t0 par0 s).
Proof.
  intros Hp Hrep0 Hg0.
  induction t as [|l IHl a sz r IHr]; intros p fuel Hrep Hsub Hf.
  - destruct fuel as [|k]; [lia|].
    cbn [remove_chunk_by_size root_addr]. rewrite Z.eqb_refl.
    cbn [wp]. unfold searched. cbn [first_fit fst snd].
    rewrite Z.eqb_refl. auto.
  - destruct fuel as [|k]; [lia|].
    cbn [rep] in Hrep. destruct Hrep as (M0 & M1 & M2 & M3 & Rl & Rr).
    destruct (Hsub a) as [Ha0 Hane]; [rewrite addrs_T; left; reflexivity|].
    pose proof (good_range _ a Hg0 Ha0) as Hra.
    assert (Ha : in_range a) by inr.
    cbn delta [remove_chunk_by_size] fix beta iota.
    change (root_addr (T l a sz r)) with a. rewrite NULL_eq.
    rewrite (proj2 (Z.eqb_neq a 0)) by lia.
    step_let. rewrite (hn s a Hp Ha) in Etree_node. subst tree_node.
    rewrite size_of_eq, (right_hn a Ha), M0, M3.
    unfold searched. cbn [first_fit].
    destruct (sz <? size) eqn:Hlt.
    + apply (IHr a k Rr).
      * intros x Hx. apply Hsub. rewrite addrs_T. right. apply in_or_app. auto.
      * cbn [height] in Hf. lia.
    + pose proof (remove_chunk_spec t0 par0 s a k Hp Hrep0 Hg0 Ha0 Hane) as H.
      assert (Hk : (height t0 <= k)%nat) by lia. specialize (H Hk).
      destruct (remove_chunk k a s) as [s1|]; [|contradiction].
      cbn [wp fst snd] in *. rewrite NULL_eq.
      rewrite (proj2 (Z.eqb_neq a 0)) by lia. auto.
Qed.

(** ** The heap: boundary-tagged chunks between [first_chunk] and the
    program break *)

(** *** Layout facts *)

Lemma layout_le m a cs e : layout m a cs e -> a <= e.
Proof.
  revert a. induction cs as [|c cs IH]; intros a; cbn [layout].
  - intros ->. lia.
  - intros (Ha & Hs & _ & _ & _ & Hl). apply IH in Hl. unfold c_end in Hl. lia.
Qed.

Lemma layout_app m a cs1 cs2 e :
  layout m a (cs1 ++ cs2) e <->
  exists mid, layout m a cs1 mid /\ layout m mid cs2 e.
Proof.
  revert a. induction cs1 as [|c cs1 IH]; intros a; cbn [app layout].
  - split.
    + intros H. exists a. auto.
    + intros (mid & -> & H). exact H.
  - split.
    + intros (H1 & H2 & H3 & H4 & H5 & H6). apply IH in H6.
      destruct H6 as (mid & Ha & Hb). exists mid. repeat split; auto.
    + intros (mid & (H1 & H2 & H3 & H4 & H5 & H6) & Hb).
      repeat split; auto. apply IH. exists mid. auto.
Qed.

Lemma layout_in m a cs e c :
  layout m a cs e -> In c cs ->
  a <= c_addr c /\ c_end c <= e /\ 24 <= c_size c /\ c_size c mod 8 = 0 /\
  m (c_addr c) = c_size c /\ m (c_addr c + 16 + c_size c) = c_size c.
Proof.
  revert a. induction cs as [|c0 cs IH]; intros a; [intros _ []|].
  cbn [layout]. intros (H1 & H2 & H3 & H4 & H5 & H6) [->|Hin].
  - apply layout_le in H6. rewrite H1. repeat split; auto; lia.
  - destruct (IH _ H6 Hin) as (I1 & I2 & I3 & I4 & I5 & I6).
    unfold c_end in *. repeat split; auto; lia.
Qed.

Lemma layout_sep m a cs e c1 c2 :
  layout m a cs e -> In c1 cs -> In c2 cs ->
  c1 = c2 \/ c_end c1 <= c_addr c2 \/ c_end c2 <= c_addr c1.
Proof.
  revert a. induction cs as [|c0 cs IH]; intros a; [intros _ []|].
  cbn [layout]. intros (H1 & H2 & H3 & H4 & H5 & H6) [->|Hin1] [->|Hin2].
  - auto.
  - right. left. apply (layout_in _ _ _ _ _ H6 Hin2).
  - right. right. apply (layout_in _ _ _ _ _ H6 Hin1).
  - eapply IH; eauto.
Qed.

Lemma layout_addr_inj m a cs e c1 c2 :
  layout m a cs e -> In c1 cs -> In c2 cs ->
  c_addr c1 = c_addr c2 -> c1 = c2.
Proof.
  intros Hl H1 H2 He.
  destruct (layout_sep _ _ _ _ _ _ Hl H1 H2) as [?|[H|H]]; auto.
  - pose proof (layout_in _ _ _ _ _ Hl H1). unfold c_end in *. lia.
  - pose proof (layout_in _ _ _ _ _ Hl H2). unfold c_end in *. lia.
Qed.

Lemma layout_frame m m' a cs e :
  (forall x, tag_cell cs x -> m' x = m x) ->
  layout m a cs e -> layout m' a cs e.
Proof.
  revert a. induction cs as [|c cs IH]; intros a Hf; cbn [layout]; [auto|].
  intros (H1 & H2 & H3 & H4 & H5 & H6).
  repeat split; auto.
  - transitivity (m a); [|exact H4].
    apply Hf. exists c. split; [left; reflexivity|]. auto.
  - transitivity (m (a + 16 + c_size c)); [|exact H5].
    apply Hf. exists c. split; [left; reflexivity|].
    rewrite H1. auto.
  - apply IH; [|exact H6]. intros x (c' & Hin & Hx). apply Hf.
    exists c'. split; [right; exact Hin|exact Hx].
Qed.

Lemma tag_cell_app cs1 cs2 x :
  tag_cell (cs1 ++ cs2) x <-> tag_cell cs1 x \/ tag_cell cs2 x.
Proof.
  unfold tag_cell. split.
  - intros (c & Hin & Hx). apply in_app_or in Hin.
    destruct Hin; [left|right]; eauto.
  - intros [(c & Hin & Hx)|(c & Hin & Hx)]; exists c; split; auto;
      apply in_or_app; auto.
Qed.

Lemma tag_cell_range m a cs e x :
  layout m a cs e -> tag_cell cs x -> a <= x < e.
Proof.
  intros Hl (c & Hin & Hx).
  pose proof (layout_in _ _ _ _ _ Hl Hin) as (H1 & H2 & H3 & _).
  unfold c_end in *. lia.
Qed.

(** *** Adjacent free chunks *)

Lemma naf_cons c cs :
  no_adj_free (c :: cs) <->
  (c_used c = true \/ head_used cs) /\ no_adj_free cs.
Proof.
  destruct cs as [|c2 cs]; cbn [no_adj_free head_used]; tauto.
Qed.

Lemma last_used_app_cons l c :
  last_used (l ++ [c]) <-> c_used c = true.
Proof.
  induction l as [|c0 l IH]; [reflexivity|].
  cbn [app last_used]. destruct (l ++ [c]) eqn:E; [|exact IH].
  destruct l; discriminate.
Qed.

Lemma naf_app l1 l2 :
  no_adj_free (l1 ++ l2) <->
  no_adj_free l1 /\ no_adj_free l2 /\
  (l1 = [] \/ l2 = [] \/ last_used l1 \/ head_used l2).
Proof.
  induction l1 as [|c l1 IH].
  - cbn [app no_adj_free]. tauto.
  - cbn [app]. rewrite !naf_cons, IH.
    destruct l1 as [|c1 l1].
    + cbn [app head_used last_used no_adj_free]. destruct l2 as [|c2 l2].
      * cbn [head_used]. intuition congruence.
      * cbn [head_used]. intuition congruence.
    + cbn [app head_used]. change (last_used (c :: c1 :: l1)) with
        (last_used (c1 :: l1)). intuition congruence.
Qed.

(** *** Consequences of the invariant *)

Section Invariant.
Variables (cur : Z) (s : state) (cs : list chunk) (t : tree).
Hypothesis Hinv : heap_inv cur s cs t.

Lemma inv_chunk a sz u :
  In (a, sz, u) cs ->
  fake_root s + 40 <= a /\ a + 24 + sz <= brk s /\ 24 <= sz /\ sz mod 8 = 0 /\
  mem s a = sz /\ mem s (a + 16 + sz) = sz.
Proof.
  intros Hin. exact (layout_in _ _ _ _ _ (hi_layout _ _ _ _ Hinv) Hin).
Qed.

Lemma inv_chunk_sep a1 sz1 u1 a2 sz2 u2 :
  In (a1, sz1, u1) cs -> In (a2, sz2, u2) cs ->
  (a1 = a2 /\ sz1 = sz2 /\ u1 = u2) \/
  a1 + 24 + sz1 <= a2 \/ a2 + 24 + sz2 <= a1.
Proof.
  intros H1 H2.
  destruct (layout_sep _ _ _ _ _ _ (hi_layout _ _ _ _ Hinv) H1 H2)
    as [e|[H|H]].
  - left. inversion e. auto.
  - right. left. exact H.
  - right. right. exact H.
Qed.

Lemma inv_node b :
  In b (addrs t) ->
  b = fake_root s \/ exists sz, In (b, sz, false) cs.
Proof.
  intros Hb. apply in_addrs_nodes in Hb. destruct Hb as [sz Hb].
  apply (hi_nodes _ _ _ _ Hinv) in Hb. destruct Hb as [[-> _]|Hb]; eauto.
Qed.

Lemma inv_free_in_tree a sz :
  In (a, sz, false) cs -> In a (addrs t) /\ a <> fake_root s.
Proof.
  intros Hin. split.
  - apply in_addrs_nodes. exists sz. apply (hi_nodes _ _ _ _ Hinv). auto.
  - pose proof (inv_chunk _ _ _ Hin). lia.
Qed.

Lemma inv_root_in_tree : In (fake_root s) (addrs t).
Proof.
  apply in_addrs_nodes. exists 0. apply (hi_nodes _ _ _ _ Hinv). auto.
Qed.

Lemma inv_brk : fake_root s + 40 <= brk s.
Proof. exact (layout_le _ _ _ _ (hi_layout _ _ _ _ Hinv)). Qed.

Lemma inv_good : good (addrs t).
Proof.
  pose proof (hi_fr _ _ _ _ Hinv) as Hfr.
  pose proof (hi_brk _ _ _ _ Hinv) as Hbrk.
  pose proof inv_brk as Hb.
  split; [exact (hi_nodup _ _ _ _ Hinv)|]. split.
  - intros a Ha. apply in_range_intro.
    destruct (inv_node a Ha) as [->|[sz Hin]]; [lia|].
    pose proof (inv_chunk _ _ _ Hin). lia.
  - intros a b Ha Hb' Hne. unfold apart.
    destruct (inv_node a Ha) as [->|[sza Hina]];
      destruct (inv_node b Hb') as [->|[szb Hinb]].
    + congruence.
    + pose proof (inv_chunk _ _ _ Hinb). lia.
    + pose proof (inv_chunk _ _ _ Hina). lia.
    + pose proof (inv_chunk _ _ _ Hina). pose proof (inv_chunk _ _ _ Hinb).
      destruct (inv_chunk_sep _ _ _ _ _ _ Hina Hinb) as [[e _]|[H1|H1]];
        [congruence|lia|lia].
Qed.

(** A link cell lies in the sentinel or in the payload of a free chunk. *)
Lemma inv_link_cell x :
  link_cell (addrs t) x ->
  (fake_root s + 16 <= x <= fake_root s + 32) \/
  exists a sz, In (a, sz, false) cs /\ a + 16 <= x <= a + 32.
Proof.
  intros (b & Hb & Hx). destruct (inv_node b Hb) as [->|[sz Hin]].
  - left. lia.
  - right. exists b, sz. split; [exact Hin|lia].
Qed.

Lemma inv_link_not_tag x : link_cell (addrs t) x -> ~ tag_cell cs x.
Proof.
  intros Hl (c & Hc & Hx). destruct c as [[a sz] u].
  unfold c_addr, c_size in Hx. cbn [fst snd] in Hx.
  pose proof (inv_chunk _ _ _ Hc).
  destruct (inv_link_cell x Hl) as [H1|(b & szb & Hb & H1)]; [lia|].
  pose proof (inv_chunk _ _ _ Hb).
  destruct (inv_chunk_sep _ _ _ _ _ _ Hb Hc) as [(e1 & e2 & e3)|[H2|H2]]; lia.
Qed.

Lemma inv_link_not_flag x a sz u :
  link_cell (addrs t) x -> In (a, sz, u) cs -> x <> a + 8.
Proof.
  intros Hl Hc.
  pose proof (inv_chunk _ _ _ Hc).
  destruct (inv_link_cell x Hl) as [H1|(b & szb & Hb & H1)]; [lia|].
  pose proof (inv_chunk _ _ _ Hb).
  destruct (inv_chunk_sep _ _ _ _ _ _ Hb Hc) as [(e1 & e2 & e3)|[H2|H2]]; lia.
Qed.

Lemma inv_link_not_sentinel x :
  link_cell (addrs t) x -> x <> fake_root s /\ x <> fake_root s + 8.
Proof.
  intros Hl.
  destruct (inv_link_cell x Hl) as [H1|(b & szb & Hb & H1)]; [lia|].
  pose proof (inv_chunk _ _ _ Hb). lia.
Qed.

Lemma inv_root_shape : exists r, t = T E (fake_root s) 0 r.
Proof. exact (proj2 (hi_sentinel _ _ _ _ Hinv)). Qed.

End Invariant.

(** *** Replacing a run of chunks *)

Lemma layout_split3 m base pre mid post e :
  layout m base (pre ++ mid ++ post) e ->
  exists lo hi,
    layout m base pre lo /\ layout m lo mid hi /\ layout m hi post e /\
    base <= lo /\ lo <= hi /\ hi <= e /\
    (forall c, In c pre -> base <= c_addr c /\ c_end c <= lo /\ 24 <= c_size c) /\
    (forall c, In c post -> hi <= c_addr c /\ c_end c <= e /\ 24 <= c_size c).
Proof.
  intros H. apply layout_app in H. destruct H as (lo & Hpre & H).
  apply layout_app in H. destruct H as (hi & Hmid & Hpost).
  exists lo, hi.
  pose proof (layout_le _ _ _ _ Hpre). pose proof (layout_le _ _ _ _ Hmid).
  pose proof (layout_le _ _ _ _ Hpost).
  repeat split; auto.
  - apply (layout_in _ _ _ _ _ Hpre H2).
  - apply (layout_in _ _ _ _ _ Hpre H2).
  - apply (layout_in _ _ _ _ _ Hpre H2).
  - apply (layout_in _ _ _ _ _ Hpost H2).
  - apply (layout_in _ _ _ _ _ Hpost H2).
  - apply (layout_in _ _ _ _ _ Hpost H2).
Qed.

Lemma layout_join3 m base pre mid post lo hi e :
  layout m base pre lo -> layout m lo mid hi -> layout m hi post e ->
  layout m base (pre ++ mid ++ post) e.
Proof.
  intros H1 H2 H3. apply layout_app. exists lo. split; [exact H1|].
  apply layout_app. exists hi. auto.
Qed.

Lemma tag_cell_in_range m a cs e x :
  layout m a cs e -> tag_cell cs x -> a <= x < e.
Proof. apply tag_cell_range. Qed.

Lemma in_mid {A} (x : A) pre mid post :
  In x (pre ++ mid ++ post) <-> In x pre \/ In x mid \/ In x post.
Proof. rewrite !in_app_iff. tauto. Qed.

Lemma nodes_del alt y t n :
  NoDup (addrs t) -> In y (addrs t) ->
  (In n (nodes (del alt y t)) <-> In n (nodes t) /\ fst n <> y).
Proof.
  intros Hn Hy. destruct (perm_del alt y t Hn Hy) as (sz0 & Hin & Hp).
  pose proof (perm_nodes_addrs _ _ _ Hp) as Hpa. cbn [fst] in Hpa.
  pose proof (Permutation_NoDup Hpa Hn) as Hn'.
  inversion Hn' as [|? ? Hy' Hn'']; subst.
  split.
  - intros H. split.
    + eapply Permutation_in; [apply Permutation_sym, Hp|]. right. exact H.
    + intros e. subst y. apply Hy'. unfold addrs. apply in_map. exact H.
  - intros [H Hne]. apply (Permutation_in _ Hp) in H.
    destruct H as [<-|H]; [cbn [fst] in Hne; congruence|exact H].
Qed.

Lemma NoDup_del alt y t :
  NoDup (addrs t) -> In y (addrs t) -> NoDup (addrs (del alt y t)).
Proof.
  intros Hn Hy. destruct (perm_del alt y t Hn Hy) as (sz0 & Hin & Hp).
  pose proof (perm_nodes_addrs _ _ _ Hp) as Hpa.
  pose proof (Permutation_NoDup Hpa Hn) as Hn'. inversion Hn'; auto.
Qed.

Lemma nodes_ins alt x xsz t n :
  In n (nodes (ins alt x xsz t)) <-> n = (x, xsz) \/ In n (nodes t).
Proof.
  split.
  - intros H. apply (Permutation_in _ (perm_ins alt x xsz t)) in H.
    destruct H; auto.
  - intros H. eapply Permutation_in;
      [apply Permutation_sym, perm_ins|]. destruct H; [left|right]; auto.
Qed.

Lemma NoDup_ins alt x xsz t :
  NoDup (addrs t) -> ~ In x (addrs t) -> NoDup (addrs (ins alt x xsz t)).
Proof.
  intros Hn Hx.
  pose proof (perm_nodes_addrs _ _ _ (perm_ins alt x xsz t)) as Hp.
  eapply Permutation_NoDup; [apply Permutation_sym, Hp|].
  constructor; assumption.
Qed.

Lemma del_sentinel alt y fr r :
  y <> fr -> del alt y (T E fr 0 r) = T E fr 0 (del alt y r).
Proof.
  intros H. cbn [del]. destruct (Z.eqb_spec fr y); [congruence|reflexivity].
Qed.

Lemma ins_sentinel alt x xsz fr r :
  0 < xsz -> ins alt x xsz (T E fr 0 r) = T E fr 0 (ins alt x xsz r).
Proof.
  intros H. cbn [ins].
  destruct (Z.ltb_spec xsz 0); [lia|].
  destruct (Z.gtb_spec xsz 0); [reflexivity|lia].
Qed.

Lemma same_globals_fields s s' :
  same_globals s s' ->
  fake_root s' = fake_root s /\ first_chunk s' = first_chunk s /\
  guard_addr s' = guard_addr s /\ header_pad s' = header_pad s /\
  footer_pad s' = footer_pad s /\ node_pad s' = node_pad s /\
  brk s' = brk s.
Proof. intros (?&?&?&?&?&?&?&?&?). repeat split; assumption. Qed.

(** Cells of tree nodes lie in the sentinel or in a free chunk. *)
Lemma inv_node_extent cur s cs t b :
  heap_inv cur s cs t -> In b (addrs t) ->
  (b = fake_root s) \/
  (exists sz, In (b, sz, false) cs /\ fake_root s + 40 <= b /\
              b + 48 <= b + 24 + sz /\ b + 24 + sz <= brk s).
Proof.
  intros Hinv Hb. destruct (inv_node _ _ _ _ Hinv b Hb) as [->|[sz Hin]].
  - left. reflexivity.
  - right. exists sz. pose proof (inv_chunk _ _ _ _ Hinv _ _ _ Hin). 
    split; [exact Hin|lia].
Qed.

(** Rewriting memory outside the nodes of a tree keeps the tree. *)
Lemma rep_outside m m' t par :
  rep m t par ->
  (forall b k, In b (addrs t) -> 0 <= k < 40 -> m' (b + k) = m (b + k)) ->
  rep m' t par.
Proof.
  intros Hrep H. apply rep_frame with (m := m); [|exact Hrep].
  intros b Hb. rewrite <- (Z.add_0_r b) at 1 2.
  repeat split; apply H; auto; lia.
Qed.

(** *** The steps of [tralloc] and [trfree] on the invariant *)

Lemma layout_reflag m a pre y sz u u' post e :
  layout m a (pre ++ (y, sz, u) :: post) e ->
  layout m a (pre ++ (y, sz, u') :: post) e.
Proof.
  intros H. apply layout_app in H. destruct H as (mid & H1 & H2).
  apply layout_app. exists mid. split; [exact H1|exact H2].
Qed.

Lemma tag_cell_reflag pre y sz u u' post x :
  tag_cell (pre ++ (y, sz, u) :: post) x ->
  tag_cell (pre ++ (y, sz, u') :: post) x.
Proof.
  intros (c & Hc & Hx). apply in_app_or in Hc. destruct Hc as [Hc|[<-|Hc]].
  - exists c. split; [apply in_or_app; auto|exact Hx].
  - exists (y, sz, u'). split; [apply in_or_app; right; left; reflexivity|].
    exact Hx.
  - exists c. split; [apply in_or_app; right; right; exact Hc|exact Hx].
Qed.

(** Other chunks of a tiled heap have other addresses. *)
Lemma layout_others m a pre c0 post e c :
  layout m a (pre ++ c0 :: post) e -> In c (pre ++ post) ->
  c_end c <= c_addr c0 \/ c_end c0 <= c_addr c.
Proof.
  intros Hl Hc.
  change (pre ++ c0 :: post) with (pre ++ [c0] ++ post) in Hl.
  destruct (layout_split3 _ _ _ _ _ _ Hl) as
    (lo & hi & H1 & H2 & H3 & _ & _ & _ & Hpre & Hpost).
  cbn [layout] in H2. destruct H2 as (E1 & _ & _ & _ & _ & E2).
  apply in_app_or in Hc. destruct Hc as [Hc|Hc].
  - left. destruct (Hpre c Hc). lia.
  - right. destruct (Hpost c Hc). lia.
Qed.

Lemma inv_take s s' pre y szy post t :
  heap_inv NULL s (pre ++ (y, szy, false) :: post) t ->
  removed y t NULL s s' ->
  heap_inv y s' (pre ++ (y, szy, true) :: post)
           (del (negb (succ_pred_alternator s)) y t).
Proof.
  intros Hinv (G & EA & SP & R & F).
  destruct (same_globals_fields _ _ G) as (Gfr & Gfc & Gga & Ghp & Gfp & Gnp & Gbrk).
  assert (Hy : In (y, szy, false) (pre ++ (y, szy, false) :: post))
    by (apply in_or_app; right; left; reflexivity).
  destruct (inv_free_in_tree _ _ _ _ Hinv _ _ Hy) as [Hyt Hyfr].
  pose proof (inv_chunk _ _ _ _ Hinv _ _ _ Hy) as Hyc.
  pose proof (hi_fr _ _ _ _ Hinv) as Hfr.
  constructor.
  - rewrite Ghp. apply (hi_hp _ _ _ _ Hinv).
  - rewrite Gfp. apply (hi_fp _ _ _ _ Hinv).
  - rewrite Gnp. apply (hi_np _ _ _ _ Hinv).
  - rewrite Gfr. exact Hfr.
  - rewrite Gfr, Gbrk. apply layout_frame with (m := mem s).
    + intros x Hx. apply F. intros Hl.
      apply (inv_link_not_tag _ _ _ _ Hinv x Hl).
      eapply tag_cell_reflag, Hx.
    + eapply layout_reflag, (hi_layout _ _ _ _ Hinv).
  - rewrite Gbrk. apply (hi_brk _ _ _ _ Hinv).
  - right. rewrite Gfc, Gga, Gfr, Gbrk.
    destruct (hi_ends _ _ _ _ Hinv) as [(e & _)|(_ & e1 & e2)].
    + destruct pre; discriminate.
    + split; [destruct pre; discriminate|auto].
  - intros c Hc.
    assert (Hcase : c = (y, szy, true) \/ In c (pre ++ post)).
    { apply in_app_or in Hc. destruct Hc as [Hc|[<-|Hc]]; auto;
        right; apply in_or_app; auto. }
    destruct Hcase as [->|Hc'].
    + unfold c_addr, c_used. cbn [fst snd]. split; [congruence|reflexivity].
    + pose proof (layout_others _ _ _ _ _ _ _ (hi_layout _ _ _ _ Hinv) Hc') as Ho.
      assert (Hc0 : In c (pre ++ (y, szy, false) :: post)).
      { apply in_app_or in Hc'. apply in_or_app. destruct Hc'; auto.
        right. right. assumption. }
      destruct c as [[a z] b].
      pose proof (inv_chunk _ _ _ _ Hinv _ _ _ Hc0) as Hcc.
      unfold c_end, c_addr, c_size, c_used in *. cbn [fst snd] in *.
      split; [intros _|intros e; lia].
      rewrite F.
      * apply (hi_flags _ _ _ _ Hinv (a, z, b) Hc0). unfold c_addr, NULL.
        cbn [fst]. lia.
      * intros Hl. exact (inv_link_not_flag _ _ _ _ Hinv _ _ _ _ Hl Hc0 eq_refl).
  - rewrite Gfr. split.
    + rewrite F; [apply (hi_sentinel _ _ _ _ Hinv)|].
      intros Hl. apply (inv_link_not_sentinel _ _ _ _ Hinv _ Hl). reflexivity.
    + destruct (inv_root_shape _ _ _ _ Hinv) as [r ->].
      exists (del (negb (succ_pred_alternator s)) y r).
      apply del_sentinel. exact Hyfr.
  - exact R.
  - intros a sz. rewrite nodes_del;
      [|exact (hi_nodup _ _ _ _ Hinv)|exact Hyt].
    rewrite (hi_nodes _ _ _ _ Hinv). rewrite Gfr. cbn [fst].
    rewrite !in_app_iff. cbn [In]. split.
    + intros [[H|[H|[H|H]]] Hne]; auto.
      inversion H. congruence.
    + intros [H|[H|[H|H]]].
      * split; [auto|]. destruct H. congruence.
      * assert (Hin : In (a, sz, false) (pre ++ post))
          by (apply in_or_app; auto).
        pose proof (layout_others _ _ _ _ _ _ _ (hi_layout _ _ _ _ Hinv) Hin) as Ho.
        pose proof (inv_chunk _ _ _ _ Hinv a sz false
                      ltac:(apply in_or_app; auto)) as Hc.
        unfold c_end, c_addr, c_size in Ho. cbn [fst snd] in Ho.
        split; [auto|lia].
      * discriminate.
      * assert (Hin : In (a, sz, false) (pre ++ post))
          by (apply in_or_app; auto).
        pose proof (layout_others _ _ _ _ _ _ _ (hi_layout _ _ _ _ Hinv) Hin) as Ho.
        pose proof (inv_chunk _ _ _ _ Hinv a sz false
                      ltac:(apply in_or_app; right; right; exact H)) as Hc.
        unfold c_end, c_addr, c_size in Ho. cbn [fst snd] in Ho.
        split; [auto|lia].
  - apply NoDup_del; [exact (hi_nodup _ _ _ _ Hinv)|exact Hyt].
  - apply bst_del, (hi_bst _ _ _ _ Hinv).
  - pose proof (hi_noadj _ _ _ _ Hinv) as Hn.
    change (pre ++ (y, szy, false) :: post)
      with (pre ++ [(y, szy, false)] ++ post) in Hn.
    change (pre ++ (y, szy, true) :: post)
      with (pre ++ [(y, szy, true)] ++ post).
    rewrite naf_app in Hn. destruct Hn as (N1 & N2 & _).
    rewrite naf_app in N2. destruct N2 as (_ & N3 & _).
    rewrite naf_app. split; [exact N1|]. split.
    + rewrite naf_app. split; [exact I|]. split; [exact N3|].
      right. right. left. reflexivity.
    + right. right. right. reflexivity.
Qed.

(** Tree nodes lie outside the extent of the chunks [mid] unless they are one
    of them. *)
Lemma inv_nodes_outside cur s pre mid post t lo hi b :
  heap_inv cur s (pre ++ mid ++ post) t ->
  layout (mem s) (fake_root s + 40) pre lo ->
  layout (mem s) hi post (brk s) ->
  In b (addrs t) ->
  (forall sz, ~ In (b, sz, false) mid) ->
  b + 40 <= lo \/ hi <= b.
Proof.
  intros Hinv Hpre Hpost Hb Hmid.
  destruct (inv_node _ _ _ _ Hinv b Hb) as [->|[sz Hin]].
  - left. apply (layout_le _ _ _ _ Hpre).
  - apply in_mid in Hin. destruct Hin as [Hin|[Hin|Hin]].
    + left. pose proof (layout_in _ _ _ _ _ Hpre Hin) as H.
      unfold c_end, c_addr, c_size in H. cbn [fst snd] in H. lia.
    + exfalso. exact (Hmid sz Hin).
    + right. pose proof (layout_in _ _ _ _ _ Hpost Hin) as H.
      unfold c_end, c_addr, c_size in H. cbn [fst snd] in H. lia.
Qed.

Lemma inv_surgery cur cur' s s' pre mid mid' post t t' lo hi :
  heap_inv cur s (pre ++ mid ++ post) t ->
  layout (mem s) (fake_root s + 40) pre lo ->
  layout (mem s) hi post (brk s) -> lo <= hi ->
  mid <> [] -> mid' <> [] ->
  (cur = NULL \/ lo <= cur < hi) -> (cur' = NULL \/ lo <= cur' < hi) ->
  same_globals s s' ->
  untouched (mem s) (mem s') (addrs t) lo hi ->
  layout (mem s') lo mid' hi ->
  flags (mem s') cur' mid' ->
  rep (mem s') t' NULL -> (exists r', t' = T E (fake_root s) 0 r') ->
  NoDup (addrs t') -> bst t' ->
  (forall a sz, In (a, sz) (nodes t') <->
     (a = fake_root s /\ sz = 0) \/ In (a, sz, false) (pre ++ post) \/
     In (a, sz, false) mid') ->
  no_adj_free (pre ++ mid' ++ post) ->
  heap_inv cur' s' (pre ++ mid' ++ post) t'.
Proof.
  intros Hinv Hpre Hpost Hlh Hmid Hmid' Hcur Hcur' G U Hl' Hf' R Hroot Hnd Hb
    Hnodes Hnaf.
  destruct (same_globals_fields _ _ G) as
    (Gfr & Gfc & Gga & Ghp & Gfp & Gnp & Gbrk).
  pose proof (hi_fr _ _ _ _ Hinv) as Hfr.
  pose proof (layout_le _ _ _ _ Hpre) as Hlo.
  pose proof (layout_le _ _ _ _ Hpost) as Hhi.
  assert (Hsub : forall c, In c (pre ++ post) -> In c (pre ++ mid ++ post)).
  { intros c Hc. apply in_mid. apply in_app_or in Hc. tauto. }
  assert (Hout : forall c, In c (pre ++ post) ->
            (c_end c <= lo \/ hi <= c_addr c) /\ 24 <= c_size c /\
            fake_root s + 40 <= c_addr c).
  { intros c Hc. apply in_app_or in Hc. destruct Hc as [Hc|Hc].
    - pose proof (layout_in _ _ _ _ _ Hpre Hc). lia.
    - pose proof (layout_in _ _ _ _ _ Hpost Hc). lia. }
  assert (Htag : forall x, tag_cell (pre ++ post) x -> mem s' x = mem s x).
  { intros x (c & Hc & Hx). apply U.
    - intros Hl. apply (inv_link_not_tag _ _ _ _ Hinv x Hl).
      exists c. split; [apply Hsub, Hc|exact Hx].
    - destruct (Hout c Hc) as (H1 & H2 & _). unfold c_end in H1. lia. }
  constructor.
  - rewrite Ghp. apply (hi_hp _ _ _ _ Hinv).
  - rewrite Gfp. apply (hi_fp _ _ _ _ Hinv).
  - rewrite Gnp. apply (hi_np _ _ _ _ Hinv).
  - rewrite Gfr. exact Hfr.
  - rewrite Gfr, Gbrk. apply layout_join3 with (lo := lo) (hi := hi).
    + apply layout_frame with (m := mem s); [|exact Hpre].
      intros x Hx. apply Htag. apply tag_cell_app. auto.
    + exact Hl'.
    + apply layout_frame with (m := mem s); [|exact Hpost].
      intros x Hx. apply Htag. apply tag_cell_app. auto.
  - rewrite Gbrk. apply (hi_brk _ _ _ _ Hinv).
  - right. rewrite Gfc, Gga, Gfr, Gbrk.
    destruct (hi_ends _ _ _ _ Hinv) as [(e & _)|(_ & e1 & e2)].
    + exfalso. apply app_eq_nil in e. destruct e as [_ e].
      apply app_eq_nil in e. destruct e. contradiction.
    + split; [|auto]. intros e. apply app_eq_nil in e. destruct e as [_ e].
      apply app_eq_nil in e. destruct e. contradiction.
  - intros c Hc. apply in_mid in Hc.
    assert (Hcase : In c mid' \/ In c (pre ++ post)).
    { destruct Hc as [Hc|[Hc|Hc]]; auto; right; apply in_or_app; auto. }
    destruct Hcase as [Hc'|Hc']; [apply Hf', Hc'|].
    destruct (Hout c Hc') as (H1 & H2 & H3).
    pose proof (hi_flags _ _ _ _ Hinv c (Hsub c Hc')) as [Hfl _].
    unfold c_end, NULL in *.
    split; [intros _|intros e; lia].
    rewrite U.
    + apply Hfl. lia.
    + intros Hl. destruct c as [[a z] b].
      exact (inv_link_not_flag _ _ _ _ Hinv _ _ _ _ Hl (Hsub _ Hc') eq_refl).
    + lia.
  - rewrite Gfr. split; [|exact Hroot].
    rewrite U; [apply (hi_sentinel _ _ _ _ Hinv)| |lia].
    intros Hl. apply (inv_link_not_sentinel _ _ _ _ Hinv _ Hl). reflexivity.
  - exact R.
  - intros a sz. rewrite Hnodes, Gfr, !in_app_iff. tauto.
  - exact Hnd.
  - exact Hb.
  - exact Hnaf.
Qed.

(** The extent of one chunk inside a tiled heap. *)
Lemma layout_focus m base pre c post e :
  layout m base (pre ++ c :: post) e ->
  layout m base pre (c_addr c) /\ layout m (c_end c) post e /\
  24 <= c_size c /\ c_size c mod 8 = 0 /\
  m (c_addr c) = c_size c /\ m (c_addr c + 16 + c_size c) = c_size c /\
  base <= c_addr c /\ c_end c <= e.
Proof.
  intros H. apply layout_app in H. destruct H as (lo & Hpre & H).
  cbn [layout] in H. destruct H as (E1 & H2 & H3 & H4 & H5 & H6).
  subst lo. pose proof (layout_le _ _ _ _ Hpre).
  pose proof (layout_le _ _ _ _ H6).
  repeat split; auto.
Qed.

Lemma layout_focus2 m base pre c1 c2 post e :
  layout m base (pre ++ c1 :: c2 :: post) e ->
  layout m base pre (c_addr c1) /\ layout m (c_end c2) post e /\
  c_addr c2 = c_end c1 /\
  24 <= c_size c1 /\ c_size c1 mod 8 = 0 /\
  m (c_addr c1) = c_size c1 /\ m (c_addr c1 + 16 + c_size c1) = c_size c1 /\
  24 <= c_size c2 /\ c_size c2 mod 8 = 0 /\
  m (c_addr c2) = c_size c2 /\ m (c_addr c2 + 16 + c_size c2) = c_size c2 /\
  base <= c_addr c1 /\ c_end c2 <= e.
Proof.
  intros H. apply layout_app in H. destruct H as (lo & Hpre & H).
  cbn [layout] in H.
  destruct H as (E1 & H2 & H3 & H4 & H5 & E2 & I2 & I3 & I4 & I5 & H6).
  subst lo. pose proof (layout_le _ _ _ _ Hpre).
  pose proof (layout_le _ _ _ _ H6).
  rewrite E2 in *.
  repeat split; auto.
Qed.

Lemma inv_enter s cs t x sz :
  heap_inv NULL s cs t -> In (x, sz, true) cs -> heap_inv x s cs t.
Proof.
  intros Hinv Hx. pose proof (hi_layout _ _ _ _ Hinv) as Hl.
  constructor; try (apply Hinv).
  intros c Hc. destruct (hi_flags _ _ _ _ Hinv c Hc) as [H1 H2]. split.
  - intros _. apply H1.
    pose proof (layout_in _ _ _ _ _ Hl Hc). unfold NULL.
    pose proof (hi_fr _ _ _ _ Hinv). lia.
  - intros e.
    pose proof (layout_addr_inj _ _ _ _ c (x, sz, true) Hl Hc Hx e) as e'.
    rewrite e'. reflexivity.
Qed.

Lemma mod8_add a b : a mod 8 = 0 -> b mod 8 = 0 -> (a + 24 + b) mod 8 = 0.
Proof.
  intros Ha Hb. apply Zmod_divides in Ha, Hb; try lia.
  destruct Ha as [p ->], Hb as [q ->]. apply Zmod_divides; [lia|].
  exists (p + 3 + q). lia.
Qed.

Lemma mod8_sub a b : a mod 8 = 0 -> b mod 8 = 0 -> (a - b - 24) mod 8 = 0.
Proof.
  intros Ha Hb. apply Zmod_divides in Ha, Hb; try lia.
  destruct Ha as [p ->], Hb as [q ->]. apply Zmod_divides; [lia|].
  exists (p - q - 3). lia.
Qed.

Lemma inv_hand_out s pre x sz post t :
  heap_inv x s (pre ++ (x, sz, true) :: post) t ->
  heap_inv NULL (store (x + 8) 1 s) (pre ++ (x, sz, true) :: post) t.
Proof.
  intros Hinv.
  destruct (layout_focus _ _ _ _ _ _ (hi_layout _ _ _ _ Hinv)) as
    (Hpre & Hpost & H1 & H2 & H3 & H4 & H5 & H6).
  unfold c_end, c_addr, c_size in *. cbn [fst snd] in *.
  change (pre ++ (x, sz, true) :: post)
    with (pre ++ [(x, sz, true)] ++ post) in *.
  assert (Hout : forall b, In b (addrs t) -> b + 40 <= x \/ x + 24 + sz <= b).
  { intros b Hb.
    apply (inv_nodes_outside _ _ _ _ _ _ _ _ b Hinv Hpre Hpost Hb).
    intros z [e|[]]. discriminate. }
  apply (inv_surgery x NULL s _ pre [(x, sz, true)] [(x, sz, true)] post t t
           x (x + 24 + sz)).
  - exact Hinv.
  - exact Hpre.
  - exact Hpost.
  - lia.
  - discriminate.
  - discriminate.
  - right. lia.
  - left. reflexivity.
  - apply same_globals_store.
  - intros y _ Hy. rewrite mem_store.
    rewrite (proj2 (Z.eqb_neq y (x + 8))) by lia. reflexivity.
  - cbn [layout]. unfold c_end, c_addr, c_size. cbn [fst snd].
    rewrite !mem_store.
    rewrite (proj2 (Z.eqb_neq x (x + 8))) by lia.
    rewrite (proj2 (Z.eqb_neq (x + 16 + sz) (x + 8))) by lia.
    repeat split; auto.
  - intros c [<-|[]]. unfold c_addr, c_used. cbn [fst snd].
    rewrite mem_store, Z.eqb_refl. split; [reflexivity|].
    pose proof (hi_fr _ _ _ _ Hinv). unfold NULL. lia.
  - apply rep_outside with (m := mem s); [apply (hi_rep _ _ _ _ Hinv)|].
    intros b k Hb Hk. rewrite mem_store.
    pose proof (Hout b Hb).
    rewrite (proj2 (Z.eqb_neq (b + k) (x + 8))) by lia. reflexivity.
  - apply (inv_root_shape _ _ _ _ Hinv).
  - apply (hi_nodup _ _ _ _ Hinv).
  - apply (hi_bst _ _ _ _ Hinv).
  - intros a z. rewrite (hi_nodes _ _ _ _ Hinv a z), !in_mid, in_app_iff.
    cbn [In]. intuition congruence.
  - apply (hi_noadj _ _ _ _ Hinv).
Qed.

Lemma naf_replace_used pre mid post (c : chunk) :
  no_adj_free (pre ++ mid ++ post) -> c_used c = true ->
  no_adj_free (pre ++ [c] ++ post).
Proof.
  intros Hn Hc. rewrite naf_app in Hn. destruct Hn as (N1 & N2 & _).
  rewrite naf_app in N2. destruct N2 as (_ & N3 & _).
  rewrite naf_app. split; [exact N1|]. split.
  - rewrite naf_app. split; [exact I|]. split; [exact N3|].
    right. right. left. exact Hc.
  - right. right. right. exact Hc.
Qed.

Lemma naf_last_used pre (c : chunk) rest :
  no_adj_free (pre ++ c :: rest) -> c_used c = false ->
  pre = [] \/ last_used pre.
Proof.
  intros Hn Hc. rewrite naf_app in Hn. destruct Hn as (_ & _ & [H|[H|[H|H]]]).
  - auto.
  - discriminate.
  - auto.
  - cbn [head_used] in H. congruence.
Qed.

Lemma naf_head_used pre (c : chunk) post :
  no_adj_free (pre ++ c :: post) -> c_used c = false -> head_used post.
Proof.
  intros Hn Hc. rewrite naf_app in Hn. destruct Hn as (_ & N & _).
  rewrite naf_cons in N. destruct N as [[H|H] _]; [congruence|exact H].
Qed.

(** Coalescing with the free predecessor [b] of the chunk [a] being freed. *)
Lemma inv_merge_prev s s1 pre b szb a sz post t :
  heap_inv a s (pre ++ (b, szb, false) :: (a, sz, true) :: post) t ->
  removed b t NULL s s1 ->
  heap_inv b
    (store (b + 16 + (szb + 24 + sz)) (szb + 24 + sz)
       (store b (szb + 24 + sz) s1))
    (pre ++ (b, szb + 24 + sz, true) :: post)
    (del (negb (succ_pred_alternator s)) b t).
Proof.
  intros Hinv (G & EA & SP & R & F).
  destruct (layout_focus2 _ _ _ _ _ _ _ (hi_layout _ _ _ _ Hinv)) as
    (Hpre & Hpost & Ea & B1 & B2 & B3 & B4 & A1 & A2 & A3 & A4 & L1 & L2).
  unfold c_end, c_addr, c_size in *. cbn [fst snd] in *.
  assert (Hb : In (b, szb, false)
                 (pre ++ (b, szb, false) :: (a, sz, true) :: post))
    by (apply in_or_app; right; left; reflexivity).
  destruct (inv_free_in_tree _ _ _ _ Hinv _ _ Hb) as [Hbt Hbfr].
  change (pre ++ (b, szb, false) :: (a, sz, true) :: post)
    with (pre ++ [(b, szb, false); (a, sz, true)] ++ post) in *.
  change (pre ++ (b, szb + 24 + sz, true) :: post)
    with (pre ++ [(b, szb + 24 + sz, true)] ++ post).
  assert (Hout : forall b', In b' (addrs t) -> b' <> b ->
            b' + 40 <= b \/ a + 24 + sz <= b').
  { intros b' Hb' Hne.
    apply (inv_nodes_outside _ _ _ _ _ _ _ _ b' Hinv Hpre Hpost Hb').
    intros z [e|[e|[]]]; [inversion e; congruence|discriminate]. }
  set (nsz := szb + 24 + sz).
  apply (inv_surgery a b s _ pre [(b, szb, false); (a, sz, true)]
           [(b, nsz, true)] post t _ b (a + 24 + sz)).
  - exact Hinv.
  - exact Hpre.
  - exact Hpost.
  - lia.
  - discriminate.
  - discriminate.
  - right. lia.
  - right. lia.
  - repeat apply same_globals_store_r. exact G.
  - intros y Hl Hy. rewrite !mem_store.
    rewrite (proj2 (Z.eqb_neq y (b + 16 + nsz))) by (unfold nsz; lia).
    rewrite (proj2 (Z.eqb_neq y b)) by lia. apply F, Hl.
  - cbn [layout]. unfold c_end, c_addr, c_size. cbn [fst snd].
    rewrite !mem_store, Z.eqb_refl.
    rewrite (proj2 (Z.eqb_neq b (b + 16 + nsz))) by (unfold nsz; lia).
    rewrite Z.eqb_refl.
    repeat split; try (unfold nsz; lia).
    unfold nsz. apply mod8_add; assumption.
  - intros c [<-|[]]. unfold c_addr, c_used. cbn [fst snd].
    split; [congruence|reflexivity].
  - apply rep_outside with (m := mem s1); [exact R|].
    intros b' k Hb' Hk. apply in_addrs_del in Hb' as Hb''.
    assert (Hne : b' <> b).
    { intros ->. apply in_addrs_nodes in Hb'. destruct Hb' as [z Hz].
      apply nodes_del in Hz; [|apply (hi_nodup _ _ _ _ Hinv)|exact Hbt].
      destruct Hz as [_ Hz]. cbn [fst] in Hz. congruence. }
    pose proof (Hout b' Hb'' Hne). rewrite !mem_store.
    rewrite (proj2 (Z.eqb_neq (b' + k) (b + 16 + nsz))) by (unfold nsz; lia).
    rewrite (proj2 (Z.eqb_neq (b' + k) b)) by lia. reflexivity.
  - destruct (inv_root_shape _ _ _ _ Hinv) as [r ->].
    eexists. apply del_sentinel. exact Hbfr.
  - apply NoDup_del; [apply (hi_nodup _ _ _ _ Hinv)|exact Hbt].
  - apply bst_del, (hi_bst _ _ _ _ Hinv).
  - intros x z. rewrite nodes_del;
      [|apply (hi_nodup _ _ _ _ Hinv)|exact Hbt].
    rewrite (hi_nodes _ _ _ _ Hinv x z), !in_mid, in_app_iff. cbn [In fst].
    split.
    + intros [[H|[H|[[H|[H|[]]]|H]]] Hne]; auto.
      * inversion H. congruence.
      * discriminate.
    + intros [H|[[H|H]|[H|[]]]].
      * split; [auto|]. destruct H. congruence.
      * split; [auto|].
        pose proof (layout_in _ _ _ _ _ Hpre H) as HH.
        unfold c_end, c_addr, c_size in HH. cbn [fst snd] in HH. lia.
      * split; [auto|].
        pose proof (layout_in _ _ _ _ _ Hpost H) as HH.
        unfold c_end, c_addr, c_size in HH. cbn [fst snd] in HH. lia.
      * discriminate.
  - apply naf_replace_used with (mid := [(b, szb, false); (a, sz, true)]).
    + apply (hi_noadj _ _ _ _ Hinv).
    + reflexivity.
Qed.

(** Coalescing with the free successor [d] of the chunk [a] being freed. *)
Lemma inv_merge_next s s1 pre a sz d szd post t :
  heap_inv a s (pre ++ (a, sz, true) :: (d, szd, false) :: post) t ->
  removed d t NULL s s1 ->
  heap_inv a
    (store (a + 16 + (sz + 24 + szd)) (sz + 24 + szd)
       (store a (sz + 24 + szd) s1))
    (pre ++ (a, sz + 24 + szd, true) :: post)
    (del (negb (succ_pred_alternator s)) d t).
Proof.
  intros Hinv (G & EA & SP & R & F).
  destruct (layout_focus2 _ _ _ _ _ _ _ (hi_layout _ _ _ _ Hinv)) as
    (Hpre & Hpost & Ea & B1 & B2 & B3 & B4 & A1 & A2 & A3 & A4 & L1 & L2).
  unfold c_end, c_addr, c_size in *. cbn [fst snd] in *.
  assert (Hd : In (d, szd, false)
                 (pre ++ (a, sz, true) :: (d, szd, false) :: post))
    by (apply in_or_app; right; right; left; reflexivity).
  destruct (inv_free_in_tree _ _ _ _ Hinv _ _ Hd) as [Hdt Hdfr].
  change (pre ++ (a, sz, true) :: (d, szd, false) :: post)
    with (pre ++ [(a, sz, true); (d, szd, false)] ++ post) in *.
  change (pre ++ (a, sz + 24 + szd, true) :: post)
    with (pre ++ [(a, sz + 24 + szd, true)] ++ post).
  assert (Hout : forall b', In b' (addrs t) -> b' <> d ->
            b' + 40 <= a \/ d + 24 + szd <= b').
  { intros b' Hb' Hne.
    apply (inv_nodes_outside _ _ _ _ _ _ _ _ b' Hinv Hpre Hpost Hb').
    intros z [e|[e|[]]]; [discriminate|inversion e; congruence]. }
  set (nsz := sz + 24 + szd).
  apply (inv_surgery a a s _ pre [(a, sz, true); (d, szd, false)]
           [(a, nsz, true)] post t _ a (d + 24 + szd)).
  - exact Hinv.
  - exact Hpre.
  - exact Hpost.
  - lia.
  - discriminate.
  - discriminate.
  - right. lia.
  - right. lia.
  - repeat apply same_globals_store_r. exact G.
  - intros y Hl Hy. rewrite !mem_store.
    rewrite (proj2 (Z.eqb_neq y (a + 16 + nsz))) by (unfold nsz; lia).
    rewrite (proj2 (Z.eqb_neq y a)) by lia. apply F, Hl.
  - cbn [layout]. unfold c_end, c_addr, c_size. cbn [fst snd].
    rewrite !mem_store, Z.eqb_refl.
    rewrite (proj2 (Z.eqb_neq a (a + 16 + nsz))) by (unfold nsz; lia).
    rewrite Z.eqb_refl.
    repeat split; try (unfold nsz; lia).
    unfold nsz. apply mod8_add; assumption.
  - intros c [<-|[]]. unfold c_addr, c_used. cbn [fst snd].
    split; [congruence|reflexivity].
  - apply rep_outside with (m := mem s1); [exact R|].
    intros b' k Hb' Hk. apply in_addrs_del in Hb' as Hb''.
    assert (Hne : b' <> d).
    { intros ->. apply in_addrs_nodes in Hb'. destruct Hb' as [z Hz].
      apply nodes_del in Hz; [|apply (hi_nodup _ _ _ _ Hinv)|exact Hdt].
      destruct Hz as [_ Hz]. cbn [fst] in Hz. congruence. }
    pose proof (Hout b' Hb'' Hne). rewrite !mem_store.
    rewrite (proj2 (Z.eqb_neq (b' + k) (a + 16 + nsz))) by (unfold nsz; lia).
    rewrite (proj2 (Z.eqb_neq (b' + k) a)) by lia. reflexivity.
  - destruct (inv_root_shape _ _ _ _ Hinv) as [r ->].
    eexists. apply del_sentinel. exact Hdfr.
  - apply NoDup_del; [apply (hi_nodup _ _ _ _ Hinv)|exact Hdt].
  - apply bst_del, (hi_bst _ _ _ _ Hinv).
  - intros x z. rewrite nodes_del;
      [|apply (hi_nodup _ _ _ _ Hinv)|exact Hdt].
    rewrite (hi_nodes _ _ _ _ Hinv x z), !in_mid, in_app_iff. cbn [In fst].
    split.
    + intros [[H|[H|[[H|[H|[]]]|H]]] Hne]; auto.
      * discriminate.
      * inversion H. congruence.
    + intros [H|[[H|H]|[H|[]]]].
      * split; [auto|]. destruct H. congruence.
      * split; [auto|].
        pose proof (layout_in _ _ _ _ _ Hpre H) as HH.
        unfold c_end, c_addr, c_size in HH. cbn [fst snd] in HH. lia.
      * split; [auto|].
        pose proof (layout_in _ _ _ _ _ Hpost H) as HH.
        unfold c_end, c_addr, c_size in HH. cbn [fst snd] in HH. lia.
      * discriminate.
  - apply naf_replace_used with (mid := [(a, sz, true); (d, szd, false)]).
    + apply (hi_noadj _ _ _ _ Hinv).
    + reflexivity.
Qed.

Lemma same_globals_set_fr s s' v :
  same_globals s s' -> v = fake_root s -> same_globals s (set_fake_root v s').
Proof.
  intros (?&?&?&?&?&?&?&?&?) ->. unfold same_globals.
  cbn [set_fake_root fake_root first_chunk guard_addr header_pad footer_pad
       node_pad brk brk_limit sbrk_log].
  repeat split; assumption.
Qed.

Lemma is_E_sentinel fr r : is_E (T E fr 0 r) = false.
Proof. reflexivity. Qed.

(** Before inserting the used chunk [a]: the tree is intact and [a] is a
    fresh node address. *)
Lemma inv_insert_pre s pre a sz post t :
  heap_inv a s (pre ++ (a, sz, true) :: post) t ->
  rep (mem (store (a + 8) 0 s)) t NULL /\ good (a :: addrs t) /\
  mem (store (a + 8) 0 s) a = sz /\
  forall b, In b (addrs t) -> b + 40 <= a \/ a + 24 + sz <= b.
Proof.
  intros Hinv.
  destruct (layout_focus _ _ _ _ _ _ (hi_layout _ _ _ _ Hinv)) as
    (Hpre & Hpost & H1 & H2 & H3 & H4 & H5 & H6).
  unfold c_end, c_addr, c_size in *. cbn [fst snd] in *.
  change (pre ++ (a, sz, true) :: post)
    with (pre ++ [(a, sz, true)] ++ post) in *.
  assert (Hout : forall b, In b (addrs t) -> b + 40 <= a \/ a + 24 + sz <= b).
  { intros b Hb.
    apply (inv_nodes_outside _ _ _ _ _ _ _ _ b Hinv Hpre Hpost Hb).
    intros z [e|[]]. discriminate. }
  pose proof (hi_fr _ _ _ _ Hinv) as Hfr.
  pose proof (hi_brk _ _ _ _ Hinv) as Hbrk.
  split; [|split; [|split]].
  - apply rep_outside with (m := mem s); [apply (hi_rep _ _ _ _ Hinv)|].
    intros b k Hb Hk. rewrite mem_store. pose proof (Hout b Hb).
    rewrite (proj2 (Z.eqb_neq (b + k) (a + 8))) by lia. reflexivity.
  - apply good_cons.
    + apply (inv_good _ _ _ _ Hinv).
    + apply in_range_intro. lia.
    + intros b Hb. pose proof (Hout b Hb). unfold apart. lia.
  - rewrite mem_store. rewrite (proj2 (Z.eqb_neq a (a + 8))) by lia.
    exact H3.
  - exact Hout.
Qed.

(** Marking the chunk free and inserting it into the tree. *)
Lemma inv_insert s pre a sz post t res :
  heap_inv a s (pre ++ (a, sz, true) :: post) t ->
  (pre = [] \/ last_used pre) -> head_used post ->
  added a sz t NULL (store (a + 8) 0 s) res ->
  heap_inv NULL (set_fake_root (fst res) (snd res))
    (pre ++ (a, sz, false) :: post) (ins (equals_alternator s) a sz t).
Proof.
  intros Hinv Hlast Hhead (Eroot & G & SP & EA & R & U & F).
  cbn [equals_alternator store] in *.
  destruct (inv_insert_pre _ _ _ _ _ _ Hinv) as (_ & Hg & _ & Hout).
  destruct (layout_focus _ _ _ _ _ _ (hi_layout _ _ _ _ Hinv)) as
    (Hpre & Hpost & H1 & H2 & H3 & H4 & H5 & H6).
  unfold c_end, c_addr, c_size in *. cbn [fst snd] in *.
  change (pre ++ (a, sz, true) :: post)
    with (pre ++ [(a, sz, true)] ++ post) in *.
  change (pre ++ (a, sz, false) :: post)
    with (pre ++ [(a, sz, false)] ++ post).
  destruct (inv_root_shape _ _ _ _ Hinv) as [r Et].
  assert (Hnl : forall k, 0 <= k < 24 + sz -> k <> 16 -> k <> 24 ->
            k <> 32 -> ~ link_cell (a :: addrs t) (a + k)).
  { intros k Hk K1 K2 K3 (b & [<-|Hb] & Hc); [lia|].
    pose proof (Hout b Hb). lia. }
  assert (Hfr : fst res = fake_root s).
  { rewrite Eroot, root_ins, Et. reflexivity. }
  apply (inv_surgery a NULL s _ pre [(a, sz, true)] [(a, sz, false)] post t _
           a (a + 24 + sz)).
  - exact Hinv.
  - exact Hpre.
  - exact Hpost.
  - lia.
  - discriminate.
  - discriminate.
  - right. lia.
  - left. reflexivity.
  - apply same_globals_set_fr; [|exact Hfr].
    eapply same_globals_trans; [apply same_globals_store|exact G].
  - intros y Hl Hy. cbn [mem set_fake_root]. rewrite F.
    + rewrite mem_store. rewrite (proj2 (Z.eqb_neq y (a + 8))) by lia.
      reflexivity.
    + intros (b & [<-|Hb] & Hc); [lia|]. apply Hl. exists b. auto.
    + lia.
  - cbn [layout mem set_fake_root]. unfold c_end, c_addr, c_size.
    cbn [fst snd].
    repeat split; auto.
    + rewrite <- (Z.add_0_r a) at 1. rewrite F.
      * rewrite mem_store. rewrite (proj2 (Z.eqb_neq (a + 0) (a + 8))) by lia.
        rewrite Z.add_0_r. exact H3.
      * apply Hnl; lia.
      * lia.
    + replace (a + 16 + sz) with (a + (16 + sz)) by lia. rewrite F.
      * rewrite mem_store.
        rewrite (proj2 (Z.eqb_neq (a + (16 + sz)) (a + 8))) by lia.
        replace (a + (16 + sz)) with (a + 16 + sz) by lia. exact H4.
      * apply Hnl; lia.
      * lia.
  - intros c [<-|[]]. unfold c_addr, c_used. cbn [fst snd mem set_fake_root].
    split; [intros _; exact U|].
    pose proof (hi_fr _ _ _ _ Hinv). unfold NULL. lia.
  - exact R.
  - rewrite Et. eexists. apply ins_sentinel. lia.
  - apply NoDup_ins; [apply (hi_nodup _ _ _ _ Hinv)|].
    destruct Hg as (Hn & _). inversion Hn; assumption.
  - apply bst_ins, (hi_bst _ _ _ _ Hinv).
  - intros x z. rewrite nodes_ins, (hi_nodes _ _ _ _ Hinv x z), !in_mid,
      in_app_iff. cbn [In]. split.
    + intros [H|[H|[H|[[H|[]]|H]]]]; auto.
      * inversion H. auto.
      * discriminate.
    + intros [H|[[H|H]|[H|[]]]]; auto.
      inversion H. auto.
  - pose proof (hi_noadj _ _ _ _ Hinv) as Hn.
    rewrite naf_app in Hn. destruct Hn as (N1 & N2 & _).
    rewrite naf_app in N2. destruct N2 as (_ & N3 & _).
    rewrite naf_app. split; [exact N1|]. split.
    + rewrite naf_app. split; [exact I|]. split; [exact N3|].
      right. right. right. exact Hhead.
    + destruct Hlast; auto.
Qed.

(** *** Splitting *)

Lemma inv_split_pre s pre x fsz post t target :
  heap_inv x s (pre ++ (x, fsz, true) :: post) t ->
  24 <= target -> target + 48 <= fsz ->
  let d := x + 24 + target in
  let dsz := fsz - target - 24 in
  rep (mem (split_tags d dsz s)) t NULL /\ good (d :: addrs t) /\
  mem (split_tags d dsz s) d = dsz /\
  forall b, In b (addrs t) -> b + 40 <= x \/ x + 24 + fsz <= b.
Proof.
  intros Hinv Ht Hf d dsz.
  destruct (layout_focus _ _ _ _ _ _ (hi_layout _ _ _ _ Hinv)) as
    (Hpre & Hpost & H1 & H2 & H3 & H4 & H5 & H6).
  unfold c_end, c_addr, c_size in *. cbn [fst snd] in *.
  change (pre ++ (x, fsz, true) :: post)
    with (pre ++ [(x, fsz, true)] ++ post) in *.
  assert (Hout : forall b, In b (addrs t) -> b + 40 <= x \/ x + 24 + fsz <= b).
  { intros b Hb.
    apply (inv_nodes_outside _ _ _ _ _ _ _ _ b Hinv Hpre Hpost Hb).
    intros z [e|[]]. discriminate. }
  pose proof (hi_fr _ _ _ _ Hinv) as Hfr.
  pose proof (hi_brk _ _ _ _ Hinv) as Hbrk.
  split; [|split; [|split]].
  - apply rep_outside with (m := mem s); [apply (hi_rep _ _ _ _ Hinv)|].
    intros b k Hb Hk. unfold split_tags. cbn [mem store].
    pose proof (Hout b Hb).
    rewrite (proj2 (Z.eqb_neq (b + k) (d + 16 + dsz))) by (subst d dsz; lia).
    rewrite (proj2 (Z.eqb_neq (b + k) (d + 8))) by (subst d dsz; lia).
    rewrite (proj2 (Z.eqb_neq (b + k) d)) by (subst d dsz; lia).
    reflexivity.
  - apply good_cons.
    + apply (inv_good _ _ _ _ Hinv).
    + apply in_range_intro. subst d. lia.
    + intros b Hb. pose proof (Hout b Hb). unfold apart. subst d. lia.
  - unfold split_tags. cbn [mem store].
    rewrite (proj2 (Z.eqb_neq d (d + 16 + dsz))) by (subst d dsz; lia).
    rewrite (proj2 (Z.eqb_neq d (d + 8))) by lia.
    rewrite Z.eqb_refl. reflexivity.
  - exact Hout.
Qed.

(** Carving [target] bytes off the chunk [x] taken from the tree: the
    remainder becomes a free chunk of its own, inserted into the tree. *)
Lemma inv_split s pre x fsz post t target res d dsz :
  heap_inv x s (pre ++ (x, fsz, true) :: post) t ->
  24 <= target -> target mod 8 = 0 -> target + 48 <= fsz ->
  head_used post ->
  d = x + 24 + target -> dsz = fsz - target - 24 ->
  added d dsz t NULL (split_tags d dsz s) res ->
  heap_inv x
    (store (x + 16 + target) target
       (store x target (set_fake_root (fst res) (snd res))))
    (pre ++ (x, target, true) :: (d, dsz, false) :: post)
    (ins (equals_alternator s) d dsz t).
Proof.
  intros Hinv Ht Hm Hf Hhead Hd Hdsz (Eroot & G & SP & EA & R & U & F).
  change (equals_alternator (split_tags d dsz s))
    with (equals_alternator s) in *.
  destruct (inv_split_pre _ _ _ _ _ _ target Hinv Ht Hf)
    as (_ & Hg & _ & Hout).
  cbv zeta in Hg. rewrite <- Hd in Hg.
  destruct (layout_focus _ _ _ _ _ _ (hi_layout _ _ _ _ Hinv)) as
    (Hpre & Hpost & H1 & H2 & H3 & H4 & H5 & H6).
  unfold c_end, c_addr, c_size in *. cbn [fst snd] in *.
  change (pre ++ (x, fsz, true) :: post)
    with (pre ++ [(x, fsz, true)] ++ post) in *.
  change (pre ++ (x, target, true) :: (d, dsz, false) :: post)
    with (pre ++ [(x, target, true); (d, dsz, false)] ++ post).
  destruct (inv_root_shape _ _ _ _ Hinv) as [r Et].
  pose proof (hi_fr _ _ _ _ Hinv) as Hfr.
  assert (Hnl : forall k, 0 <= k < 24 + fsz -> k <> 24 + target + 16 ->
            k <> 24 + target + 24 -> k <> 24 + target + 32 ->
            ~ link_cell (d :: addrs t) (x + k)).
  { intros k Hk K1 K2 K3 (b & [<-|Hb] & Hc); [lia|].
    pose proof (Hout b Hb). lia. }
  assert (Hfr' : fst res = fake_root s).
  { rewrite Eroot, root_ins, Et. reflexivity. }
  assert (Hsame : forall k, 0 <= k < 24 + fsz -> k <> 24 + target + 16 ->
            k <> 24 + target + 24 -> k <> 24 + target + 32 ->
            k <> 24 + target + 8 ->
            mem (snd res) (x + k) = mem (split_tags d dsz s) (x + k)).
  { intros k Hk K1 K2 K3 K4. apply F; [apply Hnl; assumption|lia]. }
  assert (Hmod : dsz mod 8 = 0).
  { subst dsz. apply mod8_sub; assumption. }
  apply (inv_surgery x x s _ pre [(x, fsz, true)]
           [(x, target, true); (d, dsz, false)] post t _ x (x + 24 + fsz)).
  - exact Hinv.
  - exact Hpre.
  - exact Hpost.
  - lia.
  - discriminate.
  - discriminate.
  - right. lia.
  - right. lia.
  - do 2 (eapply same_globals_trans; [|apply same_globals_store]).
    apply same_globals_set_fr; [|exact Hfr'].
    eapply same_globals_trans; [|exact G].
    unfold split_tags.
    do 2 (eapply same_globals_trans; [|apply same_globals_store]).
    apply same_globals_store.
  - intros y Hl Hy. cbn [mem store set_fake_root].
    rewrite (proj2 (Z.eqb_neq y (x + 16 + target))) by lia.
    rewrite (proj2 (Z.eqb_neq y x)) by lia.
    rewrite F.
    + unfold split_tags. cbn [mem store].
      rewrite (proj2 (Z.eqb_neq y (d + 16 + dsz))) by lia.
      rewrite (proj2 (Z.eqb_neq y (d + 8))) by lia.
      rewrite (proj2 (Z.eqb_neq y d)) by lia. reflexivity.
    + intros (b & [<-|Hb] & Hc); [lia|]. apply Hl. exists b. auto.
    + lia.
  - cbn [layout mem store set_fake_root]. unfold c_end, c_addr, c_size.
    cbn [fst snd].
    split; [reflexivity|]. split; [lia|]. split; [exact Hm|].
    split; [|split; [|split; [|split; [|split; [|split; [|split]]]]]].
    + rewrite (proj2 (Z.eqb_neq x (x + 16 + target))) by lia.
      rewrite Z.eqb_refl. reflexivity.
    + rewrite Z.eqb_refl. reflexivity.
    + lia.
    + lia.
    + exact Hmod.
    + replace (x + 24 + target) with d by lia.
      rewrite (proj2 (Z.eqb_neq d (x + 16 + target))) by lia.
      rewrite (proj2 (Z.eqb_neq d x)) by lia.
      replace d with (x + (24 + target)) at 1 by lia.
      rewrite Hsame by lia.
      unfold split_tags. cbn [mem store].
      rewrite (proj2 (Z.eqb_neq (x + (24 + target)) (d + 16 + dsz))) by lia.
      rewrite (proj2 (Z.eqb_neq (x + (24 + target)) (d + 8))) by lia.
      rewrite (proj2 (Z.eqb_eq (x + (24 + target)) d)) by lia. reflexivity.
    + replace (x + 24 + target + 16 + dsz) with (d + 16 + dsz) by lia.
      rewrite (proj2 (Z.eqb_neq (d + 16 + dsz) (x + 16 + target))) by lia.
      rewrite (proj2 (Z.eqb_neq (d + 16 + dsz) x)) by lia.
      replace (d + 16 + dsz) with (x + (16 + fsz)) at 1 by lia.
      rewrite Hsame by lia.
      unfold split_tags. cbn [mem store].
      rewrite (proj2 (Z.eqb_eq (x + (16 + fsz)) (d + 16 + dsz))) by lia.
      reflexivity.
    + lia.
  - intros c [<-|[<-|[]]]; unfold c_addr, c_used; cbn [fst snd].
    + split; [congruence|reflexivity].
    + split; [intros _|lia]. cbn [mem store set_fake_root].
      rewrite (proj2 (Z.eqb_neq (d + 8) (x + 16 + target))) by lia.
      rewrite (proj2 (Z.eqb_neq (d + 8) x)) by lia. exact U.
  - apply rep_outside with (m := mem (snd res)); [exact R|].
    intros b k Hb Hk. cbn [mem store set_fake_root].
    assert (Hb' : b = d \/ In b (addrs t)).
    { apply (Permutation_in _
               (perm_nodes_addrs _ _ _ (perm_ins _ d dsz t))) in Hb.
      destruct Hb; auto. }
    assert (b + 40 <= x \/ x + 24 + target <= b).
    { destruct Hb' as [->|Hb']; [lia|]. pose proof (Hout b Hb'). lia. }
    rewrite (proj2 (Z.eqb_neq (b + k) (x + 16 + target))) by lia.
    rewrite (proj2 (Z.eqb_neq (b + k) x)) by lia. reflexivity.
  - rewrite Et. eexists. apply ins_sentinel. lia.
  - apply NoDup_ins; [apply (hi_nodup _ _ _ _ Hinv)|].
    destruct Hg as (Hn & _). inversion Hn; assumption.
  - apply bst_ins, (hi_bst _ _ _ _ Hinv).
  - intros a z. rewrite nodes_ins, (hi_nodes _ _ _ _ Hinv a z), !in_mid,
      in_app_iff. cbn [In]. split.
    + intros [H|[H|[H|[[H|[]]|H]]]]; auto.
      * inversion H. auto.
      * discriminate.
    + intros [H|[[H|H]|[H|[H|[]]]]]; auto.
      * discriminate.
      * inversion H. auto.
  - pose proof (hi_noadj _ _ _ _ Hinv) as Hn.
    rewrite naf_app in Hn. destruct Hn as (N1 & N2 & _).
    rewrite naf_app in N2. destruct N2 as (_ & N3 & _).
    rewrite naf_app. split; [exact N1|]. split.
    + change ([(x, target, true); (d, dsz, false)] ++ post)
        with ((x, target, true) :: (d, dsz, false) :: post).
      rewrite !naf_cons. split; [left; reflexivity|].
      split; [right; exact Hhead|exact N3].
    + right. right. right. reflexivity.
Qed.

(** *** Growing the heap *)

(** A new chunk of [size] bytes at the old break [brk s], still under
    construction. *)
Lemma inv_grow s cs t size s' :
  heap_inv NULL s cs t ->
  24 <= size -> size mod 8 = 0 -> brk s + 24 + size < modulus ->
  (forall y, mem s' y = if y =? brk s + 16 + size then size
                        else if y =? brk s then size else mem s y) ->
  fake_root s' = fake_root s -> header_pad s' = header_pad s ->
  footer_pad s' = footer_pad s -> node_pad s' = node_pad s ->
  brk s' = brk s + 24 + size ->
  first_chunk s' = (if first_chunk s =? NULL then brk s else first_chunk s) ->
  guard_addr s' = brk s + 24 + size ->
  heap_inv (brk s) s' (cs ++ [(brk s, size, true)]) t.
Proof.
  intros Hinv Hsz Hmod Hlim Hmem Gfr Ghp Gfp Gnp Gbrk Gfc Gga.
  pose proof (hi_fr _ _ _ _ Hinv) as Hfr.
  pose proof (inv_brk _ _ _ _ Hinv) as Hb.
  assert (Hlow : forall y, y < brk s -> mem s' y = mem s y).
  { intros y Hy. rewrite Hmem.
    rewrite (proj2 (Z.eqb_neq y (brk s + 16 + size))) by lia.
    rewrite (proj2 (Z.eqb_neq y (brk s))) by lia. reflexivity. }
  constructor.
  - rewrite Ghp. apply (hi_hp _ _ _ _ Hinv).
  - rewrite Gfp. apply (hi_fp _ _ _ _ Hinv).
  - rewrite Gnp. apply (hi_np _ _ _ _ Hinv).
  - rewrite Gfr. exact Hfr.
  - rewrite Gfr, Gbrk. apply layout_app. exists (brk s). split.
    + apply layout_frame with (m := mem s); [|apply (hi_layout _ _ _ _ Hinv)].
      intros x Hx. apply Hlow.
      pose proof (tag_cell_range _ _ _ _ _ (hi_layout _ _ _ _ Hinv) Hx). lia.
    + cbn [layout]. unfold c_end, c_addr, c_size. cbn [fst snd].
      repeat split; auto.
      * rewrite Hmem.
        rewrite (proj2 (Z.eqb_neq (brk s) (brk s + 16 + size))) by lia.
        rewrite Z.eqb_refl. reflexivity.
      * rewrite Hmem, Z.eqb_refl. reflexivity.
  - unfold modulus in Hlim. rewrite Gbrk. exact Hlim.
  - right. split; [destruct cs; discriminate|].
    rewrite Gfc, Gga, Gfr, Gbrk.
    destruct (hi_ends _ _ _ _ Hinv) as [(-> & -> & _)|(Hne & -> & _)].
    + pose proof (hi_layout _ _ _ _ Hinv) as Hl. cbn [layout] in Hl.
      rewrite Z.eqb_refl. split; [symmetry; exact Hl|reflexivity].
    + unfold NULL. rewrite (proj2 (Z.eqb_neq (fake_root s + 40) 0)) by lia.
      auto.
  - intros c Hc. apply in_app_or in Hc. destruct Hc as [Hc|[<-|[]]].
    + pose proof (layout_in _ _ _ _ _ (hi_layout _ _ _ _ Hinv) Hc) as
        (H1 & H2 & H3 & _).
      unfold c_end in H2.
      destruct (hi_flags _ _ _ _ Hinv c Hc) as [Hf _].
      split; [|lia]. intros _. rewrite Hlow by lia. apply Hf.
      unfold NULL. lia.
    + unfold c_addr, c_used. cbn [fst snd]. split; [congruence|reflexivity].
  - rewrite Gfr. split; [|apply (hi_sentinel _ _ _ _ Hinv)].
    rewrite Hlow by lia. apply (hi_sentinel _ _ _ _ Hinv).
  - apply rep_outside with (m := mem s); [apply (hi_rep _ _ _ _ Hinv)|].
    intros b k Hb' Hk. apply Hlow.
    destruct (inv_node_extent _ _ _ _ b Hinv Hb') as [->|(sz & _ & H)]; lia.
  - intros a sz. rewrite (hi_nodes _ _ _ _ Hinv a sz), Gfr, in_app_iff.
    cbn [In]. split; [tauto|].
    intros [H|[H|[H|[]]]]; auto. discriminate.
  - exact (hi_nodup _ _ _ _ Hinv).
  - exact (hi_bst _ _ _ _ Hinv).
  - rewrite naf_app. split; [apply (hi_noadj _ _ _ _ Hinv)|].
    split; [exact I|]. right. right. right. reflexivity.
Qed.

(** *** Initialisation *)

Lemma fake_root_store a v s : fake_root (store a v s) = fake_root s.
Proof. reflexivity. Qed.

Lemma header_pad_store a v s : header_pad (store a v s) = header_pad s.
Proof. reflexivity. Qed.

Lemma tralloc_init_fresh m0 brk0 limit :
  0 < brk0 -> brk0 + 40 <= limit -> limit < modulus ->
  tralloc_init (initial_state m0 brk0 limit) =
  store (brk0 + 32) 0 (store (brk0 + 24) 0 (store (brk0 + 16) 0
    (store (brk0 + 8) 0 (store brk0 0
      (mkState m0 brk0 NULL NULL 16 8 24 false false (brk0 + 40) limit
         [(40, brk0)]))))).
Proof.
  intros H0 H1 H2. unfold tralloc_init, initial_state.
  change (ceil_size sizeof_header sizeof_intptr) with 16.
  change (ceil_size sizeof_footer sizeof_intptr) with 8.
  change (ceil_size sizeof_node sizeof_intptr) with 24.
  cbn -[Z.add wrap to_signed Z.leb sbrk store].
  change (wrap (16 + 24)) with 40.
  unfold sbrk.
  cbn -[Z.add wrap to_signed Z.leb store].
  change (to_signed 40) with 40.
  rewrite (proj2 (Z.leb_le 0 (brk0 + 40))) by lia.
  rewrite (proj2 (Z.leb_le (brk0 + 40) limit)) by lia.
  cbn -[Z.add wrap store].
  unfold size_of, in_use_of, header_to_node, parent_of, left_of, right_of.
  rewrite !fake_root_store, !header_pad_store.
  cbn -[Z.add wrap store].
  unfold modulus in H2.
  rewrite !(wrap_small (brk0 + 16)) by (unfold modulus; lia).
  rewrite !(wrap_small (brk0 + 8)) by (unfold modulus; lia).
  rewrite !(wrap_small (brk0 + 16 + 8)) by (unfold modulus; lia).
  rewrite !(wrap_small (brk0 + 16 + 16)) by (unfold modulus; lia).
  replace (brk0 + 16 + 8) with (brk0 + 24) by lia.
  replace (brk0 + 16 + 16) with (brk0 + 32) by lia.
  reflexivity.
Qed.

(** The first call sets up the sentinel root in front of an empty heap. *)
Lemma inv_init m0 brk0 limit :
  0 < brk0 -> brk0 + 40 <= limit -> limit < modulus ->
  heap_inv NULL (tralloc_init (initial_state m0 brk0 limit)) []
    (T E brk0 0 E).
Proof.
  intros H0 H1 H2. rewrite tralloc_init_fresh by assumption.
  unfold modulus in H2.
  constructor; cbn [header_pad footer_pad node_pad fake_root brk first_chunk
                     guard_addr store mem].
  - reflexivity.
  - reflexivity.
  - reflexivity.
  - exact H0.
  - reflexivity.
  - lia.
  - left. auto.
  - intros c [].
  - split; [|eexists; reflexivity].
    rewrite (proj2 (Z.eqb_neq (brk0 + 8) (brk0 + 32))) by lia.
    rewrite (proj2 (Z.eqb_neq (brk0 + 8) (brk0 + 24))) by lia.
    rewrite (proj2 (Z.eqb_neq (brk0 + 8) (brk0 + 16))) by lia.
    rewrite Z.eqb_refl. reflexivity.
  - cbn [rep root_addr].
    rewrite (proj2 (Z.eqb_neq brk0 (brk0 + 32))) by lia.
    rewrite (proj2 (Z.eqb_neq brk0 (brk0 + 24))) by lia.
    rewrite (proj2 (Z.eqb_neq brk0 (brk0 + 16))) by lia.
    rewrite (proj2 (Z.eqb_neq brk0 (brk0 + 8))) by lia.
    rewrite (proj2 (Z.eqb_neq (brk0 + 16) (brk0 + 32))) by lia.
    rewrite (proj2 (Z.eqb_neq (brk0 + 16) (brk0 + 24))) by lia.
    rewrite (proj2 (Z.eqb_neq (brk0 + 24) (brk0 + 32))) by lia.
    rewrite !Z.eqb_refl. repeat split.
  - intros a sz. cbn [nodes In app]. split.
    + intros [H|[]]. inversion H. auto.
    + intros [[-> ->]|[]]. auto.
  - unfold addrs. cbn [nodes map app fst]. repeat constructor. intros [].
  - cbn [bst nodes]. repeat split; intros n [].
  - exact I.
Qed.

(** Once set up, the initialisation prologue changes nothing. *)
Lemma tralloc_init_id cur s cs t :
  heap_inv cur s cs t -> tralloc_init s = s.
Proof.
  intros Hinv. unfold tralloc_init.
  rewrite (hi_hp _ _ _ _ Hinv). change (16 =? 0) with false. cbv iota zeta.
  rewrite (hi_fp _ _ _ _ Hinv). change (8 =? 0) with false. cbv iota.
  rewrite (hi_np _ _ _ _ Hinv). change (24 =? 0) with false. cbv iota.
  pose proof (hi_fr _ _ _ _ Hinv). unfold NULL.
  rewrite (proj2 (Z.eqb_neq (fake_root s) 0)) by lia. reflexivity.
Qed.

(** ** Fuel

    More fuel never changes a result: the fuel only bounds the recursion
    depth of the model, which the C program does not have. *)

Ltac split_ifs H :=
  repeat match type of H with
  | context [if ?c then _ else _] => destruct c eqn:?
  end.

Lemma find_largest_mono k : forall k' tree s r,
  (k <= k')%nat -> find_largest k tree s = Some r ->
  find_largest k' tree s = Some r.
Proof.
  induction k as [|k IH]; intros k' tree s r Hle H; [discriminate|].
  destruct k' as [|k']; [lia|]. cbn [find_largest] in *.
  split_ifs H; [exact H|]. apply IH; [lia|exact H].
Qed.

Lemma find_smallest_mono k : forall k' tree s r,
  (k <= k')%nat -> find_smallest k tree s = Some r ->
  find_smallest k' tree s = Some r.
Proof.
  induction k as [|k IH]; intros k' tree s r Hle H; [discriminate|].
  destruct k' as [|k']; [lia|]. cbn [find_smallest] in *.
  split_ifs H; [exact H|]. apply IH; [lia|exact H].
Qed.

Lemma find_replacement_mono k k' tree s r :
  (k <= k')%nat -> find_replacement k tree s = Some r ->
  find_replacement k' tree s = Some r.
Proof.
  intros Hle H. unfold find_replacement in *. cbv zeta in *.
  split_ifs H.
  - destruct (find_largest k _ _) as [x|] eqn:E; [|discriminate].
    rewrite (find_largest_mono _ _ _ _ _ Hle E). exact H.
  - destruct (find_smallest k _ _) as [x|] eqn:E; [|discriminate].
    rewrite (find_smallest_mono _ _ _ _ _ Hle E). exact H.
Qed.

Lemma remove_chunk_mono k : forall k' x s r,
  (k <= k')%nat -> remove_chunk k x s = Some r ->
  remove_chunk k' x s = Some r.
Proof.
  induction k as [|k IH]; intros k' x s r Hle H; [discriminate|].
  destruct k' as [|k']; [lia|].
  assert (Hle' : (k <= k')%nat) by lia.
  cbn [remove_chunk] in *. cbv zeta in *.
  destruct (negb (mem s (left_of (header_to_node s x)) =? NULL));
    [|exact H].
  destruct (negb (mem s (right_of (header_to_node s x)) =? NULL));
    [|exact H].
  destruct (find_replacement k x s) as [[rp s1]|] eqn:E1; [|discriminate].
  rewrite (find_replacement_mono _ _ _ _ _ Hle' E1).
  destruct (remove_chunk k rp s1) as [s2|] eqn:E2; [|discriminate].
  rewrite (IH _ _ _ _ Hle' E2). exact H.
Qed.

Lemma remove_chunk_by_size_mono k : forall k' tree size s r,
  (k <= k')%nat -> remove_chunk_by_size k tree size s = Some r ->
  remove_chunk_by_size k' tree size s = Some r.
Proof.
  induction k as [|k IH]; intros k' tree size s r Hle H; [discriminate|].
  destruct k' as [|k']; [lia|].
  assert (Hle' : (k <= k')%nat) by lia.
  cbn [remove_chunk_by_size] in *. cbv zeta in *.
  destruct (tree =? NULL); [exact H|].
  destruct (mem s (size_of tree) <? size).
  - apply IH; assumption.
  - destruct (remove_chunk k tree s) as [s1|] eqn:E; [|discriminate].
    rewrite (remove_chunk_mono _ _ _ _ _ Hle' E). exact H.
Qed.

Lemma add_chunk_mono k : forall k' tree to_add par s r,
  (k <= k')%nat -> add_chunk k tree to_add par s = Some r ->
  add_chunk k' tree to_add par s = Some r.
Proof.
  induction k as [|k IH]; intros k' tree to_add par s r Hle H; [discriminate|].
  destruct k' as [|k']; [lia|].
  assert (Hle' : (k <= k')%nat) by lia.
  cbn [add_chunk] in *. cbv zeta in *.
  destruct (tree =? NULL); [exact H|].
  destruct (mem s (size_of to_add) <? mem s (size_of tree)).
  { destruct (add_chunk k _ _ _ _) as [[r1 s1]|] eqn:E; [|discriminate].
    rewrite (IH _ _ _ _ _ _ Hle' E). exact H. }
  destruct (mem s (size_of to_add) >? mem s (size_of tree)).
  { destruct (add_chunk k _ _ _ _) as [[r1 s1]|] eqn:E; [|discriminate].
    rewrite (IH _ _ _ _ _ _ Hle' E). exact H. }
  destruct (equals_alternator s).
  - destruct (add_chunk k _ _ _ _) as [[r1 s1]|] eqn:E; [|discriminate].
    rewrite (IH _ _ _ _ _ _ Hle' E). exact H.
  - destruct (add_chunk k _ _ _ _) as [[r1 s1]|] eqn:E; [|discriminate].
    rewrite (IH _ _ _ _ _ _ Hle' E). exact H.
Qed.

Lemma split_mono k k' size found s r :
  (k <= k')%nat -> split k size found s = Some r ->
  split k' size found s = Some r.
Proof.
  intros Hle H. unfold split in *. cbv zeta in *.
  destruct (add_chunk k _ _ _ _) as [[r1 s1]|] eqn:E; [|discriminate].
  rewrite (add_chunk_mono _ _ _ _ _ _ _ Hle E). exact H.
Qed.

Lemma tralloc_body_mono k k' size s r :
  (k <= k')%nat -> tralloc_body k size s = Some r ->
  tralloc_body k' size s = Some r.
Proof.
  intros Hle H. unfold tralloc_body in *.
  destruct (remove_chunk_by_size k _ _ _) as [[found s1]|] eqn:E;
    [|discriminate].
  rewrite (remove_chunk_by_size_mono _ _ _ _ _ _ Hle E).
  destruct (found =? NULL); [exact H|].
  destruct (divisible size found s1); [|exact H].
  destruct (split k size found s1) as [s2|] eqn:E2; [|discriminate].
  rewrite (split_mono _ _ _ _ _ _ Hle E2). exact H.
Qed.

Lemma tralloc_mono k k' size s r :
  (k <= k')%nat -> tralloc k size s = Some r -> tralloc k' size s = Some r.
Proof. unfold tralloc. cbv zeta. apply tralloc_body_mono. Qed.

Lemma merge_prev_mono k k' x s r :
  (k <= k')%nat -> merge_prev k x s = Some r -> merge_prev k' x s = Some r.
Proof.
  intros Hle H. unfold merge_prev in *. cbv zeta in *.
  destruct (negb (x =? first_chunk s)); [|exact H].
  destruct (mem s _ =? 0); [|exact H].
  destruct (remove_chunk k _ _) as [s1|] eqn:E; [|discriminate].
  rewrite (remove_chunk_mono _ _ _ _ _ Hle E). exact H.
Qed.

Lemma merge_next_mono k k' x s r :
  (k <= k')%nat -> merge_next k x s = Some r -> merge_next k' x s = Some r.
Proof.
  intros Hle H. unfold merge_next in *. cbv zeta in *.
  destruct (negb (_ =? guard_addr s)); [|exact H].
  destruct (mem s _ =? 0); [|exact H].
  destruct (remove_chunk k _ _) as [s1|] eqn:E; [|discriminate].
  rewrite (remove_chunk_mono _ _ _ _ _ Hle E). exact H.
Qed.

Lemma trfree_mono k k' p s r :
  (k <= k')%nat -> trfree k p s = Some r -> trfree k' p s = Some r.
Proof.
  intros Hle H. unfold trfree in *. cbv zeta in *.
  destruct (merge_prev k _ _) as [[x s1]|] eqn:E1; [|discriminate].
  rewrite (merge_prev_mono _ _ _ _ _ Hle E1).
  destruct (merge_next k _ _) as [s2|] eqn:E2; [|discriminate].
  rewrite (merge_next_mono _ _ _ _ _ Hle E2).
  destruct (add_chunk k _ _ _ _) as [[r1 s3]|] eqn:E3; [|discriminate].
  rewrite (add_chunk_mono _ _ _ _ _ _ _ Hle E3). exact H.
Qed.

(** A result obtained with some fuel is the result for all larger fuel, so
    whatever holds of the result with enough fuel holds of it. *)
Lemma wp_of_result {A} (f : nat -> option A) (Q : A -> Prop) k0 k r :
  (forall k k' r, (k <= k')%nat -> f k = Some r -> f k' = Some r) ->
  (forall k', (k0 <= k')%nat ->
     match f k' with Some r => Q r | None => False end) ->
  f k = Some r -> Q r.
Proof.
  intros Hmono Hwp H.
  pose proof (Hwp (Nat.max k0 k) (Nat.le_max_l _ _)) as Hq.
  rewrite (Hmono k (Nat.max k0 k) r (Nat.le_max_r _ _) H) in Hq. exact Hq.
Qed.

(** ** The allocator's operations on a well-formed heap *)

Lemma first_fit_node size t :
  (forall a, In a (addrs t) -> a <> NULL) ->
  first_fit size t <> NULL ->
  exists sz, In (first_fit size t, sz) (nodes t) /\ size <= sz.
Proof.
  induction t as [|l IHl a sz r IHr]; intros Hnz H; [contradiction|].
  cbn [first_fit] in *. cbn [nodes].
  destruct (Z.ltb_spec sz size).
  - destruct IHr as (z & Hin & Hz); [|exact H|].
    + intros b Hb. apply Hnz. rewrite addrs_T. right. apply in_or_app. auto.
    + exists z. split; [|exact Hz]. right. apply in_or_app. auto.
  - exists sz. split; [left; reflexivity|lia].
Qed.

Lemma first_fit_sentinel size fr r :
  0 < size -> first_fit size (T E fr 0 r) = first_fit size r.
Proof.
  intros H. cbn [first_fit]. destruct (Z.ltb_spec 0 size); [reflexivity|lia].
Qed.

(** The search from the sentinel root. *)
Lemma search_root s cs t size fuel :
  heap_inv NULL s cs t -> 0 < size ->
  (2 * height t + 1 <= fuel)%nat ->
  wp (remove_chunk_by_size fuel (fake_root s) size s)
     (searched size t t NULL s).
Proof.
  intros Hinv Hsz Hf.
  destruct (inv_root_shape _ _ _ _ Hinv) as [r Et].
  pose proof (inv_good _ _ _ _ Hinv) as Hg.
  pose proof (hi_rep _ _ _ _ Hinv) as Hrep.
  pose proof (hi_hp _ _ _ _ Hinv) as Hp.
  pose proof (hi_nodup _ _ _ _ Hinv) as Hnd.
  pose proof (inv_root_in_tree _ _ _ _ Hinv) as Hroot.
  pose proof (good_range _ _ Hg Hroot) as Hra.
  assert (Ha : in_range (fake_root s)) by (apply in_range_intro; exact Hra).
  destruct fuel as [|k]; [lia|].
  assert (Hff : first_fit size t = first_fit size r).
  { rewrite Et. apply first_fit_sentinel. exact Hsz. }
  rewrite Et in Hrep. cbn [rep] in Hrep.
  destruct Hrep as (M0 & M1 & M2 & M3 & Rl & Rr).
  cbn delta [remove_chunk_by_size] fix beta iota.
  rewrite NULL_eq. rewrite (proj2 (Z.eqb_neq (fake_root s) 0)) by lia.
  step_let. rewrite (hn s _ Hp Ha) in Etree_node. subst tree_node.
  rewrite size_of_eq, (right_hn _ Ha), M0, M3.
  rewrite (proj2 (Z.ltb_lt 0 size)) by exact Hsz.
  assert (Hsub : forall x, In x (addrs r) ->
            In x (addrs t) /\ x <> root_addr t).
  { intros x Hx. rewrite Et. split.
    - rewrite addrs_T. right. apply in_or_app. auto.
    - change (root_addr (T E (fake_root s) 0 r)) with (fake_root s).
      intros ->. rewrite Et, addrs_T, addrs_E in Hnd. cbn [app] in Hnd.
      inversion Hnd; auto. }
  pose proof (first_fit_descend t NULL size s Hp (hi_rep _ _ _ _ Hinv) Hg
                r (fake_root s) k Rr Hsub) as H.
  assert (Hk : (height r + height t < k)%nat).
  { rewrite Et. rewrite Et in Hf. cbn [height] in *. lia. }
  specialize (H Hk). apply (wp_mono _ _ _ H).
  intros res. unfold searched. rewrite Hff. auto.
Qed.

(** *** Growing the heap (lines 113-117) *)

(** What [grow] does whether or not [sbrk] succeeds: one call of [sbrk],
    whose result becomes the chunk's address. *)
Lemma grow_sbrk size s :
  fst (grow size s) = fst (sbrk (wrap (header_pad s + size + footer_pad s)) s)
  /\ sbrk_log (snd (grow size s)) =
     (wrap (header_pad s + size + footer_pad s), fst (grow size s))
       :: sbrk_log s
  /\ header_pad (snd (grow size s)) = header_pad s
  /\ brk_limit (snd (grow size s)) = brk_limit s.
Proof.
  unfold grow, sbrk. cbv zeta. cbn [first_chunk].
  destruct (first_chunk s =? NULL); repeat split.
Qed.

Lemma to_signed_small x : 0 <= x < 9223372036854775808 -> to_signed x = x.
Proof.
  intros H. unfold to_signed.
  rewrite (proj2 (Z.ltb_lt x 9223372036854775808)) by lia. reflexivity.
Qed.

(** A successful call of [sbrk]. *)
Lemma sbrk_success incr s :
  0 <= incr < 9223372036854775808 -> 0 <= brk s ->
  brk s + incr <= brk_limit s ->
  sbrk incr s =
  (brk s,
   mkState (mem s) (fake_root s) (first_chunk s) (guard_addr s)
           (header_pad s) (footer_pad s) (node_pad s)
           (equals_alternator s) (succ_pred_alternator s)
           (brk s + incr) (brk_limit s) ((incr, brk s) :: sbrk_log s)).
Proof.
  intros Hi Hb Hl. unfold sbrk. cbv zeta. rewrite to_signed_small by exact Hi.
  rewrite (proj2 (Z.leb_le 0 (brk s + incr))) by lia.
  rewrite (proj2 (Z.leb_le (brk s + incr) (brk_limit s))) by lia.
  reflexivity.
Qed.

(** A call of [sbrk] that did not fail has moved the break. *)
Lemma sbrk_not_failed incr s :
  fst (sbrk incr s) <> sbrk_failure ->
  0 <= brk s + to_signed incr <= brk_limit s.
Proof.
  unfold sbrk. cbv zeta. cbn [fst].
  destruct (Z.leb_spec 0 (brk s + to_signed incr));
    destruct (Z.leb_spec (brk s + to_signed incr) (brk_limit s));
    cbn [andb]; intros Hr; try lia; congruence.
Qed.

Lemma grow_ok s cs t size :
  heap_inv NULL s cs t ->
  24 <= size -> size mod 8 = 0 -> size + 24 < 9223372036854775808 ->
  brk s + 24 + size <= brk_limit s -> brk_limit s < modulus ->
  fst (grow size s) = brk s /\
  heap_inv (brk s) (snd (grow size s)) (cs ++ [(brk s, size, true)]) t /\
  brk (snd (grow size s)) = brk s + 24 + size /\
  equals_alternator (snd (grow size s)) = equals_alternator s /\
  succ_pred_alternator (snd (grow size s)) = succ_pred_alternator s.
Proof.
  intros Hinv Hsz Hmod Hbig Hlim Hmax.
  pose proof (hi_hp _ _ _ _ Hinv) as Hp.
  pose proof (hi_fp _ _ _ _ Hinv) as Hfp.
  pose proof (hi_fr _ _ _ _ Hinv) as Hfr.
  pose proof (inv_brk _ _ _ _ Hinv) as Hb.
  unfold modulus in Hmax.
  unfold grow. rewrite Hp, Hfp.
  rewrite (wrap_small (16 + size + 8)) by (unfold modulus; lia).
  rewrite sbrk_success by lia.
  cbn [first_chunk header_pad footer_pad set_first_chunk set_guard_addr].
  cbv zeta.
  assert (Hw : wrap (brk s + 16 + size + 8) = brk s + 24 + size).
  { rewrite wrap_small by (unfold modulus; lia). lia. }
  destruct (first_chunk s =? NULL) eqn:Efc.
  - rewrite Hp, Hfp.
    cbn [first_chunk header_pad footer_pad set_first_chunk set_guard_addr
         fst snd].
    unfold header_to_footer, size_of.
    cbn [first_chunk header_pad footer_pad set_first_chunk set_guard_addr
         fst snd mem store].
    rewrite Z.eqb_refl, Hw.
    rewrite (wrap_small (brk s + 16 + size)) by (unfold modulus; lia).
    split; [reflexivity|].
    split; [|cbn [brk equals_alternator succ_pred_alternator store
                  set_guard_addr set_first_chunk];
             repeat split; first [reflexivity|lia]].
    apply (inv_grow s cs t size); auto;
      cbn [mem store fake_root header_pad footer_pad node_pad brk first_chunk
           guard_addr set_guard_addr set_first_chunk];
      try (unfold modulus; lia); try congruence.
    rewrite Efc. reflexivity.
  - rewrite Hp, Hfp.
    cbn [first_chunk header_pad footer_pad set_first_chunk set_guard_addr
         fst snd].
    unfold header_to_footer, size_of.
    cbn [first_chunk header_pad footer_pad set_first_chunk set_guard_addr
         fst snd mem store].
    rewrite Z.eqb_refl, Hw.
    rewrite (wrap_small (brk s + 16 + size)) by (unfold modulus; lia).
    split; [reflexivity|].
    split; [|cbn [brk equals_alternator succ_pred_alternator store
                  set_guard_addr set_first_chunk];
             repeat split; first [reflexivity|lia]].
    apply (inv_grow s cs t size); auto;
      cbn [mem store fake_root header_pad footer_pad node_pad brk first_chunk
           guard_addr set_guard_addr set_first_chunk];
      try (unfold modulus; lia); try congruence.
    rewrite Efc. reflexivity.
Qed.

(** *** Finding a chunk in the tree (lines 110, 119-129) *)

Lemma hit_chunk s cs t size :
  heap_inv NULL s cs t -> 0 < size -> first_fit size t <> NULL ->
  exists pre fsz post,
    cs = pre ++ (first_fit size t, fsz, false) :: post /\ size <= fsz.
Proof.
  intros Hinv Hsz Hf.
  pose proof (inv_good _ _ _ _ Hinv) as Hg.
  destruct (first_fit_node size t) as (sz & Hin & Hle); [|exact Hf|].
  - intros a Ha. pose proof (good_range _ _ Hg Ha). unfold NULL. lia.
  - apply (hi_nodes _ _ _ _ Hinv) in Hin. destruct Hin as [[_ ->]|Hin]; [lia|].
    apply in_split in Hin. destruct Hin as (pre & post & ->).
    exists pre, sz, post. auto.
Qed.

Lemma divisible_spec s pre x fsz post t size :
  heap_inv x s (pre ++ (x, fsz, true) :: post) t ->
  0 <= size <= fsz ->
  divisible size x s = (fsz >=? size + 48).
Proof.
  intros Hinv Hsz.
  destruct (layout_focus _ _ _ _ _ _ (hi_layout _ _ _ _ Hinv)) as
    (Hpre & Hpost & H1 & H2 & H3 & H4 & H5 & H6).
  unfold c_end, c_addr, c_size in *. cbn [fst snd] in *.
  pose proof (hi_fr _ _ _ _ Hinv) as Hfr.
  pose proof (hi_brk _ _ _ _ Hinv) as Hbrk.
  unfold divisible. rewrite size_of_eq, H3.
  rewrite (hi_hp _ _ _ _ Hinv), (hi_fp _ _ _ _ Hinv), (hi_np _ _ _ _ Hinv).
  rewrite wrap_small by (unfold modulus; lia).
  replace (size + 8 + 16 + 24) with (size + 48) by lia. reflexivity.
Qed.

Lemma split_ok s pre x fsz post t size fuel :
  heap_inv x s (pre ++ (x, fsz, true) :: post) t ->
  24 <= size -> size mod 8 = 0 -> size + 48 <= fsz -> head_used post ->
  (height t < fuel)%nat ->
  wp (split fuel size x s)
     (fun s' =>
        heap_inv x s'
          (pre ++ (x, size, true) :: (x + 24 + size, fsz - size - 24, false)
               :: post)
          (ins (equals_alternator s) (x + 24 + size) (fsz - size - 24) t) /\
        same_globals s s' /\
        succ_pred_alternator s' = succ_pred_alternator s).
Proof.
  intros Hinv Hsz Hmod Hf Hhead Hfuel.
  destruct (layout_focus _ _ _ _ _ _ (hi_layout _ _ _ _ Hinv)) as
    (Hpre & Hpost & H1 & H2 & H3 & H4 & H5 & H6).
  unfold c_end, c_addr, c_size in *. cbn [fst snd] in *.
  pose proof (hi_fr _ _ _ _ Hinv) as Hfr.
  pose proof (hi_brk _ _ _ _ Hinv) as Hbrk.
  pose proof (hi_hp _ _ _ _ Hinv) as Hp.
  pose proof (hi_fp _ _ _ _ Hinv) as Hfp.
  destruct (inv_root_shape _ _ _ _ Hinv) as [r Et].
  set (d := x + 24 + size). set (dsz := fsz - size - 24).
  destruct (inv_split_pre _ _ _ _ _ _ size Hinv Hsz Hf)
    as (Hrep & Hg & Hmd & Hout).
  cbv zeta in Hrep, Hg, Hmd. fold d in Hrep, Hg, Hmd. fold dsz in Hrep, Hmd.
  assert (Hd : d = x + 24 + size) by reflexivity.
  assert (Hdsz : dsz = fsz - size - 24) by reflexivity.
  clearbody d dsz.
  unfold split.
  rewrite Hp, Hfp.
  replace (wrap (x + 16 + size + 8)) with d
    by (rewrite wrap_small by (unfold modulus; lia); lia).
  rewrite !size_of_eq, H3.
  replace (wrap (fsz - size - 8 - 16)) with dsz
    by (rewrite wrap_small by (unfold modulus; lia); lia).
  replace (in_use_of d) with (d + 8)
    by (unfold in_use_of; rewrite wrap_small by (unfold modulus; lia); lia).
  cbv zeta.
  assert (E3 : store (header_to_footer (store (d + 8) 0 (store d dsz s)) d)
                 (mem (store (d + 8) 0 (store d dsz s)) d)
                 (store (d + 8) 0 (store d dsz s)) = split_tags d dsz s).
  { unfold header_to_footer, split_tags.
    cbn [mem store header_pad]. rewrite Hp.
    rewrite (proj2 (Z.eqb_neq d (d + 8))) by lia. rewrite Z.eqb_refl.
    rewrite wrap_small by (unfold modulus; lia). reflexivity. }
  rewrite E3.
  change (fake_root (split_tags d dsz s)) with (fake_root s).
  assert (Hroot : fake_root s = root_addr t) by (rewrite Et; reflexivity).
  rewrite Hroot.
  pose proof (add_chunk_spec d dsz t NULL (split_tags d dsz s) fuel
                Hp Hrep Hg Hmd Hfuel) as H.
  destruct (add_chunk fuel (root_addr t) d NULL (split_tags d dsz s))
    as [[r1 s4]|]; [|contradiction].
  cbn [wp] in H |- *.
  pose proof H as (Eroot & G & SP & _).
  cbn [fst snd] in Eroot, G, SP.
  destruct (same_globals_fields _ _ G) as (_ & _ & _ & Ghp & _).
  change (header_pad (split_tags d dsz s)) with (header_pad s) in Ghp.
  assert (E5 : header_to_footer
                 (store x size (set_fake_root r1 s4)) x = x + 16 + size).
  { unfold header_to_footer. cbn [mem store header_pad set_fake_root].
    rewrite Z.eqb_refl, Ghp, Hp.
    apply wrap_small. unfold modulus. lia. }
  rewrite E5.
  split; [|split].
  - apply (inv_split s pre x fsz post t size (r1, s4) d dsz); auto.
  - do 2 (eapply same_globals_trans; [|apply same_globals_store]).
    apply same_globals_set_fr.
    + eapply same_globals_trans; [|exact G]. unfold split_tags.
      do 2 (eapply same_globals_trans; [|apply same_globals_store]).
      apply same_globals_store.
    + rewrite Eroot, root_ins, Et. reflexivity.
  - cbn [succ_pred_alternator store set_fake_root]. rewrite SP. reflexivity.
Qed.

Lemma hand_out_ok s pre x sz post t :
  heap_inv x s (pre ++ (x, sz, true) :: post) t ->
  hand_out x s = (x + 16, store (x + 8) 1 s).
Proof.
  intros Hinv.
  destruct (layout_focus _ _ _ _ _ _ (hi_layout _ _ _ _ Hinv)) as
    (Hpre & Hpost & H1 & H2 & H3 & H4 & H5 & H6).
  unfold c_end, c_addr, c_size in *. cbn [fst snd] in *.
  pose proof (hi_fr _ _ _ _ Hinv) as Hfr.
  pose proof (hi_brk _ _ _ _ Hinv) as Hbrk.
  unfold hand_out, header_to_node, in_use_of. cbv zeta.
  cbn [header_pad store]. rewrite (hi_hp _ _ _ _ Hinv).
  rewrite !wrap_small by (unfold modulus; lia). reflexivity.
Qed.

Lemma tralloc_body_hit s pre f fsz post t size fuel :
  heap_inv NULL s (pre ++ (f, fsz, false) :: post) t ->
  24 <= size -> size mod 8 = 0 ->
  first_fit size t = f -> f <> NULL ->
  (2 * height t + 1 <= fuel)%nat ->
  wp (tralloc_body fuel size s) (took size s pre f fsz post t).
Proof.
  intros Hinv Hsz Hmod Hff Hnz Hfuel.
  assert (Hle : size <= fsz).
  { destruct (hit_chunk s _ t size Hinv) as (pre' & fsz' & post' & E & Hle);
      [lia|rewrite Hff; exact Hnz|].
    rewrite Hff in E.
    assert (Hin : In (f, fsz', false) (pre ++ (f, fsz, false) :: post)).
    { rewrite E. apply in_or_app. right. left. reflexivity. }
    assert (Hin' : In (f, fsz, false) (pre ++ (f, fsz, false) :: post)).
    { apply in_or_app. right. left. reflexivity. }
    pose proof (layout_addr_inj _ _ _ _ _ _ (hi_layout _ _ _ _ Hinv)
                  Hin Hin' eq_refl) as Ec.
    inversion Ec. subst. exact Hle. }
  pose proof (naf_head_used _ _ _ (hi_noadj _ _ _ _ Hinv) eq_refl) as Hhead.
  unfold tralloc_body.
  pose proof (search_root s _ t size fuel Hinv) as H.
  assert (H0 : 0 < size) by lia. specialize (H H0).
  assert (H1 : (2 * height t + 1 <= fuel)%nat) by lia. specialize (H H1).
  destruct (remove_chunk_by_size fuel (fake_root s) size s)
    as [[found s1]|]; [|contradiction].
  cbn [wp] in H. unfold searched in H. cbn [fst snd] in H.
  destruct H as [Ef Hrm]. rewrite Hff in Ef, Hrm. subst found.
  rewrite NULL_eq in *.
  rewrite (proj2 (Z.eqb_neq f 0)) in * by exact Hnz.
  pose proof (inv_take _ _ _ _ _ _ _ Hinv Hrm) as Hinv1.
  destruct Hrm as (G & EA & SP & _).
  rewrite (divisible_spec _ _ _ _ _ _ size Hinv1) by lia.
  unfold took.
  destruct (fsz >=? size + 48) eqn:Ediv.
  - assert (Hbig : size + 48 <= fsz).
    { destruct (Z.geb_spec fsz (size + 48)); [lia|discriminate]. }
    pose proof (split_ok _ _ _ _ _ _ size fuel Hinv1 Hsz Hmod Hbig Hhead)
      as H.
    assert (H2 : (height (del (negb (succ_pred_alternator s)) f t) < fuel)%nat).
    { pose proof (height_del (negb (succ_pred_alternator s)) f t). lia. }
    specialize (H H2).
    destruct (split fuel size f s1) as [s2|]; [|contradiction].
    cbn [wp] in H |- *. destruct H as (Hinv2 & G2 & _).
    rewrite EA in Hinv2.
    rewrite (hand_out_ok _ _ _ _ _ _ Hinv2). cbn [fst snd].
    split; [reflexivity|]. split.
    + eapply same_globals_trans; [exact G|].
      eapply same_globals_trans; [exact G2|apply same_globals_store].
    + apply inv_hand_out. exact Hinv2.
  - cbn [wp]. rewrite (hand_out_ok _ _ _ _ _ _ Hinv1). cbn [fst snd].
    split; [reflexivity|]. split.
    + eapply same_globals_trans; [exact G|apply same_globals_store].
    + apply inv_hand_out. exact Hinv1.
Qed.

Lemma tralloc_body_miss s cs t size fuel :
  heap_inv NULL s cs t -> 0 < size ->
  first_fit size t = NULL ->
  (2 * height t + 1 <= fuel)%nat ->
  tralloc_body fuel size s =
  Some (hand_out (fst (grow size s)) (snd (grow size s))).
Proof.
  intros Hinv Hsz Hff Hfuel.
  unfold tralloc_body.
  pose proof (search_root s _ t size fuel Hinv Hsz Hfuel) as H.
  destruct (remove_chunk_by_size fuel (fake_root s) size s)
    as [[found s1]|]; [|contradiction].
  cbn [wp] in H. unfold searched in H. cbn [fst snd] in H.
  destruct H as [Ef Hrm]. rewrite Hff in Ef, Hrm. subst found.
  rewrite Z.eqb_refl in *. subst s1.
  destruct (grow size s) as [found s2]. reflexivity.
Qed.

(** *** Releasing a chunk (lines 134-161) *)

Lemma last_or_nil {A} (l : list A) :
  l = [] \/ exists l' c, l = l' ++ [c].
Proof.
  induction l as [|x l IH] using rev_ind; [left; reflexivity|].
  right. exists l, x. reflexivity.
Qed.

Lemma removed_tag cur s cs t y s' x :
  heap_inv cur s cs t -> removed y t NULL s s' -> tag_cell cs x ->
  mem s' x = mem s x.
Proof.
  intros Hinv (_ & _ & _ & _ & F) Hx. apply F.
  intros Hl. exact (inv_link_not_tag _ _ _ _ Hinv x Hl Hx).
Qed.

Lemma merge_prev_ok s pre a sz post t fuel :
  heap_inv NULL s (pre ++ (a, sz, true) :: post) t ->
  (height t <= fuel)%nat ->
  wp (merge_prev fuel a s) (merged_prev s pre a sz post t).
Proof.
  intros Hinv Hfuel.
  assert (Hin : In (a, sz, true) (pre ++ (a, sz, true) :: post))
    by (apply in_or_app; right; left; reflexivity).
  pose proof (inv_enter _ _ _ _ _ Hinv Hin) as Hinva.
  pose proof (hi_fr _ _ _ _ Hinv) as Hfr.
  pose proof (hi_brk _ _ _ _ Hinv) as Hbrk.
  pose proof (hi_hp _ _ _ _ Hinv) as Hp.
  pose proof (hi_fp _ _ _ _ Hinv) as Hfp.
  destruct (hi_ends _ _ _ _ Hinv) as [(E & _)|(_ & Hfc & Hga)];
    [destruct pre; discriminate|].
  unfold merge_prev.
  destruct (last_or_nil pre) as [->|(pre' & c & ->)].
  - (* [a] is the first chunk *)
    pose proof (hi_layout _ _ _ _ Hinv) as Hl. cbn [app layout] in Hl.
    destruct Hl as (Ea & _). unfold c_addr in Ea. cbn [fst] in Ea.
    rewrite Hfc, <- Ea, Z.eqb_refl. cbn [negb wp].
    unfold merged_prev. cbn [fst snd].
    split; [apply same_globals_refl|]. split; [reflexivity|].
    exists [], sz, t. split; [exact Hinva|]. split; [auto|].
    split; [lia|]. right. auto.
  - destruct c as [[b szb] ub].
    rewrite <- app_assoc in Hinv, Hinva, Hin. cbn [app] in Hinv, Hinva, Hin.
    destruct (layout_focus2 _ _ _ _ _ _ _ (hi_layout _ _ _ _ Hinv)) as
      (Hpre & Hpost & Ea & B1 & B2 & B3 & B4 & A1 & A2 & A3 & A4 & L1 & L2).
    unfold c_end, c_addr, c_size in *. cbn [fst snd] in *.
    rewrite Hfc. rewrite (proj2 (Z.eqb_neq a (fake_root s + 40))) by lia.
    cbn [negb]. rewrite Hfp.
    assert (Ec : footer_to_header s (wrap (a - 8)) = b).
    { unfold footer_to_header. rewrite Hp.
      rewrite (wrap_small (a - 8)) by (unfold modulus; lia).
      replace (a - 8) with (b + 16 + szb) by lia. rewrite B4.
      rewrite wrap_small by (unfold modulus; lia). lia. }
    rewrite Ec. cbv zeta.
    replace (in_use_of b) with (b + 8)
      by (unfold in_use_of; rewrite wrap_small by (unfold modulus; lia); lia).
    assert (Hb : In (b, szb, ub) (pre' ++ (b, szb, ub) :: (a, sz, true) :: post))
      by (apply in_or_app; right; left; reflexivity).
    destruct (hi_flags _ _ _ _ Hinv _ Hb) as [Hfl _].
    unfold c_addr, c_used in Hfl. cbn [fst snd] in Hfl.
    rewrite Hfl by (unfold NULL; lia).
    destruct ub.
    + (* the predecessor is in use *)
      change (1 =? 0) with false. cbn [wp].
      unfold merged_prev. cbn [fst snd].
      split; [apply same_globals_refl|]. split; [reflexivity|].
      exists (pre' ++ [(b, szb, true)]), sz, t.
      rewrite <- app_assoc. cbn [app].
      split; [exact Hinva|]. split.
      * right. apply last_used_app_cons. reflexivity.
      * split; [lia|]. right. auto.
    + (* the predecessor is free *)
      change (0 =? 0) with true. cbv iota.
      destruct (inv_free_in_tree _ _ _ _ Hinv _ _ Hb) as [Hbt Hbfr].
      destruct (inv_root_shape _ _ _ _ Hinv) as [r Et].
      assert (Hbr : b <> root_addr t) by (rewrite Et; exact Hbfr).
      pose proof (remove_chunk_spec t NULL s b fuel Hp (hi_rep _ _ _ _ Hinv)
                    (inv_good _ _ _ _ Hinv) Hbt Hbr Hfuel) as H.
      destruct (remove_chunk fuel b s) as [s1|]; [|contradiction].
      cbn [wp] in H |- *.
      pose proof H as (G & EA & SP & _).
      destruct (same_globals_fields _ _ G) as (_ & _ & _ & Ghp & Gfp & _).
      rewrite !size_of_eq, Gfp, Ghp, Hfp, Hp.
      rewrite (removed_tag _ _ _ _ _ _ b Hinv H)
        by (exists (b, szb, false); split; [exact Hb|left; reflexivity]).
      rewrite (removed_tag _ _ _ _ _ _ a Hinv H)
        by (exists (a, sz, true); split; [exact Hin|left; reflexivity]).
      rewrite B3, A3.
      replace (wrap (szb + (8 + 16 + sz))) with (szb + 24 + sz)
        by (rewrite wrap_small by (unfold modulus; lia); lia).
      assert (E5 : header_to_footer (store b (szb + 24 + sz) s1) b
                   = b + 16 + (szb + 24 + sz)).
      { unfold header_to_footer. cbn [mem store header_pad].
        rewrite Z.eqb_refl, Ghp, Hp.
        apply wrap_small. unfold modulus. lia. }
      rewrite E5. cbn [mem store]. rewrite Z.eqb_refl.
      unfold merged_prev. cbn [fst snd].
      split; [do 2 apply same_globals_store_r; exact G|].
      split; [exact EA|].
      exists pre', (szb + 24 + sz), (del (negb (succ_pred_alternator s)) b t).
      split; [apply (inv_merge_prev _ _ _ _ _ _ _ _ _ Hinva H)|].
      split; [apply (naf_last_used _ _ _ (hi_noadj _ _ _ _ Hinv) eq_refl)|].
      split; [apply height_del|].
      left. split; [|reflexivity].
      replace (szb + 24 + sz - 24 - sz) with szb by lia. reflexivity.
Qed.

Lemma merge_next_ok s pre x szx post t fuel :
  heap_inv x s (pre ++ (x, szx, true) :: post) t ->
  (height t <= fuel)%nat ->
  wp (merge_next fuel x s) (merged_next s pre x szx post t).
Proof.
  intros Hinv Hfuel.
  assert (Hin : In (x, szx, true) (pre ++ (x, szx, true) :: post))
    by (apply in_or_app; right; left; reflexivity).
  pose proof (hi_fr _ _ _ _ Hinv) as Hfr.
  pose proof (hi_brk _ _ _ _ Hinv) as Hbrk.
  pose proof (hi_hp _ _ _ _ Hinv) as Hp.
  pose proof (hi_fp _ _ _ _ Hinv) as Hfp.
  destruct (hi_ends _ _ _ _ Hinv) as [(E & _)|(_ & Hfc & Hga)];
    [destruct pre; discriminate|].
  destruct (layout_focus _ _ _ _ _ _ (hi_layout _ _ _ _ Hinv)) as
    (Hpre & Hpost & H1 & H2 & H3 & H4 & H5 & H6).
  unfold c_end, c_addr, c_size in *. cbn [fst snd] in *.
  unfold merge_next.
  assert (Ee : wrap (header_to_footer s x + footer_pad s) = x + 24 + szx).
  { unfold header_to_footer. rewrite Hp, Hfp, H3.
    rewrite (wrap_small (x + 16 + szx)) by (unfold modulus; lia).
    rewrite wrap_small by (unfold modulus; lia). lia. }
  rewrite Ee, Hga. cbv zeta.
  destruct post as [|[[d szd] ud] post'].
  - (* [x] is the last chunk *)
    cbn [layout] in Hpost. rewrite Hpost, Z.eqb_refl. cbn [negb wp].
    unfold merged_next.
    split; [apply same_globals_refl|]. split; [reflexivity|].
    exists szx, [], t. split; [exact Hinv|]. split; [exact I|].
    split; [lia|]. right. auto.
  - destruct (layout_focus2 _ _ _ _ _ _ _ (hi_layout _ _ _ _ Hinv)) as
      (_ & Hpost' & Ea & B1 & B2 & B3 & B4 & A1 & A2 & A3 & A4 & L1 & L2).
    unfold c_end, c_addr, c_size in *. cbn [fst snd] in *.
    rewrite (proj2 (Z.eqb_neq (x + 24 + szx) (brk s))) by lia.
    cbn [negb].
    replace (in_use_of (x + 24 + szx)) with (d + 8)
      by (unfold in_use_of; rewrite wrap_small by (unfold modulus; lia); lia).
    assert (Hd : In (d, szd, ud)
                   (pre ++ (x, szx, true) :: (d, szd, ud) :: post'))
      by (apply in_or_app; right; right; left; reflexivity).
    destruct (hi_flags _ _ _ _ Hinv _ Hd) as [Hfl _].
    unfold c_addr, c_used in Hfl. cbn [fst snd] in Hfl.
    rewrite Hfl by lia.
    destruct ud.
    + (* the successor is in use *)
      change (1 =? 0) with false. cbn [wp].
      unfold merged_next.
      split; [apply same_globals_refl|]. split; [reflexivity|].
      exists szx, ((d, szd, true) :: post'), t.
      split; [exact Hinv|]. split; [reflexivity|].
      split; [lia|]. right. auto.
    + (* the successor is free *)
      change (0 =? 0) with true. cbv iota.
      replace (x + 24 + szx) with d by lia.
      destruct (inv_free_in_tree _ _ _ _ Hinv _ _ Hd) as [Hdt Hdfr].
      destruct (inv_root_shape _ _ _ _ Hinv) as [r Et].
      assert (Hdr : d <> root_addr t) by (rewrite Et; exact Hdfr).
      pose proof (remove_chunk_spec t NULL s d fuel Hp (hi_rep _ _ _ _ Hinv)
                    (inv_good _ _ _ _ Hinv) Hdt Hdr Hfuel) as H.
      destruct (remove_chunk fuel d s) as [s1|]; [|contradiction].
      cbn [wp] in H |- *.
      pose proof H as (G & EA & SP & _).
      destruct (same_globals_fields _ _ G) as (_ & _ & _ & Ghp & Gfp & _).
      rewrite !size_of_eq, Gfp, Ghp, Hfp, Hp.
      rewrite (removed_tag _ _ _ _ _ _ x Hinv H)
        by (exists (x, szx, true); split; [exact Hin|left; reflexivity]).
      rewrite (removed_tag _ _ _ _ _ _ d Hinv H)
        by (exists (d, szd, false); split; [exact Hd|left; reflexivity]).
      rewrite B3, A3.
      replace (wrap (szx + (8 + 16 + szd))) with (szx + 24 + szd)
        by (rewrite wrap_small by (unfold modulus; lia); lia).
      assert (E5 : header_to_footer (store x (szx + 24 + szd) s1) x
                   = x + 16 + (szx + 24 + szd)).
      { unfold header_to_footer. cbn [mem store header_pad].
        rewrite Z.eqb_refl, Ghp, Hp.
        apply wrap_small. unfold modulus. lia. }
      rewrite E5. cbn [mem store]. rewrite Z.eqb_refl.
      unfold merged_next.
      split; [do 2 apply same_globals_store_r; exact G|].
      split; [exact EA|].
      exists (szx + 24 + szd), post',
        (del (negb (succ_pred_alternator s)) d t).
      split; [apply (inv_merge_next _ _ _ _ _ _ _ _ _ Hinv H)|].
      split; [apply (naf_head_used (pre ++ [(x, szx, true)]) (d, szd, false));
              [rewrite <- app_assoc; exact (hi_noadj _ _ _ _ Hinv)
              |reflexivity]|].
      split; [apply height_del|].
      left. rewrite <- Ea. split; [|reflexivity].
      replace (szx + 24 + szd - 24 - szx) with szd by lia. reflexivity.
Qed.

Lemma trfree_ok s pre a sz post t fuel :
  heap_inv NULL s (pre ++ (a, sz, true) :: post) t ->
  (height t < fuel)%nat ->
  wp (trfree fuel (a + 16) s) (freed s pre a sz post t).
Proof.
  intros Hinv Hfuel.
  pose proof (hi_fr _ _ _ _ Hinv) as Hfr.
  pose proof (hi_brk _ _ _ _ Hinv) as Hbrk.
  pose proof (hi_hp _ _ _ _ Hinv) as Hp.
  destruct (layout_focus _ _ _ _ _ _ (hi_layout _ _ _ _ Hinv)) as
    (_ & _ & H1 & _ & _ & _ & H5 & H6).
  unfold c_end, c_addr, c_size in *. cbn [fst snd] in *.
  unfold trfree.
  assert (E0 : node_to_header s (a + 16) = a).
  { unfold node_to_header. rewrite Hp.
    replace (a + 16 - 16) with a by lia.
    apply wrap_small. unfold modulus. lia. }
  rewrite E0. cbv zeta.
  pose proof (merge_prev_ok s pre a sz post t fuel Hinv) as H.
  assert (Hf1 : (height t <= fuel)%nat) by lia. specialize (H Hf1).
  destruct (merge_prev fuel a s) as [[x s1]|]; [|contradiction].
  cbn [wp] in H. unfold merged_prev in H. cbn [fst snd] in H.
  destruct H as (G1 & EA1 & pre' & sz1 & t1 & Hinv1 & Hlast & Hh1 & Hcase1).
  pose proof (merge_next_ok s1 pre' x sz1 post t1 fuel Hinv1) as H.
  assert (Hf2 : (height t1 <= fuel)%nat) by lia. specialize (H Hf2).
  destruct (merge_next fuel x s1) as [s2|]; [|contradiction].
  cbn [wp] in H. unfold merged_next in H.
  destruct H as (G2 & EA2 & sz2 & post' & t2 & Hinv2 & Hhead & Hh2 & Hcase2).
  pose proof (hi_fr _ _ _ _ Hinv2) as Hfr2.
  pose proof (hi_brk _ _ _ _ Hinv2) as Hbrk2.
  pose proof (hi_hp _ _ _ _ Hinv2) as Hp2.
  destruct (layout_focus _ _ _ _ _ _ (hi_layout _ _ _ _ Hinv2)) as
    (_ & _ & K1 & _ & _ & _ & K5 & K6).
  unfold c_end, c_addr, c_size in *. cbn [fst snd] in *.
  replace (in_use_of x) with (x + 8)
    by (unfold in_use_of; rewrite wrap_small by (unfold modulus; lia); lia).
  destruct (inv_insert_pre _ _ _ _ _ _ Hinv2) as (Hrep & Hg & Hm & _).
  destruct (inv_root_shape _ _ _ _ Hinv2) as [r2 Et2].
  change (fake_root (store (x + 8) 0 s2)) with (fake_root s2).
  assert (Hroot : fake_root s2 = root_addr t2) by (rewrite Et2; reflexivity).
  rewrite Hroot.
  assert (Hp3 : header_pad (store (x + 8) 0 s2) = 16) by exact Hp2.
  assert (Hf3 : (height t2 < fuel)%nat) by lia.
  pose proof (add_chunk_spec x sz2 t2 NULL (store (x + 8) 0 s2) fuel
                Hp3 Hrep Hg Hm Hf3) as H.
  destruct (add_chunk fuel (root_addr t2) x NULL (store (x + 8) 0 s2))
    as [[r s4]|]; [|contradiction].
  cbn [wp] in H |- *.
  pose proof (inv_insert _ _ _ _ _ _ _ Hinv2 Hlast Hhead H) as Hinv4.
  cbn [fst snd] in Hinv4. rewrite EA2, EA1 in Hinv4.
  destruct H as (Eroot & G4 & _). cbn [fst snd] in Eroot, G4.
  unfold freed. split.
  - apply same_globals_set_fr.
    + eapply same_globals_trans; [exact G1|].
      eapply same_globals_trans; [exact G2|].
      eapply same_globals_trans; [apply same_globals_store|exact G4].
    + rewrite Eroot, root_ins, Et2.
      destruct (same_globals_fields _ _ G1) as (F1 & _).
      destruct (same_globals_fields _ _ G2) as (F2 & _).
      transitivity (fake_root s2); [reflexivity|congruence].
  - exists pre', x, sz1, t1, sz2, post', t2.
    split; [|split; [|exact Hinv4]].
    + destruct Hcase1 as [(E1 & E2)|(E1 & E2 & E3 & E4 & _)]; [left|right];
        auto.
    + destruct Hcase2 as [(E1 & E2)|(E1 & E2 & E3 & _)]; [left|right]; auto.
      eexists. split; [exact E1|exact E2].
Qed.

(** ** The operating system's side

    Only [sbrk] touches the break and the trace of [sbrk] calls; this holds in
    every state, well formed or not. *)

Lemma same_os_refl s : same_os s s.
Proof. repeat split. Qed.

Lemma same_os_trans s1 s2 s3 : same_os s1 s2 -> same_os s2 s3 -> same_os s1 s3.
Proof.
  intros (A1 & A2 & A3) (B1 & B2 & B3). repeat split; congruence.
Qed.

Lemma same_os_store a v s : same_os s (store a v s).
Proof. repeat split. Qed.

Lemma same_os_store_r a v s s' : same_os s s' -> same_os s (store a v s').
Proof. intros H. eapply same_os_trans; [exact H|apply same_os_store]. Qed.

Lemma remove_chunk_os k : forall x s s',
  remove_chunk k x s = Some s' -> same_os s s'.
Proof.
  induction k as [|k IH]; intros x s s' H; [discriminate|].
  cbn [remove_chunk] in H. cbv zeta in H.
  destruct (negb (mem s (left_of (header_to_node s x)) =? NULL)).
  - destruct (negb (mem s (right_of (header_to_node s x)) =? NULL)).
    + destruct (find_replacement k x s) as [[rp s1]|] eqn:E1; [|discriminate].
      assert (Hs1 : same_os s s1).
      { unfold find_replacement in E1. cbv zeta in E1.
        destruct (succ_pred_alternator _).
        - destruct (find_largest _ _ _); inversion E1. repeat split.
        - destruct (find_smallest _ _ _); inversion E1. repeat split. }
      destruct (remove_chunk k rp s1) as [s2|] eqn:E2; [|discriminate].
      pose proof (IH _ _ _ E2) as Hs2.
      inversion H as [H']. clear H H'.
      eapply same_os_trans; [exact Hs1|].
      eapply same_os_trans; [exact Hs2|].
      destruct (negb (_ =? NULL)); destruct (negb (_ =? NULL));
        repeat apply same_os_store_r; apply same_os_refl.
    + inversion H. repeat apply same_os_store_r. apply same_os_refl.
  - destruct (negb (mem s (right_of (header_to_node s x)) =? NULL));
      inversion H; repeat apply same_os_store_r; apply same_os_refl.
Qed.

Lemma remove_chunk_by_size_os k : forall tree size s r,
  remove_chunk_by_size k tree size s = Some r -> same_os s (snd r).
Proof.
  induction k as [|k IH]; intros tree size s r H; [discriminate|].
  cbn [remove_chunk_by_size] in H. cbv zeta in H.
  destruct (tree =? NULL); [inversion H; apply same_os_refl|].
  destruct (mem s (size_of tree) <? size); [apply (IH _ _ _ _ H)|].
  destruct (remove_chunk k tree s) as [s1|] eqn:E; [|discriminate].
  inversion H. cbn [snd]. apply (remove_chunk_os _ _ _ _ E).
Qed.

Lemma add_chunk_os k : forall tree to_add par s r,
  add_chunk k tree to_add par s = Some r -> same_os s (snd r).
Proof.
  induction k as [|k IH]; intros tree to_add par s r H; [discriminate|].
  cbn [add_chunk] in H. cbv zeta in H.
  destruct (tree =? NULL).
  { inversion H. cbn [snd]. repeat apply same_os_store_r. apply same_os_refl. }
  destruct (mem s (size_of to_add) <? mem s (size_of tree)).
  { destruct (add_chunk k _ _ _ _) as [[r1 s1]|] eqn:E; [|discriminate].
    inversion H. cbn [snd]. apply same_os_store_r. apply (IH _ _ _ _ _ E). }
  destruct (mem s (size_of to_add) >? mem s (size_of tree)).
  { destruct (add_chunk k _ _ _ _) as [[r1 s1]|] eqn:E; [|discriminate].
    inversion H. cbn [snd]. apply same_os_store_r. apply (IH _ _ _ _ _ E). }
  destruct (equals_alternator s).
  - destruct (add_chunk k _ _ _ _) as [[r1 s1]|] eqn:E; [|discriminate].
    inversion H. cbn [snd].
    eapply same_os_trans; [apply (IH _ _ _ _ _ E)|]. repeat split.
  - destruct (add_chunk k _ _ _ _) as [[r1 s1]|] eqn:E; [|discriminate].
    inversion H. cbn [snd].
    eapply same_os_trans; [apply (IH _ _ _ _ _ E)|]. repeat split.
Qed.

Lemma split_os k size found s s' :
  split k size found s = Some s' -> same_os s s'.
Proof.
  unfold split. cbv zeta. intros H.
  destruct (add_chunk k _ _ _ _) as [[r1 s1]|] eqn:E; [|discriminate].
  inversion H. apply add_chunk_os in E. cbn [snd] in E.
  destruct E as (E1 & E2 & E3). repeat split; assumption.
Qed.

(** [tralloc_body] calls [sbrk] at most once, after the search. *)
Lemma tralloc_body_os k size s r :
  tralloc_body k size s = Some r ->
  same_os s (snd r) \/
  (brk_limit (snd r) = brk_limit s /\
   exists s1, same_os s s1 /\
     sbrk_log (snd r) =
       (wrap (header_pad s1 + size + footer_pad s1),
        fst (sbrk (wrap (header_pad s1 + size + footer_pad s1)) s1))
       :: sbrk_log s).
Proof.
  unfold tralloc_body, hand_out. cbv zeta. intros H.
  destruct (remove_chunk_by_size k _ _ _) as [[found s1]|] eqn:E;
    [|discriminate].
  apply remove_chunk_by_size_os in E. cbn [snd] in E.
  destruct (found =? NULL).
  - right. destruct (grow_sbrk size s1) as (G1 & G2 & G3 & G4).
    destruct (grow size s1) as [f2 s2]. inversion H. cbn [snd fst] in *.
    destruct E as (E1 & E2 & E3).
    cbn [brk_limit sbrk_log store].
    split; [congruence|]. exists s1. split; [repeat split; assumption|].
    rewrite G2, E3, G1. reflexivity.
  - left. destruct (divisible size found s1).
    + destruct (split k size found s1) as [s2|] eqn:E2; [|discriminate].
      inversion H. cbn [snd]. apply same_os_store_r.
      eapply same_os_trans; [exact E|apply (split_os _ _ _ _ _ E2)].
    + inversion H. cbn [snd]. apply same_os_store_r. exact E.
Qed.

(** ** Walking the heap *)



Lemma chain_walk s :
  header_pad s = 16 -> footer_pad s = 8 -> guard_addr s = brk s ->
  brk s < modulus ->
  forall cs c a fuel, 0 < a ->
    layout (mem s) a (c :: cs) (brk s) ->
    (length cs < fuel)%nat ->
    chunk_chain fuel a s = Some (map c_addr (c :: cs)).
Proof.
  intros Hp Hfp Hga Hbrk.
  induction cs as [|c2 cs IH]; intros c a fuel Ha Hl Hfuel.
  - destruct fuel as [|k]; [cbn [length] in Hfuel; lia|].
    cbn [layout] in Hl. destruct Hl as (E1 & H1 & H2 & H3 & H4 & H5).
    unfold c_end in H5.
    cbn [chunk_chain]. cbv zeta. unfold header_to_footer.
    rewrite Hp, Hfp, Hga, H3.
    rewrite (wrap_small (a + 16 + c_size c)) by (rewrite E1 in H5; lia).
    rewrite wrap_small by (rewrite E1 in H5; lia).
    replace (a + 16 + c_size c + 8) with (brk s) by (rewrite E1 in H5; lia).
    rewrite Z.eqb_refl. cbn [map]. rewrite E1. reflexivity.
  - destruct fuel as [|k]; [cbn [length] in Hfuel; lia|].
    cbn [length] in Hfuel.
    change (layout (mem s) a (c :: c2 :: cs) (brk s)) with
      (c_addr c = a /\ 24 <= c_size c /\ c_size c mod 8 = 0 /\
       mem s a = c_size c /\ mem s (a + 16 + c_size c) = c_size c /\
       layout (mem s) (c_end c) (c2 :: cs) (brk s)) in Hl.
    destruct Hl as (E1 & H1 & H2 & H3 & H4 & H5).
    pose proof (layout_le _ _ _ _ H5) as Hle.
    assert (Hlt : c_end c + 48 <= brk s).
    { cbn [layout] in H5. destruct H5 as (F1 & F2 & _ & _ & _ & F6).
      pose proof (layout_le _ _ _ _ F6) as Hle2. unfold c_end in Hle2. lia. }
    unfold c_end in *. rewrite E1 in *.
    cbn [chunk_chain]. cbv zeta. unfold header_to_footer.
    rewrite Hp, Hfp, Hga, H3.
    rewrite (wrap_small (a + 16 + c_size c)) by lia.
    rewrite wrap_small by lia.
    rewrite (proj2 (Z.eqb_neq (a + 16 + c_size c + 8) (brk s))) by lia.
    replace (a + 16 + c_size c + 8) with (a + 24 + c_size c) by lia.
    rewrite (IH c2 (a + 24 + c_size c) k) by (try exact H5; lia).
    cbn [map]. rewrite E1. reflexivity.
Qed.

(** The walk of a well-formed heap visits exactly the chunks. *)
Lemma heap_chunks_ok cur s cs t fuel :
  heap_inv cur s cs t -> (length cs <= fuel)%nat ->
  heap_chunks fuel s = Some (map c_addr cs).
Proof.
  intros Hinv Hfuel. unfold heap_chunks.
  pose proof (hi_fr _ _ _ _ Hinv) as Hfr.
  pose proof (inv_brk _ _ _ _ Hinv) as Hb.
  destruct (hi_ends _ _ _ _ Hinv) as [(-> & -> & _)|(Hne & Hfc & Hga)].
  - reflexivity.
  - rewrite Hfc, Hga. unfold NULL.
    rewrite (proj2 (Z.eqb_neq (fake_root s + 40) 0)) by lia.
    rewrite (proj2 (Z.eqb_neq (brk s) 0)) by lia. cbn [negb andb].
    destruct cs as [|c cs]; [contradiction|].
    cbn [length] in Hfuel.
    apply chain_walk; try apply Hinv; auto; try lia.
Qed.

(** ** The client's writes *)

(** A write into the payload of a chunk in use leaves the heap well formed:
    tags and tree nodes live outside the payloads of used chunks. *)
Lemma inv_write s pre a sz post t k v :
  heap_inv NULL s (pre ++ (a, sz, true) :: post) t ->
  0 <= k < sz ->
  heap_inv NULL (store (a + 16 + k) v s) (pre ++ (a, sz, true) :: post) t.
Proof.
  intros Hinv Hk.
  destruct (layout_focus _ _ _ _ _ _ (hi_layout _ _ _ _ Hinv)) as
    (Hpre & Hpost & H1 & H2 & H3 & H4 & H5 & H6).
  unfold c_end, c_addr, c_size in *. cbn [fst snd] in *.
  pose proof (hi_fr _ _ _ _ Hinv) as Hfr.
  change (pre ++ (a, sz, true) :: post)
    with (pre ++ [(a, sz, true)] ++ post) in *.
  assert (Hout : forall b, In b (addrs t) -> b + 40 <= a \/ a + 24 + sz <= b).
  { intros b Hb.
    apply (inv_nodes_outside _ _ _ _ _ _ _ _ b Hinv Hpre Hpost Hb).
    intros z [e|[]]. discriminate. }
  assert (Hin : In (a, sz, true) (pre ++ [(a, sz, true)] ++ post))
    by (apply in_or_app; right; left; reflexivity).
  destruct (hi_flags _ _ _ _ Hinv _ Hin) as [Hfl _].
  unfold c_addr, c_used in Hfl. cbn [fst snd] in Hfl.
  apply (inv_surgery NULL NULL s _ pre [(a, sz, true)] [(a, sz, true)] post
           t t a (a + 24 + sz)).
  - exact Hinv.
  - exact Hpre.
  - exact Hpost.
  - lia.
  - discriminate.
  - discriminate.
  - left. reflexivity.
  - left. reflexivity.
  - apply same_globals_store.
  - intros y Hl Hy. rewrite mem_store.
    rewrite (proj2 (Z.eqb_neq y (a + 16 + k))) by lia. reflexivity.
  - cbn [layout]. unfold c_end, c_addr, c_size. cbn [fst snd].
    rewrite !mem_store.
    rewrite (proj2 (Z.eqb_neq a (a + 16 + k))) by lia.
    rewrite (proj2 (Z.eqb_neq (a + 16 + sz) (a + 16 + k))) by lia.
    repeat split; auto.
  - intros c [<-|[]]. unfold c_addr, c_used. cbn [fst snd].
    split; [|unfold NULL; lia]. intros Hne. rewrite mem_store.
    rewrite (proj2 (Z.eqb_neq (a + 8) (a + 16 + k))) by lia.
    apply Hfl. exact Hne.
  - apply rep_outside with (m := mem s); [apply (hi_rep _ _ _ _ Hinv)|].
    intros b j Hb Hj. rewrite mem_store. pose proof (Hout b Hb).
    rewrite (proj2 (Z.eqb_neq (b + j) (a + 16 + k))) by lia. reflexivity.
  - apply (inv_root_shape _ _ _ _ Hinv).
  - apply (hi_nodup _ _ _ _ Hinv).
  - apply (hi_bst _ _ _ _ Hinv).
  - intros x z. rewrite (hi_nodes _ _ _ _ Hinv x z), !in_mid, in_app_iff.
    tauto.
  - apply (hi_noadj _ _ _ _ Hinv).
Qed.

(** ** Runs of a client program *)

Lemma request_size_spec s n :
  node_pad s = 24 -> 0 <= n <= modulus - 8 ->
  24 <= request_size s n /\ request_size s n mod 8 = 0 /\
  n <= request_size s n /\ request_size s n <= Z.max 24 (n + 7) /\
  request_size s n = Z.max (ceil_size n sizeof_intptr) (node_pad s).
Proof.
  intros Hnp Hn. unfold request_size. cbv zeta. rewrite Hnp.
  pose proof (ceil_size_no_wrap n Hn) as Hc.
  assert (Hn' : 0 <= n < modulus) by (unfold modulus in *; lia).
  pose proof (ceil_size_mult8 n Hn') as Hm.
  destruct (Z.ltb_spec (ceil_size n sizeof_intptr) 24).
  - repeat split; lia.
  - repeat split; solve [lia|exact Hm].
Qed.

Lemma live_ok_cons cs live p n sz :
  live_ok cs live -> In (p - 16, sz, true) cs -> n <= sz ->
  live_ok cs ((p, n) :: live).
Proof.
  intros Hl Hin Hn q m [E|Hq].
  - inversion E. subst. eauto.
  - apply Hl. exact Hq.
Qed.

Lemma live_ok_incl cs cs' live :
  live_ok cs live ->
  (forall a sz, In (a, sz, true) cs -> In (a, sz, true) cs') ->
  live_ok cs' live.
Proof.
  intros Hl Hincl p n Hp. destruct (Hl p n Hp) as (sz & Hin & Hle).
  exists sz. auto.
Qed.

(** *** One call of [tralloc] *)

Lemma alloc_hit_result s pre f fsz post t size fuel r :
  heap_inv NULL s (pre ++ (f, fsz, false) :: post) t ->
  24 <= size -> size mod 8 = 0 ->
  first_fit size t = f -> f <> NULL ->
  tralloc_body fuel size s = Some r ->
  took size s pre f fsz post t r.
Proof.
  intros Hinv Hsz Hmod Hff Hnz H.
  apply (wp_of_result (fun k => tralloc_body k size s) _
           (2 * height t + 1) fuel r); [|
    intros k' Hk;
    exact (tralloc_body_hit s pre f fsz post t size k' Hinv Hsz Hmod Hff Hnz Hk)
    |exact H].
  intros k k' r0. apply tralloc_body_mono.
Qed.

Lemma alloc_miss_result s cs t size fuel r :
  heap_inv NULL s cs t -> 0 < size -> first_fit size t = NULL ->
  tralloc_body fuel size s = Some r ->
  r = hand_out (fst (grow size s)) (snd (grow size s)).
Proof.
  intros Hinv Hsz Hff H.
  pose proof (tralloc_body_miss s cs t size
                (Nat.max (2 * height t + 1) fuel) Hinv Hsz Hff
                (Nat.le_max_l _ _)) as H1.
  rewrite (tralloc_body_mono _ _ _ _ _ (Nat.le_max_r _ _) H) in H1.
  inversion H1. reflexivity.
Qed.

(** A miss on a well-formed heap, when [sbrk] has not failed. *)
Lemma grow_step s cs t size :
  heap_inv NULL s cs t -> brk_limit s < modulus ->
  24 <= size -> size mod 8 = 0 -> size + 24 < 9223372036854775808 ->
  fst (grow size s) <> sbrk_failure ->
  hand_out (fst (grow size s)) (snd (grow size s)) =
    (brk s + 16, store (brk s + 8) 1 (snd (grow size s))) /\
  heap_inv NULL (store (brk s + 8) 1 (snd (grow size s)))
    (cs ++ [(brk s, size, true)]) t /\
  brk_limit (snd (grow size s)) = brk_limit s /\
  fake_root (snd (grow size s)) = fake_root s /\
  brk (snd (grow size s)) = brk s + 24 + size.
Proof.
  intros Hinv Hlim Hsz Hmod Hbig Hok.
  destruct (grow_sbrk size s) as (G1 & G2 & G3 & G4).
  rewrite G1 in Hok. apply sbrk_not_failed in Hok.
  rewrite (hi_hp _ _ _ _ Hinv), (hi_fp _ _ _ _ Hinv) in Hok.
  rewrite (wrap_small (16 + size + 8)) in Hok by (unfold modulus; lia).
  rewrite to_signed_small in Hok by lia.
  assert (Hl : brk s + 24 + size <= brk_limit s) by lia.
  destruct (grow_ok s cs t size Hinv Hsz Hmod Hbig Hl Hlim)
    as (E1 & Hinv1 & E2 & _).
  rewrite E1.
  rewrite (hand_out_ok _ _ _ _ _ _ Hinv1).
  split; [reflexivity|]. split; [apply inv_hand_out; exact Hinv1|].
  split; [exact G4|]. split; [|exact E2].
  pose proof (hi_sentinel _ _ _ _ Hinv1) as (_ & r1 & Er1).
  pose proof (hi_sentinel _ _ _ _ Hinv) as (_ & r0 & Er0).
  congruence.
Qed.

Lemma alloc_step s cs t live fuel n p s' :
  heap_inv NULL s cs t -> brk_limit s < modulus ->
  0 <= n <= max_request ->
  tralloc_body fuel (request_size s n) s = Some (p, s') ->
  sbrk_ok s' -> live_ok cs live ->
  exists cs' t',
    heap_inv NULL s' cs' t' /\ fake_root s' = fake_root s /\
    brk_limit s' = brk_limit s /\
    (forall e, In e (sbrk_log s) -> In e (sbrk_log s')) /\
    live_ok cs' ((p, n) :: live).
Proof.
  intros Hinv Hlim Hn H Hok Hlive.
  assert (Hn' : 0 <= n <= modulus - 8)
    by (unfold max_request, modulus in *; lia).
  destruct (request_size_spec s n (hi_np _ _ _ _ Hinv) Hn')
    as (Hsz & Hmod & Hle & Hup & _).
  set (size := request_size s n) in *.
  destruct (Z.eq_dec (first_fit size t) NULL) as [Hff|Hff].
  - (* the search misses *)
    assert (H0 : 0 < size) by lia.
    pose proof (alloc_miss_result s cs t size fuel _ Hinv H0 Hff H) as Hr.
    destruct (grow_sbrk size s) as (G1 & G2 & G3 & G4).
    assert (Hnf : fst (grow size s) <> sbrk_failure).
    { apply (Hok (wrap (header_pad s + size + footer_pad s),
                  fst (grow size s))).
      replace s' with (snd (hand_out (fst (grow size s)) (snd (grow size s))))
        by (rewrite <- Hr; reflexivity).
      unfold hand_out. cbv zeta. cbn [snd sbrk_log store].
      rewrite G2. left. reflexivity. }
    assert (Hbig : size + 24 < 9223372036854775808)
      by (unfold max_request in Hn; lia).
    destruct (grow_step s cs t size Hinv Hlim Hsz Hmod Hbig Hnf)
      as (Eh & Hinv' & El & Ef & _).
    rewrite Eh in Hr. inversion Hr. subst p s'.
    exists (cs ++ [(brk s, size, true)]), t.
    split; [exact Hinv'|]. split; [exact Ef|]. split; [exact El|].
    split.
    { intros e He. change (In e (sbrk_log (snd (grow size s)))).
      rewrite G2. right. exact He. }
    apply live_ok_cons with (sz := size).
    + apply (live_ok_incl cs); [exact Hlive|].
      intros a sz Ha. apply in_or_app. auto.
    + replace (brk s + 16 - 16) with (brk s) by lia.
      apply in_or_app. right. left. reflexivity.
    + exact Hle.
  - (* the search finds a chunk *)
    destruct (hit_chunk s cs t size Hinv) as (pre & fsz & post & Ecs & Hfs);
      [lia|exact Hff|].
    subst cs.
    pose proof (alloc_hit_result s pre _ fsz post t size fuel _ Hinv Hsz Hmod
                  eq_refl Hff H) as (Ep & G & Hcase).
    cbn [fst snd] in Ep, G, Hcase.
    destruct (same_globals_fields _ _ G) as (Gfr & _).
    destruct G as (_ & _ & _ & _ & _ & _ & _ & Gl & Glog).
    assert (Hlog : forall e, In e (sbrk_log s) -> In e (sbrk_log s'))
      by (intros e He; rewrite Glog; exact He).
    assert (Hused : forall a sz (rest : list chunk),
              In (a, sz, true) (pre ++ (first_fit size t, fsz, false) :: post) ->
              In (a, sz, true) (pre ++ rest ++ post)).
    { intros a sz rest Ha. apply in_mid. apply in_app_or in Ha.
      destruct Ha as [Ha|[Ha|Ha]]; auto. discriminate. }
    destruct (fsz >=? size + 48).
    + eexists _, _. split; [exact Hcase|]. split; [exact Gfr|].
      split; [exact Gl|]. split; [exact Hlog|].
      apply live_ok_cons with (sz := size).
      * apply (live_ok_incl _ _ _ Hlive). intros a sz Ha.
        apply (Hused a sz [(first_fit size t, size, true);
                           (first_fit size t + 24 + size,
                            fsz - size - 24, false)] Ha).
      * rewrite Ep. replace (first_fit size t + 16 - 16)
          with (first_fit size t) by lia.
        apply in_or_app. right. left. reflexivity.
      * exact Hle.
    + eexists _, _. split; [exact Hcase|]. split; [exact Gfr|].
      split; [exact Gl|]. split; [exact Hlog|].
      apply live_ok_cons with (sz := fsz).
      * apply (live_ok_incl _ _ _ Hlive). intros a sz Ha.
        apply (Hused a sz [(first_fit size t, fsz, true)] Ha).
      * rewrite Ep. replace (first_fit size t + 16 - 16)
          with (first_fit size t) by lia.
        apply in_or_app. right. left. reflexivity.
      * lia.
Qed.

(** *** One call of [trfree] *)

Lemma free_result s pre a sz post t fuel s' :
  heap_inv NULL s (pre ++ (a, sz, true) :: post) t ->
  trfree fuel (a + 16) s = Some s' ->
  freed s pre a sz post t s'.
Proof.
  intros Hinv H.
  apply (wp_of_result (fun k => trfree k (a + 16) s) _
           (S (height t)) fuel s'); [| |exact H].
  - intros k k' r0. apply trfree_mono.
  - intros k' Hk. apply (trfree_ok s pre a sz post t k' Hinv). lia.
Qed.

Lemma free_step s cs t live fuel p n s' :
  heap_inv NULL s cs t -> live_ok cs live -> In (p, n) live ->
  trfree fuel p s = Some s' ->
  exists cs' t',
    heap_inv NULL s' cs' t' /\ fake_root s' = fake_root s /\
    brk_limit s' = brk_limit s /\ sbrk_log s' = sbrk_log s /\
    live_ok cs' (filter (fun e => negb (fst e =? p)) live).
Proof.
  intros Hinv Hlive Hp H.
  destruct (Hlive p n Hp) as (sz & Hin & Hle).
  destruct (in_split _ _ Hin) as (pre & post & Ecs). subst cs.
  replace p with (p - 16 + 16) in H by lia.
  pose proof (free_result _ _ _ _ _ _ _ _ Hinv H) as (G & Hf).
  destruct Hf as (pre' & x & sz1 & t1 & sz2 & post' & t2 & C1 & C2 & Hinv').
  destruct (same_globals_fields _ _ G) as (Gfr & _).
  destruct G as (_ & _ & _ & _ & _ & _ & _ & Gl & Glog).
  eexists _, _. split; [exact Hinv'|]. split; [exact Gfr|].
  split; [exact Gl|]. split; [exact Glog|].
  intros q m Hq. apply filter_In in Hq. destruct Hq as [Hq Hne].
  cbn [fst] in Hne. apply negb_true_iff, Z.eqb_neq in Hne.
  destruct (Hlive q m Hq) as (szq & Hinq & Hleq).
  exists szq. split; [|exact Hleq].
  apply in_app_or in Hinq. apply in_or_app.
  destruct Hinq as [Hinq|[Hinq|Hinq]].
  - left. destruct C1 as [(E & _)|(E & _)]; [|rewrite E; exact Hinq].
    rewrite E in Hinq. apply in_app_or in Hinq.
    destruct Hinq as [Hinq|[Hinq|[]]]; [exact Hinq|discriminate].
  - inversion Hinq. lia.
  - right. right.
    destruct C2 as [(alt & E & _)|(E & _)]; [|rewrite E; exact Hinq].
    rewrite E in Hinq. destruct Hinq as [Hinq|Hinq];
      [discriminate|exact Hinq].
Qed.

(** *** Every reachable state is well formed *)

Lemma tralloc_init_log m0 brk0 limit :
  exists r, sbrk_log (tralloc_init (initial_state m0 brk0 limit))
            = [(40, r)] /\
            r = fst (sbrk 40 (initial_state m0 brk0 limit)).
Proof. eexists. split; reflexivity. Qed.

Theorem reachable_inv brk0 limit s live :
  reachable brk0 limit s live ->
  (exists m0, s = initial_state m0 brk0 limit /\ live = [] /\
              0 < brk0 /\ limit < modulus) \/
  (exists cs t, heap_ok brk0 limit s live cs t).
Proof.
  induction 1 as [m0 H0 Hl|s live fuel n p s' Hr IH Hn Ht Hok
                 |s live fuel p n s' Hr IH Hp Ht|s live p n k v Hr IH Hp Hk].
  - left. exists m0. auto.
  - right. unfold tralloc in Ht. cbv zeta in Ht.
    assert (Hs1 : exists cs t,
              heap_ok brk0 limit (tralloc_init s) live cs t).
    { destruct IH as [(m0 & -> & -> & H0 & Hl)
                     |(cs & t & Hinv & Hfr & Hlim & Hlt & Hlg & Hlive)].
      - destruct (tralloc_init_log m0 brk0 limit) as (r & Elog & Er).
        assert (Hr1 : r <> sbrk_failure).
        { apply (Hok (40, r)).
          destruct (tralloc_body_os _ _ _ _ Ht)
            as [(_ & _ & E)|(_ & s1 & _ & E)];
            cbn [snd] in E; rewrite E, Elog.
          - left. reflexivity.
          - right. left. reflexivity. }
        rewrite Er in Hr1. apply sbrk_not_failed in Hr1.
        change (to_signed 40) with 40 in Hr1.
        change (brk (initial_state m0 brk0 limit)) with brk0 in Hr1.
        change (brk_limit (initial_state m0 brk0 limit)) with limit in Hr1.
        exists [], (T E brk0 0 E). split; [apply inv_init; lia|].
        rewrite tralloc_init_fresh by lia.
        split; [reflexivity|]. split; [reflexivity|].
        split; [exact Hl|]. split; [left; reflexivity|]. intros q m [].
      - exists cs, t. rewrite (tralloc_init_id _ _ _ _ Hinv).
        split; [exact Hinv|]. auto. }
    destruct Hs1 as (cs & t & Hinv & Hfr & Hlim & Hlt & Hlg & Hlive).
    assert (Hlm : brk_limit (tralloc_init s) < modulus)
      by (rewrite Hlim; exact Hlt).
    destruct (alloc_step _ _ _ _ _ _ _ _ Hinv Hlm Hn Ht Hok Hlive)
      as (cs' & t' & Hinv' & Hfr' & Hlim' & Hlg' & Hlive').
    exists cs', t'. split; [exact Hinv'|].
    split; [congruence|]. split; [congruence|]. auto.
  - right.
    destruct IH as [(m0 & _ & -> & _)
                   |(cs & t & Hinv & Hfr & Hlim & Hlt & Hlg & Hlive)];
      [contradiction|].
    destruct (free_step _ _ _ _ _ _ _ _ Hinv Hlive Hp Ht)
      as (cs' & t' & Hinv' & Hfr' & Hlim' & Hlg' & Hlive').
    exists cs', t'. split; [exact Hinv'|].
    split; [congruence|]. split; [congruence|].
    split; [exact Hlt|]. split; [rewrite Hlg'; exact Hlg|exact Hlive'].
  - right.
    destruct IH as [(m0 & _ & -> & _)
                   |(cs & t & Hinv & Hfr & Hlim & Hlt & Hlg & Hlive)];
      [contradiction|].
    destruct (Hlive p n Hp) as (sz & Hin & Hle).
    destruct (in_split _ _ Hin) as (pre & post & Ecs). subst cs.
    exists (pre ++ (p - 16, sz, true) :: post), t.
    split; [|split; [exact Hfr|split; [exact Hlim|auto]]].
    replace (p + k) with (p - 16 + 16 + k) by lia.
    apply inv_write; [exact Hinv|lia].
Qed.

(** * The specification's claims *)

Lemma or_else_some {A} (o : option A) d :
  o <> None -> o = Some (or_else o d).
Proof. destruct o; [reflexivity|congruence]. Qed.

(** ** C1: the search *)




Lemma good_three a b c :
  0 < a -> 0 < b -> 0 < c ->
  a + 40 <= modulus -> b + 40 <= modulus -> c + 40 <= modulus ->
  apart a b -> apart a c -> apart b c -> good [a; b; c].
Proof.
  intros Ha Hb Hc Ha' Hb' Hc' Hab Hac Hbc. unfold apart in *.
  split; [|split].
  - repeat constructor; cbn [In]; lia.
  - intros x [<-|[<-|[<-|[]]]]; split; assumption.
  - intros x y Hx Hy Hne. unfold apart. cbn [In] in Hx, Hy. lia.
Qed.

Lemma demo6_rep : rep (mem demo6) demo6_tree NULL.
Proof. vm_compute. repeat split. Qed.

Lemma demo6_good : good (addrs demo6_tree).
Proof.
  change (addrs demo6_tree) with [4096; 4272; 4136].
  apply good_three; unfold apart, modulus; lia.
Qed.


(** ** The heap of a reachable state *)

Lemma inv_in_use s cs t a sz u :
  heap_inv NULL s cs t -> In (a, sz, u) cs ->
  load s (in_use_of a) = if u then 1 else 0.
Proof.
  intros Hinv Hin.
  pose proof (inv_chunk _ _ _ _ Hinv _ _ _ Hin) as (H1 & H2 & H3 & _).
  pose proof (hi_fr _ _ _ _ Hinv) as Hfr.
  pose proof (hi_brk _ _ _ _ Hinv) as Hbrk.
  destruct (hi_flags _ _ _ _ Hinv _ Hin) as [Hfl _].
  unfold c_addr, c_used in Hfl. cbn [fst snd] in Hfl.
  unfold in_use_of. rewrite wrap_small by (unfold modulus; lia).
  apply Hfl. unfold NULL. lia.
Qed.

Lemma inv_footer cur s cs t a sz u :
  heap_inv cur s cs t -> In (a, sz, u) cs ->
  header_to_footer s a = a + 16 + sz /\ load s (size_of a) = sz /\
  load s (a + 16 + sz) = sz /\ sz mod 8 = 0 /\ 24 <= sz.
Proof.
  intros Hinv Hin.
  pose proof (inv_chunk _ _ _ _ Hinv _ _ _ Hin)
    as (H1 & H2 & H3 & H4 & H5 & H6).
  pose proof (hi_fr _ _ _ _ Hinv) as Hfr.
  pose proof (hi_brk _ _ _ _ Hinv) as Hbrk.
  unfold header_to_footer, size_of. rewrite (hi_hp _ _ _ _ Hinv), H5.
  rewrite wrap_small by (unfold modulus; lia). auto.
Qed.



(** ** C2: no two adjacent free chunks *)


(** ** C3: header and footer sizes agree *)


(** ** C10: sizes are multiples of the word size *)


(** *** The run [demo6] is reachable *)

Lemma run_pair (o : option (Z * state)) d p :
  o <> None -> fst (or_else o d) = p -> o = Some (p, snd (or_else o d)).
Proof.
  destruct o as [[q s]|]; [|congruence]. cbn [or_else fst snd].
  intros _ ->. reflexivity.
Qed.

Lemma sbrk_ok_of_log s l :
  sbrk_log s = l -> forallb (fun e => negb (snd e =? sbrk_failure)) l = true ->
  sbrk_ok s.
Proof.
  intros Hl H e He. rewrite Hl in He.
  rewrite forallb_forall in H. specialize (H e He).
  apply negb_true_iff, Z.eqb_neq in H. exact H.
Qed.

Lemma demo1_reachable : reachable 4096 1000000 (snd demo1) [(4152, 64)].
Proof.
  apply (reach_tralloc 4096 1000000 demo0 [] 10 64).
  - apply reach_start; unfold modulus; lia.
  - unfold max_request. lia.
  - apply run_pair; [vm_compute; discriminate|vm_compute; reflexivity].
  - apply (sbrk_ok_of_log _ [(88, 4136); (40, 4096)]); vm_compute; reflexivity.
Qed.

Lemma demo2_reachable :
  reachable 4096 1000000 (snd demo2) [(4240, 24); (4152, 64)].
Proof.
  apply (reach_tralloc 4096 1000000 (snd demo1) _ 10 24).
  - exact demo1_reachable.
  - unfold max_request. lia.
  - apply run_pair; [vm_compute; discriminate|vm_compute; reflexivity].
  - apply (sbrk_ok_of_log _ [(48, 4224); (88, 4136); (40, 4096)]);
      vm_compute; reflexivity.
Qed.

Lemma demo3_reachable :
  reachable 4096 1000000 (snd demo3) [(4288, 80); (4240, 24); (4152, 64)].
Proof.
  apply (reach_tralloc 4096 1000000 (snd demo2) _ 10 80).
  - exact demo2_reachable.
  - unfold max_request. lia.
  - apply run_pair; [vm_compute; discriminate|vm_compute; reflexivity].
  - apply (sbrk_ok_of_log _
             [(104, 4272); (48, 4224); (88, 4136); (40, 4096)]);
      vm_compute; reflexivity.
Qed.

Lemma demo4_reachable :
  reachable 4096 1000000 (snd demo4)
    [(4392, 24); (4288, 80); (4240, 24); (4152, 64)].
Proof.
  apply (reach_tralloc 4096 1000000 (snd demo3) _ 10 24).
  - exact demo3_reachable.
  - unfold max_request. lia.
  - apply run_pair; [vm_compute; discriminate|vm_compute; reflexivity].
  - apply (sbrk_ok_of_log _
             [(48, 4376); (104, 4272); (48, 4224); (88, 4136); (40, 4096)]);
      vm_compute; reflexivity.
Qed.

Lemma demo5_reachable :
  reachable 4096 1000000 demo5 [(4392, 24); (4240, 24); (4152, 64)].
Proof.
  apply (reach_trfree 4096 1000000 (snd demo4)
           [(4392, 24); (4288, 80); (4240, 24); (4152, 64)] 10 4288 80).
  - exact demo4_reachable.
  - right. left. reflexivity.
  - apply or_else_some. vm_compute. discriminate.
Qed.

Lemma demo6_reachable :
  reachable 4096 1000000 demo6 [(4392, 24); (4240, 24)].
Proof.
  apply (reach_trfree 4096 1000000 demo5
           [(4392, 24); (4240, 24); (4152, 64)] 10 4152 64).
  - exact demo5_reachable.
  - right. right. left. reflexivity.
  - apply or_else_some. vm_compute. discriminate.
Qed.




(** ** C4: the split threshold *)

(** C4, as stated, fails: the free chunk at 4136 has 72 bytes, which is
    exactly the target of 24 plus the overhead of 48 and does not exceed it;
    yet the chunk is split, into a chunk of 24 bytes that is returned and a
    free remainder of 24 bytes at 4184. *)
Lemma split_threshold_counterexample :
  load split2 (size_of 4136) = 72 /\ load split2 (in_use_of 4136) = 0 /\
  request_size split2 24 = 24 /\
  header_pad split2 + footer_pad split2 + node_pad split2 = 48 /\
  (72 >? 24 + 48) = false /\
  tralloc 10 24 split2 = Some split3 /\
  fst split3 = 4152 /\
  load (snd split3) (size_of 4136) = 24 /\
  load (snd split3) (size_of 4184) = 24 /\
  load (snd split3) (in_use_of 4184) = 0 /\
  heap_chunks 10 (snd split3) = Some [4136; 4184].
Proof.
  split; [vm_compute; reflexivity|]. split; [vm_compute; reflexivity|].
  split; [vm_compute; reflexivity|]. split; [vm_compute; reflexivity|].
  split; [reflexivity|].
  split; [apply or_else_some; vm_compute; discriminate|].
  split; [vm_compute; reflexivity|]. split; [vm_compute; reflexivity|].
  split; [vm_compute; reflexivity|]. split; vm_compute; reflexivity.
Qed.

(** C4, amended.  When the search returns the free chunk [f] of size
    [fsz], the chunk is split if and only if [fsz] is at least the target
    plus header pad, footer pad and node size.  On a split the returned
    chunk has exactly the target size, and the remainder is a chunk of its
    own behind it, of size [fsz] minus target, header pad and footer pad,
    not in use, with a matching footer, and a node of the free tree.
    Otherwise the whole chunk is returned with its size [fsz]. *)
Theorem split_threshold s pre f fsz post t n fuel p s' :
  heap_inv NULL s (pre ++ (f, fsz, false) :: post) t ->
  0 <= n <= modulus - 8 ->
  first_fit (request_size s n) t = f -> f <> NULL ->
  tralloc fuel n s = Some (p, s') ->
  load s (size_of f) = fsz /\
  p = header_to_node s' f /\ load s' (in_use_of f) = 1 /\
  if fsz >=? request_size s n + (header_pad s + footer_pad s + node_pad s)
  then
    load s' (size_of f) = request_size s n /\
    load s' (size_of (header_to_footer s' f)) = request_size s n /\
    exists d dsz t',
      d = f + header_pad s + request_size s n + footer_pad s /\
      dsz = fsz - request_size s n - header_pad s - footer_pad s /\
      load s' (size_of d) = dsz /\ load s' (in_use_of d) = 0 /\
      load s' (size_of (header_to_footer s' d)) = dsz /\
      heap_inv NULL s'
        (pre ++ (f, request_size s n, true) :: (d, dsz, false) :: post) t' /\
      In (d, dsz) (nodes t')
  else
    load s' (size_of f) = fsz /\
    load s' (size_of (header_to_footer s' f)) = fsz /\
    exists t', heap_inv NULL s' (pre ++ (f, fsz, true) :: post) t'.
Proof.
  intros Hinv Hn Hff Hnz Ht.
  unfold tralloc in Ht. cbv zeta in Ht.
  rewrite (tralloc_init_id _ _ _ _ Hinv) in Ht.
  destruct (request_size_spec s n (hi_np _ _ _ _ Hinv) Hn)
    as (Hsz & Hmod & _).
  pose proof (alloc_hit_result s pre f fsz post t _ fuel _ Hinv Hsz Hmod
                Hff Hnz Ht) as (Ep & G & Hcase).
  cbn [fst snd] in Ep, G, Hcase.
  assert (Hf : In (f, fsz, false) (pre ++ (f, fsz, false) :: post))
    by (apply in_or_app; right; left; reflexivity).
  destruct (inv_footer _ _ _ _ _ _ _ Hinv Hf) as (_ & E0 & _).
  rewrite (hi_hp _ _ _ _ Hinv), (hi_fp _ _ _ _ Hinv), (hi_np _ _ _ _ Hinv).
  change (16 + 8 + 24) with 48.
  split; [exact E0|].
  set (size := request_size s n) in *.
  assert (Hnode : forall cs' t' sz (Hi : heap_inv NULL s' cs' t'),
            In (f, sz, true) cs' ->
            p = header_to_node s' f /\ load s' (in_use_of f) = 1 /\
            load s' (size_of f) = sz /\
            load s' (size_of (header_to_footer s' f)) = sz).
  { intros cs' t' sz Hi Hin.
    destruct (inv_footer _ _ _ _ _ _ _ Hi Hin) as (E1 & E2 & E3 & _).
    pose proof (inv_chunk _ _ _ _ Hi _ _ _ Hin) as (C1 & C2 & C3 & _).
    pose proof (hi_fr _ _ _ _ Hi) as Hfr.
    pose proof (hi_brk _ _ _ _ Hi) as Hbrk.
    split.
    - unfold header_to_node. rewrite (hi_hp _ _ _ _ Hi).
      rewrite wrap_small by (unfold modulus; lia). exact Ep.
    - split; [apply (inv_in_use _ _ _ _ _ _ Hi Hin)|].
      split; [exact E2|]. rewrite E1, size_of_eq. exact E3. }
  destruct (fsz >=? size + 48).
  - assert (Hin : In (f, size, true)
                    (pre ++ (f, size, true)
                         :: (f + 24 + size, fsz - size - 24, false) :: post))
      by (apply in_or_app; right; left; reflexivity).
    destruct (Hnode _ _ _ Hcase Hin) as (N1 & N2 & N3 & N4).
    split; [exact N1|]. split; [exact N2|]. split; [exact N3|].
    split; [exact N4|].
    assert (Hd : In (f + 24 + size, fsz - size - 24, false)
                   (pre ++ (f, size, true)
                        :: (f + 24 + size, fsz - size - 24, false) :: post))
      by (apply in_or_app; right; right; left; reflexivity).
    destruct (inv_footer _ _ _ _ _ _ _ Hcase Hd) as (D1 & D2 & D3 & _).
    eexists (f + 24 + size), (fsz - size - 24), _.
    split; [lia|]. split; [lia|]. split; [exact D2|].
    split; [apply (inv_in_use _ _ _ _ _ _ Hcase Hd)|].
    split; [rewrite D1, size_of_eq; exact D3|].
    split; [exact Hcase|].
    apply (hi_nodes _ _ _ _ Hcase). right. exact Hd.
  - assert (Hin : In (f, fsz, true) (pre ++ (f, fsz, true) :: post))
      by (apply in_or_app; right; left; reflexivity).
    destruct (Hnode _ _ _ Hcase Hin) as (N1 & N2 & N3 & N4).
    split; [exact N1|]. split; [exact N2|]. split; [exact N3|].
    split; [exact N4|]. eexists. exact Hcase.
Qed.

Lemma split2_inv :
  heap_inv NULL split2 ([] ++ (4136, 72, false) :: [])
    (T E 4096 0 (T E 4136 72 E)).
Proof.
  constructor.
  - vm_compute. reflexivity.
  - vm_compute. reflexivity.
  - vm_compute. reflexivity.
  - vm_compute. reflexivity.
  - vm_compute. repeat split; intro H; discriminate H.
  - vm_compute. reflexivity.
  - right. split; [discriminate|]. vm_compute. split; reflexivity.
  - intros c [<-|[]]. vm_compute. split; [reflexivity|].
    intro H. discriminate H.
  - split; [vm_compute; reflexivity|]. eexists. reflexivity.
  - vm_compute. repeat split.
  - intros a sz. cbn [nodes In app]. split.
    + intros [H|[H|[]]]; inversion H; subst; auto.
    + intros [[-> ->]|[H|[]]]; [auto|]. inversion H. subst. auto.
  - change (addrs (T E 4096 0 (T E 4136 72 E))) with [4096; 4136].
    repeat constructor; cbn [In]; lia.
  - cbn [bst nodes app]. repeat split; intros m Hm; cbn [In] in Hm;
      try contradiction.
    destruct Hm as [<-|[]]. cbn [snd]. lia.
  - exact I.
Qed.

Lemma split_threshold_witness :
  load split2 (size_of 4136) = 72 /\
  fst split3 = header_to_node (snd split3) 4136 /\
  load (snd split3) (in_use_of 4136) = 1 /\
  load (snd split3) (size_of 4136) = 24 /\
  load (snd split3) (size_of (header_to_footer (snd split3) 4136)) = 24 /\
  exists d dsz t',
    d = 4184 /\ dsz = 24 /\
    load (snd split3) (size_of d) = dsz /\
    load (snd split3) (in_use_of d) = 0 /\
    load (snd split3) (size_of (header_to_footer (snd split3) d)) = dsz /\
    heap_inv NULL (snd split3)
      ([] ++ (4136, 24, true) :: (d, dsz, false) :: []) t' /\
    In (d, dsz) (nodes t').
Proof.
  assert (Hrun : tralloc 10 24 split2 = Some (fst split3, snd split3)).
  { rewrite <- surjective_pairing. apply or_else_some.
    vm_compute. discriminate. }
  assert (Hn : 0 <= 24 <= modulus - 8) by (unfold modulus; lia).
  assert (Hff : first_fit (request_size split2 24)
                  (T E 4096 0 (T E 4136 72 E)) = 4136)
    by (vm_compute; reflexivity).
  assert (Hnz : 4136 <> NULL) by discriminate.
  pose proof (split_threshold split2 [] 4136 72 [] _ 24 10 _ _
                split2_inv Hn Hff Hnz Hrun) as H.
  replace (request_size split2 24) with 24 in H by (vm_compute; reflexivity).
  replace (header_pad split2) with 16 in H by (vm_compute; reflexivity).
  replace (footer_pad split2) with 8 in H by (vm_compute; reflexivity).
  replace (node_pad split2) with 24 in H by (vm_compute; reflexivity).
  change (72 >=? 24 + (16 + 8 + 24)) with true in H. cbv iota in H.
  destruct H as (H1 & H2 & H3 & H4 & H5 & d & dsz & t' & Ed & Edsz & H6).
  split; [exact H1|]. split; [exact H2|]. split; [exact H3|].
  split; [exact H4|]. split; [exact H5|].
  exists d, dsz, t'. split; [rewrite Ed; reflexivity|].
  split; [rewrite Edsz; reflexivity|]. exact H6.
Defined.

(** ** C5: order and linkage of the free tree *)



Lemma demo6_bst : bst demo6_tree.
Proof.
  unfold demo6_tree. cbn [bst nodes app].
  repeat split; intros m Hm; cbn [In] in Hm;
    repeat (destruct Hm as [<-|Hm]; [cbn [snd]; lia|]); destruct Hm.
Qed.


(** ** C6: round trip *)

(** The prologue of the first call on a reachable state. *)
Lemma init_ok brk0 limit s live fuel size r :
  reachable brk0 limit s live ->
  tralloc_body fuel size (tralloc_init s) = Some r ->
  sbrk_ok (snd r) ->
  exists cs t,
    heap_ok brk0 limit (tralloc_init s) live cs t /\
    (fake_root s = NULL -> cs = [] /\ t = T E brk0 0 E).
Proof.
  intros Hr Ht Hok.
  destruct (reachable_inv _ _ _ _ Hr)
    as [(m0 & -> & -> & H0 & Hl)|(cs & t & Hinv & Hfr & Hlim & Hlt & Hlg & Hlive)].
  - destruct (tralloc_init_log m0 brk0 limit) as (r1 & Elog & Er).
    assert (Hr1 : r1 <> sbrk_failure).
    { apply (Hok (40, r1)).
      destruct (tralloc_body_os _ _ _ _ Ht)
        as [(_ & _ & E)|(_ & s1 & _ & E)]; rewrite E, Elog.
      - left. reflexivity.
      - right. left. reflexivity. }
    rewrite Er in Hr1. apply sbrk_not_failed in Hr1.
    change (to_signed 40) with 40 in Hr1.
    change (brk (initial_state m0 brk0 limit)) with brk0 in Hr1.
    change (brk_limit (initial_state m0 brk0 limit)) with limit in Hr1.
    exists [], (T E brk0 0 E). split; [|auto].
    split; [apply inv_init; lia|].
    rewrite tralloc_init_fresh by lia.
    split; [reflexivity|]. split; [reflexivity|].
    split; [exact Hl|]. split; [left; reflexivity|]. intros q m [].
  - exists cs, t. rewrite (tralloc_init_id _ _ _ _ Hinv).
    split; [split; [exact Hinv|auto]|].
    intros E0. pose proof (hi_fr _ _ _ _ Hinv). unfold NULL in E0. lia.
Qed.

Lemma root_addr_null t :
  (forall a, In a (addrs t) -> a <> NULL) -> root_addr t = NULL -> t = E.
Proof.
  destruct t as [|l a sz r]; [reflexivity|]. intros Hnz E0.
  cbn [root_addr] in E0. exfalso. apply (Hnz a); [|exact E0].
  rewrite addrs_T. left. reflexivity.
Qed.

Lemma no_free_tree s cs t :
  heap_inv NULL s cs t -> no_free_chunk s -> t = T E (fake_root s) 0 E.
Proof.
  intros Hinv [E0|E0].
  - pose proof (hi_fr _ _ _ _ Hinv). unfold NULL in E0. lia.
  - destruct (inv_root_shape _ _ _ _ Hinv) as [r Et].
    pose proof (inv_good _ _ _ _ Hinv) as Hg.
    pose proof (good_range _ _ Hg (inv_root_in_tree _ _ _ _ Hinv)) as Hra.
    rewrite (hn s _ (hi_hp _ _ _ _ Hinv)) in E0
      by (apply in_range_intro; exact Hra).
    rewrite right_hn in E0 by (apply in_range_intro; exact Hra).
    pose proof (hi_rep _ _ _ _ Hinv) as Hrep. rewrite Et in Hrep.
    cbn [rep] in Hrep. destruct Hrep as (_ & _ & _ & M3 & _).
    rewrite M3 in E0. rewrite Et. f_equal.
    apply root_addr_null; [|exact E0].
    intros a Ha.
    assert (Ha' : In a (addrs t)).
    { rewrite Et, addrs_T. right. apply in_or_app. right. exact Ha. }
    pose proof (good_range _ _ Hg Ha'). unfold NULL. lia.
Qed.

Lemma tree_no_free s cs t :
  heap_inv NULL s cs t -> t = T E (fake_root s) 0 E -> no_free_chunk s.
Proof.
  intros Hinv Et. right.
  pose proof (inv_good _ _ _ _ Hinv) as Hg.
  pose proof (good_range _ _ Hg (inv_root_in_tree _ _ _ _ Hinv)) as Hra.
  rewrite (hn s _ (hi_hp _ _ _ _ Hinv)) by (apply in_range_intro; exact Hra).
  rewrite right_hn by (apply in_range_intro; exact Hra).
  pose proof (hi_rep _ _ _ _ Hinv) as Hrep. rewrite Et in Hrep.
  cbn [rep] in Hrep. destruct Hrep as (_ & _ & _ & M3 & _). exact M3.
Qed.

Lemma request_size_64 s : node_pad s = 24 -> request_size s 64 = 64.
Proof. intros H. unfold request_size. cbv zeta. rewrite H. reflexivity. Qed.

(** C6.  From a reachable state without free chunks, allocating 64 bytes,
    releasing them and allocating 64 bytes again returns the same pointer;
    the second allocation does not call [sbrk], leaves the break where it
    was, and leaves the free tree with the sentinel only. *)
Theorem round_trip brk0 limit s live f1 f2 f3 p1 s1 s2 p2 s3 :
  reachable brk0 limit s live -> no_free_chunk s ->
  tralloc f1 64 s = Some (p1, s1) -> sbrk_ok s1 ->
  trfree f2 p1 s1 = Some s2 ->
  tralloc f3 64 s2 = Some (p2, s3) ->
  p2 = p1 /\ brk s3 = brk s1 /\ sbrk_log s3 = sbrk_log s1 /\
  no_free_chunk s3 /\ ~ no_free_chunk s2.
Proof.
  intros Hr Hnf Ht1 Hok Ht2 Ht3.
  unfold tralloc in Ht1. cbv zeta in Ht1.
  destruct (init_ok _ _ _ _ _ _ _ Hr Ht1 Hok)
    as (cs & t & (Hinv & Hfr & Hlim & Hlt & _) & Hinit).
  assert (Et : t = T E (fake_root (tralloc_init s)) 0 E).
  { destruct (reachable_inv _ _ _ _ Hr)
      as [(m0 & Es & _)|(cs0 & t0 & Hinv0 & _)].
    - destruct Hinit as [_ ->]; [rewrite Es; reflexivity|].
      rewrite Hfr. reflexivity.
    - apply (no_free_tree _ _ _ Hinv).
      rewrite (tralloc_init_id _ _ _ _ Hinv0). exact Hnf. }
  set (si := tralloc_init s) in *.
  pose proof (hi_fr _ _ _ _ Hinv) as Hfr0.
  (* the first allocation grows the heap *)
  rewrite (request_size_64 si (hi_np _ _ _ _ Hinv)) in Ht1.
  assert (Hff : first_fit 64 t = NULL) by (rewrite Et; reflexivity).
  assert (H64 : 0 < 64) by lia.
  pose proof (alloc_miss_result si cs t 64 f1 _ Hinv H64 Hff Ht1) as Hres.
  destruct (grow_sbrk 64 si) as (G1 & G2 & _).
  assert (Hnf1 : fst (grow 64 si) <> sbrk_failure).
  { apply (Hok (wrap (header_pad si + 64 + footer_pad si), fst (grow 64 si))).
    replace s1 with (snd (hand_out (fst (grow 64 si)) (snd (grow 64 si))))
      by (rewrite <- Hres; reflexivity).
    unfold hand_out. cbv zeta. cbn [snd sbrk_log store].
    change (sbrk_log (store ?a ?v ?x)) with (sbrk_log x).
    rewrite G2. left. reflexivity. }
  assert (Hlm : brk_limit si < modulus) by (rewrite Hlim; exact Hlt).
  destruct (grow_step si cs t 64 Hinv Hlm) as (Eh & Hinv1 & _ & _ & Eb);
    [lia|reflexivity|lia|exact Hnf1|].
  rewrite Eh in Hres. inversion Hres. subst p1 s1. clear Hres.
  set (b := brk si) in *.
  set (g := snd (grow 64 si)) in *.
  (* the release inserts the chunk, merging nothing *)
  pose proof (free_result _ _ _ _ _ _ _ _ Hinv1 Ht2) as (G & Hf).
  destruct Hf as (pre' & x & sz1 & t1 & sz2 & post' & t2 & C1 & C2 & Hinv2).
  destruct C1 as [(E1 & _)|(-> & -> & -> & ->)].
  { exfalso.
    assert (Hin : In (x, sz1 - 24 - 64, false) cs).
    { rewrite E1. apply in_or_app. right. left. reflexivity. }
    destruct (inv_free_in_tree _ _ _ _ Hinv _ _ Hin) as [Hx Hne].
    rewrite Et, addrs_T, addrs_E in Hx. cbn [app In] in Hx.
    destruct Hx as [Hx|[]]. congruence. }
  destruct C2 as [(alt & E2 & _)|(-> & -> & ->)]; [discriminate|].
  assert (Hb : 0 < 64) by lia.
  rewrite Et in Hinv2. rewrite (ins_sentinel _ _ _ _ _ Hb) in Hinv2.
  cbn [ins] in Hinv2.
  (* the second allocation finds the chunk again *)
  unfold tralloc in Ht3. cbv zeta in Ht3.
  rewrite (tralloc_init_id _ _ _ _ Hinv2) in Ht3.
  rewrite (request_size_64 s2 (hi_np _ _ _ _ Hinv2)) in Ht3.
  pose proof (inv_chunk _ _ _ _ Hinv2 b 64 false
                ltac:(apply in_or_app; right; left; reflexivity))
    as (Hb1 & _).
  pose proof (hi_fr _ _ _ _ Hinv2) as Hfr2.
  assert (Hbn : b <> NULL) by (unfold NULL; lia).
  assert (Hff2 : first_fit 64 (T E (fake_root si) 0 (T E b 64 E)) = b)
    by reflexivity.
  pose proof (alloc_hit_result s2 cs b 64 [] _ 64 f3 _ Hinv2
                ltac:(lia) eq_refl Hff2 Hbn Ht3) as (Ep & G3 & Hcase).
  cbn [fst snd] in Ep, G3, Hcase.
  change (64 >=? 64 + 48) with false in Hcase. cbv iota in Hcase.
  assert (Hne : b <> fake_root si).
  { destruct (same_globals_fields _ _ G) as (F1 & _).
    change (fake_root (store (b + 8) 1 g)) with (fake_root g) in F1.
    pose proof (hi_sentinel _ _ _ _ Hinv2) as (_ & r2 & Er2).
    inversion Er2. lia. }
  rewrite (del_sentinel _ _ _ _ Hne) in Hcase.
  cbn [del] in Hcase. rewrite Z.eqb_refl in Hcase. cbn [del_root is_E] in Hcase.
  destruct G3 as (_ & _ & _ & _ & _ & _ & B3 & _ & L3).
  destruct G as (_ & _ & _ & _ & _ & _ & B2 & _ & L2).
  split; [exact Ep|]. split; [rewrite B3, B2; reflexivity|].
  split; [rewrite L3, L2; reflexivity|].
  split.
  - apply (tree_no_free _ _ _ Hcase).
    pose proof (hi_sentinel _ _ _ _ Hcase) as (_ & r3 & Er3).
    inversion Er3. reflexivity.
  - intros Hn2. pose proof (no_free_tree _ _ _ Hinv2 Hn2) as E2.
    inversion E2.
Qed.

Lemma round_trip_witness :
  fst trip3 = 4152 /\ brk (snd trip3) = brk (snd demo1) /\
  sbrk_log (snd trip3) = sbrk_log (snd demo1) /\
  no_free_chunk (snd trip3) /\ ~ no_free_chunk trip2.
Proof.
  apply (round_trip 4096 1000000 demo0 [] 10 10 10 4152 (snd demo1) trip2
           (fst trip3) (snd trip3)).
  - apply reach_start; unfold modulus; lia.
  - left. reflexivity.
  - apply run_pair; [vm_compute; discriminate|vm_compute; reflexivity].
  - apply (sbrk_ok_of_log _ [(88, 4136); (40, 4096)]); vm_compute; reflexivity.
  - apply or_else_some. vm_compute. discriminate.
  - rewrite <- surjective_pairing. apply or_else_some.
    vm_compute. discriminate.
Defined.

(** ** C7: the sentinel root *)


Lemma request_size_pos s n : node_pad s = 24 -> 24 <= request_size s n.
Proof.
  intros H. unfold request_size. cbv zeta. rewrite H.
  destruct (Z.ltb_spec (ceil_size n sizeof_intptr) 24); lia.
Qed.




(** ** C8: the effective size of a request *)






Lemma ceil_size_least n m :
  0 <= n <= modulus - 8 -> m mod 8 = 0 -> n <= m ->
  ceil_size n sizeof_intptr <= m.
Proof.
  intros Hn Hm Hle.
  pose proof (ceil_size_no_wrap n Hn) as Hc.
  assert (Hn' : 0 <= n < modulus) by (unfold modulus in *; lia).
  pose proof (ceil_size_mult8 n Hn') as Hc8.
  apply Zmod_divides in Hm; [|lia]. apply Zmod_divides in Hc8; [|lia].
  destruct Hm as [q Hq]. destruct Hc8 as [q' Hq']. lia.
Qed.




(** ** C9: no visible failure *)





(** * Further properties of the code *)

(** ** The pointer translations (lines 253-258) *)

Lemma wrap_add_sub a b : 0 <= a < modulus -> wrap (wrap (a + b) - b) = a.
Proof.
  intros Ha. unfold wrap. rewrite Zminus_mod_idemp_l.
  replace (a + b - b) with a by lia. apply Z.mod_small. exact Ha.
Qed.

Lemma wrap_sub_add a b : 0 <= a < modulus -> wrap (wrap (a - b) + b) = a.
Proof.
  intros Ha. unfold wrap. rewrite Zplus_mod_idemp_l.
  replace (a - b + b) with a by lia. apply Z.mod_small. exact Ha.
Qed.

(** X1.  A header and its node are translated into each other, in both
    directions, for every 64-bit address and whatever the header pad is. *)
Theorem header_node_round_trip s a :
  0 <= a < modulus ->
  node_to_header s (header_to_node s a) = a /\
  header_to_node s (node_to_header s a) = a.
Proof.
  intros Ha. unfold node_to_header, header_to_node.
  split; [apply wrap_add_sub|apply wrap_sub_add]; exact Ha.
Qed.

Lemma header_node_round_trip_witness :
  node_to_header demo6 (header_to_node demo6 4136) = 4136 /\
  header_to_node demo6 (node_to_header demo6 4152) = 4152.
Proof.
  assert (H1 : 0 <= 4136 < modulus) by (unfold modulus; lia).
  assert (H2 : 0 <= 4152 < modulus) by (unfold modulus; lia).
  split.
  - exact (proj1 (header_node_round_trip demo6 4136 H1)).
  - exact (proj2 (header_node_round_trip demo6 4152 H2)).
Defined.

(** X2.  From the footer of a chunk whose footer holds the header's size, the
    translations lead back to the header and to the node; and the footer found
    from the node is the footer found from the header. *)
Theorem header_footer_round_trip s h :
  0 <= h < modulus ->
  load s (size_of (header_to_footer s h)) = load s (size_of h) ->
  footer_to_header s (header_to_footer s h) = h /\
  footer_to_node s (header_to_footer s h) = header_to_node s h /\
  node_to_footer s (header_to_node s h) = header_to_footer s h.
Proof.
  intros Hh Htag. rewrite !size_of_eq in Htag.
  split; [|split].
  - unfold footer_to_header. rewrite Htag. unfold header_to_footer, wrap.
    replace ((h + header_pad s + mem s h) mod modulus - mem s h
             - header_pad s)
      with ((h + header_pad s + mem s h) mod modulus
            - (mem s h + header_pad s)) by lia.
    rewrite Zminus_mod_idemp_l.
    replace (h + header_pad s + mem s h - (mem s h + header_pad s))
      with h by lia.
    apply Z.mod_small. exact Hh.
  - unfold footer_to_node. rewrite Htag.
    unfold header_to_footer, header_to_node, wrap.
    rewrite Zminus_mod_idemp_l. f_equal. lia.
  - unfold node_to_footer.
    rewrite (proj1 (header_node_round_trip s h Hh)).
    unfold header_to_node, header_to_footer, wrap.
    rewrite Zplus_mod_idemp_l. reflexivity.
Qed.

Lemma header_footer_round_trip_witness :
  footer_to_header demo6 (header_to_footer demo6 4272) = 4272 /\
  footer_to_node demo6 (header_to_footer demo6 4272)
    = header_to_node demo6 4272 /\
  node_to_footer demo6 (header_to_node demo6 4272)
    = header_to_footer demo6 4272.
Proof.
  apply header_footer_round_trip.
  - unfold modulus. lia.
  - vm_compute. reflexivity.
Defined.

(** ** [find_largest] and [find_smallest] (lines 236-246) *)

Lemma rep_t_max_right m t par :
  rep m t par -> is_E t = false -> m (fst (t_max t) + 32) = NULL.
Proof.
  revert par. induction t as [|l IHl a sz r IHr]; intros par Hrep HE;
    [discriminate|].
  cbn [rep] in Hrep. destruct Hrep as (_ & _ & _ & M3 & _ & Rr).
  destruct r as [|rl ra rsz rr].
  - exact M3.
  - change (t_max (T l a sz (T rl ra rsz rr))) with (t_max (T rl ra rsz rr)).
    apply (IHr a Rr). reflexivity.
Qed.

Lemma rep_t_min_left m t par :
  rep m t par -> is_E t = false -> m (fst (t_min t) + 24) = NULL.
Proof.
  revert par. induction t as [|l IHl a sz r IHr]; intros par Hrep HE;
    [discriminate|].
  cbn [rep] in Hrep. destruct Hrep as (_ & _ & M2 & _ & Rl & _).
  destruct l as [|ll la lsz lr].
  - exact M2.
  - change (t_min (T (T ll la lsz lr) a sz r)) with (t_min (T ll la lsz lr)).
    apply (IHl a Rl). reflexivity.
Qed.

(** X3.  On a non-empty ordered tree held in memory, [find_largest] returns,
    given fuel for the height: a node of the tree without right child, whose
    size is at least that of every node of the tree. *)
Theorem find_largest_greatest t par s fuel :
  header_pad s = 16 -> rep (mem s) t par -> bst t -> good (addrs t) ->
  is_E t = false -> (height t <= fuel)%nat ->
  exists m,
    find_largest fuel (root_addr t) s = Some m /\
    In m (addrs t) /\
    load s (right_of (header_to_node s m)) = NULL /\
    forall a sz, In (a, sz) (nodes t) -> sz <= load s (size_of m).
Proof.
  intros Hp Hrep Hb Hg HE Hf.
  assert (Hr : forall a, In a (addrs t) -> in_range a).
  { intros a Ha. apply in_range_intro. exact (good_range _ _ Hg Ha). }
  exists (fst (t_max t)).
  split; [exact (find_largest_spec t par s fuel Hp Hrep HE Hr Hf)|].
  pose proof (t_max_addr_in t HE) as Hin.
  split; [exact Hin|]. split.
  - rewrite (hn s _ Hp (Hr _ Hin)), (right_hn _ (Hr _ Hin)).
    exact (rep_t_max_right _ _ _ Hrep HE).
  - intros a sz Ha. rewrite size_of_eq.
    pose proof (t_max_in t HE) as Hm. rewrite t_max_pair in Hm.
    rewrite (rep_size _ _ _ _ _ Hrep Hm).
    exact (bst_t_max_ge t Hb (a, sz) Ha).
Qed.

(** X4.  On a non-empty ordered tree held in memory, [find_smallest] returns,
    given fuel for the height: a node of the tree without left child, whose
    size is at most that of every node of the tree. *)
Theorem find_smallest_least t par s fuel :
  header_pad s = 16 -> rep (mem s) t par -> bst t -> good (addrs t) ->
  is_E t = false -> (height t <= fuel)%nat ->
  exists m,
    find_smallest fuel (root_addr t) s = Some m /\
    In m (addrs t) /\
    load s (left_of (header_to_node s m)) = NULL /\
    forall a sz, In (a, sz) (nodes t) -> load s (size_of m) <= sz.
Proof.
  intros Hp Hrep Hb Hg HE Hf.
  assert (Hr : forall a, In a (addrs t) -> in_range a).
  { intros a Ha. apply in_range_intro. exact (good_range _ _ Hg Ha). }
  exists (fst (t_min t)).
  split; [exact (find_smallest_spec t par s fuel Hp Hrep HE Hr Hf)|].
  pose proof (t_min_addr_in t HE) as Hin.
  split; [exact Hin|]. split.
  - rewrite (hn s _ Hp (Hr _ Hin)), (left_hn _ (Hr _ Hin)).
    exact (rep_t_min_left _ _ _ Hrep HE).
  - intros a sz Ha. rewrite size_of_eq.
    pose proof (t_min_in t HE) as Hm. rewrite t_min_pair in Hm.
    rewrite (rep_size _ _ _ _ _ Hrep Hm).
    exact (bst_t_min_le t Hb (a, sz) Ha).
Qed.

Lemma find_largest_greatest_witness :
  exists m,
    find_largest 10 4096 demo6 = Some m /\
    In m (addrs demo6_tree) /\
    load demo6 (right_of (header_to_node demo6 m)) = NULL /\
    forall a sz, In (a, sz) (nodes demo6_tree) -> sz <= load demo6 (size_of m).
Proof.
  apply (find_largest_greatest demo6_tree NULL demo6 10).
  - vm_compute. reflexivity.
  - exact demo6_rep.
  - exact demo6_bst.
  - exact demo6_good.
  - reflexivity.
  - vm_compute. lia.
Defined.

Lemma find_smallest_least_witness :
  exists m,
    find_smallest 10 4272 demo6 = Some m /\
    In m (addrs (T (T E 4136 64 E) 4272 80 E)) /\
    load demo6 (left_of (header_to_node demo6 m)) = NULL /\
    forall a sz, In (a, sz) (nodes (T (T E 4136 64 E) 4272 80 E)) ->
                 load demo6 (size_of m) <= sz.
Proof.
  apply (find_smallest_least (T (T E 4136 64 E) 4272 80 E) 4096 demo6 10).
  - vm_compute. reflexivity.
  - vm_compute. repeat split.
  - cbn [bst nodes app]. repeat split; intros m Hm; cbn [In] in Hm;
      repeat (destruct Hm as [<-|Hm]; [cbn [snd]; lia|]); destruct Hm.
  - change (addrs (T (T E 4136 64 E) 4272 80 E)) with [4272; 4136].
    split; [|split].
    + repeat constructor; cbn [In]; lia.
    + intros x [<-|[<-|[]]]; split; unfold modulus; lia.
    + intros x y Hx Hy Hne. unfold apart. cbn [In] in Hx, Hy. lia.
  - reflexivity.
  - vm_compute. lia.
Defined.

(** ** [find_replacement] (lines 229-234) *)

(** X5.  For a node with two children, two calls of [find_replacement] in a
    row return its predecessor (the largest node of the left subtree) and its
    successor (the smallest node of the right subtree), the predecessor first
    when [succ_pred_alternator] was false; the two calls leave memory as it
    was and the alternator at its old value. *)
Theorem find_replacement_takes_turns ll x sx lr a s k :
  header_pad s = 16 -> rep (mem s) (T ll x sx lr) a ->
  good (addrs (T ll x sx lr)) ->
  is_E ll = false -> is_E lr = false ->
  (height (T ll x sx lr) <= S k)%nat ->
  exists r1 s1 r2 s2,
    find_replacement k x s = Some (r1, s1) /\
    find_replacement k x s1 = Some (r2, s2) /\
    r1 = (if succ_pred_alternator s then fst (t_min lr)
          else fst (t_max ll)) /\
    r2 = (if succ_pred_alternator s then fst (t_max ll)
          else fst (t_min lr)) /\
    r1 <> r2 /\
    succ_pred_alternator s1 = negb (succ_pred_alternator s) /\
    succ_pred_alternator s2 = succ_pred_alternator s /\
    mem s2 = mem s.
Proof.
  intros Hp Hrep Hg El Er Hk.
  assert (Hr : forall b, In b (addrs (T ll x sx lr)) -> in_range b).
  { intros b Hb. apply in_range_intro. exact (good_range _ _ Hg Hb). }
  pose proof (find_replacement_spec ll x sx lr a s k Hp Hrep El Er Hr Hk) as E1.
  set (s1 := set_succ_pred_alternator (negb (succ_pred_alternator s)) s) in *.
  assert (Hp1 : header_pad s1 = 16) by exact Hp.
  assert (Hrep1 : rep (mem s1) (T ll x sx lr) a) by exact Hrep.
  pose proof (find_replacement_spec ll x sx lr a s1 k Hp1 Hrep1 El Er Hr Hk)
    as E2.
  eexists _, s1, _, _. split; [exact E1|]. split; [exact E2|].
  change (succ_pred_alternator s1) with (negb (succ_pred_alternator s)).
  rewrite negb_involutive.
  assert (Hne : fst (t_max ll) <> fst (t_min lr)).
  { destruct Hg as (Hnd & _). apply NoDup_T in Hnd.
    destruct Hnd as (_ & _ & _ & _ & Hd). intros E0.
    apply (Hd (fst (t_max ll)) (t_max_addr_in ll El)).
    rewrite E0. exact (t_min_addr_in lr Er). }
  destruct (succ_pred_alternator s); cbn [negb];
    repeat split; auto.
Qed.

Lemma duo5_rep : rep (mem duo5) duo5_tree NULL.
Proof. vm_compute. repeat split. Qed.

Lemma find_replacement_takes_turns_witness :
  exists r1 s1 r2 s2,
    find_replacement 9 4272 duo5 = Some (r1, s1) /\
    find_replacement 9 4272 s1 = Some (r2, s2) /\
    r1 = 4136 /\ r2 = 4424.
Proof.
  destruct (find_replacement_takes_turns (T E 4136 64 E) 4272 80
              (T E 4424 104 E) 4096 duo5 9)
    as (r1 & s1 & r2 & s2 & E1 & E2 & R1 & R2 & _).
  - vm_compute. reflexivity.
  - vm_compute. repeat split.
  - change (addrs (T (T E 4136 64 E) 4272 80 (T E 4424 104 E)))
      with [4272; 4136; 4424].
    apply good_three; unfold apart, modulus; lia.
  - reflexivity.
  - reflexivity.
  - vm_compute. lia.
  - exists r1, s1, r2, s2. split; [exact E1|]. split; [exact E2|].
    replace (succ_pred_alternator duo5) with false in R1, R2
      by (vm_compute; reflexivity).
    split; [exact R1|exact R2].
Defined.

(** ** What the allocator leaves alone *)

(** The payload of a used chunk holds no link of the free tree. *)
Lemma payload_not_link cur s cs t b szb c :
  heap_inv cur s cs t -> In (b, szb, true) cs ->
  b + 16 <= c < b + 16 + szb -> ~ link_cell (addrs t) c.
Proof.
  intros Hinv Hb Hc Hl.
  pose proof (inv_chunk _ _ _ _ Hinv _ _ _ Hb) as Kb.
  pose proof (hi_fr _ _ _ _ Hinv) as Hfr.
  destruct (inv_link_cell _ _ _ _ Hinv c Hl) as [H1|(a & sz & Ha & H1)];
    [lia|].
  pose proof (inv_chunk _ _ _ _ Hinv _ _ _ Ha) as Ka.
  destruct (inv_chunk_sep _ _ _ _ Hinv _ _ _ _ _ _ Ha Hb)
    as [(_ & _ & e)|[H2|H2]]; [discriminate|lia|lia].
Qed.

Lemma payload_kept cur s cs t b szb lo hi m' :
  heap_inv cur s cs t -> In (b, szb, true) cs ->
  untouched (mem s) m' (addrs t) lo hi ->
  b + 24 + szb <= lo \/ hi <= b ->
  forall k, 0 <= k < szb -> m' (b + 16 + k) = mem s (b + 16 + k).
Proof.
  intros Hinv Hb Hu Hout k Hk. apply Hu.
  - apply (payload_not_link _ _ _ _ b szb _ Hinv Hb). lia.
  - lia.
Qed.

Lemma untouched_trans m1 m2 m3 L L' lo hi lo' hi' :
  untouched m1 m2 L lo hi -> untouched m2 m3 L' lo' hi' ->
  incl L' L -> lo <= lo' -> hi' <= hi ->
  untouched m1 m3 L lo hi.
Proof.
  intros H1 H2 Hi Hlo Hhi x Hx Hr.
  rewrite H2; [apply H1; assumption| |lia].
  intros Hl. apply Hx. exact (link_cell_incl _ _ _ Hi Hl).
Qed.

Lemma untouched_widen m1 m2 L L' lo hi lo' hi' :
  untouched m1 m2 L' lo' hi' ->
  incl L' L -> lo <= lo' -> hi' <= hi ->
  untouched m1 m2 L lo hi.
Proof.
  intros H Hi Hlo Hhi x Hx Hr. apply H; [|lia].
  intros Hl. apply Hx. exact (link_cell_incl _ _ _ Hi Hl).
Qed.

Lemma removed_untouched y t par s s' lo hi :
  removed y t par s s' -> untouched (mem s) (mem s') (addrs t) lo hi.
Proof. intros (_ & _ & _ & _ & F) x Hx _. apply F. exact Hx. Qed.

Lemma incl_addrs_del alt y t : incl (addrs (del alt y t)) (addrs t).
Proof. intros a Ha. exact (in_addrs_del _ _ _ _ Ha). Qed.

(** Splitting writes only inside the chunk being split and into links of
    the tree. *)
Lemma split_frame s pre x fsz post t size fuel :
  heap_inv x s (pre ++ (x, fsz, true) :: post) t ->
  24 <= size -> size mod 8 = 0 -> size + 48 <= fsz -> head_used post ->
  (height t < fuel)%nat ->
  wp (split fuel size x s)
     (fun s' => untouched (mem s) (mem s') (addrs t) x (x + 24 + fsz)).
Proof.
  intros Hinv Hsz Hmod Hf Hhead Hfuel.
  destruct (layout_focus _ _ _ _ _ _ (hi_layout _ _ _ _ Hinv)) as
    (Hpre & Hpost & H1 & H2 & H3 & H4 & H5 & H6).
  unfold c_end, c_addr, c_size in *. cbn [fst snd] in *.
  pose proof (hi_fr _ _ _ _ Hinv) as Hfr.
  pose proof (hi_brk _ _ _ _ Hinv) as Hbrk.
  pose proof (hi_hp _ _ _ _ Hinv) as Hp.
  pose proof (hi_fp _ _ _ _ Hinv) as Hfp.
  destruct (inv_root_shape _ _ _ _ Hinv) as [r Et].
  set (d := x + 24 + size). set (dsz := fsz - size - 24).
  destruct (inv_split_pre _ _ _ _ _ _ size Hinv Hsz Hf)
    as (Hrep & Hg & Hmd & Hout).
  cbv zeta in Hrep, Hg, Hmd. fold d in Hrep, Hg, Hmd. fold dsz in Hrep, Hmd.
  assert (Hd : d = x + 24 + size) by reflexivity.
  assert (Hdsz : dsz = fsz - size - 24) by reflexivity.
  clearbody d dsz.
  unfold split.
  rewrite Hp, Hfp.
  replace (wrap (x + 16 + size + 8)) with d
    by (rewrite wrap_small by (unfold modulus; lia); lia).
  rewrite !size_of_eq, H3.
  replace (wrap (fsz - size - 8 - 16)) with dsz
    by (rewrite wrap_small by (unfold modulus; lia); lia).
  replace (in_use_of d) with (d + 8)
    by (unfold in_use_of; rewrite wrap_small by (unfold modulus; lia); lia).
  cbv zeta.
  assert (E3 : store (header_to_footer (store (d + 8) 0 (store d dsz s)) d)
                 (mem (store (d + 8) 0 (store d dsz s)) d)
                 (store (d + 8) 0 (store d dsz s)) = split_tags d dsz s).
  { unfold header_to_footer, split_tags.
    cbn [mem store header_pad]. rewrite Hp.
    rewrite (proj2 (Z.eqb_neq d (d + 8))) by lia. rewrite Z.eqb_refl.
    rewrite wrap_small by (unfold modulus; lia). reflexivity. }
  rewrite E3.
  change (fake_root (split_tags d dsz s)) with (fake_root s).
  assert (Hroot : fake_root s = root_addr t) by (rewrite Et; reflexivity).
  rewrite Hroot.
  pose proof (add_chunk_spec d dsz t NULL (split_tags d dsz s) fuel
                Hp Hrep Hg Hmd Hfuel) as H.
  destruct (add_chunk fuel (root_addr t) d NULL (split_tags d dsz s))
    as [[r1 s4]|]; [|contradiction].
  cbn [wp] in H |- *.
  destruct H as (_ & G & _ & _ & _ & _ & F).
  cbn [fst snd] in G, F.
  destruct (same_globals_fields _ _ G) as (_ & _ & _ & Ghp & _).
  change (header_pad (split_tags d dsz s)) with (header_pad s) in Ghp.
  assert (E5 : header_to_footer
                 (store x size (set_fake_root r1 s4)) x = x + 16 + size).
  { unfold header_to_footer. cbn [mem store header_pad set_fake_root].
    rewrite Z.eqb_refl, Ghp, Hp.
    apply wrap_small. unfold modulus. lia. }
  rewrite E5.
  intros c Hc Hr. rewrite !mem_store.
  rewrite (proj2 (Z.eqb_neq c (x + 16 + size))) by lia.
  rewrite (proj2 (Z.eqb_neq c x)) by lia.
  change (mem (set_fake_root r1 s4) c) with (mem s4 c).
  rewrite F.
  - unfold split_tags. rewrite !mem_store.
    rewrite (proj2 (Z.eqb_neq c (d + 16 + dsz))) by lia.
    rewrite (proj2 (Z.eqb_neq c (d + 8))) by lia.
    rewrite (proj2 (Z.eqb_neq c d)) by lia. reflexivity.
  - intros (a & [<-|Ha] & Hl); [lia|].
    apply Hc. exists a. split; assumption.
  - lia.
Qed.

(** Serving a request from the tree writes only inside the chunk taken and
    into links of the tree. *)
Lemma tralloc_body_hit_frame s pre f fsz post t size fuel :
  heap_inv NULL s (pre ++ (f, fsz, false) :: post) t ->
  24 <= size -> size mod 8 = 0 ->
  first_fit size t = f -> f <> NULL ->
  (2 * height t + 1 <= fuel)%nat ->
  wp (tralloc_body fuel size s)
     (fun r => untouched (mem s) (mem (snd r)) (addrs t) f (f + 24 + fsz)).
Proof.
  intros Hinv Hsz Hmod Hff Hnz Hfuel.
  assert (Hle : size <= fsz).
  { destruct (hit_chunk s _ t size Hinv) as (pre' & fsz' & post' & E & Hle);
      [lia|rewrite Hff; exact Hnz|].
    rewrite Hff in E.
    assert (Hin : In (f, fsz', false) (pre ++ (f, fsz, false) :: post)).
    { rewrite E. apply in_or_app. right. left. reflexivity. }
    assert (Hin' : In (f, fsz, false) (pre ++ (f, fsz, false) :: post)).
    { apply in_or_app. right. left. reflexivity. }
    pose proof (layout_addr_inj _ _ _ _ _ _ (hi_layout _ _ _ _ Hinv)
                  Hin Hin' eq_refl) as Ec.
    inversion Ec. subst. exact Hle. }
  pose proof (naf_head_used _ _ _ (hi_noadj _ _ _ _ Hinv) eq_refl) as Hhead.
  unfold tralloc_body.
  pose proof (search_root s _ t size fuel Hinv) as H.
  assert (H0 : 0 < size) by lia. specialize (H H0).
  assert (H1 : (2 * height t + 1 <= fuel)%nat) by lia. specialize (H H1).
  destruct (remove_chunk_by_size fuel (fake_root s) size s)
    as [[found s1]|]; [|contradiction].
  cbn [wp] in H. unfold searched in H. cbn [fst snd] in H.
  destruct H as [Ef Hrm]. rewrite Hff in Ef, Hrm. subst found.
  rewrite NULL_eq in *.
  rewrite (proj2 (Z.eqb_neq f 0)) in * by exact Hnz.
  pose proof (inv_take _ _ _ _ _ _ _ Hinv Hrm) as Hinv1.
  pose proof (removed_untouched _ _ _ _ _ f (f + 24 + fsz) Hrm) as U1.
  destruct Hrm as (G & EA & SP & _).
  rewrite (divisible_spec _ _ _ _ _ _ size Hinv1) by lia.
  destruct (layout_focus _ _ _ _ _ _ (hi_layout _ _ _ _ Hinv)) as
    (_ & _ & K1 & _ & _ & _ & _ & _).
  unfold c_end, c_addr, c_size in *. cbn [fst snd] in *.
  destruct (fsz >=? size + 48) eqn:Ediv.
  - assert (Hbig : size + 48 <= fsz).
    { destruct (Z.geb_spec fsz (size + 48)); [lia|discriminate]. }
    pose proof (split_ok _ _ _ _ _ _ size fuel Hinv1 Hsz Hmod Hbig Hhead)
      as H.
    pose proof (split_frame _ _ _ _ _ _ size fuel Hinv1 Hsz Hmod Hbig Hhead)
      as H'.
    assert (H2 : (height (del (negb (succ_pred_alternator s)) f t) < fuel)%nat).
    { pose proof (height_del (negb (succ_pred_alternator s)) f t). lia. }
    specialize (H H2). specialize (H' H2).
    destruct (split fuel size f s1) as [s2|]; [|contradiction].
    cbn [wp] in H, H' |- *. destruct H as (Hinv2 & G2 & _).
    rewrite EA in Hinv2.
    rewrite (hand_out_ok _ _ _ _ _ _ Hinv2). cbn [fst snd].
    pose proof (untouched_trans _ _ _ _ _ _ _ _ _ U1 H'
                  (incl_addrs_del _ _ _) (Z.le_refl _) (Z.le_refl _)) as U2.
    intros c Hc Hr. rewrite mem_store.
    rewrite (proj2 (Z.eqb_neq c (f + 8))) by lia.
    apply U2; assumption.
  - cbn [wp]. rewrite (hand_out_ok _ _ _ _ _ _ Hinv1). cbn [fst snd].
    intros c Hc Hr. rewrite mem_store.
    rewrite (proj2 (Z.eqb_neq c (f + 8))) by lia.
    apply U1; assumption.
Qed.

(** Extending the heap writes only at and above the old break. *)
Lemma grow_frame s size c :
  header_pad s = 16 -> footer_pad s = 8 -> 0 <= brk s ->
  24 <= size -> size + 24 < 9223372036854775808 ->
  fst (grow size s) <> sbrk_failure ->
  c < brk s ->
  brk s + 24 + size < modulus ->
  mem (snd (grow size s)) c = mem s c.
Proof.
  intros Hp Hfp Hb Hsz Hbig Hnf Hc Hlim.
  destruct (grow_sbrk size s) as (G1 & _).
  rewrite G1 in Hnf. apply sbrk_not_failed in Hnf.
  unfold grow. rewrite Hp, Hfp.
  rewrite (wrap_small (16 + size + 8)) by (unfold modulus; lia).
  rewrite sbrk_success
    by (rewrite Hp, Hfp, (wrap_small (16 + size + 8)) in Hnf
          by (unfold modulus; lia);
        rewrite to_signed_small in Hnf by lia; lia).
  cbn [first_chunk header_pad footer_pad set_first_chunk set_guard_addr].
  cbv zeta.
  assert (Hw : wrap (brk s + 16 + size + 8) = brk s + 24 + size).
  { rewrite wrap_small by (unfold modulus in *; lia). lia. }
  destruct (first_chunk s =? NULL);
    rewrite Hp, Hfp;
    cbn [first_chunk header_pad footer_pad set_first_chunk set_guard_addr
         fst snd];
    unfold header_to_footer, size_of;
    cbn [first_chunk header_pad footer_pad set_first_chunk set_guard_addr
         fst snd mem store];
    rewrite ?Z.eqb_refl, ?Hw;
    rewrite ?(wrap_small (brk s + 16 + size)) by (unfold modulus in *; lia);
    rewrite (proj2 (Z.eqb_neq c (brk s + 16 + size))) by lia;
    rewrite (proj2 (Z.eqb_neq c (brk s))) by lia; reflexivity.
Qed.

(** Coalescing with the predecessor writes only inside the two chunks and
    into links of the tree. *)
Lemma merge_prev_frame s pre a sz post t fuel :
  heap_inv NULL s (pre ++ (a, sz, true) :: post) t ->
  (height t <= fuel)%nat ->
  wp (merge_prev fuel a s)
     (fun res => untouched (mem s) (mem (snd res)) (addrs t)
                   (fst res) (a + 24 + sz)).
Proof.
  intros Hinv Hfuel.
  assert (Hin : In (a, sz, true) (pre ++ (a, sz, true) :: post))
    by (apply in_or_app; right; left; reflexivity).
  pose proof (hi_fr _ _ _ _ Hinv) as Hfr.
  pose proof (hi_brk _ _ _ _ Hinv) as Hbrk.
  pose proof (hi_hp _ _ _ _ Hinv) as Hp.
  pose proof (hi_fp _ _ _ _ Hinv) as Hfp.
  destruct (hi_ends _ _ _ _ Hinv) as [(E & _)|(_ & Hfc & Hga)];
    [destruct pre; discriminate|].
  unfold merge_prev.
  destruct (last_or_nil pre) as [->|(pre' & c & ->)].
  - pose proof (hi_layout _ _ _ _ Hinv) as Hl. cbn [app layout] in Hl.
    destruct Hl as (Ea & _). unfold c_addr in Ea. cbn [fst] in Ea.
    rewrite Hfc, <- Ea, Z.eqb_refl. cbn [negb wp fst snd].
    intros y _ _. reflexivity.
  - destruct c as [[b szb] ub].
    rewrite <- app_assoc in Hinv, Hin. cbn [app] in Hinv, Hin.
    destruct (layout_focus2 _ _ _ _ _ _ _ (hi_layout _ _ _ _ Hinv)) as
      (Hpre & Hpost & Ea & B1 & B2 & B3 & B4 & A1 & A2 & A3 & A4 & L1 & L2).
    unfold c_end, c_addr, c_size in *. cbn [fst snd] in *.
    rewrite Hfc. rewrite (proj2 (Z.eqb_neq a (fake_root s + 40))) by lia.
    cbn [negb]. rewrite Hfp.
    assert (Ec : footer_to_header s (wrap (a - 8)) = b).
    { unfold footer_to_header. rewrite Hp.
      rewrite (wrap_small (a - 8)) by (unfold modulus; lia).
      replace (a - 8) with (b + 16 + szb) by lia. rewrite B4.
      rewrite wrap_small by (unfold modulus; lia). lia. }
    rewrite Ec. cbv zeta.
    replace (in_use_of b) with (b + 8)
      by (unfold in_use_of; rewrite wrap_small by (unfold modulus; lia); lia).
    assert (Hb : In (b, szb, ub) (pre' ++ (b, szb, ub) :: (a, sz, true) :: post))
      by (apply in_or_app; right; left; reflexivity).
    destruct (hi_flags _ _ _ _ Hinv _ Hb) as [Hfl _].
    unfold c_addr, c_used in Hfl. cbn [fst snd] in Hfl.
    rewrite Hfl by (unfold NULL; lia).
    destruct ub.
    + change (1 =? 0) with false. cbn [wp fst snd].
      intros y _ _. reflexivity.
    + change (0 =? 0) with true. cbv iota.
      destruct (inv_free_in_tree _ _ _ _ Hinv _ _ Hb) as [Hbt Hbfr].
      destruct (inv_root_shape _ _ _ _ Hinv) as [r Et].
      assert (Hbr : b <> root_addr t) by (rewrite Et; exact Hbfr).
      pose proof (remove_chunk_spec t NULL s b fuel Hp (hi_rep _ _ _ _ Hinv)
                    (inv_good _ _ _ _ Hinv) Hbt Hbr Hfuel) as H.
      destruct (remove_chunk fuel b s) as [s1|]; [|contradiction].
      cbn [wp] in H |- *.
      pose proof H as (G & EA & SP & _ & F).
      destruct (same_globals_fields _ _ G) as (_ & _ & _ & Ghp & Gfp & _).
      rewrite !size_of_eq, Gfp, Ghp, Hfp, Hp.
      rewrite (removed_tag _ _ _ _ _ _ b Hinv H)
        by (exists (b, szb, false); split; [exact Hb|left; reflexivity]).
      rewrite (removed_tag _ _ _ _ _ _ a Hinv H)
        by (exists (a, sz, true); split; [exact Hin|left; reflexivity]).
      rewrite B3, A3.
      replace (wrap (szb + (8 + 16 + sz))) with (szb + 24 + sz)
        by (rewrite wrap_small by (unfold modulus; lia); lia).
      assert (E5 : header_to_footer (store b (szb + 24 + sz) s1) b
                   = b + 16 + (szb + 24 + sz)).
      { unfold header_to_footer. cbn [mem store header_pad].
        rewrite Z.eqb_refl, Ghp, Hp.
        apply wrap_small. unfold modulus. lia. }
      rewrite E5. cbn [fst snd].
      intros y Hy Hr. rewrite !mem_store.
      rewrite (proj2 (Z.eqb_neq y (b + 16 + (szb + 24 + sz)))) by lia.
      rewrite (proj2 (Z.eqb_neq y b)) by lia.
      apply F. exact Hy.
Qed.

(** Coalescing with the successor writes only inside the two chunks and
    into links of the tree. *)
Lemma merge_next_frame s pre x szx post t fuel :
  heap_inv x s (pre ++ (x, szx, true) :: post) t ->
  (height t <= fuel)%nat ->
  wp (merge_next fuel x s)
     (fun s' => untouched (mem s) (mem s') (addrs t)
                  x (x + 24 + mem s' x)).
Proof.
  intros Hinv Hfuel.
  assert (Hin : In (x, szx, true) (pre ++ (x, szx, true) :: post))
    by (apply in_or_app; right; left; reflexivity).
  pose proof (hi_fr _ _ _ _ Hinv) as Hfr.
  pose proof (hi_brk _ _ _ _ Hinv) as Hbrk.
  pose proof (hi_hp _ _ _ _ Hinv) as Hp.
  pose proof (hi_fp _ _ _ _ Hinv) as Hfp.
  destruct (hi_ends _ _ _ _ Hinv) as [(E & _)|(_ & Hfc & Hga)];
    [destruct pre; discriminate|].
  destruct (layout_focus _ _ _ _ _ _ (hi_layout _ _ _ _ Hinv)) as
    (Hpre & Hpost & H1 & H2 & H3 & H4 & H5 & H6).
  unfold c_end, c_addr, c_size in *. cbn [fst snd] in *.
  unfold merge_next.
  assert (Ee : wrap (header_to_footer s x + footer_pad s) = x + 24 + szx).
  { unfold header_to_footer. rewrite Hp, Hfp, H3.
    rewrite (wrap_small (x + 16 + szx)) by (unfold modulus; lia).
    rewrite wrap_small by (unfold modulus; lia). lia. }
  rewrite Ee, Hga. cbv zeta.
  destruct post as [|[[d szd] ud] post'].
  - cbn [layout] in Hpost. rewrite Hpost, Z.eqb_refl. cbn [negb wp].
    intros y _ _. reflexivity.
  - destruct (layout_focus2 _ _ _ _ _ _ _ (hi_layout _ _ _ _ Hinv)) as
      (_ & Hpost' & Ea & B1 & B2 & B3 & B4 & A1 & A2 & A3 & A4 & L1 & L2).
    unfold c_end, c_addr, c_size in *. cbn [fst snd] in *.
    rewrite (proj2 (Z.eqb_neq (x + 24 + szx) (brk s))) by lia.
    cbn [negb].
    replace (in_use_of (x + 24 + szx)) with (d + 8)
      by (unfold in_use_of; rewrite wrap_small by (unfold modulus; lia); lia).
    assert (Hd : In (d, szd, ud)
                   (pre ++ (x, szx, true) :: (d, szd, ud) :: post'))
      by (apply in_or_app; right; right; left; reflexivity).
    destruct (hi_flags _ _ _ _ Hinv _ Hd) as [Hfl _].
    unfold c_addr, c_used in Hfl. cbn [fst snd] in Hfl.
    rewrite Hfl by lia.
    destruct ud.
    + change (1 =? 0) with false. cbn [wp].
      intros y _ _. reflexivity.
    + change (0 =? 0) with true. cbv iota.
      replace (x + 24 + szx) with d by lia.
      destruct (inv_free_in_tree _ _ _ _ Hinv _ _ Hd) as [Hdt Hdfr].
      destruct (inv_root_shape _ _ _ _ Hinv) as [r Et].
      assert (Hdr : d <> root_addr t) by (rewrite Et; exact Hdfr).
      pose proof (remove_chunk_spec t NULL s d fuel Hp (hi_rep _ _ _ _ Hinv)
                    (inv_good _ _ _ _ Hinv) Hdt Hdr Hfuel) as H.
      destruct (remove_chunk fuel d s) as [s1|]; [|contradiction].
      cbn [wp] in H |- *.
      pose proof H as (G & EA & SP & _ & F).
      destruct (same_globals_fields _ _ G) as (_ & _ & _ & Ghp & Gfp & _).
      rewrite !size_of_eq, Gfp, Ghp, Hfp, Hp.
      rewrite (removed_tag _ _ _ _ _ _ x Hinv H)
        by (exists (x, szx, true); split; [exact Hin|left; reflexivity]).
      rewrite (removed_tag _ _ _ _ _ _ d Hinv H)
        by (exists (d, szd, false); split; [exact Hd|left; reflexivity]).
      rewrite B3, A3.
      replace (wrap (szx + (8 + 16 + szd))) with (szx + 24 + szd)
        by (rewrite wrap_small by (unfold modulus; lia); lia).
      assert (E5 : header_to_footer (store x (szx + 24 + szd) s1) x
                   = x + 16 + (szx + 24 + szd)).
      { unfold header_to_footer. cbn [mem store header_pad].
        rewrite Z.eqb_refl, Ghp, Hp.
        apply wrap_small. unfold modulus. lia. }
      rewrite E5.
      assert (Ex : mem (store (x + 16 + (szx + 24 + szd))
                          (mem (store x (szx + 24 + szd) s1) x)
                          (store x (szx + 24 + szd) s1)) x
                   = szx + 24 + szd).
      { rewrite !mem_store.
        rewrite (proj2 (Z.eqb_neq x (x + 16 + (szx + 24 + szd)))) by lia.
        rewrite Z.eqb_refl. reflexivity. }
      rewrite Ex.
      intros y Hy Hr. rewrite !mem_store.
      rewrite (proj2 (Z.eqb_neq y (x + 16 + (szx + 24 + szd)))) by lia.
      rewrite (proj2 (Z.eqb_neq y x)) by lia.
      apply F. exact Hy.
Qed.

Lemma layout_outside m base pre c post e c' :
  layout m base (pre ++ c :: post) e -> In c' (pre ++ post) ->
  c_end c' <= c_addr c \/ c_end c <= c_addr c'.
Proof.
  intros Hl Hin.
  destruct (layout_focus _ _ _ _ _ _ Hl) as (Hpre & Hpost & _).
  apply in_app_or in Hin. destruct Hin as [Hin|Hin].
  - left. exact (proj1 (proj2 (layout_in _ _ _ _ _ Hpre Hin))).
  - right. exact (proj1 (layout_in _ _ _ _ _ Hpost Hin)).
Qed.

Lemma layout_start m m' a a' cs e :
  layout m a cs e -> layout m' a' cs e -> a = a'.
Proof.
  destruct cs as [|c cs]; cbn [layout].
  - congruence.
  - intros (H & _) (H' & _). congruence.
Qed.

(** Releasing a chunk leaves the payloads of all other used chunks as they
    were. *)
Lemma trfree_frame s pre a sz post t fuel :
  heap_inv NULL s (pre ++ (a, sz, true) :: post) t ->
  (height t < fuel)%nat ->
  wp (trfree fuel (a + 16) s)
     (fun s' => forall b szb k,
        In (b, szb, true) (pre ++ post) -> 0 <= k < szb ->
        mem s' (b + 16 + k) = mem s (b + 16 + k)).
Proof.
  intros Hinv Hfuel.
  pose proof (hi_fr _ _ _ _ Hinv) as Hfr.
  pose proof (hi_brk _ _ _ _ Hinv) as Hbrk.
  pose proof (hi_hp _ _ _ _ Hinv) as Hp.
  destruct (layout_focus _ _ _ _ _ _ (hi_layout _ _ _ _ Hinv)) as
    (_ & Hpost0 & H1 & _ & _ & _ & H5 & H6).
  unfold c_end, c_addr, c_size in *. cbn [fst snd] in *.
  unfold trfree.
  assert (E0 : node_to_header s (a + 16) = a).
  { unfold node_to_header. rewrite Hp.
    replace (a + 16 - 16) with a by lia.
    apply wrap_small. unfold modulus. lia. }
  rewrite E0. cbv zeta.
  assert (Hf1 : (height t <= fuel)%nat) by lia.
  pose proof (merge_prev_ok s pre a sz post t fuel Hinv Hf1) as H.
  pose proof (merge_prev_frame s pre a sz post t fuel Hinv Hf1) as U1.
  destruct (merge_prev fuel a s) as [[x s1]|]; [|contradiction].
  cbn [wp] in H, U1. unfold merged_prev in H. cbn [fst snd] in H, U1.
  destruct H as (G1 & EA1 & pre' & sz1 & t1 & Hinv1 & Hlast & Hh1 & Hcase1).
  assert (Hf2 : (height t1 <= fuel)%nat) by lia.
  pose proof (merge_next_ok s1 pre' x sz1 post t1 fuel Hinv1 Hf2) as H.
  pose proof (merge_next_frame s1 pre' x sz1 post t1 fuel Hinv1 Hf2) as U2.
  destruct (merge_next fuel x s1) as [s2|]; [|contradiction].
  cbn [wp] in H, U2. unfold merged_next in H.
  destruct H as (G2 & EA2 & sz2 & post' & t2 & Hinv2 & Hhead & Hh2 & Hcase2).
  pose proof (hi_fr _ _ _ _ Hinv2) as Hfr2.
  pose proof (hi_brk _ _ _ _ Hinv2) as Hbrk2.
  pose proof (hi_hp _ _ _ _ Hinv2) as Hp2.
  destruct (layout_focus _ _ _ _ _ _ (hi_layout _ _ _ _ Hinv2)) as
    (_ & _ & K1 & _ & K3 & _ & K5 & K6).
  unfold c_end, c_addr, c_size in *. cbn [fst snd] in *.
  rewrite K3 in U2.
  replace (in_use_of x) with (x + 8)
    by (unfold in_use_of; rewrite wrap_small by (unfold modulus; lia); lia).
  destruct (inv_insert_pre _ _ _ _ _ _ Hinv2) as (Hrep & Hg & Hm & _).
  destruct (inv_root_shape _ _ _ _ Hinv2) as [r2 Et2].
  change (fake_root (store (x + 8) 0 s2)) with (fake_root s2).
  assert (Hroot : fake_root s2 = root_addr t2) by (rewrite Et2; reflexivity).
  rewrite Hroot.
  assert (Hp3 : header_pad (store (x + 8) 0 s2) = 16) by exact Hp2.
  assert (Hf3 : (height t2 < fuel)%nat) by lia.
  pose proof (add_chunk_spec x sz2 t2 NULL (store (x + 8) 0 s2) fuel
                Hp3 Hrep Hg Hm Hf3) as H.
  destruct (add_chunk fuel (root_addr t2) x NULL (store (x + 8) 0 s2))
    as [[r s4]|]; [|contradiction].
  cbn [wp] in H |- *.
  destruct H as (_ & _ & _ & _ & _ & _ & F). cbn [fst snd] in F.
  intros b szb k Hb Hk.
  change (mem (set_fake_root r s4) (b + 16 + k)) with (mem s4 (b + 16 + k)).
  (* the chunk [b] survives both merges *)
  assert (M1 : In (b, szb, true) (pre' ++ post)).
  { apply in_app_or in Hb. apply in_or_app.
    destruct Hb as [Hb|Hb]; [left|right; exact Hb].
    destruct Hcase1 as [(E & _)|(E & _)]; [|rewrite E; exact Hb].
    rewrite E in Hb. apply in_app_or in Hb.
    destruct Hb as [Hb|[Hb|[]]]; [exact Hb|discriminate]. }
  assert (M2 : In (b, szb, true) (pre' ++ post')).
  { apply in_app_or in M1. apply in_or_app.
    destruct M1 as [M1|M1]; [left; exact M1|right].
    destruct Hcase2 as [(E & _)|(E & _)]; [|rewrite E; exact M1].
    rewrite E in M1. destruct M1 as [M1|M1]; [discriminate|exact M1]. }
  assert (I0 : In (b, szb, true) (pre ++ (a, sz, true) :: post)).
  { apply in_app_or in Hb. apply in_or_app.
    destruct Hb; [left|right; right]; assumption. }
  assert (I1 : In (b, szb, true) (pre' ++ (x, sz1, true) :: post)).
  { apply in_app_or in M1. apply in_or_app.
    destruct M1; [left|right; right]; assumption. }
  assert (I2 : In (b, szb, true) (pre' ++ (x, sz2, true) :: post')).
  { apply in_app_or in M2. apply in_or_app.
    destruct M2; [left|right; right]; assumption. }
  pose proof (layout_outside _ _ _ _ _ _ _ (hi_layout _ _ _ _ Hinv2) M2)
    as Hsep.
  unfold c_end, c_addr, c_size in Hsep. cbn [fst snd] in Hsep.
  (* the merged chunk covers the released one *)
  destruct (layout_focus _ _ _ _ _ _ (hi_layout _ _ _ _ Hinv1)) as
    (_ & Hpost1 & _).
  unfold c_end, c_addr, c_size in Hpost1. cbn [fst snd] in Hpost1.
  destruct (same_globals_fields _ _ G1) as (_ & _ & _ & _ & _ & _ & Gb).
  rewrite Gb in Hpost1.
  pose proof (layout_start _ _ _ _ _ _ Hpost0 Hpost1) as Eend.
  assert (Hsz12 : sz1 <= sz2).
  { destruct Hcase2 as [(E & _)|(_ & E & _)]; [|lia].
    assert (Hd : In (x + 24 + sz1, sz2 - 24 - sz1, false)
                   (pre' ++ (x, sz1, true) :: post)).
    { apply in_or_app. right. right. rewrite E. left. reflexivity. }
    pose proof (inv_chunk _ _ _ _ Hinv1 _ _ _ Hd). lia. }
  rewrite F.
  - rewrite mem_store.
    rewrite (proj2 (Z.eqb_neq (b + 16 + k) (x + 8))) by lia.
    rewrite (payload_kept _ _ _ _ _ _ _ _ _ Hinv1 I1 U2) by lia.
    apply (payload_kept _ _ _ _ _ _ _ _ _ Hinv I0 U1); lia.
  - intros (y & [<-|Hy] & Hl); [lia|].
    apply (payload_not_link _ _ _ _ b szb (b + 16 + k) Hinv2 I2); [lia|].
    exists y. split; assumption.
  - lia.
Qed.

(** ** Used chunks and the allocations held *)

(** The tree search misses only when every node is too small. *)
Lemma first_fit_complete size t :
  bst t -> (forall a, In a (addrs t) -> a <> NULL) ->
  first_fit size t = NULL ->
  forall n, In n (nodes t) -> snd n < size.
Proof.
  induction t as [|l IHl a sz r IHr]; intros Hb Hnz Hff n Hn; [contradiction|].
  cbn [first_fit] in Hff. cbn [bst] in Hb. destruct Hb as (Hl & Hr & _ & Hbr).
  destruct (Z.ltb_spec sz size) as [Hlt|Hge].
  - cbn [nodes] in Hn. destruct Hn as [<-|Hn]; [exact Hlt|].
    apply in_app_or in Hn. destruct Hn as [Hn|Hn].
    + specialize (Hl n Hn). lia.
    + apply IHr; auto. intros b Hb. apply Hnz. rewrite addrs_T.
      right. apply in_or_app. auto.
  - exfalso. apply (Hnz a); [rewrite addrs_T; left; reflexivity|exact Hff].
Qed.

Lemma NoDup_map_filter {A B} (f : A -> B) (g : A -> bool) l :
  NoDup (map f l) -> NoDup (map f (filter g l)).
Proof.
  induction l as [|x l IH]; cbn [map filter]; intros H; [constructor|].
  inversion H as [|? ? Hx Hl]; subst.
  destruct (g x); [|auto]. cbn [map]. constructor; [|auto].
  intros Hin. apply Hx. apply in_map_iff in Hin.
  destruct Hin as (y & Ey & Hy). apply filter_In in Hy.
  apply in_map_iff. exists y. tauto.
Qed.

(** The two outcomes of the body of [tralloc] (lines 106-131) on a
    well-formed heap. *)
Lemma alloc_cases s cs t fuel n p s' :
  heap_inv NULL s cs t -> brk_limit s < modulus ->
  0 <= n <= max_request ->
  tralloc_body fuel (request_size s n) s = Some (p, s') ->
  sbrk_ok s' ->
  (first_fit (request_size s n) t = NULL /\ p = brk s + 16 /\
   heap_inv NULL s' (cs ++ [(brk s, request_size s n, true)]) t /\
   brk s' = brk s + 24 + request_size s n /\
   fake_root s' = fake_root s /\ brk_limit s' = brk_limit s /\
   sbrk_log s' = (24 + request_size s n, brk s) :: sbrk_log s /\
   (forall c, c < brk s -> mem s' c = mem s c))
  \/
  (exists pre fsz post mid t',
     cs = pre ++ (p - 16, fsz, false) :: post /\
     first_fit (request_size s n) t = p - 16 /\ p - 16 <> NULL /\
     request_size s n <= fsz /\
     same_globals s s' /\
     heap_inv NULL s' (pre ++ mid ++ post) t' /\
     (mid = [(p - 16, fsz, true)] \/
      mid = [(p - 16, request_size s n, true);
             (p - 16 + 24 + request_size s n,
              fsz - request_size s n - 24, false)]) /\
     untouched (mem s) (mem s') (addrs t) (p - 16) (p - 16 + 24 + fsz)).
Proof.
  intros Hinv Hlim Hn H Hok.
  assert (Hn' : 0 <= n <= modulus - 8)
    by (unfold max_request, modulus in *; lia).
  destruct (request_size_spec s n (hi_np _ _ _ _ Hinv) Hn')
    as (Hsz & Hmod & Hle & Hup & _).
  set (size := request_size s n) in *.
  pose proof (hi_hp _ _ _ _ Hinv) as Hp.
  pose proof (hi_fp _ _ _ _ Hinv) as Hfp.
  pose proof (hi_fr _ _ _ _ Hinv) as Hfr.
  pose proof (inv_brk _ _ _ _ Hinv) as Hb.
  destruct (Z.eq_dec (first_fit size t) NULL) as [Hff|Hff].
  - left.
    assert (H0 : 0 < size) by lia.
    pose proof (alloc_miss_result s cs t size fuel _ Hinv H0 Hff H) as Hr.
    destruct (grow_sbrk size s) as (G1 & G2 & G3 & G4).
    assert (Hnf : fst (grow size s) <> sbrk_failure).
    { apply (Hok (wrap (header_pad s + size + footer_pad s),
                  fst (grow size s))).
      replace s' with (snd (hand_out (fst (grow size s)) (snd (grow size s))))
        by (rewrite <- Hr; reflexivity).
      unfold hand_out. cbv zeta. cbn [snd sbrk_log store].
      rewrite G2. left. reflexivity. }
    assert (Hbig : size + 24 < 9223372036854775808)
      by (unfold max_request in Hn; lia).
    destruct (grow_step s cs t size Hinv Hlim Hsz Hmod Hbig Hnf)
      as (Eh & Hinv' & El & Ef & Eb).
    assert (Hnf' := Hnf). rewrite G1 in Hnf'. apply sbrk_not_failed in Hnf'.
    rewrite Hp, Hfp in Hnf'.
    rewrite (wrap_small (16 + size + 8)) in Hnf' by (unfold modulus; lia).
    rewrite to_signed_small in Hnf' by lia.
    assert (Eg : fst (grow size s) = brk s).
    { assert (Hl : brk s + 24 + size <= brk_limit s) by lia.
      exact (proj1 (grow_ok s cs t size Hinv Hsz Hmod Hbig Hl Hlim)). }
    rewrite Eh in Hr. inversion Hr. subst p s'.
    split; [exact Hff|]. split; [reflexivity|]. split; [exact Hinv'|].
    split; [exact Eb|]. split; [exact Ef|]. split; [exact El|]. split.
    + change (sbrk_log (snd (grow size s)) =
              (24 + size, brk s) :: sbrk_log s).
      rewrite G2, Eg, Hp, Hfp.
      rewrite wrap_small by (unfold modulus; lia).
      replace (16 + size + 8) with (24 + size) by lia. reflexivity.
    + intros c Hc. rewrite mem_store.
      rewrite (proj2 (Z.eqb_neq c (brk s + 8))) by lia.
      apply grow_frame; auto; lia.
  - right.
    destruct (hit_chunk s cs t size Hinv) as (pre & fsz & post & Ecs & Hfs);
      [lia|exact Hff|].
    subst cs.
    pose proof (alloc_hit_result s pre _ fsz post t size fuel _ Hinv Hsz Hmod
                  eq_refl Hff H) as (Ep & G & Hcase).
    cbn [fst snd] in Ep, G, Hcase.
    assert (U : untouched (mem s) (mem s') (addrs t)
                  (first_fit size t) (first_fit size t + 24 + fsz)).
    { apply (wp_of_result (fun k => tralloc_body k size s)
               (fun r => untouched (mem s) (mem (snd r)) (addrs t)
                           (first_fit size t) (first_fit size t + 24 + fsz))
               (2 * height t + 1) fuel (p, s')); [| |exact H].
      - intros k k' r0. apply tralloc_body_mono.
      - intros k' Hk.
        exact (tralloc_body_hit_frame s pre _ fsz post t size k' Hinv Hsz
                 Hmod eq_refl Hff Hk). }
    assert (Ef : first_fit size t = p - 16) by lia.
    rewrite Ef in *.
    destruct (fsz >=? size + 48).
    + exists pre, fsz, post,
        [(p - 16, size, true);
         (p - 16 + 24 + size, fsz - size - 24, false)].
      eexists.
      split; [reflexivity|]. split; [reflexivity|]. split; [exact Hff|].
      split; [exact Hfs|]. split; [exact G|].
      split; [exact Hcase|]. split; [right; reflexivity|exact U].
    + exists pre, fsz, post, [(p - 16, fsz, true)].
      eexists.
      split; [reflexivity|]. split; [reflexivity|]. split; [exact Hff|].
      split; [exact Hfs|]. split; [exact G|].
      split; [exact Hcase|]. split; [left; reflexivity|exact U].
Qed.

Lemma live_chunk cur s cs t live q m :
  heap_inv cur s cs t -> live_ok cs live -> In (q, m) live ->
  exists sz, In (q - 16, sz, true) cs /\ m <= sz /\ 24 <= sz /\
             fake_root s + 56 <= q /\ q + sz + 8 <= brk s.
Proof.
  intros Hinv Hl Hq. destruct (Hl q m Hq) as (sz & Hin & Hle).
  pose proof (inv_chunk _ _ _ _ Hinv _ _ _ Hin).
  exists sz. repeat split; try assumption; lia.
Qed.

(** One allocation step keeps the bookkeeping and the client's data. *)
Lemma alloc_held s cs t live fuel n p s' :
  heap_inv NULL s cs t -> brk_limit s < modulus ->
  0 <= n <= max_request ->
  tralloc_body fuel (request_size s n) s = Some (p, s') ->
  sbrk_ok s' -> live_ok cs live -> held cs live ->
  exists cs' t',
    heap_inv NULL s' cs' t' /\ fake_root s' = fake_root s /\
    brk_limit s' = brk_limit s /\
    (forall e, In e (sbrk_log s) -> In e (sbrk_log s')) /\
    live_ok cs' ((p, n) :: live) /\ held cs' ((p, n) :: live) /\
    cs' <> [] /\
    (forall q m k, In (q, m) live -> 0 <= k < m ->
                   mem s' (q + k) = mem s (q + k)).
Proof.
  intros Hinv Hlim Hn H Hok Hlive (Hnd & Hheld).
  assert (Hn' : 0 <= n <= modulus - 8)
    by (unfold max_request, modulus in *; lia).
  destruct (request_size_spec s n (hi_np _ _ _ _ Hinv) Hn')
    as (Hsz & Hmod & Hle & Hup & _).
  destruct (alloc_cases s cs t fuel n p s' Hinv Hlim Hn H Hok)
    as [(Hff & Ep & Hinv' & Eb & Ef & El & Elog & Fr)
       |(pre & fsz & post & mid & t' & Ecs & Hff & Hnz & Hfs & G & Hinv' &
         Hmid & U)].
  - exists (cs ++ [(brk s, request_size s n, true)]), t.
    split; [exact Hinv'|]. split; [exact Ef|]. split; [exact El|].
    split; [intros e He; rewrite Elog; right; exact He|].
    split; [|split; [split|split]].
    + apply live_ok_cons with (sz := request_size s n).
      * apply (live_ok_incl cs); [exact Hlive|].
        intros a sz Ha. apply in_or_app. auto.
      * rewrite Ep. replace (brk s + 16 - 16) with (brk s) by lia.
        apply in_or_app. right. left. reflexivity.
      * exact Hle.
    + cbn [map fst]. constructor; [|exact Hnd].
      intros Hin. apply in_map_iff in Hin. destruct Hin as ([q m] & Eq & Hq).
      cbn [fst] in Eq. subst q.
      destruct (live_chunk _ _ _ _ _ _ _ Hinv Hlive Hq) as (sz & _ & _ & ? & _ & ?).
      lia.
    + intros a sz Ha. cbn [map fst]. apply in_app_or in Ha.
      destruct Ha as [Ha|[Ha|[]]]; [right; exact (Hheld a sz Ha)|].
      inversion Ha. left. lia.
    + intros E. apply app_eq_nil in E. destruct E as [_ E]. discriminate.
    + intros q m k Hq Hk. apply Fr.
      destruct (live_chunk _ _ _ _ _ _ _ Hinv Hlive Hq) as (sz & _ & ? & _ & _ & ?).
      lia.
  - subst cs.
    assert (Hf : In (p - 16, fsz, false) (pre ++ (p - 16, fsz, false) :: post))
      by (apply in_or_app; right; left; reflexivity).
    pose proof (inv_chunk _ _ _ _ Hinv _ _ _ Hf) as Kf.
    assert (Hkeep : forall a sz,
              In (a, sz, true) (pre ++ (p - 16, fsz, false) :: post) ->
              In (a, sz, true) (pre ++ mid ++ post)).
    { intros a sz Ha. apply in_mid. apply in_app_or in Ha.
      destruct Ha as [Ha|[Ha|Ha]]; auto. discriminate. }
    assert (Hfresh : forall q m, In (q, m) live -> q <> p).
    { intros q m Hq ->. destruct (Hlive p m Hq) as (sz & Hin & _).
      destruct (inv_chunk_sep _ _ _ _ Hinv _ _ _ _ _ _ Hin Hf)
        as [(_ & _ & e)|[H2|H2]]; [discriminate| |];
        pose proof (inv_chunk _ _ _ _ Hinv _ _ _ Hin); lia. }
    destruct (same_globals_fields _ _ G) as (Gfr & _).
    destruct G as (_ & _ & _ & _ & _ & _ & _ & Gl & Glog).
    exists (pre ++ mid ++ post), t'.
    split; [exact Hinv'|]. split; [exact Gfr|]. split; [exact Gl|].
    split; [intros e He; rewrite Glog; exact He|].
    split; [|split; [split|split]].
    + destruct Hmid as [->| ->].
      * apply live_ok_cons with (sz := fsz).
        -- apply (live_ok_incl _ _ _ Hlive). exact Hkeep.
        -- apply in_or_app. right. left. reflexivity.
        -- lia.
      * apply live_ok_cons with (sz := request_size s n).
        -- apply (live_ok_incl _ _ _ Hlive). exact Hkeep.
        -- apply in_or_app. right. left. reflexivity.
        -- exact Hle.
    + cbn [map fst]. constructor; [|exact Hnd].
      intros Hin. apply in_map_iff in Hin. destruct Hin as ([q m] & Eq & Hq).
      cbn [fst] in Eq. subst q. exact (Hfresh p m Hq eq_refl).
    + intros a sz Ha. cbn [map fst]. apply in_mid in Ha.
      destruct Ha as [Ha|[Ha|Ha]].
      * right. apply (Hheld a sz). apply in_or_app. auto.
      * left. destruct Hmid as [->| ->].
        -- destruct Ha as [Ha|[]]. inversion Ha. lia.
        -- destruct Ha as [Ha|[Ha|[]]]; [|discriminate]. inversion Ha. lia.
      * right. apply (Hheld a sz). apply in_or_app. right. right. exact Ha.
    + destruct Hmid as [->| ->]; intros E; apply app_eq_nil in E;
        destruct E as [_ E]; discriminate.
    + intros q m k Hq Hk.
      destruct (Hlive q m Hq) as (sz & Hin & Hm).
      replace (q + k) with (q - 16 + 16 + k) by lia.
      apply (payload_kept _ _ _ _ _ _ _ _ _ Hinv Hin U); [|lia].
      destruct (inv_chunk_sep _ _ _ _ Hinv _ _ _ _ _ _ Hin Hf)
        as [(_ & _ & e)|[H2|H2]]; [discriminate|lia|lia].
Qed.

Lemma free_frame_result s pre a sz post t fuel s' :
  heap_inv NULL s (pre ++ (a, sz, true) :: post) t ->
  trfree fuel (a + 16) s = Some s' ->
  forall b szb k,
    In (b, szb, true) (pre ++ post) -> 0 <= k < szb ->
    mem s' (b + 16 + k) = mem s (b + 16 + k).
Proof.
  intros Hinv H.
  apply (wp_of_result (fun k => trfree k (a + 16) s)
           (fun s' => forall b szb k,
              In (b, szb, true) (pre ++ post) -> 0 <= k < szb ->
              mem s' (b + 16 + k) = mem s (b + 16 + k))
           (S (height t)) fuel s'); [| |exact H].
  - intros k k' r0. apply trfree_mono.
  - intros k' Hk. apply (trfree_frame s pre a sz post t k' Hinv). lia.
Qed.

(** One release step keeps the bookkeeping and the data of the other
    allocations. *)
Lemma free_held s cs t live fuel p n s' :
  heap_inv NULL s cs t -> live_ok cs live -> held cs live ->
  In (p, n) live ->
  trfree fuel p s = Some s' ->
  exists cs' t',
    heap_inv NULL s' cs' t' /\ same_globals s s' /\
    live_ok cs' (filter (fun e => negb (fst e =? p)) live) /\
    held cs' (filter (fun e => negb (fst e =? p)) live) /\
    cs' <> [] /\
    (forall q m k, In (q, m) live -> q <> p -> 0 <= k < m ->
                   mem s' (q + k) = mem s (q + k)).
Proof.
  intros Hinv Hlive (Hnd & Hheld) Hp H.
  destruct (Hlive p n Hp) as (sz & Hin & Hle).
  destruct (in_split _ _ Hin) as (pre & post & Ecs). subst cs.
  replace p with (p - 16 + 16) in H by lia.
  pose proof (free_frame_result _ _ _ _ _ _ _ _ Hinv H) as Fr.
  pose proof (free_result _ _ _ _ _ _ _ _ Hinv H) as (G & Hf).
  destruct Hf as (pre' & x & sz1 & t1 & sz2 & post' & t2 & C1 & C2 & Hinv').
  assert (Hother : forall a sza,
            In (a, sza, true) (pre ++ (p - 16, sz, true) :: post) ->
            a <> p - 16 -> In (a, sza, true) (pre ++ post)).
  { intros a sza Ha Hne. apply in_app_or in Ha. apply in_or_app.
    destruct Ha as [Ha|[Ha|Ha]]; auto. inversion Ha. lia. }
  assert (Hsurv : forall a sza,
            In (a, sza, true) (pre ++ post) ->
            In (a, sza, true) (pre' ++ (x, sz2, false) :: post')).
  { intros a sza Ha. apply in_app_or in Ha. apply in_or_app.
    destruct Ha as [Ha|Ha].
    - left. destruct C1 as [(E & _)|(E & _)]; [|rewrite E; exact Ha].
      rewrite E in Ha. apply in_app_or in Ha.
      destruct Ha as [Ha|[Ha|[]]]; [exact Ha|discriminate].
    - right. right.
      destruct C2 as [(alt & E & _)|(E & _)]; [|rewrite E; exact Ha].
      rewrite E in Ha. destruct Ha as [Ha|Ha]; [discriminate|exact Ha]. }
  assert (Hback : forall a sza,
            In (a, sza, true) (pre' ++ (x, sz2, false) :: post') ->
            In (a, sza, true) (pre ++ post)).
  { intros a sza Ha. apply in_app_or in Ha. apply in_or_app.
    destruct Ha as [Ha|[Ha|Ha]]; [left| discriminate |right].
    - destruct C1 as [(E & _)|(E & _)]; [|rewrite <- E; exact Ha].
      rewrite E. apply in_or_app. left. exact Ha.
    - destruct C2 as [(alt & E & _)|(E & _)]; [|rewrite <- E; exact Ha].
      rewrite E. right. exact Ha. }
  exists (pre' ++ (x, sz2, false) :: post'). eexists.
  split; [exact Hinv'|]. split; [exact G|].
  split; [|split; [split|split]].
  - intros q m Hq. apply filter_In in Hq. destruct Hq as [Hq Hne].
    cbn [fst] in Hne. apply negb_true_iff, Z.eqb_neq in Hne.
    destruct (Hlive q m Hq) as (szq & Hinq & Hleq).
    exists szq. split; [|exact Hleq].
    apply Hsurv. apply Hother; [exact Hinq|lia].
  - apply NoDup_map_filter. exact Hnd.
  - intros a sza Ha. apply Hback in Ha.
    pose proof (layout_outside _ _ _ _ _ _ _ (hi_layout _ _ _ _ Hinv) Ha)
      as Hsep.
    unfold c_end, c_addr, c_size in Hsep. cbn [fst snd] in Hsep.
    assert (Ha' : In (a, sza, true) (pre ++ (p - 16, sz, true) :: post)).
    { apply in_app_or in Ha. apply in_or_app.
      destruct Ha; [left|right; right]; assumption. }
    pose proof (inv_chunk _ _ _ _ Hinv _ _ _ Ha').
    pose proof (inv_chunk _ _ _ _ Hinv _ _ _ Hin).
    specialize (Hheld a sza Ha'). apply in_map_iff in Hheld.
    destruct Hheld as ([q m] & Eq & Hq). cbn [fst] in Eq. subst q.
    apply in_map_iff. exists (a + 16, m). split; [reflexivity|].
    apply filter_In. split; [exact Hq|]. cbn [fst].
    apply negb_true_iff, Z.eqb_neq. lia.
  - intros E. destruct pre'; discriminate.
  - intros q m k Hq Hne Hk.
    destruct (Hlive q m Hq) as (szq & Hinq & Hleq).
    replace (q + k) with (q - 16 + 16 + k) by lia.
    apply (Fr (q - 16) szq k); [|lia].
    apply Hother; [exact Hinq|lia].
Qed.

(** The state in which the body of [tralloc] runs. *)
Lemma enter_tralloc brk0 limit s live fuel size r :
  (exists m0, s = initial_state m0 brk0 limit /\ live = [] /\
              0 < brk0 /\ limit < modulus) \/
  (exists cs t, settled brk0 limit s live cs t /\ cs <> []) ->
  tralloc_body fuel size (tralloc_init s) = Some r ->
  sbrk_ok (snd r) ->
  exists cs t,
    settled brk0 limit (tralloc_init s) live cs t /\
    ((cs = [] /\ live = [] /\
      (exists m0, s = initial_state m0 brk0 limit) /\
      brk (tralloc_init s) = brk0 + 40 /\
      sbrk_log (tralloc_init s) = [(40, brk0)]) \/
     (cs <> [] /\ tralloc_init s = s)).
Proof.
  intros IH Ht Hok.
  destruct IH as [(m0 & -> & -> & H0 & Hl)
                 |(cs & t & ((Hinv & Hfr & Hlim & Hlt & Hlg & Hlive) & Hh)
                   & Hne)].
  - destruct (tralloc_init_log m0 brk0 limit) as (r0 & Elog & Er).
    assert (Hr1 : r0 <> sbrk_failure).
    { apply (Hok (40, r0)).
      destruct (tralloc_body_os _ _ _ _ Ht)
        as [(_ & _ & E)|(_ & s1 & _ & E)];
        cbn [snd] in E; rewrite E, Elog.
      - left. reflexivity.
      - right. left. reflexivity. }
    rewrite Er in Hr1. apply sbrk_not_failed in Hr1.
    change (to_signed 40) with 40 in Hr1.
    change (brk (initial_state m0 brk0 limit)) with brk0 in Hr1.
    change (brk_limit (initial_state m0 brk0 limit)) with limit in Hr1.
    exists [], (T E brk0 0 E). split.
    + split.
      * split; [apply inv_init; lia|].
        rewrite tralloc_init_fresh by lia.
        split; [reflexivity|]. split; [reflexivity|].
        split; [exact Hl|]. split; [left; reflexivity|]. intros q m [].
      * split; [constructor|]. intros a sz [].
    + left. split; [reflexivity|]. split; [reflexivity|].
      split; [eauto|]. rewrite tralloc_init_fresh by lia.
      split; reflexivity.
  - exists cs, t. rewrite (tralloc_init_id _ _ _ _ Hinv). split.
    + split; [|exact Hh]. split; [exact Hinv|]. auto.
    + right. auto.
Qed.

(** Every state of a run is well formed, its used chunks are exactly the
    allocations held, and after the first call the heap has a chunk. *)
Theorem reachable_held brk0 limit s live :
  reachable brk0 limit s live ->
  (exists m0, s = initial_state m0 brk0 limit /\ live = [] /\
              0 < brk0 /\ limit < modulus) \/
  (exists cs t, settled brk0 limit s live cs t /\ cs <> []).
Proof.
  induction 1 as [m0 H0 Hl|s live fuel n p s' Hr IH Hn Ht Hok
                 |s live fuel p n s' Hr IH Hp Ht|s live p n k v Hr IH Hp Hk].
  - left. exists m0. auto.
  - right. unfold tralloc in Ht. cbv zeta in Ht.
    destruct (enter_tralloc _ _ _ _ _ _ _ IH Ht Hok)
      as (cs & t & ((Hinv & Hfr & Hlim & Hlt & Hlg & Hlive) & Hh) & _).
    assert (Hlm : brk_limit (tralloc_init s) < modulus)
      by (rewrite Hlim; exact Hlt).
    destruct (alloc_held _ _ _ _ _ _ _ _ Hinv Hlm Hn Ht Hok Hlive Hh)
      as (cs' & t' & Hinv' & Hfr' & Hlim' & Hlg' & Hlive' & Hh' & Hne' & _).
    exists cs', t'. split; [|exact Hne']. split; [|exact Hh'].
    split; [exact Hinv'|].
    split; [congruence|]. split; [congruence|]. auto.
  - right.
    destruct IH as [(m0 & _ & -> & _)
                   |(cs & t & ((Hinv & Hfr & Hlim & Hlt & Hlg & Hlive) & Hh)
                     & Hne)];
      [contradiction|].
    destruct (free_held _ _ _ _ _ _ _ _ Hinv Hlive Hh Hp Ht)
      as (cs' & t' & Hinv' & G & Hlive' & Hh' & Hne' & _).
    destruct (same_globals_fields _ _ G) as (Gfr & _).
    destruct G as (_ & _ & _ & _ & _ & _ & _ & Gl & Glog).
    exists cs', t'. split; [|exact Hne']. split; [|exact Hh'].
    split; [exact Hinv'|].
    split; [congruence|]. split; [congruence|].
    split; [exact Hlt|]. split; [rewrite Glog; exact Hlg|exact Hlive'].
  - right.
    destruct IH as [(m0 & _ & -> & _)
                   |(cs & t & ((Hinv & Hfr & Hlim & Hlt & Hlg & Hlive) & Hh)
                     & Hne)];
      [contradiction|].
    destruct (Hlive p n Hp) as (sz & Hin & Hle).
    destruct (in_split _ _ Hin) as (pre & post & Ecs). subst cs.
    exists (pre ++ (p - 16, sz, true) :: post), t.
    split; [|exact Hne]. split; [|exact Hh].
    split; [|split; [exact Hfr|split; [exact Hlim|auto]]].
    replace (p + k) with (p - 16 + 16 + k) by lia.
    apply inv_write; [exact Hinv|lia].
Qed.

(** ** Properties of whole runs *)

Lemma reachable_settled brk0 limit s live :
  reachable brk0 limit s live -> fake_root s <> NULL ->
  exists cs t, settled brk0 limit s live cs t /\ cs <> [].
Proof.
  intros Hr Hfr.
  destruct (reachable_held _ _ _ _ Hr) as [(m0 & -> & _)|H]; [|exact H].
  exfalso. apply Hfr. reflexivity.
Qed.

(** What the walk of the heap sees of a chunk. *)
Lemma walk_chunk s cs t a :
  heap_inv NULL s cs t -> In a (map c_addr cs) ->
  exists sz u, In (a, sz, u) cs /\ load s (size_of a) = sz /\
               load s (in_use_of a) = (if u then 1 else 0) /\ 24 <= sz.
Proof.
  intros Hinv Ha. apply in_map_iff in Ha.
  destruct Ha as ([[a' sz] u] & <- & Hc).
  unfold c_addr. cbn [fst]. exists sz, u.
  destruct (inv_footer _ _ _ _ _ _ _ Hinv Hc) as (_ & E2 & _ & _ & E5).
  split; [exact Hc|]. split; [exact E2|].
  split; [exact (inv_in_use _ _ _ _ _ _ Hinv Hc)|exact E5].
Qed.

Lemma free_of_flag (u : bool) : (if u then 1 else 0) = 0 -> u = false.
Proof. destruct u; [discriminate|reflexivity]. Qed.

Lemma inv_payload s cs t a sz u :
  heap_inv NULL s cs t -> In (a, sz, u) cs ->
  header_to_node s a = a + 16 /\ node_to_header s (a + 16) = a.
Proof.
  intros Hinv Hin.
  pose proof (inv_chunk _ _ _ _ Hinv _ _ _ Hin) as (H1 & H2 & H3 & _).
  pose proof (hi_fr _ _ _ _ Hinv) as Hfr.
  pose proof (hi_brk _ _ _ _ Hinv) as Hbrk.
  unfold header_to_node, node_to_header. rewrite (hi_hp _ _ _ _ Hinv).
  replace (a + 16 - 16) with a by lia.
  rewrite !wrap_small by (unfold modulus; lia). auto.
Qed.

(** When the search misses, every free chunk is smaller than the target. *)
Lemma miss_all_small s cs t size a sz :
  heap_inv NULL s cs t -> first_fit size t = NULL ->
  In (a, sz, false) cs -> sz < size.
Proof.
  intros Hinv Hff Hc.
  assert (Hnode : In (a, sz) (nodes t))
    by (apply (hi_nodes _ _ _ _ Hinv); right; exact Hc).
  apply (first_fit_complete size t (hi_bst _ _ _ _ Hinv)) in Hnode;
    [exact Hnode| |exact Hff].
  intros b Hbt.
  destruct (proj1 (proj2 (inv_good _ _ _ _ Hinv)) b Hbt) as [Hpos _].
  unfold NULL. lia.
Qed.

(** X6.  After the first call, [tralloc] takes a chunk out of the free tree
    whenever the heap has a free chunk of at least the rounded request, and
    then neither moves the break nor calls [sbrk]; when every free chunk is
    smaller it calls [sbrk] once, for the rounded request plus 24 bytes, and
    hands out the chunk at the old break. *)
Theorem tralloc_reuses_or_grows brk0 limit s live fuel n p s' :
  reachable brk0 limit s live -> fake_root s <> NULL ->
  0 <= n <= max_request ->
  tralloc fuel n s = Some (p, s') -> sbrk_ok s' ->
  exists hs,
    (forall k, (length hs <= k)%nat -> heap_chunks k s = Some hs) /\
    ((exists a, In a hs /\ load s (in_use_of a) = 0 /\
                request_size s n <= load s (size_of a)) ->
     In (node_to_header s p) hs /\
     load s (in_use_of (node_to_header s p)) = 0 /\
     request_size s n <= load s (size_of (node_to_header s p)) /\
     brk s' = brk s /\ sbrk_log s' = sbrk_log s) /\
    ((forall a, In a hs -> load s (in_use_of a) = 0 ->
                load s (size_of a) < request_size s n) ->
     p = header_to_node s (brk s) /\
     brk s' = brk s + 24 + request_size s n /\
     sbrk_log s' = (24 + request_size s n, brk s) :: sbrk_log s).
Proof.
  intros Hr Hfr Hn Ht Hok.
  destruct (reachable_settled _ _ _ _ Hr Hfr)
    as (cs & t & ((Hinv & _ & Hlim & Hlt & _ & _) & _) & _).
  unfold tralloc in Ht. cbv zeta in Ht.
  rewrite (tralloc_init_id _ _ _ _ Hinv) in Ht.
  assert (Hlm : brk_limit s < modulus) by (rewrite Hlim; exact Hlt).
  pose proof (hi_fr _ _ _ _ Hinv) as Hfr0.
  pose proof (hi_brk _ _ _ _ Hinv) as Hbrk.
  pose proof (inv_brk _ _ _ _ Hinv) as Hb.
  exists (map c_addr cs). split.
  { intros k Hk. rewrite length_map in Hk.
    exact (heap_chunks_ok _ _ _ _ _ Hinv Hk). }
  assert (Hfree : forall a,
            In a (map c_addr cs) -> load s (in_use_of a) = 0 ->
            In (a, load s (size_of a), false) cs).
  { intros a Ha H0. destruct (walk_chunk _ _ _ _ Hinv Ha)
      as (sz & u & Hc & E1 & E2 & _).
    rewrite E2 in H0. apply free_of_flag in H0. subst u. rewrite E1.
    exact Hc. }
  destruct (alloc_cases s cs t fuel n p s' Hinv Hlm Hn Ht Hok)
    as [(Hff & Ep & Hinv' & Eb & Ef & El & Elog & Fr)
       |(pre & fsz & post & mid & t' & Ecs & Hff & Hnz & Hfs & G & Hinv' &
         Hmid & U)].
  - (* the search misses: no free chunk is large enough *)
    assert (Hsmall : forall a, In a (map c_addr cs) ->
              load s (in_use_of a) = 0 ->
              load s (size_of a) < request_size s n).
    { intros a Ha H0. specialize (Hfree a Ha H0).
      exact (miss_all_small _ _ _ _ _ _ Hinv Hff Hfree). }
    split.
    + intros (a & Ha & H0 & Hge). specialize (Hsmall a Ha H0). lia.
    + intros _. split; [|split; [exact Eb|exact Elog]].
      pose proof (hi_brk _ _ _ _ Hinv') as Hbrk'. rewrite Eb in Hbrk'.
      pose proof (request_size_pos s n (hi_np _ _ _ _ Hinv)) as Hpos.
      unfold header_to_node. rewrite (hi_hp _ _ _ _ Hinv).
      rewrite wrap_small by (unfold modulus; lia). exact Ep.
  - (* the search finds a chunk *)
    subst cs.
    assert (Hf : In (p - 16, fsz, false) (pre ++ (p - 16, fsz, false) :: post))
      by (apply in_or_app; right; left; reflexivity).
    destruct (inv_payload _ _ _ _ _ _ Hinv Hf) as (_ & Enh).
    replace (p - 16 + 16) with p in Enh by lia.
    destruct (inv_footer _ _ _ _ _ _ _ Hinv Hf) as (_ & E2 & _).
    pose proof (inv_in_use _ _ _ _ _ _ Hinv Hf) as E3.
    destruct (same_globals_fields _ _ G) as (_ & _ & _ & _ & _ & _ & Gb).
    destruct G as (_ & _ & _ & _ & _ & _ & _ & _ & Glog).
    split.
    + intros _. rewrite Enh.
      split; [apply in_map_iff; exists (p - 16, fsz, false); auto|].
      split; [exact E3|]. split; [rewrite E2; exact Hfs|auto].
    + intros Hsmall. exfalso.
      assert (Ha : In (p - 16)
                     (map c_addr (pre ++ (p - 16, fsz, false) :: post)))
        by (apply in_map_iff; exists (p - 16, fsz, false); auto).
      specialize (Hsmall _ Ha E3). rewrite E2 in Hsmall. lia.
Qed.









(** X12.  [trfree] leaves every byte of the other allocations held as it
    was. *)
Theorem trfree_keeps_data brk0 limit s live fuel p n s' q m k :
  reachable brk0 limit s live -> In (p, n) live ->
  trfree fuel p s = Some s' ->
  In (q, m) live -> q <> p -> 0 <= k < m ->
  load s' (q + k) = load s (q + k).
Proof.
  intros Hr Hp Ht Hq Hne Hk.
  destruct (reachable_held _ _ _ _ Hr)
    as [(m0 & _ & -> & _)
       |(cs & t & ((Hinv & _ & _ & _ & _ & Hlive) & Hh) & _)];
    [contradiction|].
  destruct (free_held _ _ _ _ _ _ _ _ Hinv Hlive Hh Hp Ht)
    as (cs' & t' & _ & _ & _ & _ & _ & Fr).
  exact (Fr q m k Hq Hne Hk).
Qed.



(** X14.  Memory released is used again: when an allocation of [n] bytes
    has been released, the next request of at most [n] bytes is served from
    a chunk of the free tree, without a call of [sbrk] and with the break
    where it was. *)
Theorem freed_memory_is_reused brk0 limit s live f1 p n s1 f2 m q s2 :
  reachable brk0 limit s live -> In (p, n) live ->
  trfree f1 p s = Some s1 ->
  0 <= m <= n -> m <= max_request ->
  tralloc f2 m s1 = Some (q, s2) -> sbrk_ok s2 ->
  brk s2 = brk s /\ sbrk_log s2 = sbrk_log s /\
  load s1 (in_use_of (node_to_header s1 q)) = 0 /\
  request_size s1 m <= load s1 (size_of (node_to_header s1 q)).
Proof.
  intros Hr Hp Hf Hm Hmax Ht Hok.
  destruct (reachable_held _ _ _ _ Hr)
    as [(m0 & _ & -> & _)
       |(cs & t & ((Hinv & _ & Hlim & Hlt & _ & Hlive) & _) & _)];
    [contradiction|].
  destruct (Hlive p n Hp) as (sz & Hin & Hle).
  pose proof (inv_chunk _ _ _ _ Hinv _ _ _ Hin) as (_ & _ & K24 & K8 & _).
  destruct (in_split _ _ Hin) as (pre & post & Ecs). subst cs.
  replace p with (p - 16 + 16) in Hf by lia.
  pose proof (free_result _ _ _ _ _ _ _ _ Hinv Hf) as (G & Hfr).
  destruct Hfr as (pre' & x & sz1 & t1 & sz2 & post' & t2 & C1 & C2 & Hinv1).
  assert (Hsz1 : sz <= sz1).
  { destruct C1 as [(E & _)|(_ & _ & E & _)]; [|lia].
    assert (Hb : In (x, sz1 - 24 - sz, false)
                   (pre ++ (p - 16, sz, true) :: post)).
    { rewrite E. apply in_or_app. left. apply in_or_app. right.
      left. reflexivity. }
    pose proof (inv_chunk _ _ _ _ Hinv _ _ _ Hb). lia. }
  assert (Hsz2 : sz1 <= sz2).
  { destruct C2 as [(alt & E & _)|(_ & E & _)]; [|lia].
    assert (Hd : In (x + 24 + sz1, sz2 - 24 - sz1, false)
                   (pre ++ (p - 16, sz, true) :: post)).
    { rewrite E. apply in_or_app. right. right. left. reflexivity. }
    pose proof (inv_chunk _ _ _ _ Hinv _ _ _ Hd). lia. }
  assert (Hx : In (x, sz2, false) (pre' ++ (x, sz2, false) :: post'))
    by (apply in_or_app; right; left; reflexivity).
  destruct (same_globals_fields _ _ G) as (_ & _ & _ & _ & _ & _ & Gb).
  destruct G as (_ & _ & _ & _ & _ & _ & _ & Gl & Glog).
  assert (Hm' : 0 <= m <= modulus - 8)
    by (unfold max_request, modulus in *; lia).
  destruct (request_size_spec s1 m (hi_np _ _ _ _ Hinv1) Hm')
    as (_ & _ & _ & _ & Ers).
  rewrite (hi_np _ _ _ _ Hinv1) in Ers.
  pose proof (ceil_size_least m sz Hm' K8 ltac:(lia)) as Hceil.
  assert (Hfit : request_size s1 m <= sz2) by lia.
  unfold tralloc in Ht. cbv zeta in Ht.
  rewrite (tralloc_init_id _ _ _ _ Hinv1) in Ht.
  assert (Hlm : brk_limit s1 < modulus) by (rewrite Gl, Hlim; exact Hlt).
  assert (Hmr : 0 <= m <= max_request) by lia.
  destruct (alloc_cases s1 _ _ f2 m q s2 Hinv1 Hlm Hmr Ht Hok)
    as [(Hff & _)
       |(pre2 & fsz & post2 & mid & t' & Ecs & Hff & Hnz & Hfs & G2 & Hinv2 &
         Hmid & U)].
  - pose proof (miss_all_small _ _ _ _ _ _ Hinv1 Hff Hx). lia.
  - assert (Hc : In (q - 16, fsz, false) (pre' ++ (x, sz2, false) :: post')).
    { rewrite Ecs. apply in_or_app. right. left. reflexivity. }
    destruct (inv_payload _ _ _ _ _ _ Hinv1 Hc) as (_ & Enh).
    replace (q - 16 + 16) with q in Enh by lia.
    destruct (inv_footer _ _ _ _ _ _ _ Hinv1 Hc) as (_ & E2 & _).
    pose proof (inv_in_use _ _ _ _ _ _ Hinv1 Hc) as E3.
    destruct (same_globals_fields _ _ G2) as (_ & _ & _ & _ & _ & _ & Gb2).
    destruct G2 as (_ & _ & _ & _ & _ & _ & _ & _ & Glog2).
    rewrite Enh, E2, E3.
    split; [congruence|]. split; [congruence|]. split; [reflexivity|].
    exact Hfs.
Qed.

(** ** A run with a write of the client *)

Lemma ink0_reachable :
  reachable 4096 1000000 ink0 [(4392, 24); (4240, 24)].
Proof.
  apply (reach_write 4096 1000000 demo6 _ 4240 24 8 77).
  - exact demo6_reachable.
  - right. left. reflexivity.
  - lia.
Qed.

Lemma ink0_started : fake_root ink0 <> NULL.
Proof. vm_compute. discriminate. Qed.

Lemma ink1_run : tralloc 10 64 ink0 = Some (fst ink1, snd ink1).
Proof.
  rewrite <- surjective_pairing. apply or_else_some. vm_compute. discriminate.
Qed.

Lemma ink1_sbrk_ok : sbrk_ok (snd ink1).
Proof.
  apply (sbrk_ok_of_log _
           [(48, 4376); (104, 4272); (48, 4224); (88, 4136); (40, 4096)]);
    vm_compute; reflexivity.
Qed.

Lemma ink2_run : trfree 10 4392 ink0 = Some ink2.
Proof. apply or_else_some. vm_compute. discriminate. Qed.

Lemma ink3_run : tralloc 10 16 ink2 = Some (fst ink3, snd ink3).
Proof.
  rewrite <- surjective_pairing. apply or_else_some. vm_compute. discriminate.
Qed.

Lemma ink3_sbrk_ok : sbrk_ok (snd ink3).
Proof.
  apply (sbrk_ok_of_log _
           [(48, 4376); (104, 4272); (48, 4224); (88, 4136); (40, 4096)]);
    vm_compute; reflexivity.
Qed.



Lemma tralloc_reuses_or_grows_witness :
  exists hs,
    (forall k, (length hs <= k)%nat -> heap_chunks k ink0 = Some hs) /\
    ((exists a, In a hs /\ load ink0 (in_use_of a) = 0 /\
                request_size ink0 64 <= load ink0 (size_of a)) ->
     In (node_to_header ink0 (fst ink1)) hs /\
     load ink0 (in_use_of (node_to_header ink0 (fst ink1))) = 0 /\
     request_size ink0 64 <= load ink0 (size_of (node_to_header ink0 (fst ink1))) /\
     brk (snd ink1) = brk ink0 /\ sbrk_log (snd ink1) = sbrk_log ink0) /\
    ((forall a, In a hs -> load ink0 (in_use_of a) = 0 ->
                load ink0 (size_of a) < request_size ink0 64) ->
     fst ink1 = header_to_node ink0 (brk ink0) /\
     brk (snd ink1) = brk ink0 + 24 + request_size ink0 64 /\
     sbrk_log (snd ink1) = (24 + request_size ink0 64, brk ink0) :: sbrk_log ink0).
Proof.
  apply (tralloc_reuses_or_grows 4096 1000000 ink0 _ 10 64 (fst ink1)
           (snd ink1) ink0_reachable ink0_started).
  - unfold max_request. lia.
  - exact ink1_run.
  - exact ink1_sbrk_ok.
Defined.






Lemma trfree_keeps_data_witness :
  load ink2 (4240 + 8) = load ink0 (4240 + 8).
Proof.
  apply (trfree_keeps_data 4096 1000000 ink0 _ 10 4392 24 ink2 4240 24 8
           ink0_reachable).
  - left. reflexivity.
  - exact ink2_run.
  - right. left. reflexivity.
  - lia.
  - lia.
Defined.


Lemma freed_memory_is_reused_witness :
  brk (snd ink3) = brk ink0 /\ sbrk_log (snd ink3) = sbrk_log ink0 /\
  load ink2 (in_use_of (node_to_header ink2 (fst ink3))) = 0 /\
  request_size ink2 16
    <= load ink2 (size_of (node_to_header ink2 (fst ink3))).
Proof.
  apply (freed_memory_is_reused 4096 1000000 ink0 _ 10 4392 24 ink2 10 16
           (fst ink3) (snd ink3) ink0_reachable).
  - left. reflexivity.
  - exact ink2_run.
  - lia.
  - unfold max_request. lia.
  - exact ink3_run.
  - exact ink3_sbrk_ok.
Defined.

(** ** Ties in [add_chunk] (lines 177-181) *)

Lemma ties_none alt xsz t :
  (forall n, In n (nodes t) -> snd n <> xsz) -> ties alt xsz t = O.
Proof.
  induction t as [|l IHl a sz r IHr]; intros H; [reflexivity|].
  cbn [ties].
  assert (Hl : forall n, In n (nodes l) -> snd n <> xsz).
  { intros n Hn. apply H. cbn [nodes]. right. apply in_or_app. auto. }
  assert (Hr : forall n, In n (nodes r) -> snd n <> xsz).
  { intros n Hn. apply H. cbn [nodes]. right. apply in_or_app. auto. }
  destruct (Z.ltb_spec xsz sz); [auto|].
  destruct (Z.gtb_spec xsz sz); [auto|].
  exfalso. apply (H (a, sz)); [left; reflexivity|cbn [snd]; lia].
Qed.

(** X15.  [add_chunk] flips [equals_alternator] once for every node of the
    same size that the new chunk passes on its way down, and not at all when
    no node has its size; it leaves [succ_pred_alternator] alone and clears
    the chunk's [in_use]. *)
Theorem add_chunk_flips_per_tie x xsz t par s fuel :
  header_pad s = 16 -> rep (mem s) t par -> good (x :: addrs t) ->
  load s (size_of x) = xsz -> (height t < fuel)%nat ->
  exists r s',
    add_chunk fuel (root_addr t) x par s = Some (r, s') /\
    equals_alternator s' =
      xorb (equals_alternator s)
           (Nat.odd (ties (equals_alternator s) xsz t)) /\
    ((forall n, In n (nodes t) -> snd n <> xsz) ->
     equals_alternator s' = equals_alternator s) /\
    succ_pred_alternator s' = succ_pred_alternator s /\
    load s' (in_use_of x) = 0.
Proof.
  intros Hp Hrep Hg Hx Hf. rewrite size_of_eq in Hx.
  pose proof (add_chunk_spec x xsz t par s fuel Hp Hrep Hg Hx Hf) as H.
  destruct (add_chunk fuel (root_addr t) x par s) as [[r s']|];
    [|contradiction].
  cbn [wp] in H. destruct H as (_ & _ & SP & EA & _ & Hu & _).
  cbn [fst snd] in SP, EA, Hu.
  exists r, s'. split; [reflexivity|]. split; [exact EA|].
  split; [|split; [exact SP|]].
  - intros Hno. rewrite EA, (ties_none _ _ _ Hno). cbn [Nat.odd].
    apply xorb_false_r.
  - rewrite in_use_addr; [exact Hu|].
    apply in_range_intro. apply (good_range _ _ Hg). left. reflexivity.
Qed.

Lemma add_chunk_flips_per_tie_witness :
  exists r s',
    add_chunk 10 4096 4272 NULL tie2 = Some (r, s') /\
    equals_alternator tie2 = false /\ equals_alternator s' = true.
Proof.
  destruct (add_chunk_flips_per_tie 4272 64 (T E 4096 0 (T E 4136 64 E))
              NULL tie2 10)
    as (r & s' & E1 & E2 & _).
  - vm_compute. reflexivity.
  - vm_compute. repeat split.
  - change (4272 :: addrs (T E 4096 0 (T E 4136 64 E)))
      with [4272; 4096; 4136].
    apply good_three; unfold apart, modulus; lia.
  - vm_compute. reflexivity.
  - vm_compute. lia.
  - exists r, s'. split; [exact E1|].
    replace (equals_alternator tie2) with false in E2 |- *
      by (vm_compute; reflexivity).
    split; [reflexivity|exact E2].
Defined.

(** ** The lines of the tree dump *)

Lemma printed_app f o1 o2 : printed f (o1 ++ o2) = printed f o1 ++ printed f o2.
Proof. unfold printed. apply flat_map_app. Qed.

Lemma lines_app f o1 o2 : lines f (o1 ++ o2) = (lines f o1 + lines f o2)%nat.
Proof. unfold lines. rewrite filter_app, length_app. reflexivity. Qed.

Lemma printed_spaces f n : printed f (repeat (Fprintf " "%string []) n) = [].
Proof.
  induction n as [|n IH]; [reflexivity|].
  cbn [repeat]. unfold printed in *. cbn [flat_map]. rewrite IH.
  destruct (String.eqb " "%string f); reflexivity.
Qed.

Lemma lines_spaces f n :
  String.eqb " "%string f = false ->
  lines f (repeat (Fprintf " "%string []) n) = O.
Proof.
  intros Hf. induction n as [|n IH]; [reflexivity|].
  cbn [repeat]. unfold lines in *. cbn [filter]. rewrite Hf. exact IH.
Qed.

(** A padded line, when the padding is defined. *)
Lemma padded_ok depth g args :
  0 <= depth -> depth * 4 <= INT_MAX ->
  exists l, padded depth g args = Some l /\
    (forall f, printed f l = if String.eqb g f then args else []) /\
    (forall f, String.eqb " "%string f = false ->
               lines f l = if String.eqb g f then 1%nat else O).
Proof.
  intros H0 H1. unfold padded, fprint_depth_padding.
  rewrite (proj2 (Z.leb_le INT_MIN (depth * 4))) by (unfold INT_MIN; lia).
  rewrite (proj2 (Z.leb_le (depth * 4) INT_MAX)) by exact H1.
  cbn [andb]. eexists. split; [reflexivity|]. split.
  - intros f. rewrite printed_app, printed_spaces. unfold printed.
    cbn [flat_map app]. destruct (String.eqb g f); [apply app_nil_r|reflexivity].
  - intros f Hf. rewrite lines_app, lines_spaces by exact Hf.
    unfold lines. cbn [filter]. destruct (String.eqb g f); reflexivity.
Qed.

Ltac eval_eqb :=
  repeat match goal with
         | |- context [String.eqb ?a ?b] =>
             let v := eval vm_compute in (String.eqb a b) in
             change (String.eqb a b) with v
         end; cbv iota.

(** X16.  On a tree laid out in memory, the dump of [fprint_tree]
    returns, prints one chunk line for every node, parents before children
    and left before right, with the node's size on its size line, and one
    line NULL for every missing child. *)
Theorem fprint_tree_lists_nodes t : forall par s fuel depth,
  header_pad s = 16 -> rep (mem s) t par -> good (addrs t) ->
  (height t < fuel)%nat ->
  0 <= depth -> (depth + Z.of_nat (height t)) * 4 <= INT_MAX ->
  exists out,
    fprint_tree fuel (root_addr t) depth s = Some out /\
    printed "(chunk: %p,\n"%string out = addrs t /\
    printed "chunk->size: %lu,\n"%string out = map snd (nodes t) /\
    lines "NULL\n"%string out = S (length (nodes t)).
Proof.
  induction t as [|l IHl a sz r IHr]; intros par s fuel depth Hp Hrep Hg Hf
    H0 H1.
  - destruct fuel as [|k]; [cbn [height] in Hf; lia|].
    cbn [height] in H1. cbn [root_addr fprint_tree].
    rewrite Z.eqb_refl.
    destruct (padded_ok depth "NULL\n"%string [] H0 ltac:(lia))
      as (l0 & E & Hpr & Hln).
    rewrite E. eexists. split; [reflexivity|].
    split; [|split].
    + change (printed "(chunk: %p,\n"%string (Fflush :: l0))
        with (printed "(chunk: %p,\n"%string l0).
      rewrite Hpr. reflexivity.
    + change (printed "chunk->size: %lu,\n"%string (Fflush :: l0))
        with (printed "chunk->size: %lu,\n"%string l0).
      rewrite Hpr. reflexivity.
    + change (lines "NULL\n"%string (Fflush :: l0))
        with (lines "NULL\n"%string l0).
      rewrite Hln by reflexivity. reflexivity.
  - destruct fuel as [|k]; [lia|].
    cbn [height] in Hf, H1.
    assert (Ha : in_range a).
    { apply in_range_intro. apply (good_range _ _ Hg).
      rewrite addrs_T. left. reflexivity. }
    destruct (in_range_bounds _ Ha) as [Ha0 Ha1].
    destruct Hrep as (Hsz & Hpar & Hl & Hr & Hrl & Hrr).
    destruct (good_T _ _ _ _ Hg) as (Hgl & Hgr & _).
    cbn [root_addr fprint_tree].
    rewrite (proj2 (Z.eqb_neq a NULL)) by (unfold NULL; lia).
    cbv zeta.
    rewrite (hn s _ Hp Ha), (left_hn _ Ha), (right_hn _ Ha), size_of_eq.
    unfold parent_of. rewrite Hsz, Hl, Hr.
    assert (Hd : depth * 4 <= INT_MAX) by lia.
    destruct (padded_ok depth "(chunk: %p,\n"%string [a] H0 Hd)
      as (l1 & E1 & P1 & L1). rewrite E1.
    destruct (padded_ok depth "chunk->size: %lu,\n"%string [sz] H0 Hd)
      as (l2 & E2 & P2 & L2). rewrite E2.
    destruct (padded_ok depth "chunk->in_use: %u,\n"%string
                [mem s (in_use_of a)] H0 Hd)
      as (l3 & E3 & P3 & L3). rewrite E3.
    destruct (padded_ok depth "chunk_node->parent: %p,\n"%string
                [mem s (a + 16)] H0 Hd)
      as (l4 & E4 & P4 & L4). rewrite E4.
    destruct (padded_ok depth "chunk_node->left:\n"%string [] H0 Hd)
      as (l5 & E5 & P5 & L5). rewrite E5.
    destruct (IHl a s k (depth + 1) Hp Hrl Hgl) as (ol & El & Pl1 & Pl2 & Ll);
      [lia|lia|lia|].
    rewrite El.
    destruct (padded_ok depth "chunk_node->right:\n"%string [] H0 Hd)
      as (l6 & E6 & P6 & L6). rewrite E6.
    destruct (IHr a s k (depth + 1) Hp Hrr Hgr) as (or & Er & Pr1 & Pr2 & Lr);
      [lia|lia|lia|].
    rewrite Er.
    destruct (padded_ok depth ")\n"%string [] H0 Hd)
      as (l7 & E7 & P7 & L7). rewrite E7.
    eexists. split; [reflexivity|].
    split; [|split].
    + change (printed ?f (Fflush :: ?o)) with (printed f o).
      rewrite !printed_app, P1, P2, P3, P4, P5, P6, P7, Pl1, Pr1.
      eval_eqb. rewrite addrs_T. cbn [app]. rewrite app_nil_r. reflexivity.
    + change (printed ?f (Fflush :: ?o)) with (printed f o).
      rewrite !printed_app, P1, P2, P3, P4, P5, P6, P7, Pl2, Pr2.
      eval_eqb. cbn [nodes map snd app]. rewrite map_app, app_nil_r.
      reflexivity.
    + change (lines ?f (Fflush :: ?o)) with (lines f o).
      rewrite !lines_app, L1, L2, L3, L4, L5, L6, L7, Ll, Lr by reflexivity.
      eval_eqb. cbn [nodes length]. rewrite length_app. lia.
Qed.

Lemma fprint_tree_lists_nodes_witness :
  exists out,
    fprint_tree 10 (root_addr demo6_tree) 0 demo6 = Some out /\
    printed "(chunk: %p,\n"%string out = addrs demo6_tree /\
    printed "chunk->size: %lu,\n"%string out = map snd (nodes demo6_tree) /\
    lines "NULL\n"%string out = S (length (nodes demo6_tree)).
Proof.
  apply (fprint_tree_lists_nodes demo6_tree NULL demo6 10 0).
  - vm_compute. reflexivity.
  - exact demo6_rep.
  - exact demo6_good.
  - vm_compute. lia.
  - lia.
  - vm_compute. discriminate.
Defined.

(** ** Set-up and the program break *)

(** X17.  The set-up of lines 90-104 runs once: before the first call all
    globals are zero; afterwards the three pads are 16, 8 and 24, the
    rounded sizes of the structs, and the set-up changes nothing any
    more. *)
Theorem globals_initialised_once brk0 limit s live :
  reachable brk0 limit s live ->
  (fake_root s = NULL /\ header_pad s = 0 /\ footer_pad s = 0 /\
   node_pad s = 0 /\ first_chunk s = NULL /\ guard_addr s = NULL /\
   live = []) \/
  (fake_root s = brk0 /\
   header_pad s = ceil_size sizeof_header sizeof_intptr /\
   footer_pad s = ceil_size sizeof_footer sizeof_intptr /\
   node_pad s = ceil_size sizeof_node sizeof_intptr /\
   header_pad s = 16 /\ footer_pad s = 8 /\ node_pad s = 24 /\
   tralloc_init s = s).
Proof.
  intros Hr.
  destruct (reachable_held _ _ _ _ Hr)
    as [(m0 & -> & -> & _)|(cs & t & ((Hinv & Efr & _) & _) & _)].
  - left. repeat split.
  - right. rewrite (hi_hp _ _ _ _ Hinv), (hi_fp _ _ _ _ Hinv),
      (hi_np _ _ _ _ Hinv).
    split; [exact Efr|].
    split; [reflexivity|]. split; [reflexivity|]. split; [reflexivity|].
    split; [reflexivity|]. split; [reflexivity|]. split; [reflexivity|].
    exact (tralloc_init_id _ _ _ _ Hinv).
Qed.


Lemma globals_initialised_once_witness :
  (fake_root ink0 = NULL /\ header_pad ink0 = 0 /\ footer_pad ink0 = 0 /\
   node_pad ink0 = 0 /\ first_chunk ink0 = NULL /\ guard_addr ink0 = NULL /\
   [(4392, 24); (4240, 24)] = []) \/
  (fake_root ink0 = 4096 /\
   header_pad ink0 = ceil_size sizeof_header sizeof_intptr /\
   footer_pad ink0 = ceil_size sizeof_footer sizeof_intptr /\
   node_pad ink0 = ceil_size sizeof_node sizeof_intptr /\
   header_pad ink0 = 16 /\ footer_pad ink0 = 8 /\ node_pad ink0 = 24 /\
   tralloc_init ink0 = ink0).
Proof.
  exact (globals_initialised_once 4096 1000000 ink0 _ ink0_reachable).
Defined.


(** ** The lines of the report *)










(** ** The [in_use] flags and the client *)



(** ** Rounding (lines 248-251) *)

(** X21.  For every positive [offset], [ceil_size] returns the least
    multiple of [offset] that is not below [input], as long as
    [input + offset] does not pass [2^64]; rounding twice changes nothing. *)
Theorem ceil_size_least_multiple input offset :
  0 < offset -> 0 <= input -> input + offset <= modulus ->
  ceil_size input offset mod offset = 0 /\
  input <= ceil_size input offset < input + offset /\
  (forall m, m mod offset = 0 -> input <= m -> ceil_size input offset <= m) /\
  ceil_size (ceil_size input offset) offset = ceil_size input offset.
Proof.
  intros Ho Hi Hm.
  pose proof (Z.mod_pos_bound input offset Ho) as Hr.
  pose proof (Z.div_mod input offset ltac:(lia)) as Hd.
  assert (Hc : ceil_size input offset mod offset = 0 /\
               input <= ceil_size input offset < input + offset /\
               forall m, m mod offset = 0 -> input <= m ->
                         ceil_size input offset <= m).
  { unfold ceil_size.
    destruct (Z.eqb_spec (input mod offset) 0) as [E|E]; cbn [negb].
    - split; [exact E|]. split; [lia|]. intros m _ H. exact H.
    - rewrite wrap_small by lia.
      replace (input - input mod offset + offset)
        with ((input / offset + 1) * offset) by lia.
      split; [apply Z.mod_mul; lia|]. split; [lia|].
      intros m Hmm Hle.
      pose proof (Z.div_mod m offset ltac:(lia)) as Hdm.
      rewrite Hmm in Hdm.
      assert (input / offset < m / offset) by nia.
      nia. }
  destruct Hc as (C1 & C2 & C3).
  split; [exact C1|]. split; [exact C2|]. split; [exact C3|].
  unfold ceil_size at 1. rewrite C1. reflexivity.
Qed.

Lemma ceil_size_least_multiple_witness :
  ceil_size 13 5 mod 5 = 0 /\
  13 <= ceil_size 13 5 < 13 + 5 /\
  (forall m, m mod 5 = 0 -> 13 <= m -> ceil_size 13 5 <= m) /\
  ceil_size (ceil_size 13 5) 5 = ceil_size 13 5.
Proof.
  apply (ceil_size_least_multiple 13 5); unfold modulus; lia.
Defined.
